(** * GPU compute simulator: a shallow embedding of the scheduling and
    execution engine, and the properties of its specification.

    Layout of the development:
    - [Types]        : types.h (integer widths, constants, enumerations)
    - [Memory]       : memory.h / memory.cpp (global memory, controller)
    - [Thread], [Warp], [ThreadBlock] : warp.h / warp.cpp
    - [Workload]     : workload.h / workload.cpp
    - [Scheduler]    : scheduler.h / scheduler.cpp
    - [ComputeUnit]  : compute_unit.h / compute_unit.cpp
    - [Metrics]      : metrics.h / metrics.cpp
    - [GlobalMemory], [SharedMemory], [RegisterFile] : the rest of memory.cpp
    - [Blocks], [ComputeUnitRun], [WarpQueue] : the calls on blocks, on a
      compute unit and on its warp scheduler, as sequences
    - [Distributor], [GPUDevice] : gpu_device.h / gpu_device.cpp
    - [Analyzer], [SchedulerComparison] : the rest of metrics.cpp
    followed by the lemmas and theorems about them.

    Conventions.  A [size_t] or [uint64_t] is a [Z] in [0, 2^64) and every
    arithmetic operation of the source is followed by [wrap64]; a [uint32_t]
    (the id types) is a [Z] reduced by [wrap32].  An owning pointer
    ([unique_ptr]) is the owned value; a non-owning or shared pointer is an
    address into an explicit store. *)

From Stdlib Require Import ZArith List Bool Lia String.
From Stdlib Require Import Floats.SpecFloat.
From Stdlib Require OrderedTypeEx.
From stdpp Require Import base option list list_numbers gmap strings pretty.
From Stdlib Require Reals Lra.

Open Scope Z_scope.

(* ===================================================================== *)
(** ** types.h *)
(* ===================================================================== *)

Module Types.

Definition wrap64 (x : Z) : Z := x mod 2 ^ 64.
Definition wrap32 (x : Z) : Z := x mod 2 ^ 32.

(** The values a [size_t] / [uint64_t] variable can hold. *)
Definition is_size_t (x : Z) : Prop := 0 <= x < 2 ^ 64.

Definition WARP_SIZE : Z := 32.
Definition MAX_THREADS_PER_BLOCK : Z := 1024.
Definition MAX_BLOCKS_PER_GRID : Z := 65535.
Definition GLOBAL_MEMORY_SIZE : Z := 8 * 1024 * 1024 * 1024.
Definition SHARED_MEMORY_PER_BLOCK : Z := 48 * 1024.
Definition REGISTERS_PER_THREAD : Z := 255.

Inductive WorkloadType :=
| MATRIX_MULTIPLY | CONVOLUTION | VECTOR_ADD | REDUCTION | CUSTOM.

Inductive SchedulingAlgorithm :=
| FIFO | PRIORITY | ROUND_ROBIN | SHORTEST_JOB_FIRST.

Inductive ExecutionState :=
| IDLE | READY | RUNNING | MEMORY_STALLED | COMPLETED.

Definition ExecutionState_eqb (a b : ExecutionState) : bool :=
  match a, b with
  | IDLE, IDLE | READY, READY | RUNNING, RUNNING
  | MEMORY_STALLED, MEMORY_STALLED | COMPLETED, COMPLETED => true
  | _, _ => false
  end.

(** [for (size_t i = 0; i < n; ++i)]: the values the loop variable takes. *)
Definition loop_range (n : Z) : list Z := seqZ 0 n.

(** The ceiling of [a / b] over the integers, for [b > 0]. *)
Definition ceil_div (a b : Z) : Z := - ((- a) / b).

End Types.
Import Types.

(** A [double] is an IEEE 754 binary64 value; the operations are those of
    the standard, rounding to nearest. *)
Module Double.

Definition t := spec_float.
Definition prec : Z := 53.
Definition emax : Z := 1024.

Definition zero : t := S754_zero false.

(** The conversion of an integer to [double]. *)
Definition of_integer (n : Z) : t := binary_normalize prec emax n 0 false.

(** The conversion of a [double] to an integer type drops the fraction;
    the standard defines it when the result fits the type. *)
Definition truncate (x : t) : Z :=
  match x with
  | S754_finite s m e =>
      let magnitude := if 0 <=? e then Zpos m * 2 ^ e else Zpos m / 2 ^ (- e) in
      if s then - magnitude else magnitude
  | _ => 0
  end.

Definition to_size_t (x : t) : Z := wrap64 (truncate x).

Definition add (x y : t) : t := SFadd prec emax x y.
Definition mul (x y : t) : t := SFmul prec emax x y.
Definition div (x y : t) : t := SFdiv prec emax x y.
Definition ltb (x y : t) : bool := SFltb x y.
Definition leb (x y : t) : bool := SFleb x y.

Import Reals.

(** The real number a [double] stands for; 0 for the infinities and for
    NaN. *)
Definition to_R (x : t) : R :=
  match x with
  | S754_finite s m e =>
      let magnitude :=
        if 0 <=? e then IZR (Zpos m * 2 ^ e)
        else (IZR (Zpos m) / IZR (2 ^ (- e)))%R in
      if s then (- magnitude)%R else magnitude
  | _ => 0%R
  end.

(** [std::log2] is the C library's and not part of the repository.  What
    is asked of it, on the doubles a [size_t] converts to (those from 1 to
    [2^64]): it returns the exponent on a power of two, it is monotone,
    and it is never above the exact logarithm by more than [2^-47], which
    is one unit in the last place of a result between 32 and 64.  A
    correctly rounded [log2] has the three properties. *)
Record log2_conforms (log2 : t -> t) : Prop := {
  log2_exact : forall k : Z,
    0 <= k <= 64 -> log2 (of_integer (2 ^ k)) = of_integer k;
  log2_monotone : forall x y : t,
    (1 <= to_R x)%R -> (to_R x <= to_R y)%R -> (to_R y <= IZR (2 ^ 64))%R ->
    (to_R (log2 x) <= to_R (log2 y))%R;
  log2_accurate : forall x : t,
    (1 <= to_R x)%R -> (to_R x <= IZR (2 ^ 64))%R ->
    (to_R (log2 x) <= ln (to_R x) / ln 2 + / IZR (2 ^ 47))%R
}.

(** Two functions that conform, for the instances of the statements: the
    integer logarithm of the integer part, and the same but for the
    doubles of integer part [2^49 - 1], where it returns [49.0] as
    rounding to nearest gives (the exact logarithm is within [2^-48] of
    49). *)
Definition integer_log2 (x : t) : t := of_integer (Z.log2 (truncate x)).

Definition rounded_log2 (x : t) : t :=
  if truncate x =? 2 ^ 49 - 1 then of_integer 49 else integer_log2 x.

End Double.

(* ===================================================================== *)
(** ** memory.h, memory.cpp *)
(* ===================================================================== *)

Module Memory.

(** [GlobalMemory] with the fields of its base class [Memory].  The byte
    buffer [data_] is kept: [read] and [write] never touch it. *)
Record GlobalMemory := mkGlobalMemory {
  size_ : Z;
  latency_cycles_ : Z;
  access_count_ : Z;
  data_ : list Z;
  read_count_ : Z;
  write_count_ : Z;
  bytes_read_ : Z;
  bytes_written_ : Z
}.

Definition GlobalMemory_new (size : Z) : GlobalMemory :=
  {| size_ := size; latency_cycles_ := 400; access_count_ := 0;
     data_ := repeat 0 (Z.to_nat size);
     read_count_ := 0; write_count_ := 0;
     bytes_read_ := 0; bytes_written_ := 0 |}.

Definition getLatency (m : GlobalMemory) : Z := latency_cycles_ m.

(** [bool GlobalMemory::read(MemoryAddress address, size_t bytes)]:
    the returned flag and the memory after the call. *)
Definition read (m : GlobalMemory) (address bytes : Z) : bool * GlobalMemory :=
  if wrap64 (address + bytes) >? size_ m then (false, m)
  else (true,
        {| size_ := size_ m; latency_cycles_ := latency_cycles_ m;
           access_count_ := wrap64 (access_count_ m + 1);
           data_ := data_ m;
           read_count_ := wrap64 (read_count_ m + 1);
           write_count_ := write_count_ m;
           bytes_read_ := wrap64 (bytes_read_ m + bytes);
           bytes_written_ := bytes_written_ m |}).

Definition write (m : GlobalMemory) (address bytes : Z) : bool * GlobalMemory :=
  if wrap64 (address + bytes) >? size_ m then (false, m)
  else (true,
        {| size_ := size_ m; latency_cycles_ := latency_cycles_ m;
           access_count_ := wrap64 (access_count_ m + 1);
           data_ := data_ m;
           read_count_ := read_count_ m;
           write_count_ := wrap64 (write_count_ m + 1);
           bytes_read_ := bytes_read_ m;
           bytes_written_ := wrap64 (bytes_written_ m + bytes) |}).

(** [SharedMemory]: one per thread block. *)
Record SharedMemory := mkSharedMemory {
  sh_size_ : Z;
  sh_latency_cycles_ : Z;
  sh_access_count_ : Z;
  sh_data_ : list Z;
  owner_block_ : Z
}.

Definition SharedMemory_new (size : Z) : SharedMemory :=
  {| sh_size_ := size; sh_latency_cycles_ := 4; sh_access_count_ := 0;
     sh_data_ := repeat 0 (Z.to_nat size); owner_block_ := 0 |}.

Definition SharedMemory_setOwner (bid : Z) (m : SharedMemory) : SharedMemory :=
  {| sh_size_ := sh_size_ m; sh_latency_cycles_ := sh_latency_cycles_ m;
     sh_access_count_ := sh_access_count_ m; sh_data_ := sh_data_ m;
     owner_block_ := bid |}.

Record RegisterFile := mkRegisterFile {
  registers_ : list Z;
  owner_thread_ : Z;
  num_registers_ : Z
}.

Definition RegisterFile_new (num_regs : Z) : RegisterFile :=
  {| registers_ := repeat 0 (Z.to_nat num_regs);
     owner_thread_ := 0; num_registers_ := num_regs |}.

Definition RegisterFile_setOwner (tid : Z) (r : RegisterFile) : RegisterFile :=
  {| registers_ := registers_ r; owner_thread_ := tid;
     num_registers_ := num_registers_ r |}.

(** [MemoryController]: it owns the global memory handle it publishes. *)
Record MemoryController := mkMemoryController {
  global_memory_ : GlobalMemory;
  total_memory_ops_ : Z;
  cache_hits_ : Z;
  cache_misses_ : Z
}.

Definition MemoryController_new : MemoryController :=
  {| global_memory_ := GlobalMemory_new GLOBAL_MEMORY_SIZE;
     total_memory_ops_ := 0; cache_hits_ := 0; cache_misses_ := 0 |}.

Definition getGlobalMemory (c : MemoryController) : GlobalMemory :=
  global_memory_ c.

Definition recordMemoryOp (c : MemoryController) : MemoryController :=
  {| global_memory_ := global_memory_ c;
     total_memory_ops_ := wrap64 (total_memory_ops_ c + 1);
     cache_hits_ := cache_hits_ c; cache_misses_ := cache_misses_ c |}.

Definition getTotalMemoryOps (c : MemoryController) : Z := total_memory_ops_ c.

End Memory.

(* ===================================================================== *)
(** ** warp.h, warp.cpp *)
(* ===================================================================== *)

Module Thread.

Record t := mk {
  thread_id_ : Z;
  warp_id_ : Z;
  block_id_ : Z;
  state_ : ExecutionState;
  registers_ : Memory.RegisterFile
}.

(** [Thread::Thread(ThreadID tid, WarpID wid, BlockID bid)]; the three
    identifiers are 32-bit parameters. *)
Definition new (tid wid bid : Z) : t :=
  {| thread_id_ := wrap32 tid; warp_id_ := wrap32 wid; block_id_ := wrap32 bid;
     state_ := READY;
     registers_ := Memory.RegisterFile_setOwner (wrap32 tid)
                     (Memory.RegisterFile_new REGISTERS_PER_THREAD) |}.

End Thread.

Module Warp.

Record t := mk {
  warp_id_ : Z;
  block_id_ : Z;
  threads_ : list Thread.t;
  state_ : ExecutionState;
  program_counter_ : Z;
  active_mask_ : Z;
  instructions_executed_ : Z;
  cycles_stalled_ : Z
}.

(** [Warp::Warp(WarpID wid, BlockID bid, size_t num_threads)].  The thread
    id [bid * MAX_THREADS_PER_BLOCK + wid * WARP_SIZE + i] is computed in
    [size_t] and narrowed to the 32-bit [ThreadID].  The shift of
    [(1ULL << num_threads) - 1] is defined below 64 threads only; from 64
    on the model takes the count modulo 64, as the 64-bit shift
    instruction does, which leaves the mask 0 for a warp of 64 threads. *)
Definition new (wid bid num_threads : Z) : t :=
  let wid := wrap32 wid in
  let bid := wrap32 bid in
  {| warp_id_ := wid; block_id_ := bid;
     threads_ :=
       map (fun i =>
              Thread.new
                (wrap64 (wrap64 (wrap64 (bid * MAX_THREADS_PER_BLOCK)
                                 + wrap64 (wid * WARP_SIZE)) + i))
                wid bid)
           (loop_range num_threads);
     state_ := READY;
     program_counter_ := 0;
     active_mask_ := wrap64 (wrap64 (Z.shiftl 1 (num_threads mod 64)) - 1);
     instructions_executed_ := 0;
     cycles_stalled_ := 0 |}.

Definition getState (w : t) : ExecutionState := state_ w.
Definition getNumThreads (w : t) : Z := Z.of_nat (length (threads_ w)).
Definition getActiveMask (w : t) : Z := active_mask_ w.
Definition getProgramCounter (w : t) : Z := program_counter_ w.
Definition getInstructionsExecuted (w : t) : Z := instructions_executed_ w.
Definition getCyclesStalled (w : t) : Z := cycles_stalled_ w.

Definition setState (s : ExecutionState) (w : t) : t :=
  {| warp_id_ := warp_id_ w; block_id_ := block_id_ w; threads_ := threads_ w;
     state_ := s; program_counter_ := program_counter_ w;
     active_mask_ := active_mask_ w;
     instructions_executed_ := instructions_executed_ w;
     cycles_stalled_ := cycles_stalled_ w |}.

Definition incrementPC (w : t) : t :=
  {| warp_id_ := warp_id_ w; block_id_ := block_id_ w; threads_ := threads_ w;
     state_ := state_ w; program_counter_ := wrap64 (program_counter_ w + 1);
     active_mask_ := active_mask_ w;
     instructions_executed_ := instructions_executed_ w;
     cycles_stalled_ := cycles_stalled_ w |}.

Definition recordInstruction (w : t) : t :=
  {| warp_id_ := warp_id_ w; block_id_ := block_id_ w; threads_ := threads_ w;
     state_ := state_ w; program_counter_ := program_counter_ w;
     active_mask_ := active_mask_ w;
     instructions_executed_ := wrap64 (instructions_executed_ w + 1);
     cycles_stalled_ := cycles_stalled_ w |}.

Definition recordStall (w : t) : t :=
  {| warp_id_ := warp_id_ w; block_id_ := block_id_ w; threads_ := threads_ w;
     state_ := state_ w; program_counter_ := program_counter_ w;
     active_mask_ := active_mask_ w;
     instructions_executed_ := instructions_executed_ w;
     cycles_stalled_ := wrap64 (cycles_stalled_ w + 1) |}.

End Warp.

Module ThreadBlock.

(** A thread block.  [W] is how the block refers to its warps: the warp
    itself where the block is looked at as the owner of its warps (workload
    materialisation), an address where other parts of the simulator hold
    [Warp*] into the block (the compute unit and its ready queue). *)
Record t (W : Type) := mk {
  block_id_ : Z;
  warps_ : list W;
  shared_memory_ : Memory.SharedMemory;
  state_ : ExecutionState;
  grid_x_ : Z;
  grid_y_ : Z;
  grid_z_ : Z;
  completed_ : bool
}.
Arguments mk {W}.
Arguments block_id_ {W}.
Arguments warps_ {W}.
Arguments shared_memory_ {W}.
Arguments state_ {W}.
Arguments grid_x_ {W}.
Arguments grid_y_ {W}.
Arguments grid_z_ {W}.
Arguments completed_ {W}.

(** [ThreadBlock::ThreadBlock(BlockID bid, size_t num_threads)]. *)
Definition new (bid num_threads : Z) : t Warp.t :=
  let bid := wrap32 bid in
  let num_warps := wrap64 (wrap64 (num_threads + WARP_SIZE) - 1) / WARP_SIZE in
  {| block_id_ := bid;
     warps_ :=
       map (fun i =>
              let threads_in_warp :=
                Z.min WARP_SIZE (wrap64 (num_threads - wrap64 (i * WARP_SIZE))) in
              Warp.new i bid threads_in_warp)
           (loop_range num_warps);
     shared_memory_ :=
       Memory.SharedMemory_setOwner bid
         (Memory.SharedMemory_new SHARED_MEMORY_PER_BLOCK);
     state_ := READY;
     grid_x_ := 0; grid_y_ := 0; grid_z_ := 0;
     completed_ := false |}.

Definition getBlockID {W} (b : t W) : Z := block_id_ b.
Definition getNumWarps {W} (b : t W) : Z := Z.of_nat (length (warps_ b)).

(** The number of threads the warps of a block hold together. *)
Definition thread_count (b : t Warp.t) : Z :=
  foldr Z.add 0 (map Warp.getNumThreads (warps_ b)).
Definition getWarps {W} (b : t W) : list W := warps_ b.
Definition isCompleted {W} (b : t W) : bool := completed_ b.

Definition setGridPosition {W} (x y z : Z) (b : t W) : t W :=
  {| block_id_ := block_id_ b; warps_ := warps_ b;
     shared_memory_ := shared_memory_ b; state_ := state_ b;
     grid_x_ := x; grid_y_ := y; grid_z_ := z;
     completed_ := completed_ b |}.

Definition markCompleted {W} (b : t W) : t W :=
  {| block_id_ := block_id_ b; warps_ := warps_ b;
     shared_memory_ := shared_memory_ b; state_ := state_ b;
     grid_x_ := grid_x_ b; grid_y_ := grid_y_ b; grid_z_ := grid_z_ b;
     completed_ := true |}.

End ThreadBlock.

(* ===================================================================== *)
(** ** workload.h, workload.cpp *)
(* ===================================================================== *)

Module KernelConfig.

Record t := mk {
  grid_dim_x : Z;
  grid_dim_y : Z;
  grid_dim_z : Z;
  block_dim_x : Z;
  block_dim_y : Z;
  block_dim_z : Z
}.

Definition getTotalBlocks (c : t) : Z :=
  wrap64 (wrap64 (grid_dim_x c * grid_dim_y c) * grid_dim_z c).

Definition getThreadsPerBlock (c : t) : Z :=
  wrap64 (wrap64 (block_dim_x c * block_dim_y c) * block_dim_z c).

Definition getTotalThreads (c : t) : Z :=
  wrap64 (getTotalBlocks c * getThreadsPerBlock c).

End KernelConfig.

Module Workload.

Record t := mk {
  name_ : string;
  type_ : WorkloadType;
  config_ : KernelConfig.t;
  priority_ : Z;
  estimated_instructions_ : Z;
  estimated_memory_ops_ : Z;
  start_time_ : Z;
  end_time_ : Z;
  completed_ : bool;
  thread_blocks_ : list (ThreadBlock.t Warp.t)
}.

(** [Workload::Workload(name, type, config)]; the two time points are
    default-constructed (the clock's epoch). *)
Definition new (name : string) (type : WorkloadType) (config : KernelConfig.t) : t :=
  {| name_ := name; type_ := type; config_ := config; priority_ := 0;
     estimated_instructions_ := 0; estimated_memory_ops_ := 0;
     start_time_ := 0; end_time_ := 0;
     completed_ := false; thread_blocks_ := [] |}.

Definition getPriority (w : t) : Z := priority_ w.
Definition getEstimatedInstructions (w : t) : Z := estimated_instructions_ w.
Definition getEstimatedMemoryOps (w : t) : Z := estimated_memory_ops_ w.
Definition getConfig (w : t) : KernelConfig.t := config_ w.
Definition getRemainingBlocks (w : t) : Z := Z.of_nat (length (thread_blocks_ w)).

Definition setPriority (p : Z) (w : t) : t :=
  {| name_ := name_ w; type_ := type_ w; config_ := config_ w; priority_ := p;
     estimated_instructions_ := estimated_instructions_ w;
     estimated_memory_ops_ := estimated_memory_ops_ w;
     start_time_ := start_time_ w; end_time_ := end_time_ w;
     completed_ := completed_ w; thread_blocks_ := thread_blocks_ w |}.

Definition setEstimatedInstructions (n : Z) (w : t) : t :=
  {| name_ := name_ w; type_ := type_ w; config_ := config_ w;
     priority_ := priority_ w;
     estimated_instructions_ := n;
     estimated_memory_ops_ := estimated_memory_ops_ w;
     start_time_ := start_time_ w; end_time_ := end_time_ w;
     completed_ := completed_ w; thread_blocks_ := thread_blocks_ w |}.

Definition setEstimatedMemoryOps (n : Z) (w : t) : t :=
  {| name_ := name_ w; type_ := type_ w; config_ := config_ w;
     priority_ := priority_ w;
     estimated_instructions_ := estimated_instructions_ w;
     estimated_memory_ops_ := n;
     start_time_ := start_time_ w; end_time_ := end_time_ w;
     completed_ := completed_ w; thread_blocks_ := thread_blocks_ w |}.

Definition set_thread_blocks (bs : list (ThreadBlock.t Warp.t)) (w : t) : t :=
  {| name_ := name_ w; type_ := type_ w; config_ := config_ w;
     priority_ := priority_ w;
     estimated_instructions_ := estimated_instructions_ w;
     estimated_memory_ops_ := estimated_memory_ops_ w;
     start_time_ := start_time_ w; end_time_ := end_time_ w;
     completed_ := completed_ w; thread_blocks_ := bs |}.

(** The body of the loop of [generateThreadBlocks] for loop variable [i]:
    the block it pushes. *)
Definition generate_block (config : KernelConfig.t) (i : Z) : ThreadBlock.t Warp.t :=
  let threads_per_block := KernelConfig.getThreadsPerBlock config in
  let block := ThreadBlock.new i threads_per_block in
  let grid_xy :=
    wrap64 (KernelConfig.grid_dim_x config * KernelConfig.grid_dim_y config) in
  let z := i / grid_xy in
  let remaining := i mod grid_xy in
  let y := remaining / KernelConfig.grid_dim_x config in
  let x := remaining mod KernelConfig.grid_dim_x config in
  ThreadBlock.setGridPosition x y z block.

(** [void Workload::generateThreadBlocks()]: [clear()], then one
    [push_back] per value of the loop variable. *)
Definition generateThreadBlocks (w : t) : t :=
  let cleared := set_thread_blocks [] w in
  let total_blocks := KernelConfig.getTotalBlocks (config_ cleared) in
  fold_left
    (fun acc i =>
       set_thread_blocks
         (thread_blocks_ acc ++ [generate_block (config_ acc) i]) acc)
    (loop_range total_blocks) cleared.

(** [std::unique_ptr<ThreadBlock> Workload::getNextBlock()]: [None] is the
    null pointer. *)
Definition getNextBlock (w : t) : option (ThreadBlock.t Warp.t) * t :=
  match last (thread_blocks_ w) with
  | None => (None, w)
  | Some block => (Some block, set_thread_blocks (removelast (thread_blocks_ w)) w)
  end.

Definition hasMoreBlocks (w : t) : bool :=
  negb (match thread_blocks_ w with [] => true | _ => false end).

(** [n] successive calls of [getNextBlock]: the pointers returned, in
    order, and the workload after the last call. *)
Fixpoint drain (n : nat) (w : t) : list (option (ThreadBlock.t Warp.t)) * t :=
  match n with
  | O => ([], w)
  | S n' =>
      let '(block, w') := getNextBlock w in
      let '(blocks, w'') := drain n' w' in
      (block :: blocks, w'')
  end.

(** [start] and [complete] read the clock; [now] is the value read. *)
Definition start (now : Z) (w : t) : t :=
  {| name_ := name_ w; type_ := type_ w; config_ := config_ w;
     priority_ := priority_ w;
     estimated_instructions_ := estimated_instructions_ w;
     estimated_memory_ops_ := estimated_memory_ops_ w;
     start_time_ := now; end_time_ := end_time_ w;
     completed_ := completed_ w; thread_blocks_ := thread_blocks_ w |}.

Definition complete (now : Z) (w : t) : t :=
  {| name_ := name_ w; type_ := type_ w; config_ := config_ w;
     priority_ := priority_ w;
     estimated_instructions_ := estimated_instructions_ w;
     estimated_memory_ops_ := estimated_memory_ops_ w;
     start_time_ := start_time_ w; end_time_ := now;
     completed_ := true; thread_blocks_ := thread_blocks_ w |}.

Section Clock.

(** The number of ticks of [high_resolution_clock] in a microsecond: the
    period of the clock is the implementation's. *)
Variable ticks_per_microsecond : Z.

(** [double Workload::getExecutionTime() const]: the duration cast to
    whole microseconds, divided by [1000.0]. *)
Definition getExecutionTime (w : t) : Double.t :=
  if negb (completed_ w) then Double.zero
  else
    let duration := Z.quot (end_time_ w - start_time_ w) ticks_per_microsecond in
    Double.div (Double.of_integer duration) (Double.of_integer 1000).

End Clock.

(** [std::to_string] of a [size_t]. *)
Definition to_string (n : Z) : string := pretty n.

Definition createMatrixMultiply (M N K : Z) : t :=
  let grid_x := wrap64 (M + 15) / 16 in
  let grid_y := wrap64 (N + 15) / 16 in
  let config := KernelConfig.mk grid_x grid_y 1 16 16 1 in
  let workload :=
    new ("MatrixMultiply_" +:+ to_string M +:+ "x" +:+ to_string N
           +:+ "x" +:+ to_string K)
        MATRIX_MULTIPLY config in
  let workload :=
    setEstimatedInstructions
      (wrap64 (wrap64 (wrap64 (M * N) * K) * 2)) workload in
  setEstimatedMemoryOps (wrap64 (wrap64 (M * N) * wrap64 (K + 2))) workload.

Definition createConvolution (batch channels height width : Z) : t :=
  let total_outputs :=
    wrap64 (wrap64 (wrap64 (batch * channels) * height) * width) in
  let threads_per_block := 256 in
  let num_blocks :=
    wrap64 (wrap64 (total_outputs + threads_per_block) - 1) / threads_per_block in
  let config := KernelConfig.mk num_blocks 1 1 threads_per_block 1 1 in
  let workload :=
    new ("Convolution_" +:+ to_string batch +:+ "x" +:+ to_string channels
           +:+ "x" +:+ to_string height +:+ "x" +:+ to_string width)
        CONVOLUTION config in
  let workload :=
    setEstimatedInstructions (wrap64 (wrap64 (total_outputs * 9) * 2)) workload in
  setEstimatedMemoryOps (wrap64 (total_outputs * 10)) workload.

Definition createVectorAdd (size : Z) : t :=
  let threads_per_block := 256 in
  let num_blocks :=
    wrap64 (wrap64 (size + threads_per_block) - 1) / threads_per_block in
  let config := KernelConfig.mk num_blocks 1 1 threads_per_block 1 1 in
  let workload := new ("VectorAdd_" +:+ to_string size) VECTOR_ADD config in
  let workload := setEstimatedInstructions (wrap64 (size * 2)) workload in
  setEstimatedMemoryOps (wrap64 (size * 3)) workload.

Section Reduction.

(** [std::log2] on [double], the C library's: it is not part of the
    repository and is a parameter of the model. *)
Variable log2 : Double.t -> Double.t.

(** In [static_cast<size_t>(std::log2(size))] the argument is converted
    to [double] and the result truncated to [size_t]. *)
Definition createReduction (size : Z) : t :=
  let threads_per_block := 256 in
  let num_blocks :=
    wrap64 (wrap64 (size + threads_per_block) - 1) / threads_per_block in
  let config := KernelConfig.mk num_blocks 1 1 threads_per_block 1 1 in
  let workload := new ("Reduction_" +:+ to_string size) REDUCTION config in
  let steps := Double.to_size_t (log2 (Double.of_integer size)) in
  let workload := setEstimatedInstructions (wrap64 (size * steps)) workload in
  setEstimatedMemoryOps (wrap64 (size * 2)) workload.

End Reduction.

End Workload.

(* ===================================================================== *)
(** ** <algorithm>: the three standard algorithms the simulator calls *)
(* ===================================================================== *)

Module Std.

Section Algorithms.
Context {A : Type}.

(** The loop of [std::max_element]: [result] is the position and value of
    the current candidate, [first] the position being visited; the
    candidate is replaced when [comp] holds of the candidate and the
    visited element, in this order. *)
Fixpoint max_element_loop (comp : A -> A -> bool) (result : nat * A)
         (first : nat) (rest : list A) : nat * A :=
  match rest with
  | [] => result
  | x :: rest' =>
      max_element_loop comp
        (if comp (snd result) x then (first, x) else result)
        (S first) rest'
  end.

(** [std::max_element(begin, end, comp)]: position and value of the
    selected element, [None] for the end iterator of an empty range. *)
Definition max_element (comp : A -> A -> bool) (l : list A) : option (nat * A) :=
  match l with
  | [] => None
  | x :: rest => Some (max_element_loop comp (0%nat, x) 1%nat rest)
  end.

(** The loop of [std::min_element]: the candidate is replaced when
    [comp] holds of the visited element and the candidate, in this order. *)
Fixpoint min_element_loop (comp : A -> A -> bool) (result : nat * A)
         (first : nat) (rest : list A) : nat * A :=
  match rest with
  | [] => result
  | x :: rest' =>
      min_element_loop comp
        (if comp x (snd result) then (first, x) else result)
        (S first) rest'
  end.

Definition min_element (comp : A -> A -> bool) (l : list A) : option (nat * A) :=
  match l with
  | [] => None
  | x :: rest => Some (min_element_loop comp (0%nat, x) 1%nat rest)
  end.

(** [std::find(begin, end, value)]: position of the first element equal
    to [value], [None] for the end iterator. *)
Definition find `{EqDecision A} (value : A) (l : list A) : option nat :=
  fst <$> list_find (fun x => x = value) l.

(** [vector::erase(begin + i)]. *)
Definition erase (i : nat) (l : list A) : list A := delete i l.

End Algorithms.

End Std.

(* ===================================================================== *)
(** ** scheduler.h, scheduler.cpp *)
(* ===================================================================== *)

Module Scheduler.

(** A [std::shared_ptr<Workload>] is the address of the workload it
    shares; the buckets of the scheduler hold such addresses, and two
    entries are the same kernel when the addresses are equal.  The device
    drops null pointers before they reach the scheduler
    ([GPUDevice::submitWorkload]), so an address always designates a live
    workload: [Store] gives the object at each address. *)
Definition WorkloadPtr := nat.
Definition Store := WorkloadPtr -> Workload.t.

(** The base class [Scheduler] with the field that [RoundRobinScheduler]
    adds; [algorithm_] is the dynamic type of the object. *)
Record t := mk {
  algorithm_ : SchedulingAlgorithm;
  pending_workloads_ : list WorkloadPtr;
  running_workloads_ : list WorkloadPtr;
  completed_workloads_ : list WorkloadPtr;
  current_index_ : Z
}.

(** [SchedulerFactory::createScheduler]; the constructor of
    [RoundRobinScheduler] sets [current_index_(0)]. *)
Definition createScheduler (algorithm : SchedulingAlgorithm) : t :=
  {| algorithm_ := algorithm;
     pending_workloads_ := []; running_workloads_ := [];
     completed_workloads_ := []; current_index_ := 0 |}.

Definition getPendingCount (s : t) : Z := Z.of_nat (length (pending_workloads_ s)).
Definition getRunningCount (s : t) : Z := Z.of_nat (length (running_workloads_ s)).
Definition getCompletedCount (s : t) : Z := Z.of_nat (length (completed_workloads_ s)).

Definition hasPendingWorkloads (s : t) : bool :=
  negb (match pending_workloads_ s with [] => true | _ => false end).

Definition addWorkload (workload : WorkloadPtr) (s : t) : t :=
  {| algorithm_ := algorithm_ s;
     pending_workloads_ := pending_workloads_ s ++ [workload];
     running_workloads_ := running_workloads_ s;
     completed_workloads_ := completed_workloads_ s;
     current_index_ := current_index_ s |}.

Definition markWorkloadRunning (workload : WorkloadPtr) (s : t) : t :=
  match Std.find workload (pending_workloads_ s) with
  | Some it =>
      {| algorithm_ := algorithm_ s;
         pending_workloads_ := Std.erase it (pending_workloads_ s);
         running_workloads_ := running_workloads_ s ++ [workload];
         completed_workloads_ := completed_workloads_ s;
         current_index_ := current_index_ s |}
  | None => s
  end.

Definition markWorkloadCompleted (workload : WorkloadPtr) (s : t) : t :=
  match Std.find workload (running_workloads_ s) with
  | Some it =>
      {| algorithm_ := algorithm_ s;
         pending_workloads_ := pending_workloads_ s;
         running_workloads_ := Std.erase it (running_workloads_ s);
         completed_workloads_ := completed_workloads_ s ++ [workload];
         current_index_ := current_index_ s |}
  | None => s
  end.

(** The common tail of the four [getNextWorkload]: erase position [it] of
    the pending bucket and push the workload on the running bucket. *)
Definition dispatch (it : nat) (workload : WorkloadPtr) (index : Z) (s : t) : t :=
  {| algorithm_ := algorithm_ s;
     pending_workloads_ := Std.erase it (pending_workloads_ s);
     running_workloads_ := running_workloads_ s ++ [workload];
     completed_workloads_ := completed_workloads_ s;
     current_index_ := index |}.

Definition FIFO_getNextWorkload (s : t) : option WorkloadPtr * t :=
  match pending_workloads_ s with
  | [] => (None, s)
  | workload :: _ => (Some workload, dispatch 0 workload (current_index_ s) s)
  end.

Definition Priority_getNextWorkload (heap : Store) (s : t) : option WorkloadPtr * t :=
  match Std.max_element
          (fun a b => Workload.getPriority (heap a) <? Workload.getPriority (heap b))
          (pending_workloads_ s) with
  | None => (None, s)
  | Some (it, workload) => (Some workload, dispatch it workload (current_index_ s) s)
  end.

(** [current_index_ = current_index_ % pending_workloads_.size()] is the
    only assignment to the cursor. *)
Definition RoundRobin_getNextWorkload (s : t) : option WorkloadPtr * t :=
  match pending_workloads_ s with
  | [] => (None, s)
  | _ :: _ =>
      let index := current_index_ s mod Z.of_nat (length (pending_workloads_ s)) in
      match pending_workloads_ s !! Z.to_nat index with
      | Some workload => (Some workload, dispatch (Z.to_nat index) workload index s)
      | None => (None, s)
      end
  end.

Definition ShortestJobFirst_getNextWorkload (heap : Store) (s : t)
  : option WorkloadPtr * t :=
  match Std.min_element
          (fun a b => Workload.getEstimatedInstructions (heap a)
                      <? Workload.getEstimatedInstructions (heap b))
          (pending_workloads_ s) with
  | None => (None, s)
  | Some (it, workload) => (Some workload, dispatch it workload (current_index_ s) s)
  end.

(** The virtual call [scheduler->getNextWorkload()]; [None] is the null
    pointer the four overrides return on an empty pending bucket. *)
Definition getNextWorkload (heap : Store) (s : t) : option WorkloadPtr * t :=
  match algorithm_ s with
  | FIFO => FIFO_getNextWorkload s
  | PRIORITY => Priority_getNextWorkload heap s
  | ROUND_ROBIN => RoundRobin_getNextWorkload s
  | SHORTEST_JOB_FIRST => ShortestJobFirst_getNextWorkload heap s
  end.

(** The calls a client can make on a scheduler; [GetNextWorkload] carries
    the workload store as it is at the time of the call. *)
Inductive op :=
| AddWorkload (workload : WorkloadPtr)
| GetNextWorkload (heap : Store)
| MarkWorkloadRunning (workload : WorkloadPtr)
| MarkWorkloadCompleted (workload : WorkloadPtr).

Definition step (s : t) (o : op) : t :=
  match o with
  | AddWorkload w => addWorkload w s
  | GetNextWorkload heap => snd (getNextWorkload heap s)
  | MarkWorkloadRunning w => markWorkloadRunning w s
  | MarkWorkloadCompleted w => markWorkloadCompleted w s
  end.

Definition run (s : t) (ops : list op) : t := fold_left step ops s.




(** [n] successive calls of [getNextWorkload]: the workloads returned, in
    order, and the final scheduler. *)
Fixpoint dispatch_order (heap : Store) (n : nat) (s : t)
  : list (option WorkloadPtr) * t :=
  match n with
  | O => ([], s)
  | S n' =>
      let '(r, s') := getNextWorkload heap s in
      let '(rs, s'') := dispatch_order heap n' s' in
      (r :: rs, s'')
  end.

End Scheduler.

(* ===================================================================== *)
(** ** compute_unit.h, compute_unit.cpp *)
(* ===================================================================== *)

(** A [Warp*] is the address of a warp.  The warps of the blocks a compute
    unit hosts live in a store; the blocks list the addresses of their warps
    and the ready queue holds addresses of the same warps.  Reading through
    an address the store does not hold is undefined behaviour, rendered as
    [None] by the functions below. *)
Definition WarpPtr := nat.

Module WarpScheduler.

Record t := mk {
  ready_queue_ : list WarpPtr;
  max_warps_ : Z
}.

Definition new (max_warps : Z) : t :=
  {| ready_queue_ := []; max_warps_ := max_warps |}.

Definition push (warp : WarpPtr) (s : t) : t :=
  {| ready_queue_ := ready_queue_ s ++ [warp]; max_warps_ := max_warps_ s |}.

(** [bool WarpScheduler::addWarp(Warp* warp)]; [warp = None] is the null
    pointer. *)
Definition addWarp (heap : gmap WarpPtr Warp.t) (warp : option WarpPtr) (s : t)
  : option (bool * t) :=
  if Z.of_nat (length (ready_queue_ s)) >=? max_warps_ s then Some (false, s)
  else
    match warp with
    | None => Some (false, s)
    | Some a =>
        w ← heap !! a;
        if ExecutionState_eqb (Warp.getState w) READY
        then Some (true, push a s)
        else Some (false, s)
    end.

(** [Warp* WarpScheduler::getNextWarp()]. *)
Definition getNextWarp (s : t) : option WarpPtr * t :=
  match ready_queue_ s with
  | [] => (None, s)
  | warp :: rest => (Some warp, {| ready_queue_ := rest; max_warps_ := max_warps_ s |})
  end.

Definition hasReadyWarps (s : t) : bool :=
  negb (match ready_queue_ s with [] => true | _ => false end).

Definition getQueueSize (s : t) : Z := Z.of_nat (length (ready_queue_ s)).

End WarpScheduler.

Module ComputeUnit.

(** What a compute unit reaches through pointers: the warps of its blocks,
    and the memory controller it shares with the device and the other
    compute units. *)
Record world := mkWorld {
  warp_store : gmap WarpPtr Warp.t;
  memory_controller_ : Memory.MemoryController
}.

Record t := mk {
  core_id_ : Z;
  active_blocks_ : list (ThreadBlock.t WarpPtr);
  warp_scheduler_ : WarpScheduler.t;
  max_warps_per_cu_ : Z;
  max_threads_per_cu_ : Z;
  max_blocks_per_cu_ : Z;
  state_ : ExecutionState;
  running_ : bool;
  cycles_executed_ : Z;
  instructions_executed_ : Z;
  warps_executed_ : Z;
  idle_cycles_ : Z;
  cycles_stalled_ : Z
}.

(** [ComputeUnit::ComputeUnit(id, mem_ctrl)].  The initialiser list leaves
    [cycles_stalled_] out: [stalled] is the value the counter starts
    with. *)
Definition new (id : Z) (stalled : Z) : t :=
  {| core_id_ := wrap32 id; active_blocks_ := [];
     warp_scheduler_ := WarpScheduler.new 64;
     max_warps_per_cu_ := 64; max_threads_per_cu_ := 2048;
     max_blocks_per_cu_ := 16;
     state_ := IDLE; running_ := false;
     cycles_executed_ := 0; instructions_executed_ := 0;
     warps_executed_ := 0; idle_cycles_ := 0;
     cycles_stalled_ := stalled |}.

Definition getCyclesExecuted (cu : t) : Z := cycles_executed_ cu.
Definition getInstructionsExecuted (cu : t) : Z := instructions_executed_ cu.
Definition getWarpsExecuted (cu : t) : Z := warps_executed_ cu.
Definition getIdleCycles (cu : t) : Z := idle_cycles_ cu.
Definition getState (cu : t) : ExecutionState := state_ cu.
Definition getActiveBlockCount (cu : t) : Z := Z.of_nat (length (active_blocks_ cu)).

(** Field updates. *)
Definition set_active_blocks (bs : list (ThreadBlock.t WarpPtr)) (cu : t) : t :=
  {| core_id_ := core_id_ cu; active_blocks_ := bs;
     warp_scheduler_ := warp_scheduler_ cu;
     max_warps_per_cu_ := max_warps_per_cu_ cu;
     max_threads_per_cu_ := max_threads_per_cu_ cu;
     max_blocks_per_cu_ := max_blocks_per_cu_ cu;
     state_ := state_ cu; running_ := running_ cu;
     cycles_executed_ := cycles_executed_ cu;
     instructions_executed_ := instructions_executed_ cu;
     warps_executed_ := warps_executed_ cu; idle_cycles_ := idle_cycles_ cu;
     cycles_stalled_ := cycles_stalled_ cu |}.

Definition set_warp_scheduler (ws : WarpScheduler.t) (cu : t) : t :=
  {| core_id_ := core_id_ cu; active_blocks_ := active_blocks_ cu;
     warp_scheduler_ := ws;
     max_warps_per_cu_ := max_warps_per_cu_ cu;
     max_threads_per_cu_ := max_threads_per_cu_ cu;
     max_blocks_per_cu_ := max_blocks_per_cu_ cu;
     state_ := state_ cu; running_ := running_ cu;
     cycles_executed_ := cycles_executed_ cu;
     instructions_executed_ := instructions_executed_ cu;
     warps_executed_ := warps_executed_ cu; idle_cycles_ := idle_cycles_ cu;
     cycles_stalled_ := cycles_stalled_ cu |}.

Definition set_state (st : ExecutionState) (cu : t) : t :=
  {| core_id_ := core_id_ cu; active_blocks_ := active_blocks_ cu;
     warp_scheduler_ := warp_scheduler_ cu;
     max_warps_per_cu_ := max_warps_per_cu_ cu;
     max_threads_per_cu_ := max_threads_per_cu_ cu;
     max_blocks_per_cu_ := max_blocks_per_cu_ cu;
     state_ := st; running_ := running_ cu;
     cycles_executed_ := cycles_executed_ cu;
     instructions_executed_ := instructions_executed_ cu;
     warps_executed_ := warps_executed_ cu; idle_cycles_ := idle_cycles_ cu;
     cycles_stalled_ := cycles_stalled_ cu |}.

(** The five [++] on the atomic counters. *)
Definition incr_cycles_executed (cu : t) : t :=
  {| core_id_ := core_id_ cu; active_blocks_ := active_blocks_ cu;
     warp_scheduler_ := warp_scheduler_ cu;
     max_warps_per_cu_ := max_warps_per_cu_ cu;
     max_threads_per_cu_ := max_threads_per_cu_ cu;
     max_blocks_per_cu_ := max_blocks_per_cu_ cu;
     state_ := state_ cu; running_ := running_ cu;
     cycles_executed_ := wrap64 (cycles_executed_ cu + 1);
     instructions_executed_ := instructions_executed_ cu;
     warps_executed_ := warps_executed_ cu; idle_cycles_ := idle_cycles_ cu;
     cycles_stalled_ := cycles_stalled_ cu |}.

Definition incr_instructions_executed (cu : t) : t :=
  {| core_id_ := core_id_ cu; active_blocks_ := active_blocks_ cu;
     warp_scheduler_ := warp_scheduler_ cu;
     max_warps_per_cu_ := max_warps_per_cu_ cu;
     max_threads_per_cu_ := max_threads_per_cu_ cu;
     max_blocks_per_cu_ := max_blocks_per_cu_ cu;
     state_ := state_ cu; running_ := running_ cu;
     cycles_executed_ := cycles_executed_ cu;
     instructions_executed_ := wrap64 (instructions_executed_ cu + 1);
     warps_executed_ := warps_executed_ cu; idle_cycles_ := idle_cycles_ cu;
     cycles_stalled_ := cycles_stalled_ cu |}.

Definition incr_warps_executed (cu : t) : t :=
  {| core_id_ := core_id_ cu; active_blocks_ := active_blocks_ cu;
     warp_scheduler_ := warp_scheduler_ cu;
     max_warps_per_cu_ := max_warps_per_cu_ cu;
     max_threads_per_cu_ := max_threads_per_cu_ cu;
     max_blocks_per_cu_ := max_blocks_per_cu_ cu;
     state_ := state_ cu; running_ := running_ cu;
     cycles_executed_ := cycles_executed_ cu;
     instructions_executed_ := instructions_executed_ cu;
     warps_executed_ := wrap64 (warps_executed_ cu + 1);
     idle_cycles_ := idle_cycles_ cu;
     cycles_stalled_ := cycles_stalled_ cu |}.

Definition incr_idle_cycles (cu : t) : t :=
  {| core_id_ := core_id_ cu; active_blocks_ := active_blocks_ cu;
     warp_scheduler_ := warp_scheduler_ cu;
     max_warps_per_cu_ := max_warps_per_cu_ cu;
     max_threads_per_cu_ := max_threads_per_cu_ cu;
     max_blocks_per_cu_ := max_blocks_per_cu_ cu;
     state_ := state_ cu; running_ := running_ cu;
     cycles_executed_ := cycles_executed_ cu;
     instructions_executed_ := instructions_executed_ cu;
     warps_executed_ := warps_executed_ cu;
     idle_cycles_ := wrap64 (idle_cycles_ cu + 1);
     cycles_stalled_ := cycles_stalled_ cu |}.

Definition incr_cycles_stalled (cu : t) : t :=
  {| core_id_ := core_id_ cu; active_blocks_ := active_blocks_ cu;
     warp_scheduler_ := warp_scheduler_ cu;
     max_warps_per_cu_ := max_warps_per_cu_ cu;
     max_threads_per_cu_ := max_threads_per_cu_ cu;
     max_blocks_per_cu_ := max_blocks_per_cu_ cu;
     state_ := state_ cu; running_ := running_ cu;
     cycles_executed_ := cycles_executed_ cu;
     instructions_executed_ := instructions_executed_ cu;
     warps_executed_ := warps_executed_ cu; idle_cycles_ := idle_cycles_ cu;
     cycles_stalled_ := wrap64 (cycles_stalled_ cu + 1) |}.

(** A write through a [Warp*]. *)
Definition update_warp (f : Warp.t -> Warp.t) (warp : WarpPtr) (σ : world) : world :=
  {| warp_store := alter f warp (warp_store σ);
     memory_controller_ := memory_controller_ σ |}.

Definition update_controller
           (f : Memory.MemoryController -> Memory.MemoryController) (σ : world)
  : world :=
  {| warp_store := warp_store σ;
     memory_controller_ := f (memory_controller_ σ) |}.

(** The sum over the integers of the warp counts of a list of blocks. *)
Definition warp_total (blocks : list (ThreadBlock.t WarpPtr)) : Z :=
  foldr Z.add 0 (map ThreadBlock.getNumWarps blocks).


(** The ready queue holds at most [max_warps_] warps. *)
Definition queue_within_bound (cu : t) : Prop :=
  WarpScheduler.getQueueSize (warp_scheduler_ cu)
  <= WarpScheduler.max_warps_ (warp_scheduler_ cu).

(** [size_t ComputeUnit::getActiveWarpCount() const]. *)
Definition getActiveWarpCount (cu : t) : Z :=
  fold_left (fun count block => wrap64 (count + ThreadBlock.getNumWarps block))
            (active_blocks_ cu) 0.

(** [bool ComputeUnit::canAcceptBlock(const ThreadBlock* block) const];
    [block = None] is the null pointer. *)
Definition canAcceptBlock (block : option (ThreadBlock.t WarpPtr)) (cu : t) : bool :=
  match block with
  | None => false
  | Some block =>
      let current_blocks := Z.of_nat (length (active_blocks_ cu)) in
      if current_blocks >=? max_blocks_per_cu_ cu then false
      else
        let current_warps := getActiveWarpCount cu in
        if wrap64 (current_warps + ThreadBlock.getNumWarps block)
           >? max_warps_per_cu_ cu
        then false
        else true
  end.

(** The loop of [assignBlock] over the warps of the block; the flag
    [addWarp] returns is dropped, as in the source. *)
Fixpoint offer_warps (heap : gmap WarpPtr Warp.t) (warps : list WarpPtr)
         (ws : WarpScheduler.t) : option WarpScheduler.t :=
  match warps with
  | [] => Some ws
  | warp :: rest =>
      r ← WarpScheduler.addWarp heap (Some warp) ws;
      offer_warps heap rest (snd r)
  end.

(** [bool ComputeUnit::assignBlock(std::unique_ptr<ThreadBlock> block)]. *)
Definition assignBlock (σ : world) (block : option (ThreadBlock.t WarpPtr)) (cu : t)
  : option (bool * t) :=
  if negb (canAcceptBlock block cu) then Some (false, cu)
  else
    match block with
    | None => Some (false, cu)
    | Some b =>
        ws ← offer_warps (warp_store σ) (ThreadBlock.getWarps b) (warp_scheduler_ cu);
        Some (true,
              set_state RUNNING
                (set_active_blocks (active_blocks_ cu ++ [b])
                   (set_warp_scheduler ws cu)))
    end.

(** [void ComputeUnit::removeCompletedBlocks()]: the erased blocks are
    destroyed, and their warps with them. *)
Definition removeCompletedBlocks (σ : world) (cu : t) : world * t :=
  let removed := filter (fun b => ThreadBlock.isCompleted b = true) (active_blocks_ cu) in
  let kept := filter (fun b => ThreadBlock.isCompleted b <> true) (active_blocks_ cu) in
  let σ' :=
    {| warp_store :=
         foldr delete (warp_store σ) (concat (map ThreadBlock.getWarps removed));
       memory_controller_ := memory_controller_ σ |} in
  let cu' := set_active_blocks kept cu in
  (σ', match kept with [] => set_state IDLE cu' | _ => cu' end).

(** The body of the loop of [executeWarp] for loop variable [i]. *)
Definition executeWarp_body (warp : WarpPtr) (st : world * t) (i : Z) : world * t :=
  let '(σ, cu) := st in
  let σ := update_warp Warp.recordInstruction warp σ in
  let σ := update_warp Warp.incrementPC warp σ in
  let cu := incr_instructions_executed cu in
  if i mod 5 =? 0 then
    let σ := update_controller Memory.recordMemoryOp σ in
    if i mod 10 =? 0 then
      let σ := update_warp (Warp.setState MEMORY_STALLED) warp σ in
      let σ := update_warp Warp.recordStall warp σ in
      let cu := incr_cycles_stalled cu in
      let latency :=
        Memory.getLatency (Memory.getGlobalMemory (memory_controller_ σ)) in
      let cu :=
        fold_left (fun cu _ => incr_cycles_executed cu)
                  (loop_range (latency / 10)) cu in
      let σ := update_warp (Warp.setState RUNNING) warp σ in
      (σ, cu)
    else (σ, cu)
  else (σ, cu).

(** [void ComputeUnit::executeWarp(Warp* warp, size_t num_instructions)]. *)
Definition executeWarp (warp : option WarpPtr) (num_instructions : Z)
           (σ : world) (cu : t) : option (world * t) :=
  match warp with
  | None => Some (σ, cu)
  | Some a =>
      _ ← warp_store σ !! a;
      let σ := update_warp (Warp.setState RUNNING) a σ in
      let '(σ, cu) :=
        fold_left (executeWarp_body a) (loop_range num_instructions) (σ, cu) in
      let σ := update_warp (Warp.setState READY) a σ in
      Some (σ, incr_warps_executed cu)
  end.

(** The inner loop of the completion sweep: it stops at the first warp
    that is not [COMPLETED]. *)
Fixpoint all_warps_done (heap : gmap WarpPtr Warp.t) (warps : list WarpPtr)
  : option bool :=
  match warps with
  | [] => Some true
  | w :: rest =>
      warp ← heap !! w;
      if ExecutionState_eqb (Warp.getState warp) COMPLETED
      then all_warps_done heap rest
      else Some false
  end.

Definition sweep_block (heap : gmap WarpPtr Warp.t) (block : ThreadBlock.t WarpPtr)
  : option (ThreadBlock.t WarpPtr) :=
  done ← all_warps_done heap (ThreadBlock.getWarps block);
  Some (if done : bool then ThreadBlock.markCompleted block else block).

(** [void ComputeUnit::simulateCycle()]. *)
Definition simulateCycle (σ : world) (cu : t) : option (world * t) :=
  let cu := incr_cycles_executed cu in
  let '(warp, ws) := WarpScheduler.getNextWarp (warp_scheduler_ cu) in
  let cu := set_warp_scheduler ws cu in
  match warp with
  | Some a =>
      st ← executeWarp (Some a) 8 σ cu;
      let '(σ, cu) := st in
      w ← warp_store σ !! a;
      if Warp.getInstructionsExecuted w >=? 1000 then
        let σ := update_warp (Warp.setState COMPLETED) a σ in
        blocks ← mapM (sweep_block (warp_store σ)) (active_blocks_ cu);
        Some (σ, set_active_blocks blocks cu)
      else
        r ← WarpScheduler.addWarp (warp_store σ) (Some a) (warp_scheduler_ cu);
        Some (σ, set_warp_scheduler (snd r) cu)
  | None => Some (σ, incr_idle_cycles cu)
  end.

(** A block handed to a compute unit, as the compute unit sees it: the
    warps the block owns are objects of the store, at the addresses
    [base], [base + 1], ..., and the block lists these addresses. *)
Definition place (base : nat) (b : ThreadBlock.t Warp.t) (σ : world)
  : ThreadBlock.t WarpPtr * world :=
  let addresses := seq base (length (ThreadBlock.warps_ b)) in
  ({| ThreadBlock.block_id_ := ThreadBlock.block_id_ b;
      ThreadBlock.warps_ := addresses;
      ThreadBlock.shared_memory_ := ThreadBlock.shared_memory_ b;
      ThreadBlock.state_ := ThreadBlock.state_ b;
      ThreadBlock.grid_x_ := ThreadBlock.grid_x_ b;
      ThreadBlock.grid_y_ := ThreadBlock.grid_y_ b;
      ThreadBlock.grid_z_ := ThreadBlock.grid_z_ b;
      ThreadBlock.completed_ := ThreadBlock.completed_ b |},
   {| warp_store :=
        foldr (fun aw store => <[aw.1 := aw.2]> store) (warp_store σ)
              (zip addresses (ThreadBlock.warps_ b));
      memory_controller_ := memory_controller_ σ |}).


(** [double ComputeUnit::getUtilization() const]. *)
Definition getUtilization (cu : t) : Double.t :=
  let total_cycles := cycles_executed_ cu in
  if total_cycles =? 0 then Double.zero
  else
    let active_cycles := wrap64 (total_cycles - idle_cycles_ cu) in
    Double.mul
      (Double.div (Double.of_integer active_cycles) (Double.of_integer total_cycles))
      (Double.of_integer 100).

Definition stop (cu : t) : t :=
  {| core_id_ := core_id_ cu; active_blocks_ := active_blocks_ cu;
     warp_scheduler_ := warp_scheduler_ cu;
     max_warps_per_cu_ := max_warps_per_cu_ cu;
     max_threads_per_cu_ := max_threads_per_cu_ cu;
     max_blocks_per_cu_ := max_blocks_per_cu_ cu;
     state_ := state_ cu; running_ := false;
     cycles_executed_ := cycles_executed_ cu;
     instructions_executed_ := instructions_executed_ cu;
     warps_executed_ := warps_executed_ cu; idle_cycles_ := idle_cycles_ cu;
     cycles_stalled_ := cycles_stalled_ cu |}.

End ComputeUnit.

(* ===================================================================== *)
(** ** metrics.h, metrics.cpp *)
(* ===================================================================== *)

Module Metrics.

Record WorkloadMetrics := mkWorkloadMetrics {
  workload_name : string;
  type : WorkloadType;
  execution_time_ms : Double.t;
  instructions_executed : Z;
  memory_operations : Z;
  cycles_executed : Z;
  average_cu_utilization : Double.t;
  total_threads : Z;
  total_blocks : Z;
  throughput : Double.t
}.

(** [WorkloadMetrics{}]: every member value-initialised. *)
Definition WorkloadMetrics_default : WorkloadMetrics :=
  {| workload_name := ""; type := MATRIX_MULTIPLY;
     execution_time_ms := Double.zero;
     instructions_executed := 0; memory_operations := 0; cycles_executed := 0;
     average_cu_utilization := Double.zero;
     total_threads := 0; total_blocks := 0;
     throughput := Double.zero |}.

(** The part of [PerformanceAnalyzer] the workload queries read. *)
Record PerformanceAnalyzer := mkPerformanceAnalyzer {
  workload_metrics_ : list WorkloadMetrics
}.

Definition PerformanceAnalyzer_new : PerformanceAnalyzer :=
  {| workload_metrics_ := [] |}.

(** What the analyzer reads of a [GPUDevice]: its compute units and its
    memory controller. *)
Record Device := mkDevice {
  compute_units_ : list ComputeUnit.t;
  memory_controller_ : Memory.MemoryController
}.

Definition getNumComputeUnits (d : Device) : Z :=
  Z.of_nat (length (compute_units_ d)).

Section Record.

Variable ticks_per_microsecond : Z.

(** [void PerformanceAnalyzer::recordWorkloadMetrics(workload, device)];
    [None] is a null pointer.  The loop over the compute units carries
    the two sums and the total utilisation. *)
Definition recordWorkloadMetrics (workload : option Workload.t)
           (device : option Device) (p : PerformanceAnalyzer)
  : PerformanceAnalyzer :=
  match workload, device with
  | Some w, Some d =>
      let time := Workload.getExecutionTime ticks_per_microsecond w in
      let '(instructions, cycles, total_utilization) :=
        fold_left
          (fun acc cu =>
             let '(instructions, cycles, total_utilization) := acc in
             (wrap64 (instructions + ComputeUnit.getInstructionsExecuted cu),
              wrap64 (cycles + ComputeUnit.getCyclesExecuted cu),
              Double.add total_utilization (ComputeUnit.getUtilization cu)))
          (compute_units_ d) (0, 0, Double.zero) in
      let metrics :=
        {| workload_name := Workload.name_ w;
           type := Workload.type_ w;
           execution_time_ms := time;
           instructions_executed := instructions;
           memory_operations := Memory.getTotalMemoryOps (memory_controller_ d);
           cycles_executed := cycles;
           average_cu_utilization :=
             Double.div total_utilization
                        (Double.of_integer (getNumComputeUnits d));
           total_threads := KernelConfig.getTotalThreads (Workload.getConfig w);
           total_blocks := KernelConfig.getTotalBlocks (Workload.getConfig w);
           throughput :=
             if Double.ltb Double.zero time
             then Double.div (Double.of_integer instructions) time
             else Double.zero |} in
      {| workload_metrics_ := workload_metrics_ p ++ [metrics] |}
  | _, _ => p
  end.

(** The analyzer after a sequence of [recordWorkloadMetrics]. *)
Definition record_all (calls : list (option Workload.t * option Device))
           (p : PerformanceAnalyzer) : PerformanceAnalyzer :=
  fold_left (fun p call => recordWorkloadMetrics call.1 call.2 p) calls p.

End Record.

(** The lambda both queries pass as comparison. *)
Definition by_execution_time (a b : WorkloadMetrics) : bool :=
  Double.ltb (execution_time_ms a) (execution_time_ms b).

Definition getFastestWorkload (p : PerformanceAnalyzer) : WorkloadMetrics :=
  match Std.min_element by_execution_time (workload_metrics_ p) with
  | None => WorkloadMetrics_default
  | Some (_, m) => m
  end.

Definition getSlowestWorkload (p : PerformanceAnalyzer) : WorkloadMetrics :=
  match Std.max_element by_execution_time (workload_metrics_ p) with
  | None => WorkloadMetrics_default
  | Some (_, m) => m
  end.

End Metrics.

(* ===================================================================== *)
(** ** The seed of the policy test *)
(* ===================================================================== *)

Module Seed.

Definition kernel (name : string) (prio est : Z) : Workload.t :=
  Workload.setEstimatedInstructions est
    (Workload.setPriority prio
       (Workload.new name CUSTOM (KernelConfig.mk 1 1 1 256 1 1))).

(** Kernels [A], [B], [C], [D] at addresses 0 to 3. *)
Definition A : Scheduler.WorkloadPtr := 0%nat.
Definition B : Scheduler.WorkloadPtr := 1%nat.
Definition C : Scheduler.WorkloadPtr := 2%nat.
Definition D : Scheduler.WorkloadPtr := 3%nat.

Definition heap : Scheduler.Store :=
  fun p =>
    match p with
    | 0%nat => kernel "A" 1 1000
    | 1%nat => kernel "B" 5 500
    | 2%nat => kernel "C" 3 200
    | _ => kernel "D" 5 900
    end.

(** The four kernels submitted in order to a scheduler of the given
    policy. *)
Definition submit_all (algorithm : SchedulingAlgorithm) : Scheduler.t :=
  Scheduler.run (Scheduler.createScheduler algorithm)
    [Scheduler.AddWorkload A; Scheduler.AddWorkload B;
     Scheduler.AddWorkload C; Scheduler.AddWorkload D].

End Seed.


(* ===================================================================== *)
(** ** A compute unit with one block *)
(* ===================================================================== *)

Module Fixture.

(** A controller over a global memory of 1024 bytes. *)
Definition controller : Memory.MemoryController :=
  Memory.mkMemoryController (Memory.GlobalMemory_new 1024) 0 0 0.

Definition empty_world : ComputeUnit.world :=
  ComputeUnit.mkWorld ∅ controller.

(** A block of 40 threads, two warps, stored at addresses 0 and 1. *)
Definition block : ThreadBlock.t WarpPtr :=
  fst (ComputeUnit.place 0 (ThreadBlock.new 0 40) empty_world).

Definition world : ComputeUnit.world :=
  snd (ComputeUnit.place 0 (ThreadBlock.new 0 40) empty_world).

(** A fresh compute unit, and the same after it accepted [block]. *)
Definition idle_cu : ComputeUnit.t := ComputeUnit.new 0 0.

Definition busy_cu : ComputeUnit.t :=
  ComputeUnit.set_state RUNNING
    (ComputeUnit.set_active_blocks [block]
       (ComputeUnit.set_warp_scheduler
          (WarpScheduler.mk [0%nat; 1%nat] 64) idle_cu)).

End Fixture.


(* ===================================================================== *)
(** ** memory.h, memory.cpp: the rest of the memory hierarchy *)
(* ===================================================================== *)

Module GlobalMemory.

Definition getSize (m : Memory.GlobalMemory) : Z := Memory.size_ m.
Definition getAccessCount (m : Memory.GlobalMemory) : Z := Memory.access_count_ m.
Definition getReadCount (m : Memory.GlobalMemory) : Z := Memory.read_count_ m.
Definition getWriteCount (m : Memory.GlobalMemory) : Z := Memory.write_count_ m.
Definition getBytesRead (m : Memory.GlobalMemory) : Z := Memory.bytes_read_ m.
Definition getBytesWritten (m : Memory.GlobalMemory) : Z := Memory.bytes_written_ m.

(** [void GlobalMemory::reset()]: the five counters are zeroed and the
  buffer is filled with zeros. *)
Definition reset (m : Memory.GlobalMemory) : Memory.GlobalMemory :=
{| Memory.size_ := Memory.size_ m;
   Memory.latency_cycles_ := Memory.latency_cycles_ m;
   Memory.access_count_ := 0;
   Memory.data_ := map (fun _ => 0) (Memory.data_ m);
   Memory.read_count_ := 0; Memory.write_count_ := 0;
   Memory.bytes_read_ := 0; Memory.bytes_written_ := 0 |}.

(** The calls a client can make on a global memory. *)
Inductive op :=
| Read (address bytes : Z)
| Write (address bytes : Z)
| Reset.

Definition step (m : Memory.GlobalMemory) (o : op) : Memory.GlobalMemory :=
match o with
| Read address bytes => snd (Memory.read m address bytes)
| Write address bytes => snd (Memory.write m address bytes)
| Reset => reset m
end.

Definition run (m : Memory.GlobalMemory) (ops : list op) : Memory.GlobalMemory :=
fold_left step ops m.

(** The calls of a sequence that come after its last [Reset]. *)
Definition since_reset (ops : list op) : list op :=
fold_left (fun acc o => match o with Reset => [] | _ => acc ++ [o] end) ops [].

(** The byte counts of the reads, and of the writes, of a sequence of
  calls that a memory of [size] bytes accepts: those for which the sum
  [address + bytes], as the 64-bit addition computes it, is at most
  [size]. *)
Definition accepted_reads (size : Z) (ops : list op) : list Z :=
omap (fun o => match o with
               | Read address bytes =>
                   if wrap64 (address + bytes) >? size then None else Some bytes
               | _ => None
               end) ops.

Definition accepted_writes (size : Z) (ops : list op) : list Z :=
omap (fun o => match o with
               | Write address bytes =>
                   if wrap64 (address + bytes) >? size then None else Some bytes
               | _ => None
               end) ops.

Definition total (l : list Z) : Z := foldr Z.add 0 l.

End GlobalMemory.

Module SharedMemory.

Definition getSize (m : Memory.SharedMemory) : Z := Memory.sh_size_ m.
Definition getLatency (m : Memory.SharedMemory) : Z := Memory.sh_latency_cycles_ m.
Definition getAccessCount (m : Memory.SharedMemory) : Z := Memory.sh_access_count_ m.
Definition getOwner (m : Memory.SharedMemory) : Z := Memory.owner_block_ m.

(** [bool SharedMemory::read(MemoryAddress address, size_t bytes)]. *)
Definition read (m : Memory.SharedMemory) (address bytes : Z)
: bool * Memory.SharedMemory :=
if wrap64 (address + bytes) >? Memory.sh_size_ m then (false, m)
else (true,
      {| Memory.sh_size_ := Memory.sh_size_ m;
         Memory.sh_latency_cycles_ := Memory.sh_latency_cycles_ m;
         Memory.sh_access_count_ := wrap64 (Memory.sh_access_count_ m + 1);
         Memory.sh_data_ := Memory.sh_data_ m;
         Memory.owner_block_ := Memory.owner_block_ m |}).

(** [bool SharedMemory::write(MemoryAddress address, size_t bytes)]. *)
Definition write (m : Memory.SharedMemory) (address bytes : Z)
: bool * Memory.SharedMemory :=
if wrap64 (address + bytes) >? Memory.sh_size_ m then (false, m)
else (true,
      {| Memory.sh_size_ := Memory.sh_size_ m;
         Memory.sh_latency_cycles_ := Memory.sh_latency_cycles_ m;
         Memory.sh_access_count_ := wrap64 (Memory.sh_access_count_ m + 1);
         Memory.sh_data_ := Memory.sh_data_ m;
         Memory.owner_block_ := Memory.owner_block_ m |}).

(** [void SharedMemory::clear()]. *)
Definition clear (m : Memory.SharedMemory) : Memory.SharedMemory :=
{| Memory.sh_size_ := Memory.sh_size_ m;
   Memory.sh_latency_cycles_ := Memory.sh_latency_cycles_ m;
   Memory.sh_access_count_ := 0;
   Memory.sh_data_ := map (fun _ => 0) (Memory.sh_data_ m);
   Memory.owner_block_ := Memory.owner_block_ m |}.

Inductive op :=
| Read (address bytes : Z)
| Write (address bytes : Z)
| Clear
| SetOwner (block_id : Z).

(** [setOwner] takes a 32-bit [BlockID]. *)
Definition step (m : Memory.SharedMemory) (o : op) : Memory.SharedMemory :=
match o with
| Read address bytes => snd (read m address bytes)
| Write address bytes => snd (write m address bytes)
| Clear => clear m
| SetOwner block_id => Memory.SharedMemory_setOwner (wrap32 block_id) m
end.

Definition run (m : Memory.SharedMemory) (ops : list op) : Memory.SharedMemory :=
fold_left step ops m.

(** The calls of a sequence that come after its last [Clear]. *)
Definition since_clear (ops : list op) : list op :=
fold_left (fun acc o => match o with Clear => [] | _ => acc ++ [o] end) ops [].

(** The accesses of a sequence of calls that a memory of [size] bytes
  accepts. *)
Definition accepts (size : Z) (o : op) : bool :=
match o with
| Read address bytes | Write address bytes =>
    negb (wrap64 (address + bytes) >? size)
| _ => false
end.

Definition accepted (size : Z) (ops : list op) : list op :=
filter (fun o => accepts size o = true) ops.

(** The owners a sequence of calls sets, in order. *)
Definition owners (ops : list op) : list Z :=
omap (fun o => match o with SetOwner block_id => Some (wrap32 block_id) | _ => None end)
     ops.

End SharedMemory.

Module RegisterFile.

Definition getOwner (r : Memory.RegisterFile) : Z := Memory.owner_thread_ r.

(** The vector holds as many registers as [num_registers_] says. *)
Definition well_formed (r : Memory.RegisterFile) : Prop :=
Z.of_nat (length (Memory.registers_ r)) = Memory.num_registers_ r.

(** [bool RegisterFile::readRegister(size_t reg_index, uint32_t& value)]:
  the flag returned and the content of [value] after the call.  Indexing
  the vector past its end is undefined, rendered as [None]. *)
Definition readRegister (r : Memory.RegisterFile) (reg_index value : Z)
: option (bool * Z) :=
if reg_index >=? Memory.num_registers_ r then Some (false, value)
else
  v ← Memory.registers_ r !! Z.to_nat reg_index;
  Some (true, v).

(** [bool RegisterFile::writeRegister(size_t reg_index, uint32_t value)]. *)
Definition writeRegister (r : Memory.RegisterFile) (reg_index value : Z)
: option (bool * Memory.RegisterFile) :=
if reg_index >=? Memory.num_registers_ r then Some (false, r)
else
  _ ← Memory.registers_ r !! Z.to_nat reg_index;
  Some (true,
        {| Memory.registers_ :=
             <[Z.to_nat reg_index := wrap32 value]> (Memory.registers_ r);
           Memory.owner_thread_ := Memory.owner_thread_ r;
           Memory.num_registers_ := Memory.num_registers_ r |}).

(** [void RegisterFile::clear()]. *)
Definition clear (r : Memory.RegisterFile) : Memory.RegisterFile :=
{| Memory.registers_ := map (fun _ => 0) (Memory.registers_ r);
   Memory.owner_thread_ := Memory.owner_thread_ r;
   Memory.num_registers_ := Memory.num_registers_ r |}.

End RegisterFile.

(* ===================================================================== *)
(** ** warp.h, warp.cpp: access to the warps and threads of a block *)
(* ===================================================================== *)

Module Blocks.

(** [Warp* ThreadBlock::getWarp(size_t index)]; [None] is the null
  pointer. *)
Definition getWarp {W} (index : Z) (b : ThreadBlock.t W) : option W :=
if index >=? Z.of_nat (length (ThreadBlock.warps_ b)) then None
else ThreadBlock.warps_ b !! Z.to_nat index.

(** [Warp::getThreads()] and [Thread::getThreadID()]: the identifiers of
  the threads of a warp, and of the threads of all the warps of a block,
  in order. *)
Definition thread_ids (w : Warp.t) : list Z :=
map Thread.thread_id_ (Warp.threads_ w).

Definition block_thread_ids (b : ThreadBlock.t Warp.t) : list Z :=
concat (map thread_ids (ThreadBlock.warps_ b)).

(** The threads the blocks a workload still holds carry together. *)
Definition remaining_threads (w : Workload.t) : Z :=
foldr Z.add 0 (map ThreadBlock.thread_count (Workload.thread_blocks_ w)).

End Blocks.

(* ===================================================================== *)
(** ** compute_unit.h, compute_unit.cpp: the rest of the compute unit *)
(* ===================================================================== *)

Module ComputeUnitRun.

Definition getCoreID (cu : ComputeUnit.t) : Z := ComputeUnit.core_id_ cu.
Definition isRunning (cu : ComputeUnit.t) : bool := ComputeUnit.running_ cu.

(** [bool isIdle() const]:
  [active_blocks_.empty() && state_ == ExecutionState::IDLE]. *)
Definition isIdle (cu : ComputeUnit.t) : bool :=
match ComputeUnit.active_blocks_ cu with [] => true | _ => false end
&& ExecutionState_eqb (ComputeUnit.state_ cu) IDLE.

(** The inner loop of [getActiveThreadCount] over the warps of a block;
  every warp is read through its pointer. *)
Fixpoint count_warp_threads (heap : gmap WarpPtr Warp.t) (warps : list WarpPtr)
       (count : Z) : option Z :=
match warps with
| [] => Some count
| warp :: rest =>
    w ← heap !! warp;
    count_warp_threads heap rest (wrap64 (count + Warp.getNumThreads w))
end.

Fixpoint count_block_threads (heap : gmap WarpPtr Warp.t)
       (blocks : list (ThreadBlock.t WarpPtr)) (count : Z) : option Z :=
match blocks with
| [] => Some count
| block :: rest =>
    count ← count_warp_threads heap (ThreadBlock.getWarps block) count;
    count_block_threads heap rest count
end.

(** [size_t ComputeUnit::getActiveThreadCount() const]. *)
Definition getActiveThreadCount (σ : ComputeUnit.world) (cu : ComputeUnit.t)
: option Z :=
count_block_threads (ComputeUnit.warp_store σ) (ComputeUnit.active_blocks_ cu) 0.

(** [void ComputeUnit::resetMetrics()]: four of the five counters. *)
Definition resetMetrics (cu : ComputeUnit.t) : ComputeUnit.t :=
{| ComputeUnit.core_id_ := ComputeUnit.core_id_ cu;
   ComputeUnit.active_blocks_ := ComputeUnit.active_blocks_ cu;
   ComputeUnit.warp_scheduler_ := ComputeUnit.warp_scheduler_ cu;
   ComputeUnit.max_warps_per_cu_ := ComputeUnit.max_warps_per_cu_ cu;
   ComputeUnit.max_threads_per_cu_ := ComputeUnit.max_threads_per_cu_ cu;
   ComputeUnit.max_blocks_per_cu_ := ComputeUnit.max_blocks_per_cu_ cu;
   ComputeUnit.state_ := ComputeUnit.state_ cu;
   ComputeUnit.running_ := ComputeUnit.running_ cu;
   ComputeUnit.cycles_executed_ := 0;
   ComputeUnit.instructions_executed_ := 0;
   ComputeUnit.warps_executed_ := 0;
   ComputeUnit.idle_cycles_ := 0;
   ComputeUnit.cycles_stalled_ := ComputeUnit.cycles_stalled_ cu |}.

(** One pass through the body of the loop of [ComputeUnit::run] while
  [running_] holds: a cycle is simulated when there is an active block
  and a ready warp; otherwise the thread sleeps and nothing changes. *)
Definition run_iteration (σ : ComputeUnit.world) (cu : ComputeUnit.t)
: option (ComputeUnit.world * ComputeUnit.t) :=
if negb (match ComputeUnit.active_blocks_ cu with [] => true | _ => false end)
   && WarpScheduler.hasReadyWarps (ComputeUnit.warp_scheduler_ cu)
then ComputeUnit.simulateCycle σ cu
else Some (σ, cu).

Fixpoint run_iterations (n : nat) (σ : ComputeUnit.world) (cu : ComputeUnit.t)
: option (ComputeUnit.world * ComputeUnit.t) :=
match n with
| O => Some (σ, cu)
| S n' =>
    st ← run_iteration σ cu;
    run_iterations n' st.1 st.2
end.

(** The address right after the last one in use: what is built there is
  built at addresses no live pointer holds. *)
Definition fresh_base (σ : ComputeUnit.world) : nat :=
S (max_list (elements (dom (ComputeUnit.warp_store σ)))).

(** The calls the device makes on a compute unit.  [AssignBlock] hands
  over a block the caller owns: its warps become objects of the store,
  at fresh addresses; a block that is refused is destroyed with the
  pointer that owned it. *)
Inductive op :=
| AssignBlock (block : ThreadBlock.t Warp.t)
| RemoveCompletedBlocks
| SimulateCycle
| RunIteration
| ResetMetrics.

Definition step (st : ComputeUnit.world * ComputeUnit.t) (o : op)
: option (ComputeUnit.world * ComputeUnit.t) :=
let '(σ, cu) := st in
match o with
| AssignBlock block =>
    let '(b, σ') := ComputeUnit.place (fresh_base σ) block σ in
    r ← ComputeUnit.assignBlock σ' (Some b) cu;
    Some (if r.1 : bool then σ' else σ, r.2)
| RemoveCompletedBlocks => Some (ComputeUnit.removeCompletedBlocks σ cu)
| SimulateCycle => ComputeUnit.simulateCycle σ cu
| RunIteration => run_iteration σ cu
| ResetMetrics => Some (σ, resetMetrics cu)
end.

Fixpoint run (st : ComputeUnit.world * ComputeUnit.t) (ops : list op)
: option (ComputeUnit.world * ComputeUnit.t) :=
match ops with
| [] => Some st
| o :: rest => st' ← step st o; run st' rest
end.

(** A block as the device hands it over: not marked completed, each of
  its warps ready, without an instruction executed and of at most 32
  threads, as the constructors leave them. *)
Definition as_constructed (b : ThreadBlock.t Warp.t) : Prop :=
ThreadBlock.completed_ b = false /\
Z.of_nat (length (ThreadBlock.warps_ b)) < 2 ^ 63 /\
Forall (fun w => Warp.state_ w = READY /\
                 Warp.instructions_executed_ w = 0 /\
                 Warp.getNumThreads w <= 32)
       (ThreadBlock.warps_ b).

Definition as_device_calls (o : op) : Prop :=
match o with
| AssignBlock block => as_constructed block
| _ => True
end.

(** The warp addresses the active blocks list, block after block. *)
Definition block_warps (cu : ComputeUnit.t) : list WarpPtr :=
concat (map ThreadBlock.getWarps (ComputeUnit.active_blocks_ cu)).

(** The state of a compute unit is consistent when
  - the ready queue holds no address twice, each of its entries is the
    address of a warp of an active block, and that warp is [READY];
  - the warps the active blocks list are in the store, no address is
    listed twice, and the warps of a block marked completed are all
    [COMPLETED];
  - every warp in the store has executed a multiple of 8 instructions,
    at most 1000, and is [COMPLETED] when they are 1000 and [READY]
    otherwise; it has at most 32 threads;
  - the limits are those of the constructor and are respected;
  - the unit is [IDLE] without active block and [RUNNING] with one;
  - the latency of the global memory, a [size_t], is not negative;
  - a warp of an active block that is [READY] is in the ready queue. *)
Record consistent (σ : ComputeUnit.world) (cu : ComputeUnit.t) : Prop := {
queue_NoDup : NoDup (WarpScheduler.ready_queue_ (ComputeUnit.warp_scheduler_ cu));
queue_ready :
  forall a, a ∈ WarpScheduler.ready_queue_ (ComputeUnit.warp_scheduler_ cu) ->
            a ∈ block_warps cu /\
            exists w, ComputeUnit.warp_store σ !! a = Some w /\
                      Warp.state_ w = READY;
blocks_NoDup : NoDup (block_warps cu);
blocks_alive :
  forall b a, b ∈ ComputeUnit.active_blocks_ cu -> a ∈ ThreadBlock.getWarps b ->
              exists w, ComputeUnit.warp_store σ !! a = Some w /\
                        (ThreadBlock.completed_ b = true ->
                         Warp.state_ w = COMPLETED);
warps_progress :
  forall a w, ComputeUnit.warp_store σ !! a = Some w ->
              exists k : Z,
                0 <= k <= 125 /\
                Warp.instructions_executed_ w = 8 * k /\
                Warp.state_ w = (if k =? 125 then COMPLETED else READY) /\
                Warp.getNumThreads w <= 32;
limits :
  WarpScheduler.max_warps_ (ComputeUnit.warp_scheduler_ cu) = 64 /\
  ComputeUnit.max_warps_per_cu_ cu = 64 /\
  ComputeUnit.max_blocks_per_cu_ cu = 16;
within_limits :
  Z.of_nat (length (ComputeUnit.active_blocks_ cu)) <= 16 /\
  ComputeUnit.warp_total (ComputeUnit.active_blocks_ cu) <= 64;
state_of_blocks :
  ComputeUnit.state_ cu
  = match ComputeUnit.active_blocks_ cu with [] => IDLE | _ => RUNNING end;
latency_nonneg :
  0 <= Memory.getLatency
         (Memory.getGlobalMemory (ComputeUnit.memory_controller_ σ)) / 10;
ready_queued :
  forall b a w, b ∈ ComputeUnit.active_blocks_ cu -> a ∈ ThreadBlock.getWarps b ->
                ComputeUnit.warp_store σ !! a = Some w ->
                Warp.state_ w = READY ->
                a ∈ WarpScheduler.ready_queue_ (ComputeUnit.warp_scheduler_ cu)
}.

(** The states a compute unit reaches from its construction, over a memory
  controller whose latency (a [size_t]) is not negative, by calls the
  device makes. *)
Definition reachable (σ : ComputeUnit.world) (cu : ComputeUnit.t) : Prop :=
exists (controller : Memory.MemoryController) (id stalled : Z) (ops : list op),
  0 <= Memory.getLatency (Memory.getGlobalMemory controller) / 10 /\
  Forall as_device_calls ops /\
  run (ComputeUnit.mkWorld ∅ controller, ComputeUnit.new id stalled) ops
  = Some (σ, cu).

(** The batches of 8 instructions the warps of the ready queue have yet
  to execute. *)
Definition batches_left (w : Warp.t) : Z :=
(1000 - Warp.instructions_executed_ w) / 8.

Definition queued_batches (σ : ComputeUnit.world) (queue : list WarpPtr) : Z :=
foldr (fun a acc =>
         match ComputeUnit.warp_store σ !! a with
         | Some w => batches_left w + acc
         | None => acc
         end) 0 queue.

Definition remaining_batches (σ : ComputeUnit.world) (cu : ComputeUnit.t) : Z :=
queued_batches σ (WarpScheduler.ready_queue_ (ComputeUnit.warp_scheduler_ cu)).

(** The calls that reach a compute unit while the distributor waits for
  it to become idle: the passes of its own run loop, and the
  distributor's [removeCompletedBlocks] before each [isIdle]. *)
Definition while_waiting (o : op) : Prop :=
match o with
| RunIteration | RemoveCompletedBlocks => True
| _ => False
end.

(** The counters the constructor initialises hold [uint64_t] values. *)
Definition counters_in_range (cu : ComputeUnit.t) : Prop :=
0 <= ComputeUnit.cycles_executed_ cu < 2 ^ 64 /\
0 <= ComputeUnit.instructions_executed_ cu < 2 ^ 64 /\
0 <= ComputeUnit.warps_executed_ cu < 2 ^ 64 /\
0 <= ComputeUnit.idle_cycles_ cu < 2 ^ 64.

End ComputeUnitRun.

(* ===================================================================== *)
(** ** gpu_device.h, gpu_device.cpp: the distributor's use of the scheduler *)
(* ===================================================================== *)

Module Distributor.

(** What one iteration of the loop of [GPUDevice::distributorThread] does
  to the scheduler once the pending bucket is not empty: it calls
  [getNextWorkload], goes back to the head of the loop on a null pointer
  and otherwise, after the blocks of the workload were handed out and
  have completed, calls [markWorkloadCompleted] on the workload it
  fetched. *)
Definition serve (heap : Scheduler.Store) (s : Scheduler.t)
: option Scheduler.WorkloadPtr * Scheduler.t :=
match Scheduler.getNextWorkload heap s with
| (Some workload, s') => (Some workload, Scheduler.markWorkloadCompleted workload s')
| (None, s') => (None, s')
end.

(** [n] iterations: the workloads served, in order, and the scheduler
  after the last one. *)
Fixpoint serve_all (heap : Scheduler.Store) (n : nat) (s : Scheduler.t)
: list (option Scheduler.WorkloadPtr) * Scheduler.t :=
match n with
| O => ([], s)
| S n' =>
    let '(r, s') := serve heap s in
    let '(rs, s'') := serve_all heap n' s' in
    (r :: rs, s'')
end.

End Distributor.

(* ===================================================================== *)
(** ** compute_unit.cpp: the warp scheduler as a queue *)
(* ===================================================================== *)

Module WarpQueue.

(** The calls on a warp scheduler.  [AddWarp] carries the store of the
  moment of the call, through which the pointer is read. *)
Inductive op :=
| AddWarp (heap : gmap WarpPtr Warp.t) (warp : option WarpPtr)
| GetNextWarp.

(** The scheduler, the warps [addWarp] returned [true] for and the warps
  [getNextWarp] returned, both in the order of the calls. *)
Definition state : Type := WarpScheduler.t * list WarpPtr * list WarpPtr.

Definition step (st : state) (o : op) : option state :=
let '(s, accepted, fetched) := st in
match o with
| AddWarp heap warp =>
    match WarpScheduler.addWarp heap warp s with
    | None => None
    | Some (added, s') =>
        Some (s', if added then accepted ++ option_list warp else accepted, fetched)
    end
| GetNextWarp =>
    let '(warp, s') := WarpScheduler.getNextWarp s in
    Some (s', accepted, fetched ++ option_list warp)
end.

Fixpoint run (st : state) (ops : list op) : option state :=
match ops with
| [] => Some st
| o :: ops' => st' ← step st o; run st' ops'
end.

(** A call that passes a pointer passes a live one. *)
Definition live (o : op) : Prop :=
match o with
| AddWarp heap (Some a) => is_Some (heap !! a)
| _ => True
end.

End WarpQueue.

(* ===================================================================== *)
(** ** gpu_device.cpp: the compute units of the device *)
(* ===================================================================== *)

Module GPUDevice.

(** [size_t GPUDevice::getTotalActiveBlocks() const]. *)
Definition getTotalActiveBlocks (compute_units : list ComputeUnit.t) : Z :=
fold_left (fun total cu => wrap64 (total + ComputeUnit.getActiveBlockCount cu))
          compute_units 0.

(** [size_t GPUDevice::getTotalActiveWarps() const]. *)
Definition getTotalActiveWarps (compute_units : list ComputeUnit.t) : Z :=
fold_left (fun total cu => wrap64 (total + ComputeUnit.getActiveWarpCount cu))
          compute_units 0.

(** [double GPUDevice::getAverageUtilization() const]. *)
Definition getAverageUtilization (compute_units : list ComputeUnit.t) : Double.t :=
match compute_units with
| [] => Double.zero
| _ =>
    Double.div
      (fold_left (fun total_util cu =>
                    Double.add total_util (ComputeUnit.getUtilization cu))
                 compute_units Double.zero)
      (Double.of_integer (Z.of_nat (length compute_units)))
end.

(** The [for] loop of [distributorThread] that looks for a compute unit
  for [block]: the first unit that can accept the block is assigned it
  and the loop is left.  The flag is [assigned]. *)
Fixpoint first_fit (σ : ComputeUnit.world) (block : ThreadBlock.t WarpPtr)
       (compute_units : list ComputeUnit.t)
: option (bool * list ComputeUnit.t) :=
match compute_units with
| [] => Some (false, [])
| cu :: rest =>
    if ComputeUnit.canAcceptBlock (Some block) cu then
      match ComputeUnit.assignBlock σ (Some block) cu with
      | None => None
      | Some (_, cu') => Some (true, cu' :: rest)
      end
    else
      match first_fit σ block rest with
      | None => None
      | Some (assigned, rest') => Some (assigned, cu :: rest')
      end
end.

(** The index of the first unit that can accept [block]. *)
Fixpoint first_accepting (block : ThreadBlock.t WarpPtr)
       (compute_units : list ComputeUnit.t) : option nat :=
match compute_units with
| [] => None
| cu :: rest =>
    if ComputeUnit.canAcceptBlock (Some block) cu then Some O
    else S <$> first_accepting block rest
end.

(** The loop of [distributorThread] over the compute units while it waits:
  [removeCompletedBlocks] on each, and [all_idle]. *)
Fixpoint sweep (σ : ComputeUnit.world) (compute_units : list ComputeUnit.t)
: ComputeUnit.world * list ComputeUnit.t * bool :=
match compute_units with
| [] => (σ, [], true)
| cu :: rest =>
    let '(σ1, cu') := ComputeUnit.removeCompletedBlocks σ cu in
    let '(σ2, rest', all_idle) := sweep σ1 rest in
    (σ2, cu' :: rest', ComputeUnitRun.isIdle cu' && all_idle)
end.

End GPUDevice.

(* ===================================================================== *)
(** ** metrics.h, metrics.cpp: the analyzer and the comparison *)
(* ===================================================================== *)

Module Analyzer.

Record GPUMetrics := mkGPUMetrics {
total_cycles : Z;
total_instructions : Z;
total_memory_ops : Z;
total_execution_time_ms : Double.t;
average_utilization : Double.t;
memory_bandwidth_utilization : Double.t;
total_workloads_executed : Z
}.

(** [GPUMetrics{}]: every member value-initialised. *)
Definition GPUMetrics_default : GPUMetrics :=
{| total_cycles := 0; total_instructions := 0; total_memory_ops := 0;
   total_execution_time_ms := Double.zero;
   average_utilization := Double.zero;
   memory_bandwidth_utilization := Double.zero;
   total_workloads_executed := 0 |}.

(** [PerformanceAnalyzer] with all its members; the two time points are
  readings of the clock, in ticks. *)
Record t := mk {
workload_metrics_ : list Metrics.WorkloadMetrics;
gpu_metrics_ : GPUMetrics;
sim_start_time_ : Z;
sim_end_time_ : Z
}.

(** [PerformanceAnalyzer::PerformanceAnalyzer()]. *)
Definition new : t :=
{| workload_metrics_ := []; gpu_metrics_ := GPUMetrics_default;
   sim_start_time_ := 0; sim_end_time_ := 0 |}.

Definition getWorkloadMetrics (a : t) : list Metrics.WorkloadMetrics :=
workload_metrics_ a.
Definition getGPUMetrics (a : t) : GPUMetrics := gpu_metrics_ a.

(** [void PerformanceAnalyzer::recordGPUMetrics(const GPUDevice* device)];
  [None] is the null pointer. *)
Definition recordGPUMetrics (device : option Metrics.Device) (a : t) : t :=
match device with
| None => a
| Some d =>
    let '(cycles, instructions, total_utilization) :=
      fold_left
        (fun acc cu =>
           let '(cycles, instructions, total_utilization) := acc in
           (wrap64 (cycles + ComputeUnit.getCyclesExecuted cu),
            wrap64 (instructions + ComputeUnit.getInstructionsExecuted cu),
            Double.add total_utilization (ComputeUnit.getUtilization cu)))
        (Metrics.compute_units_ d) (0, 0, Double.zero) in
    {| workload_metrics_ := workload_metrics_ a;
       gpu_metrics_ :=
         {| total_cycles := cycles;
            total_instructions := instructions;
            total_memory_ops :=
              Memory.getTotalMemoryOps (Metrics.memory_controller_ d);
            total_execution_time_ms := total_execution_time_ms (gpu_metrics_ a);
            average_utilization :=
              Double.div total_utilization
                         (Double.of_integer (Metrics.getNumComputeUnits d));
            memory_bandwidth_utilization :=
              memory_bandwidth_utilization (gpu_metrics_ a);
            total_workloads_executed :=
              Z.of_nat (length (workload_metrics_ a)) |};
       sim_start_time_ := sim_start_time_ a;
       sim_end_time_ := sim_end_time_ a |}
end.

(** [void PerformanceAnalyzer::reset()]. *)
Definition reset (a : t) : t :=
{| workload_metrics_ := []; gpu_metrics_ := GPUMetrics_default;
   sim_start_time_ := sim_start_time_ a;
   sim_end_time_ := sim_end_time_ a |}.

(** [startSimulation] reads the clock; [now] is the value read. *)
Definition startSimulation (now : Z) (a : t) : t :=
{| workload_metrics_ := workload_metrics_ a; gpu_metrics_ := gpu_metrics_ a;
   sim_start_time_ := now; sim_end_time_ := sim_end_time_ a |}.

(** [double getAverageThroughput() const]. *)
Definition getAverageThroughput (a : t) : Double.t :=
match workload_metrics_ a with
| [] => Double.zero
| _ =>
    Double.div
      (fold_left (fun total m => Double.add total (Metrics.throughput m))
                 (workload_metrics_ a) Double.zero)
      (Double.of_integer (Z.of_nat (length (workload_metrics_ a))))
end.

(** [double getAverageWorkloadTime() const]. *)
Definition getAverageWorkloadTime (a : t) : Double.t :=
match workload_metrics_ a with
| [] => Double.zero
| _ =>
    Double.div
      (fold_left (fun total m => Double.add total (Metrics.execution_time_ms m))
                 (workload_metrics_ a) Double.zero)
      (Double.of_integer (Z.of_nat (length (workload_metrics_ a))))
end.

Section Clock.

Variable ticks_per_microsecond : Z.

(** [double getTotalSimulationTime() const]: the duration cast to whole
milliseconds, and its count converted to [double]. *)
Definition getTotalSimulationTime (a : t) : Double.t :=
Double.of_integer
(Z.quot (sim_end_time_ a - sim_start_time_ a) (ticks_per_microsecond * 1000)).

(** [endSimulation] reads the clock; [now] is the value read. *)
Definition endSimulation (now : Z) (a : t) : t :=
let a' :=
{| workload_metrics_ := workload_metrics_ a; gpu_metrics_ := gpu_metrics_ a;
   sim_start_time_ := sim_start_time_ a; sim_end_time_ := now |} in
{| workload_metrics_ := workload_metrics_ a';
 gpu_metrics_ :=
   {| total_cycles := total_cycles (gpu_metrics_ a');
      total_instructions := total_instructions (gpu_metrics_ a');
      total_memory_ops := total_memory_ops (gpu_metrics_ a');
      total_execution_time_ms := getTotalSimulationTime a';
      average_utilization := average_utilization (gpu_metrics_ a');
      memory_bandwidth_utilization :=
        memory_bandwidth_utilization (gpu_metrics_ a');
      total_workloads_executed := total_workloads_executed (gpu_metrics_ a') |};
 sim_start_time_ := sim_start_time_ a'; sim_end_time_ := sim_end_time_ a' |}.

(** [recordWorkloadMetrics] appends to [workload_metrics_] and touches no
other member. *)
Definition recordWorkloadMetrics (workload : option Workload.t)
       (device : option Metrics.Device) (a : t) : t :=
{| workload_metrics_ :=
   Metrics.workload_metrics_
     (Metrics.recordWorkloadMetrics ticks_per_microsecond workload device
        {| Metrics.workload_metrics_ := workload_metrics_ a |});
 gpu_metrics_ := gpu_metrics_ a;
 sim_start_time_ := sim_start_time_ a; sim_end_time_ := sim_end_time_ a |}.

(** The calls on an analyzer. *)
Inductive op :=
| RecordWorkloadMetrics (workload : option Workload.t) (device : option Metrics.Device)
| RecordGPUMetrics (device : option Metrics.Device)
| StartSimulation (now : Z)
| EndSimulation (now : Z)
| Reset.

Definition step (a : t) (o : op) : t :=
match o with
| RecordWorkloadMetrics workload device => recordWorkloadMetrics workload device a
| RecordGPUMetrics device => recordGPUMetrics device a
| StartSimulation now => startSimulation now a
| EndSimulation now => endSimulation now a
| Reset => reset a
end.

Definition run (a : t) (ops : list op) : t := fold_left step ops a.

End Clock.

(** The names of the workloads recorded since the last [reset]: those of
  the calls of [recordWorkloadMetrics] in which neither pointer is null. *)
Definition recorded_names (ops : list op) : list string :=
fold_left
  (fun names o =>
     match o with
     | RecordWorkloadMetrics (Some w) (Some _) => names ++ [Workload.name_ w]
     | Reset => []
     | _ => names
     end) ops [].

(** The time of the last [endSimulation] since the last [reset], in
  ticks from the [startSimulation] before it. *)
Definition simulation_clock (ops : list op) : Z * option Z :=
fold_left
  (fun st o =>
     match o with
     | StartSimulation now => (now, st.2)
     | EndSimulation now => (st.1, Some (now - st.1))
     | Reset => (st.1, None)
     | _ => st
     end) ops (0, None).

Definition simulated_ticks (ops : list op) : option Z := (simulation_clock ops).2.

End Analyzer.

Module SchedulerComparison.

(** [std::map<std::string, std::unique_ptr<PerformanceAnalyzer>>]: the
  entries in the order of iteration, which is the order of the keys;
  [None] is a null pointer. *)
Definition t : Type := list (string * option Analyzer.t).

Definition new : t := [].

(** [analyzer_map_[scheduler_name] = std::move(analyzer)]: the entry of
  the key is created where the order of the keys puts it, or
  overwritten. *)
Fixpoint addAnalyzer (scheduler_name : string) (analyzer : option Analyzer.t)
       (analyzer_map : t) : t :=
match analyzer_map with
| [] => [(scheduler_name, analyzer)]
| (name, a) :: rest =>
    match String.compare scheduler_name name with
    | Lt => (scheduler_name, analyzer) :: (name, a) :: rest
    | Eq => (scheduler_name, analyzer) :: rest
    | Gt => (name, a) :: addAnalyzer scheduler_name analyzer rest
    end
end.

(** [std::numeric_limits<double>::max()]. *)
Definition DBL_MAX : Double.t := S754_finite false (2 ^ 53 - 1) 971.

(** The body of the loop of [getBestScheduler] for one entry of the map;
  a null analyzer is dereferenced. *)
Definition getBestScheduler_body (best : Double.t * string)
         (entry : string * option Analyzer.t) : option (Double.t * string) :=
analyzer ← entry.2;
let time := Analyzer.total_execution_time_ms (Analyzer.getGPUMetrics analyzer) in
if Double.ltb time best.1 && Double.ltb Double.zero time
then Some (time, entry.1)
else Some best.

Fixpoint getBestScheduler_loop (entries : t) (best : Double.t * string)
: option (Double.t * string) :=
match entries with
| [] => Some best
| entry :: rest =>
    best' ← getBestScheduler_body best entry;
    getBestScheduler_loop rest best'
end.

(** [std::string SchedulerComparison::getBestScheduler() const]. *)
Definition getBestScheduler (analyzer_map : t) : option string :=
match analyzer_map with
| [] => Some "None"
| _ => snd <$> getBestScheduler_loop analyzer_map (DBL_MAX, "")
end.

(** The keys of the entries ascend strictly, in the order of
  [std::string]: each key is below the keys of all the later entries. *)
Fixpoint ascending (analyzer_map : t) : Prop :=
match analyzer_map with
| [] => True
| (name, _) :: rest =>
    Forall (fun entry => String.compare name entry.1 = Lt) rest /\ ascending rest
end.

(** The analyzer last added under a name, if any was. *)
Definition last_added (name : string) (calls : list (string * option Analyzer.t))
: option (option Analyzer.t) :=
fold_left (fun r call => if String.eqb call.1 name then Some call.2 else r)
          calls None.

(** An analyzer that can be chosen: its total time is positive and below
  the largest [double]. *)
Definition eligible (a : Analyzer.t) : bool :=
Double.ltb (Analyzer.total_execution_time_ms (Analyzer.getGPUMetrics a)) DBL_MAX
&& Double.ltb Double.zero
     (Analyzer.total_execution_time_ms (Analyzer.getGPUMetrics a)).

(** What the loop of [getBestScheduler] holds after the entries
  [entries]: the initial values if none could be chosen, or else the
  time and the name of the first entry of least time among those that
  can be chosen. *)
Definition best_so_far (entries : list (string * Analyzer.t))
         (best : Double.t * string) : Prop :=
(Forall (fun entry => eligible entry.2 = false) entries /\ best = (DBL_MAX, "")) \/
(exists i name a,
    entries !! i = Some (name, a) /\
    best = (Analyzer.total_execution_time_ms (Analyzer.getGPUMetrics a), name) /\
    eligible a = true /\
    forall j name' a',
      entries !! j = Some (name', a') -> eligible a' = true ->
      Double.ltb (Analyzer.total_execution_time_ms (Analyzer.getGPUMetrics a'))
                 (Analyzer.total_execution_time_ms (Analyzer.getGPUMetrics a))
      = false /\
      ((j < i)%nat ->
       Double.ltb (Analyzer.total_execution_time_ms (Analyzer.getGPUMetrics a))
                  (Analyzer.total_execution_time_ms (Analyzer.getGPUMetrics a'))
       = true)).

End SchedulerComparison.

(* ===================================================================== *)
(** ** gpu_device.cpp: submission and distribution of a shared workload *)
(* ===================================================================== *)

Module Submission.

(** The device with the workloads its scheduler points to: the objects, by
  address, and the scheduler.  A [shared_ptr<Workload>] submitted twice
  is one object behind two entries. *)
Definition state : Type := Scheduler.Store * Scheduler.t.

(** The store after a write through pointer [p]. *)
Definition update (p : Scheduler.WorkloadPtr) (w : Workload.t)
         (heap : Scheduler.Store) : Scheduler.Store :=
fun q => if Nat.eqb q p then w else heap q.

(** [void GPUDevice::submitWorkload(std::shared_ptr<Workload> workload)];
  [None] is the null pointer. *)
Definition submitWorkload (workload : option Scheduler.WorkloadPtr) (st : state)
: state :=
match workload with
| None => st
| Some p =>
    (update p (Workload.generateThreadBlocks (st.1 p)) st.1,
     Scheduler.addWorkload p st.2)
end.

(** The loop [while (workload->hasMoreBlocks())] of [distributorThread],
  while the device runs and every block finds a compute unit: the blocks
  handed out, in order, and the workload after the loop.  [fuel] bounds
  the number of passes. *)
Fixpoint hand_out (fuel : nat) (w : Workload.t)
: list (ThreadBlock.t Warp.t) * Workload.t :=
match fuel with
| O => ([], w)
| S fuel' =>
    if Workload.hasMoreBlocks w then
      match Workload.getNextBlock w with
      | (None, w') => ([], w')
      | (Some block, w') =>
          let '(blocks, w'') := hand_out fuel' w' in
          (block :: blocks, w'')
      end
    else ([], w)
end.

(** One iteration of the loop of [distributorThread] with a pending
  workload: the workload fetched, the blocks handed out and the state
  after [markWorkloadCompleted]; [started] and [completed] are the
  readings of the clock in [start] and in [complete]. *)
Definition iteration (started completed : Z) (st : state)
: option Scheduler.WorkloadPtr * list (ThreadBlock.t Warp.t) * state :=
let '(heap, s) := st in
match Scheduler.getNextWorkload heap s with
| (None, s') => (None, [], (heap, s'))
| (Some p, s') =>
    let w := Workload.start started (heap p) in
    let '(blocks, w') := hand_out (length (Workload.thread_blocks_ w)) w in
    let w'' := Workload.complete completed w' in
    (Some p, blocks, (update p w'' heap, Scheduler.markWorkloadCompleted p s'))
end.

End Submission.
(* ===================================================================== *)
(** * Properties *)
(* ===================================================================== *)

(** ** Machine arithmetic *)

Lemma wrap64_small (x : Z) : 0 <= x < 2 ^ 64 -> wrap64 x = x.
Proof. intros H. unfold wrap64. apply Z.mod_small. exact H. Qed.

Lemma wrap32_small (x : Z) : 0 <= x < 2 ^ 32 -> wrap32 x = x.
Proof. intros H. unfold wrap32. apply Z.mod_small. exact H. Qed.

Lemma wrap64_range (x : Z) : 0 <= wrap64 x < 2 ^ 64.
Proof. unfold wrap64. apply Z.mod_pos_bound. lia. Qed.

Lemma wrap64_add_l (x y : Z) : wrap64 (wrap64 x + y) = wrap64 (x + y).
Proof. unfold wrap64. apply Zplus_mod_idemp_l. Qed.

Lemma wrap64_mul_l (x y : Z) : wrap64 (wrap64 x * y) = wrap64 (x * y).
Proof. unfold wrap64. apply Zmult_mod_idemp_l. Qed.

Lemma wrap64_mul_r (x y : Z) : wrap64 (x * wrap64 y) = wrap64 (x * y).
Proof. unfold wrap64. apply Zmult_mod_idemp_r. Qed.

(** ** <algorithm> *)

Section MaxElementByKey.
Context {A : Type} (key : A -> Z).

Let comp (a b : A) : bool := key a <? key b.

(** The invariant of the loop of [std::max_element] for a comparison by
    an integer key: the candidate is a largest element of the part already
    visited, and strictly larger than everything before it. *)
Lemma max_element_loop_by_key (rest pre : list A) (i : nat) (x : A) :
  pre !! i = Some x ->
  (forall j y, pre !! j = Some y -> key y <= key x) ->
  (forall j y, (j < i)%nat -> pre !! j = Some y -> key y < key x) ->
  forall i' x',
    Std.max_element_loop comp (i, x) (length pre) rest = (i', x') ->
    (pre ++ rest) !! i' = Some x' /\
    (forall j y, (pre ++ rest) !! j = Some y -> key y <= key x') /\
    (forall j y, (j < i')%nat -> (pre ++ rest) !! j = Some y -> key y < key x').
Proof.
  revert pre i x.
  induction rest as [|r rest IH]; intros pre i x Hi Hmax Hfirst i' x' Hloop.
  - simpl in Hloop. inversion Hloop; subst. rewrite app_nil_r. auto.
  - simpl in Hloop.
    replace (pre ++ r :: rest) with ((pre ++ [r]) ++ rest)
      by (rewrite <- app_assoc; reflexivity).
    replace (S (length pre)) with (length (pre ++ [r])) in Hloop
      by (rewrite length_app; simpl; lia).
    destruct (comp x r) eqn:Hc; unfold comp in Hc.
    + apply Z.ltb_lt in Hc.
      eapply IH; [ | | | exact Hloop ].
      * rewrite lookup_app_r by lia. rewrite Nat.sub_diag. reflexivity.
      * intros j y Hj. apply lookup_app_Some in Hj as [Hj|[_ Hj]].
        -- specialize (Hmax _ _ Hj). lia.
        -- apply list_lookup_singleton_Some in Hj as [_ ->]. lia.
      * intros j y Hlt' Hj. apply lookup_app_Some in Hj as [Hj|[Hge' _]].
        -- specialize (Hmax _ _ Hj). lia.
        -- lia.
    + apply Z.ltb_ge in Hc.
      eapply IH; [ | | | exact Hloop ].
      * apply lookup_app_l_Some. exact Hi.
      * intros j y Hj. apply lookup_app_Some in Hj as [Hj|[_ Hj]].
        -- eauto.
        -- apply list_lookup_singleton_Some in Hj as [_ ->]. lia.
      * intros j y Hlt' Hj. apply lookup_app_Some in Hj as [Hj|[Hge' _]].
        -- eauto.
        -- apply lookup_lt_Some in Hi. lia.
Qed.

(** [std::max_element] by an integer key selects the first of the largest
    elements. *)
Lemma max_element_by_key (l : list A) (i : nat) (x : A) :
  Std.max_element comp l = Some (i, x) ->
  l !! i = Some x /\
  (forall j y, l !! j = Some y -> key y <= key x) /\
  (forall j y, (j < i)%nat -> l !! j = Some y -> key y < key x).
Proof.
  destruct l as [|a l]; simpl; [discriminate|].
  intros H. injection H as H.
  apply (max_element_loop_by_key l [a] 0 a) in H; try exact H.
  - reflexivity.
  - intros [|j] y Hj; simpl in Hj; [injection Hj as ->; lia | discriminate ].
  - intros j y Hlt. lia.
Qed.

Lemma max_element_nonempty (c : A -> A -> bool) (l : list A) :
  l <> [] -> exists i x, Std.max_element c l = Some (i, x).
Proof.
  destruct l as [|a l]; [congruence|]. intros _. simpl.
  destruct (Std.max_element_loop c (0%nat, a) 1 l) as [i x]. eauto.
Qed.

End MaxElementByKey.

(** ** Kernel-level scheduler *)

Lemma Priority_getNextWorkload_unfold (heap : Scheduler.Store) (s : Scheduler.t) :
  Scheduler.algorithm_ s = PRIORITY ->
  Scheduler.getNextWorkload heap s = Scheduler.Priority_getNextWorkload heap s.
Proof. unfold Scheduler.getNextWorkload. intros ->. reflexivity. Qed.

(** C4.  The priority scheduler's [getNextWorkload] removes from the pending
    bucket and returns (appending it to the running bucket) a kernel of
    maximum priority, the one of lowest pending index among those of maximum
    priority; on an empty pending bucket it returns the null pointer and
    changes nothing.  On the seed A (1), B (5), C (3), D (5) four successive
    calls dispatch B, D, C, A. *)
Theorem Priority_getNextWorkload_spec :
  (forall (heap : Scheduler.Store) (s : Scheduler.t),
      Scheduler.algorithm_ s = PRIORITY ->
      Scheduler.pending_workloads_ s <> [] ->
      exists (i : nat) (w : Scheduler.WorkloadPtr),
        let s' := snd (Scheduler.getNextWorkload heap s) in
        fst (Scheduler.getNextWorkload heap s) = Some w /\
        Scheduler.pending_workloads_ s !! i = Some w /\
        (forall j w', Scheduler.pending_workloads_ s !! j = Some w' ->
                      Workload.getPriority (heap w') <= Workload.getPriority (heap w)) /\
        (forall j w', (j < i)%nat -> Scheduler.pending_workloads_ s !! j = Some w' ->
                      Workload.getPriority (heap w') < Workload.getPriority (heap w)) /\
        Scheduler.pending_workloads_ s' = delete i (Scheduler.pending_workloads_ s) /\
        Scheduler.running_workloads_ s' = Scheduler.running_workloads_ s ++ [w] /\
        Scheduler.completed_workloads_ s' = Scheduler.completed_workloads_ s) /\
  (forall (heap : Scheduler.Store) (s : Scheduler.t),
      Scheduler.algorithm_ s = PRIORITY ->
      Scheduler.pending_workloads_ s = [] ->
      Scheduler.getNextWorkload heap s = (None, s)) /\
  fst (Scheduler.dispatch_order Seed.heap 4 (Seed.submit_all PRIORITY))
  = [Some Seed.B; Some Seed.D; Some Seed.C; Some Seed.A].
Proof.
  split; [|split].
  - intros heap s Halg Hne.
    rewrite (Priority_getNextWorkload_unfold heap s Halg).
    unfold Scheduler.Priority_getNextWorkload.
    destruct (max_element_nonempty
                (fun a b => Workload.getPriority (heap a) <? Workload.getPriority (heap b))
                (Scheduler.pending_workloads_ s) Hne) as (i & w & Hmax).
    rewrite Hmax. exists i, w. cbn zeta. simpl.
    apply (max_element_by_key (fun p => Workload.getPriority (heap p))) in Hmax
      as (Hi & Hall & Hfirst).
    repeat split; auto.
  - intros heap s Halg Hnil.
    rewrite (Priority_getNextWorkload_unfold heap s Halg).
    unfold Scheduler.Priority_getNextWorkload. rewrite Hnil. reflexivity.
  - vm_compute. reflexivity.
Qed.

Lemma Priority_getNextWorkload_spec_witness :
  exists (i : nat) (w : Scheduler.WorkloadPtr),
    let s := Seed.submit_all PRIORITY in
    let s' := snd (Scheduler.getNextWorkload Seed.heap s) in
    fst (Scheduler.getNextWorkload Seed.heap s) = Some w /\
    Scheduler.pending_workloads_ s !! i = Some w /\
    (forall j w', Scheduler.pending_workloads_ s !! j = Some w' ->
                  Workload.getPriority (Seed.heap w') <= Workload.getPriority (Seed.heap w)) /\
    (forall j w', (j < i)%nat -> Scheduler.pending_workloads_ s !! j = Some w' ->
                  Workload.getPriority (Seed.heap w') < Workload.getPriority (Seed.heap w)) /\
    Scheduler.pending_workloads_ s' = delete i (Scheduler.pending_workloads_ s) /\
    Scheduler.running_workloads_ s' = Scheduler.running_workloads_ s ++ [w] /\
    Scheduler.completed_workloads_ s' = Scheduler.completed_workloads_ s.
Proof.
  apply (proj1 Priority_getNextWorkload_spec Seed.heap (Seed.submit_all PRIORITY)).
  - reflexivity.
  - discriminate.
Defined.

(** The dynamic type of a scheduler never changes. *)
Lemma getNextWorkload_algorithm (heap : Scheduler.Store) (s : Scheduler.t) :
  Scheduler.algorithm_ (snd (Scheduler.getNextWorkload heap s)) = Scheduler.algorithm_ s.
Proof.
  unfold Scheduler.getNextWorkload, Scheduler.FIFO_getNextWorkload,
    Scheduler.Priority_getNextWorkload, Scheduler.RoundRobin_getNextWorkload,
    Scheduler.ShortestJobFirst_getNextWorkload.
  destruct (Scheduler.algorithm_ s) eqn:Halg.
  - destruct (Scheduler.pending_workloads_ s); simpl; auto.
  - destruct (Std.max_element _ _) as [[i w]|]; simpl; auto.
  - destruct (Scheduler.pending_workloads_ s) eqn:Hp; simpl; auto.
    destruct (_ !! _); simpl; auto.
  - destruct (Std.min_element _ _) as [[i w]|]; simpl; auto.
Qed.

Lemma step_algorithm (s : Scheduler.t) (o : Scheduler.op) :
  Scheduler.algorithm_ (Scheduler.step s o) = Scheduler.algorithm_ s.
Proof.
  destruct o; simpl.
  - reflexivity.
  - apply getNextWorkload_algorithm.
  - unfold Scheduler.markWorkloadRunning. destruct (Std.find _ _); reflexivity.
  - unfold Scheduler.markWorkloadCompleted. destruct (Std.find _ _); reflexivity.
Qed.

Lemma run_algorithm (ops : list Scheduler.op) (s : Scheduler.t) :
  Scheduler.algorithm_ (Scheduler.run s ops) = Scheduler.algorithm_ s.
Proof.
  unfold Scheduler.run. revert s.
  induction ops as [|o ops IH]; intros s; simpl; [reflexivity|].
  rewrite IH. apply step_algorithm.
Qed.

(** A cursor at 0 stays at 0: the only assignment stores [0 mod size]. *)
Lemma getNextWorkload_cursor_zero (heap : Scheduler.Store) (s : Scheduler.t) :
  Scheduler.current_index_ s = 0 ->
  Scheduler.current_index_ (snd (Scheduler.getNextWorkload heap s)) = 0.
Proof.
  intros H0.
  unfold Scheduler.getNextWorkload, Scheduler.FIFO_getNextWorkload,
    Scheduler.Priority_getNextWorkload, Scheduler.RoundRobin_getNextWorkload,
    Scheduler.ShortestJobFirst_getNextWorkload.
  destruct (Scheduler.algorithm_ s).
  - destruct (Scheduler.pending_workloads_ s); simpl; auto.
  - destruct (Std.max_element _ _) as [[i w]|]; simpl; auto.
  - destruct (Scheduler.pending_workloads_ s) eqn:Hp; simpl; auto.
    rewrite H0. rewrite Z.mod_0_l by lia. simpl. reflexivity.
  - destruct (Std.min_element _ _) as [[i w]|]; simpl; auto.
Qed.

Lemma run_cursor_zero (ops : list Scheduler.op) (s : Scheduler.t) :
  Scheduler.current_index_ s = 0 ->
  Scheduler.current_index_ (Scheduler.run s ops) = 0.
Proof.
  unfold Scheduler.run. revert s.
  induction ops as [|o ops IH]; intros s H0; simpl; [exact H0|].
  apply IH. destruct o; simpl.
  - exact H0.
  - apply getNextWorkload_cursor_zero, H0.
  - unfold Scheduler.markWorkloadRunning. destruct (Std.find _ _); simpl; exact H0.
  - unfold Scheduler.markWorkloadCompleted. destruct (Std.find _ _); simpl; exact H0.
Qed.

(** One call of the round-robin [getNextWorkload] on a non-empty pending
    bucket. *)
Lemma RoundRobin_getNextWorkload_step (heap : Scheduler.Store) (s : Scheduler.t) :
  Scheduler.algorithm_ s = ROUND_ROBIN ->
  0 <= Scheduler.current_index_ s ->
  Scheduler.pending_workloads_ s <> [] ->
  let i := Scheduler.current_index_ s mod Z.of_nat (length (Scheduler.pending_workloads_ s)) in
  exists w,
    Scheduler.pending_workloads_ s !! Z.to_nat i = Some w /\
    Scheduler.getNextWorkload heap s
    = (Some w, Scheduler.dispatch (Z.to_nat i) w i s).
Proof.
  intros Halg Hpos Hne i.
  unfold Scheduler.getNextWorkload. rewrite Halg.
  unfold Scheduler.RoundRobin_getNextWorkload.
  destruct (Scheduler.pending_workloads_ s) as [|p ps] eqn:Hp; [congruence|].
  fold i.
  assert (Hlt : (Z.to_nat i < length (p :: ps))%nat).
  { subst i. pose proof (Z.mod_pos_bound (Scheduler.current_index_ s)
                           (Z.of_nat (length (p :: ps)))) as Hb.
    simpl length in *. lia. }
  apply lookup_lt_is_Some_2 in Hlt as [w Hw].
  exists w. rewrite Hw. split; reflexivity.
Qed.

(** C1, as the code has it.  The round-robin [getNextWorkload] removes and
    returns [pending[cursor mod size]] and stores [cursor mod size] in the
    cursor; the cursor starts at 0 and therefore stays at 0, so that every
    call removes the head of the pending bucket; for the seed A, B, C, D the
    four calls dispatch A, B, C, D. *)
Theorem RoundRobin_getNextWorkload_spec :
  (forall (heap : Scheduler.Store) (s : Scheduler.t),
      Scheduler.algorithm_ s = ROUND_ROBIN ->
      0 <= Scheduler.current_index_ s ->
      Scheduler.pending_workloads_ s <> [] ->
      let i := Scheduler.current_index_ s
               mod Z.of_nat (length (Scheduler.pending_workloads_ s)) in
      let s' := snd (Scheduler.getNextWorkload heap s) in
      exists w,
        Scheduler.pending_workloads_ s !! Z.to_nat i = Some w /\
        fst (Scheduler.getNextWorkload heap s) = Some w /\
        Scheduler.pending_workloads_ s' = delete (Z.to_nat i) (Scheduler.pending_workloads_ s) /\
        Scheduler.running_workloads_ s' = Scheduler.running_workloads_ s ++ [w] /\
        Scheduler.current_index_ s' = i) /\
  (forall (ops : list Scheduler.op),
      Scheduler.current_index_ (Scheduler.run (Scheduler.createScheduler ROUND_ROBIN) ops) = 0) /\
  (forall (ops : list Scheduler.op) (heap : Scheduler.Store) w rest,
      let s := Scheduler.run (Scheduler.createScheduler ROUND_ROBIN) ops in
      let s' := snd (Scheduler.getNextWorkload heap s) in
      Scheduler.pending_workloads_ s = w :: rest ->
      fst (Scheduler.getNextWorkload heap s) = Some w /\
      Scheduler.pending_workloads_ s' = rest /\
      Scheduler.running_workloads_ s' = Scheduler.running_workloads_ s ++ [w] /\
      Scheduler.current_index_ s' = 0) /\
  fst (Scheduler.dispatch_order Seed.heap 4 (Seed.submit_all ROUND_ROBIN))
  = [Some Seed.A; Some Seed.B; Some Seed.C; Some Seed.D].
Proof.
  split; [|split; [|split]].
  - intros heap s Halg Hpos Hne i s'.
    destruct (RoundRobin_getNextWorkload_step heap s Halg Hpos Hne) as (w & Hw & Hnext).
    exists w. subst s'. rewrite Hnext. simpl. auto.
  - intros ops. apply run_cursor_zero. reflexivity.
  - intros ops heap w rest s s' Hp.
    assert (Halg : Scheduler.algorithm_ s = ROUND_ROBIN)
      by (subst s; rewrite run_algorithm; reflexivity).
    assert (H0 : Scheduler.current_index_ s = 0)
      by (subst s; apply run_cursor_zero; reflexivity).
    assert (Hne : Scheduler.pending_workloads_ s <> []) by (rewrite Hp; discriminate).
    destruct (RoundRobin_getNextWorkload_step heap s Halg ltac:(lia) Hne)
      as (w' & Hw & Hnext).
    rewrite H0, Z.mod_0_l in Hw, Hnext
      by (destruct (Scheduler.pending_workloads_ s); simpl; [congruence|lia]).
    rewrite Hp in Hw. simpl in Hw. injection Hw as <-.
    subst s'. rewrite Hnext. simpl. rewrite Hp. auto.
  - vm_compute. reflexivity.
Qed.

Lemma RoundRobin_getNextWorkload_spec_witness :
  let s := Seed.submit_all ROUND_ROBIN in
  let s' := snd (Scheduler.getNextWorkload Seed.heap s) in
  fst (Scheduler.getNextWorkload Seed.heap s) = Some Seed.A /\
  Scheduler.pending_workloads_ s' = [Seed.B; Seed.C; Seed.D] /\
  Scheduler.running_workloads_ s' = Scheduler.running_workloads_ s ++ [Seed.A] /\
  Scheduler.current_index_ s' = 0.
Proof.
  apply (proj1 (proj2 (proj2 RoundRobin_getNextWorkload_spec))
           [Scheduler.AddWorkload Seed.A; Scheduler.AddWorkload Seed.B;
            Scheduler.AddWorkload Seed.C; Scheduler.AddWorkload Seed.D]
           Seed.heap Seed.A [Seed.B; Seed.C; Seed.D]).
  reflexivity.
Defined.

(** The order the specification tabulates for round-robin, A, C, D, B, is
    not the order of the code. *)
Lemma RoundRobin_seed_order_not_ACDB :
  fst (Scheduler.dispatch_order Seed.heap 4 (Seed.submit_all ROUND_ROBIN))
  <> [Some Seed.A; Some Seed.C; Some Seed.D; Some Seed.B].
Proof. vm_compute. discriminate. Qed.

Section MinElementByKey.
Context {A : Type} (key : A -> Z).

Let comp (a b : A) : bool := key a <? key b.

Lemma min_element_loop_by_key (rest pre : list A) (i : nat) (x : A) :
  pre !! i = Some x ->
  (forall j y, pre !! j = Some y -> key x <= key y) ->
  (forall j y, (j < i)%nat -> pre !! j = Some y -> key x < key y) ->
  forall i' x',
    Std.min_element_loop comp (i, x) (length pre) rest = (i', x') ->
    (pre ++ rest) !! i' = Some x' /\
    (forall j y, (pre ++ rest) !! j = Some y -> key x' <= key y) /\
    (forall j y, (j < i')%nat -> (pre ++ rest) !! j = Some y -> key x' < key y).
Proof.
  revert pre i x.
  induction rest as [|r rest IH]; intros pre i x Hi Hmin Hfirst i' x' Hloop.
  - simpl in Hloop. inversion Hloop; subst. rewrite app_nil_r. auto.
  - simpl in Hloop.
    replace (pre ++ r :: rest) with ((pre ++ [r]) ++ rest)
      by (rewrite <- app_assoc; reflexivity).
    replace (S (length pre)) with (length (pre ++ [r])) in Hloop
      by (rewrite length_app; simpl; lia).
    destruct (comp r x) eqn:Hc; unfold comp in Hc.
    + apply Z.ltb_lt in Hc.
      eapply IH; [ | | | exact Hloop ].
      * rewrite lookup_app_r by lia. rewrite Nat.sub_diag. reflexivity.
      * intros j y Hj. apply lookup_app_Some in Hj as [Hj|[_ Hj]].
        -- specialize (Hmin _ _ Hj). lia.
        -- apply list_lookup_singleton_Some in Hj as [_ ->]. lia.
      * intros j y Hlt' Hj. apply lookup_app_Some in Hj as [Hj|[Hge' _]].
        -- specialize (Hmin _ _ Hj). lia.
        -- lia.
    + apply Z.ltb_ge in Hc.
      eapply IH; [ | | | exact Hloop ].
      * apply lookup_app_l_Some. exact Hi.
      * intros j y Hj. apply lookup_app_Some in Hj as [Hj|[_ Hj]].
        -- eauto.
        -- apply list_lookup_singleton_Some in Hj as [_ ->]. lia.
      * intros j y Hlt' Hj. apply lookup_app_Some in Hj as [Hj|[Hge' _]].
        -- eauto.
        -- apply lookup_lt_Some in Hi. lia.
Qed.

(** [std::min_element] by an integer key selects the first of the
    smallest elements. *)
Lemma min_element_by_key (l : list A) (i : nat) (x : A) :
  Std.min_element comp l = Some (i, x) ->
  l !! i = Some x /\
  (forall j y, l !! j = Some y -> key x <= key y) /\
  (forall j y, (j < i)%nat -> l !! j = Some y -> key x < key y).
Proof.
  destruct l as [|a l]; simpl; [discriminate|].
  intros H. injection H as H.
  apply (min_element_loop_by_key l [a] 0 a) in H; try exact H.
  - reflexivity.
  - intros [|j] y Hj; simpl in Hj; [injection Hj as ->; lia | discriminate ].
  - intros j y Hlt. lia.
Qed.

End MinElementByKey.


(** Every [getNextWorkload] either finds the pending bucket empty and
    changes nothing, or erases one position of the pending bucket and pushes
    the workload found there on the running bucket. *)
Lemma getNextWorkload_cases (heap : Scheduler.Store) (s : Scheduler.t) :
  Scheduler.getNextWorkload heap s = (None, s) \/
  exists (i : nat) (w : Scheduler.WorkloadPtr) (index : Z),
    Scheduler.pending_workloads_ s !! i = Some w /\
    Scheduler.getNextWorkload heap s = (Some w, Scheduler.dispatch i w index s).
Proof.
  unfold Scheduler.getNextWorkload, Scheduler.FIFO_getNextWorkload,
    Scheduler.Priority_getNextWorkload, Scheduler.RoundRobin_getNextWorkload,
    Scheduler.ShortestJobFirst_getNextWorkload.
  destruct (Scheduler.algorithm_ s).
  - destruct (Scheduler.pending_workloads_ s) as [|w ws] eqn:Hp; [left; reflexivity|].
    right. exists 0%nat, w, (Scheduler.current_index_ s). split; reflexivity.
  - destruct (Std.max_element _ _) as [[i w]|] eqn:Hm; [|left; reflexivity].
    right. exists i, w, (Scheduler.current_index_ s). split; [|reflexivity].
    apply (max_element_by_key (fun p => Workload.getPriority (heap p))) in Hm.
    apply Hm.
  - destruct (Scheduler.pending_workloads_ s) as [|w ws] eqn:Hp; [left; reflexivity|].
    destruct (_ !! _) as [w'|] eqn:Hl; [|left; reflexivity].
    right. eexists _, w', _. split; [exact Hl|reflexivity].
  - destruct (Std.min_element _ _) as [[i w]|] eqn:Hm; [|left; reflexivity].
    right. exists i, w, (Scheduler.current_index_ s). split; [|reflexivity].
    apply (min_element_by_key (fun p => Workload.getEstimatedInstructions (heap p))) in Hm.
    apply Hm.
Qed.











(** ** Global memory *)

(** Where the sum [address + bytes] is representable in 64 bits, [read] and
    [write] succeed exactly when the access lies inside the memory, and count
    it; a failed access changes nothing. *)
Lemma GlobalMemory_access_in_range (m : Memory.GlobalMemory) (address bytes : Z) :
  address + bytes < 2 ^ 64 -> 0 <= address -> 0 <= bytes ->
  (fst (Memory.read m address bytes) = true <-> address + bytes <= Memory.size_ m) /\
  (fst (Memory.write m address bytes) = true <-> address + bytes <= Memory.size_ m) /\
  (fst (Memory.read m address bytes) = false -> snd (Memory.read m address bytes) = m) /\
  (fst (Memory.write m address bytes) = false -> snd (Memory.write m address bytes) = m) /\
  (fst (Memory.read m address bytes) = true ->
   let m' := snd (Memory.read m address bytes) in
   Memory.access_count_ m' = wrap64 (Memory.access_count_ m + 1) /\
   Memory.read_count_ m' = wrap64 (Memory.read_count_ m + 1) /\
   Memory.bytes_read_ m' = wrap64 (Memory.bytes_read_ m + bytes) /\
   Memory.write_count_ m' = Memory.write_count_ m /\
   Memory.bytes_written_ m' = Memory.bytes_written_ m) /\
  (fst (Memory.write m address bytes) = true ->
   let m' := snd (Memory.write m address bytes) in
   Memory.access_count_ m' = wrap64 (Memory.access_count_ m + 1) /\
   Memory.write_count_ m' = wrap64 (Memory.write_count_ m + 1) /\
   Memory.bytes_written_ m' = wrap64 (Memory.bytes_written_ m + bytes) /\
   Memory.read_count_ m' = Memory.read_count_ m /\
   Memory.bytes_read_ m' = Memory.bytes_read_ m).
Proof.
  intros Hsum Ha Hb.
  unfold Memory.read, Memory.write.
  rewrite (wrap64_small (address + bytes)) by lia.
  destruct (Z.gtb_spec (address + bytes) (Memory.size_ m)) as [Hgt|Hle]; simpl.
  - repeat split; intros; try discriminate; try lia; reflexivity.
  - repeat split; intros; try discriminate; try lia; reflexivity.
Qed.

(** C9, at the input where the code departs from it.  In a memory of 1024
    bytes, a read and a write of 1 byte at address [2^64 - 1] lie outside the
    memory ([address + bytes] is [2^64]); the sum wraps to 0 in the 64-bit
    comparison, both calls return [true] and count the access. *)
Theorem GlobalMemory_access_wraps :
  let m := Memory.GlobalMemory_new 1024 in
  let address := 2 ^ 64 - 1 in
  let bytes := 1 in
  ~ (address + bytes <= Memory.size_ m) /\
  fst (Memory.read m address bytes) = true /\
  Memory.access_count_ (snd (Memory.read m address bytes)) = 1 /\
  Memory.read_count_ (snd (Memory.read m address bytes)) = 1 /\
  Memory.bytes_read_ (snd (Memory.read m address bytes)) = 1 /\
  fst (Memory.write m address bytes) = true /\
  Memory.access_count_ (snd (Memory.write m address bytes)) = 1 /\
  Memory.write_count_ (snd (Memory.write m address bytes)) = 1 /\
  Memory.bytes_written_ (snd (Memory.write m address bytes)) = 1.
Proof.
  cbv zeta. split; [simpl; lia|].
  repeat split; reflexivity.
Qed.

(** ** Comparison of doubles *)

Lemma SFltb_irrefl (a : spec_float) : SFltb a a = false.
Proof.
  unfold SFltb.
  destruct a as [s|s| |s m e]; simpl; auto.
  - destruct s; auto.
  - destruct s; rewrite Z.compare_refl; fold (Pos.compare m m);
      rewrite Pos.compare_refl; reflexivity.
Qed.

Lemma lex_pos_lt (e1 e2 : Z) (m1 m2 : positive) (c : comparison) :
  match e1 ?= e2 with Lt => Lt | Gt => Gt | Eq => Pos.compare_cont Eq m1 m2 end = c ->
  match c with
  | Lt => e1 < e2 \/ (e1 = e2 /\ (m1 < m2)%positive)
  | Eq => e1 = e2 /\ m1 = m2
  | Gt => e2 < e1 \/ (e1 = e2 /\ (m2 < m1)%positive)
  end.
Proof.
  fold (Pos.compare m1 m2). intros <-.
  destruct (Z.compare_spec e1 e2); auto; try lia.
  destruct (Pos.compare_spec m1 m2); auto.
Qed.

Lemma lex_neg_lt (e1 e2 : Z) (m1 m2 : positive) (c : comparison) :
  match e1 ?= e2 with Lt => Gt | Gt => Lt | Eq => CompOpp (Pos.compare_cont Eq m1 m2) end = c ->
  match c with
  | Gt => e1 < e2 \/ (e1 = e2 /\ (m1 < m2)%positive)
  | Eq => e1 = e2 /\ m1 = m2
  | Lt => e2 < e1 \/ (e1 = e2 /\ (m2 < m1)%positive)
  end.
Proof.
  fold (Pos.compare m1 m2). intros <-.
  destruct (Z.compare_spec e1 e2); auto; try lia.
  destruct (Pos.compare_spec m1 m2); simpl; auto.
Qed.

Lemma lex_pos_Lt (e1 e2 : Z) (m1 m2 : positive) :
  e1 < e2 \/ (e1 = e2 /\ (m1 < m2)%positive) ->
  match e1 ?= e2 with Lt => Lt | Gt => Gt | Eq => Pos.compare_cont Eq m1 m2 end = Lt.
Proof.
  fold (Pos.compare m1 m2).
  intros [H|[-> H]].
  - apply Z.compare_lt_iff in H. rewrite H. reflexivity.
  - rewrite Z.compare_refl. apply Pos.compare_lt_iff. exact H.
Qed.

Lemma lex_neg_Lt (e1 e2 : Z) (m1 m2 : positive) :
  e2 < e1 \/ (e1 = e2 /\ (m2 < m1)%positive) ->
  match e1 ?= e2 with Lt => Gt | Gt => Lt | Eq => CompOpp (Pos.compare_cont Eq m1 m2) end = Lt.
Proof.
  fold (Pos.compare m1 m2).
  intros [H|[-> H]].
  - apply Z.compare_gt_iff in H. rewrite H. reflexivity.
  - rewrite Z.compare_refl. apply Pos.compare_gt_iff in H. rewrite H. reflexivity.
Qed.

Lemma SFltb_trans (a b c : spec_float) :
  SFltb a b = true -> SFltb b c = true -> SFltb a c = true.
Proof.
  unfold SFltb.
  destruct a as [sa|sa| |sa ma ea], b as [sb|sb| |sb mb eb], c as [sc|sc| |sc mc ec];
    simpl; try discriminate;
    try (destruct sa; simpl; try discriminate); try (destruct sb; simpl; try discriminate);
    try (destruct sc; simpl; try discriminate); try reflexivity.
  - destruct (match ea ?= eb with Lt => Gt | Gt => Lt | Eq => _ end) eqn:H1; try discriminate.
    destruct (match eb ?= ec with Lt => Gt | Gt => Lt | Eq => _ end) eqn:H2; try discriminate.
    intros _ _. apply lex_neg_lt in H1, H2. rewrite lex_neg_Lt; [reflexivity|]. lia.
  - destruct (match ea ?= eb with Lt => Lt | Gt => Gt | Eq => _ end) eqn:H1; try discriminate.
    destruct (match eb ?= ec with Lt => Lt | Gt => Gt | Eq => _ end) eqn:H2; try discriminate.
    intros _ _. apply lex_pos_lt in H1, H2. rewrite lex_pos_Lt; [reflexivity|]. lia.
Qed.

(** Two values that are not NaN are comparable. *)
Lemma SFltb_false_SFleb (a b : spec_float) :
  a <> S754_nan -> b <> S754_nan -> SFltb a b = false -> SFleb b a = true.
Proof.
  unfold SFltb, SFleb.
  destruct a as [sa|sa| |sa ma ea], b as [sb|sb| |sb mb eb];
    simpl; try congruence;
    try (destruct sa; simpl; try congruence); try (destruct sb; simpl; try congruence).
  - intros _ _.
    destruct (match ea ?= eb with Lt => Gt | Gt => Lt | Eq => _ end) eqn:H1; try discriminate;
    intros _; apply lex_neg_lt in H1;
    destruct (match eb ?= ea with Lt => Gt | Gt => Lt | Eq => _ end) eqn:H2; try reflexivity;
    apply lex_neg_lt in H2; lia.
  - intros _ _.
    destruct (match ea ?= eb with Lt => Lt | Gt => Gt | Eq => _ end) eqn:H1; try discriminate;
    intros _; apply lex_pos_lt in H1;
    destruct (match eb ?= ea with Lt => Lt | Gt => Gt | Eq => _ end) eqn:H2; try reflexivity;
    apply lex_pos_lt in H2; lia.
Qed.

(** ** Rounding never produces a NaN *)

Section NotNan.
Variables prec emax : Z.

Lemma shr_1_nonneg (mrs : shr_record) : 0 <= shr_m mrs -> 0 <= shr_m (shr_1 mrs).
Proof.
  destruct mrs as [m r s]. simpl.
  destruct m as [|p|p]; simpl; intros H; try lia.
  - destruct p; simpl; lia.
Qed.

Lemma iter_pos_shr_1_nonneg (p : positive) (mrs : shr_record) :
  0 <= shr_m mrs -> 0 <= shr_m (SpecFloat.iter_pos shr_1 p mrs).
Proof.
  revert mrs. induction p as [p IH|p IH|]; intros mrs H; simpl.
  - apply IH, IH, shr_1_nonneg, H.
  - apply IH, IH, H.
  - apply shr_1_nonneg, H.
Qed.

Lemma shr_fexp_nonneg (m e : Z) (l : location) :
  0 <= m -> 0 <= shr_m (fst (shr_fexp prec emax m e l)).
Proof.
  intros H. unfold shr_fexp, shr.
  assert (H0 : 0 <= shr_m (shr_record_of_loc m l)).
  { destruct l as [|[| |]]; simpl; exact H. }
  destruct (fexp prec emax (Zdigits2 m + e) - e); simpl; auto.
  apply iter_pos_shr_1_nonneg, H0.
Qed.

Lemma round_nearest_even_nonneg (m : Z) (l : location) :
  0 <= m -> 0 <= round_nearest_even m l.
Proof.
  intros H. unfold round_nearest_even.
  destruct l as [|[| |]]; try lia. destruct (Z.even m); lia.
Qed.

Lemma binary_round_aux_not_nan (sx : bool) (mx ex : Z) (lx : location) :
  0 <= mx -> binary_round_aux prec emax sx mx ex lx <> S754_nan.
Proof.
  intros H. unfold binary_round_aux.
  pose proof (shr_fexp_nonneg mx ex lx H) as H1.
  destruct (shr_fexp prec emax mx ex lx) as [mrs' e']. simpl in H1.
  pose proof (shr_fexp_nonneg _ e' loc_Exact
                (round_nearest_even_nonneg (shr_m mrs') (loc_of_shr_record mrs') H1)) as H2.
  destruct (shr_fexp prec emax _ e' loc_Exact) as [mrs'' e'']. simpl in H2.
  destruct (shr_m mrs''); try discriminate; try lia.
  destruct (_ <=? _); discriminate.
Qed.

Lemma binary_normalize_not_nan (m e : Z) (szero : bool) :
  binary_normalize prec emax m e szero <> S754_nan.
Proof.
  unfold binary_normalize, binary_round.
  destruct m as [|p|p]; try discriminate.
  - destruct (shl_align p e _) as [mz ez]. apply binary_round_aux_not_nan. lia.
  - destruct (shl_align p e _) as [mz ez]. apply binary_round_aux_not_nan. lia.
Qed.

Lemma SFdiv_not_nan (x : spec_float) (sy : bool) (my : positive) (ey : Z) :
  x <> S754_nan -> SFdiv prec emax x (S754_finite sy my ey) <> S754_nan.
Proof.
  intros Hx. destruct x as [sx|sx| |sx mx ex]; simpl; try discriminate; try congruence.
  unfold SFdiv_core_binary.
  set (m' := match _ - _ with Z0 => _ | Zpos _ => _ | Zneg _ => _ end).
  assert (Hm' : 0 <= m').
  { subst m'. destruct (_ - _); try lia. apply Z.shiftl_nonneg. lia. }
  pose proof (Z_div_mod m' (Zpos my) ltac:(lia)) as Hdiv.
  destruct (Z.div_eucl m' (Z.pos my)) as [q r].
  apply binary_round_aux_not_nan. nia.
Qed.
End NotNan.

(** An execution time is never a NaN: it is zero or the quotient of an
    integer by [1000.0]. *)
Lemma getExecutionTime_not_nan (ticks_per_microsecond : Z) (w : Workload.t) :
  Workload.getExecutionTime ticks_per_microsecond w <> S754_nan.
Proof.
  unfold Workload.getExecutionTime.
  destruct (negb (Workload.completed_ w)); [discriminate|].
  cbv zeta. unfold Double.div.
  change (Double.of_integer 1000) with (S754_finite false 8796093022208000 (-43)).
  apply SFdiv_not_nan. apply binary_normalize_not_nan.
Qed.

(** ** <algorithm> with a transitive, irreflexive comparison *)

Section ElementByOrder.
Context {A : Type} (comp : A -> A -> bool).
Hypothesis comp_irrefl : forall a, comp a a = false.
Hypothesis comp_trans :
  forall a b c, comp a b = true -> comp b c = true -> comp a c = true.

Lemma max_element_loop_greatest (rest pre : list A) (i : nat) (x : A) :
  pre !! i = Some x ->
  (forall y, y ∈ pre -> comp x y = false) ->
  forall i' x',
    Std.max_element_loop comp (i, x) (length pre) rest = (i', x') ->
    (pre ++ rest) !! i' = Some x' /\
    (forall y, y ∈ pre ++ rest -> comp x' y = false).
Proof.
  revert pre i x.
  induction rest as [|r rest IH]; intros pre i x Hi Hmax i' x' Hloop.
  - simpl in Hloop. inversion Hloop; subst. rewrite app_nil_r. auto.
  - simpl in Hloop.
    replace (pre ++ r :: rest) with ((pre ++ [r]) ++ rest)
      by (rewrite <- app_assoc; reflexivity).
    replace (S (length pre)) with (length (pre ++ [r])) in Hloop
      by (rewrite length_app; simpl; lia).
    destruct (comp x r) eqn:Hc.
    + eapply IH; [ | | exact Hloop ].
      * rewrite lookup_app_r by lia. rewrite Nat.sub_diag. reflexivity.
      * intros y [Hy|Hy]%elem_of_app.
        -- destruct (comp r y) eqn:Hry; [|reflexivity].
           specialize (Hmax y Hy).
           rewrite (comp_trans _ _ _ Hc Hry) in Hmax. discriminate.
        -- apply list_elem_of_singleton in Hy. subst. apply comp_irrefl.
    + eapply IH; [ | | exact Hloop ].
      * apply lookup_app_l_Some. exact Hi.
      * intros y [Hy|Hy]%elem_of_app; [auto|].
        apply list_elem_of_singleton in Hy. subst. exact Hc.
Qed.

Lemma max_element_greatest (l : list A) (i : nat) (x : A) :
  Std.max_element comp l = Some (i, x) ->
  l !! i = Some x /\ (forall y, y ∈ l -> comp x y = false).
Proof.
  destruct l as [|a l]; simpl; [discriminate|].
  intros H. injection H as H.
  apply (max_element_loop_greatest l [a] 0 a) in H; try exact H.
  - reflexivity.
  - intros y Hy. apply list_elem_of_singleton in Hy. subst. apply comp_irrefl.
Qed.

Lemma min_element_loop_least (rest pre : list A) (i : nat) (x : A) :
  pre !! i = Some x ->
  (forall y, y ∈ pre -> comp y x = false) ->
  forall i' x',
    Std.min_element_loop comp (i, x) (length pre) rest = (i', x') ->
    (pre ++ rest) !! i' = Some x' /\
    (forall y, y ∈ pre ++ rest -> comp y x' = false).
Proof.
  revert pre i x.
  induction rest as [|r rest IH]; intros pre i x Hi Hmin i' x' Hloop.
  - simpl in Hloop. inversion Hloop; subst. rewrite app_nil_r. auto.
  - simpl in Hloop.
    replace (pre ++ r :: rest) with ((pre ++ [r]) ++ rest)
      by (rewrite <- app_assoc; reflexivity).
    replace (S (length pre)) with (length (pre ++ [r])) in Hloop
      by (rewrite length_app; simpl; lia).
    destruct (comp r x) eqn:Hc.
    + eapply IH; [ | | exact Hloop ].
      * rewrite lookup_app_r by lia. rewrite Nat.sub_diag. reflexivity.
      * intros y [Hy|Hy]%elem_of_app.
        -- destruct (comp y r) eqn:Hyr; [|reflexivity].
           rewrite <- (Hmin y Hy). symmetry. eapply comp_trans; eauto.
        -- apply list_elem_of_singleton in Hy. subst. apply comp_irrefl.
    + eapply IH; [ | | exact Hloop ].
      * apply lookup_app_l_Some. exact Hi.
      * intros y [Hy|Hy]%elem_of_app; [auto|].
        apply list_elem_of_singleton in Hy. subst. exact Hc.
Qed.

Lemma min_element_least (l : list A) (i : nat) (x : A) :
  Std.min_element comp l = Some (i, x) ->
  l !! i = Some x /\ (forall y, y ∈ l -> comp y x = false).
Proof.
  destruct l as [|a l]; simpl; [discriminate|].
  intros H. injection H as H.
  apply (min_element_loop_least l [a] 0 a) in H; try exact H.
  - reflexivity.
  - intros y Hy. apply list_elem_of_singleton in Hy. subst. apply comp_irrefl.
Qed.

End ElementByOrder.

(** ** Metrics analyzer *)

Lemma by_execution_time_irrefl (a : Metrics.WorkloadMetrics) :
  Metrics.by_execution_time a a = false.
Proof. apply SFltb_irrefl. Qed.


Lemma by_execution_time_trans (a b c : Metrics.WorkloadMetrics) :
  Metrics.by_execution_time a b = true ->
  Metrics.by_execution_time b c = true ->
  Metrics.by_execution_time a c = true.
Proof. apply SFltb_trans. Qed.

(** The two queries on a non-empty list of records. *)
Lemma fastest_slowest_recorded (p : Metrics.PerformanceAnalyzer) :
  Metrics.workload_metrics_ p <> [] ->
  let fastest := Metrics.getFastestWorkload p in
  let slowest := Metrics.getSlowestWorkload p in
  fastest ∈ Metrics.workload_metrics_ p /\
  slowest ∈ Metrics.workload_metrics_ p /\
  (forall m, m ∈ Metrics.workload_metrics_ p ->
             Double.ltb (Metrics.execution_time_ms m)
                        (Metrics.execution_time_ms fastest) = false /\
             Double.ltb (Metrics.execution_time_ms slowest)
                        (Metrics.execution_time_ms m) = false).
Proof.
  intros Hne fastest slowest. subst fastest slowest.
  unfold Metrics.getFastestWorkload, Metrics.getSlowestWorkload.
  destruct (Metrics.workload_metrics_ p) as [|a l] eqn:Hl; [congruence|].
  destruct (Std.min_element Metrics.by_execution_time (a :: l)) as [[i f]|] eqn:Hmin;
    [|discriminate].
  destruct (Std.max_element Metrics.by_execution_time (a :: l)) as [[j s]|] eqn:Hmax;
    [|discriminate].
  apply (min_element_least _ by_execution_time_irrefl by_execution_time_trans)
    in Hmin as [Hf Hleast].
  apply (max_element_greatest _ by_execution_time_irrefl by_execution_time_trans)
    in Hmax as [Hs Hgreatest].
  split; [eapply list_elem_of_lookup_2; exact Hf|].
  split; [eapply list_elem_of_lookup_2; exact Hs|].
  intros m Hm. split; [apply (Hleast m Hm)|apply (Hgreatest m Hm)].
Qed.

(** Among times that are not NaN the fastest is a minimum and the slowest a
    maximum for [<=]. *)
Lemma fastest_slowest_bounds (p : Metrics.PerformanceAnalyzer) :
  (forall m, m ∈ Metrics.workload_metrics_ p ->
             Metrics.execution_time_ms m <> S754_nan) ->
  forall m, m ∈ Metrics.workload_metrics_ p ->
            Double.leb (Metrics.execution_time_ms (Metrics.getFastestWorkload p))
                       (Metrics.execution_time_ms m) = true /\
            Double.leb (Metrics.execution_time_ms m)
                       (Metrics.execution_time_ms (Metrics.getSlowestWorkload p)) = true.
Proof.
  intros Hnan m Hm.
  assert (Hne : Metrics.workload_metrics_ p <> [])
    by (intros Hnil; rewrite Hnil in Hm; inversion Hm).
  destruct (fastest_slowest_recorded p Hne) as (Hf & Hs & Hlt).
  destruct (Hlt m Hm) as [Hlow Hhigh].
  split; apply SFltb_false_SFleb; auto.
Qed.

(** The analyzer records execution times only, never a NaN. *)
Lemma record_all_not_nan (ticks_per_microsecond : Z)
      (calls : list (option Workload.t * option Metrics.Device))
      (p : Metrics.PerformanceAnalyzer) :
  (forall m, m ∈ Metrics.workload_metrics_ p ->
             Metrics.execution_time_ms m <> S754_nan) ->
  forall m, m ∈ Metrics.workload_metrics_
                  (Metrics.record_all ticks_per_microsecond calls p) ->
            Metrics.execution_time_ms m <> S754_nan.
Proof.
  unfold Metrics.record_all. revert p.
  induction calls as [|[workload device] calls IH]; intros p Hp; simpl; [exact Hp|].
  apply IH. unfold Metrics.recordWorkloadMetrics.
  destruct workload as [w|]; [|exact Hp].
  destruct device as [d|]; [|exact Hp].
  destruct (fold_left _ _ _) as [[instructions cycles] total_utilization].
  simpl. intros m [Hm|Hm]%elem_of_app; [apply Hp, Hm|].
  apply list_elem_of_singleton in Hm. subst m. simpl.
  apply getExecutionTime_not_nan.
Qed.

(** C10.  With no recorded workload, [getFastestWorkload] and
    [getSlowestWorkload] return the value-initialised record: empty name,
    times and counters zero.  With at least one, each returns one of the
    recorded records; no recorded execution time is below that of the
    fastest or above that of the slowest; and, execution times not being
    NaN (those [recordWorkloadMetrics] records never are), the fastest
    (slowest) time is less (greater) than or equal to every recorded
    time. *)
Theorem fastest_slowest_workload_spec :
  (forall p : Metrics.PerformanceAnalyzer,
      Metrics.workload_metrics_ p = [] ->
      Metrics.getFastestWorkload p = Metrics.getSlowestWorkload p /\
      Metrics.getFastestWorkload p
      = Metrics.mkWorkloadMetrics "" MATRIX_MULTIPLY (S754_zero false) 0 0 0
                                  (S754_zero false) 0 0 (S754_zero false)) /\
  (forall p : Metrics.PerformanceAnalyzer,
      Metrics.workload_metrics_ p <> [] ->
      let fastest := Metrics.getFastestWorkload p in
      let slowest := Metrics.getSlowestWorkload p in
      fastest ∈ Metrics.workload_metrics_ p /\
      slowest ∈ Metrics.workload_metrics_ p /\
      (forall m, m ∈ Metrics.workload_metrics_ p ->
                 Double.ltb (Metrics.execution_time_ms m)
                            (Metrics.execution_time_ms fastest) = false /\
                 Double.ltb (Metrics.execution_time_ms slowest)
                            (Metrics.execution_time_ms m) = false) /\
      ((forall m, m ∈ Metrics.workload_metrics_ p ->
                  Metrics.execution_time_ms m <> S754_nan) ->
       forall m, m ∈ Metrics.workload_metrics_ p ->
                 Double.leb (Metrics.execution_time_ms fastest)
                            (Metrics.execution_time_ms m) = true /\
                 Double.leb (Metrics.execution_time_ms m)
                            (Metrics.execution_time_ms slowest) = true)) /\
  (forall (ticks_per_microsecond : Z)
          (calls : list (option Workload.t * option Metrics.Device)),
      let p := Metrics.record_all ticks_per_microsecond calls
                                  Metrics.PerformanceAnalyzer_new in
      forall m, m ∈ Metrics.workload_metrics_ p ->
                Double.leb (Metrics.execution_time_ms (Metrics.getFastestWorkload p))
                           (Metrics.execution_time_ms m) = true /\
                Double.leb (Metrics.execution_time_ms m)
                           (Metrics.execution_time_ms (Metrics.getSlowestWorkload p))
                = true).
Proof.
  split; [|split].
  - intros p Hnil. unfold Metrics.getFastestWorkload, Metrics.getSlowestWorkload.
    rewrite Hnil. simpl. split; reflexivity.
  - intros p Hne fastest slowest.
    destruct (fastest_slowest_recorded p Hne) as (Hf & Hs & Hlt).
    split; [exact Hf|]. split; [exact Hs|]. split; [exact Hlt|].
    apply fastest_slowest_bounds.
  - intros ticks_per_microsecond calls p. apply fastest_slowest_bounds.
    apply record_all_not_nan. intros m Hm. inversion Hm.
Qed.

Lemma fastest_slowest_workload_spec_witness :
  let one := S754_finite false 4503599627370496 (-52) in
  let two := S754_finite false 4503599627370496 (-51) in
  let record := fun name time =>
    Metrics.mkWorkloadMetrics name VECTOR_ADD time 8 2 41 (S754_zero false) 256 1
                              (S754_zero false) in
  let p := Metrics.mkPerformanceAnalyzer [record "slow" two; record "fast" one] in
  Metrics.getFastestWorkload p ∈ Metrics.workload_metrics_ p /\
  Metrics.getSlowestWorkload p ∈ Metrics.workload_metrics_ p /\
  (forall m, m ∈ Metrics.workload_metrics_ p ->
             Double.ltb (Metrics.execution_time_ms m)
                   (Metrics.execution_time_ms (Metrics.getFastestWorkload p)) = false /\
             Double.ltb (Metrics.execution_time_ms (Metrics.getSlowestWorkload p))
                   (Metrics.execution_time_ms m) = false) /\
  ((forall m, m ∈ Metrics.workload_metrics_ p ->
              Metrics.execution_time_ms m <> S754_nan) ->
   forall m, m ∈ Metrics.workload_metrics_ p ->
             Double.leb (Metrics.execution_time_ms (Metrics.getFastestWorkload p))
                   (Metrics.execution_time_ms m) = true /\
             Double.leb (Metrics.execution_time_ms m)
                   (Metrics.execution_time_ms (Metrics.getSlowestWorkload p)) = true).
Proof.
  intros one two record p.
  apply (proj1 (proj2 fastest_slowest_workload_spec) p).
  discriminate.
Defined.

(** ** Workload: block materialisation *)

Lemma set_thread_blocks_fields (bs : list (ThreadBlock.t Warp.t)) (w : Workload.t) :
  Workload.name_ (Workload.set_thread_blocks bs w) = Workload.name_ w /\
  Workload.type_ (Workload.set_thread_blocks bs w) = Workload.type_ w /\
  Workload.config_ (Workload.set_thread_blocks bs w) = Workload.config_ w /\
  Workload.priority_ (Workload.set_thread_blocks bs w) = Workload.priority_ w /\
  Workload.estimated_instructions_ (Workload.set_thread_blocks bs w)
  = Workload.estimated_instructions_ w /\
  Workload.estimated_memory_ops_ (Workload.set_thread_blocks bs w)
  = Workload.estimated_memory_ops_ w /\
  Workload.start_time_ (Workload.set_thread_blocks bs w) = Workload.start_time_ w /\
  Workload.end_time_ (Workload.set_thread_blocks bs w) = Workload.end_time_ w /\
  Workload.completed_ (Workload.set_thread_blocks bs w) = Workload.completed_ w /\
  Workload.thread_blocks_ (Workload.set_thread_blocks bs w) = bs.
Proof. repeat split. Qed.

Lemma generate_loop (l : list Z) (acc : Workload.t) :
  fold_left
    (fun acc i =>
       Workload.set_thread_blocks
         (Workload.thread_blocks_ acc
            ++ [Workload.generate_block (Workload.config_ acc) i]) acc)
    l acc
  = Workload.set_thread_blocks
      (Workload.thread_blocks_ acc
         ++ map (Workload.generate_block (Workload.config_ acc)) l) acc.
Proof.
  revert acc. induction l as [|i l IH]; intros acc; simpl.
  - rewrite app_nil_r. destruct acc; reflexivity.
  - rewrite IH. simpl. rewrite <- app_assoc. reflexivity.
Qed.

(** [generateThreadBlocks] replaces the block sequence by the blocks of the
    loop, one per index below [getTotalBlocks]. *)
Lemma generateThreadBlocks_eq (w : Workload.t) :
  Workload.generateThreadBlocks w
  = Workload.set_thread_blocks
      (map (Workload.generate_block (Workload.config_ w))
           (loop_range (KernelConfig.getTotalBlocks (Workload.config_ w)))) w.
Proof.
  unfold Workload.generateThreadBlocks. cbv zeta.
  rewrite generate_loop. reflexivity.
Qed.

Lemma generateThreadBlocks_idempotent (w : Workload.t) :
  Workload.generateThreadBlocks (Workload.generateThreadBlocks w)
  = Workload.generateThreadBlocks w.
Proof. rewrite !generateThreadBlocks_eq. reflexivity. Qed.

Lemma generateThreadBlocks_discards (bs : list (ThreadBlock.t Warp.t)) (w : Workload.t) :
  Workload.generateThreadBlocks (Workload.set_thread_blocks bs w)
  = Workload.generateThreadBlocks w.
Proof. rewrite !generateThreadBlocks_eq. reflexivity. Qed.

(** ** Workload: handing blocks out *)

Lemma getNextBlock_snoc (w : Workload.t) (bs : list (ThreadBlock.t Warp.t))
      (b : ThreadBlock.t Warp.t) :
  Workload.thread_blocks_ w = bs ++ [b] ->
  Workload.getNextBlock w = (Some b, Workload.set_thread_blocks bs w).
Proof.
  intros H. unfold Workload.getNextBlock.
  rewrite H, last_snoc, removelast_last. reflexivity.
Qed.

Lemma getNextBlock_nil (w : Workload.t) :
  Workload.thread_blocks_ w = [] -> Workload.getNextBlock w = (None, w).
Proof. intros H. unfold Workload.getNextBlock. rewrite H. reflexivity. Qed.

(** Draining as many blocks as there are returns them last to first. *)
Lemma drain_all (bs : list (ThreadBlock.t Warp.t)) (w : Workload.t) :
  Workload.thread_blocks_ w = bs ->
  Workload.drain (length bs) w
  = (map Some (reverse bs), Workload.set_thread_blocks [] w).
Proof.
  revert w. induction bs as [|b bs IH] using rev_ind; intros w H.
  - simpl. destruct w; simpl in *; subst; reflexivity.
  - rewrite length_app. simpl. rewrite Nat.add_1_r. simpl.
    rewrite (getNextBlock_snoc w bs b H).
    rewrite (IH (Workload.set_thread_blocks bs w) eq_refl).
    rewrite reverse_snoc. reflexivity.
Qed.

Lemma generate_block_id (cfg : KernelConfig.t) (i : Z) :
  ThreadBlock.block_id_ (Workload.generate_block cfg i) = wrap32 i.
Proof. reflexivity. Qed.

Lemma generated_block_lookup (w : Workload.t) (i : Z) :
  0 <= i < KernelConfig.getTotalBlocks (Workload.config_ w) ->
  Workload.thread_blocks_ (Workload.generateThreadBlocks w) !! Z.to_nat i
  = Some (Workload.generate_block (Workload.config_ w) i).
Proof.
  intros Hi. rewrite generateThreadBlocks_eq. simpl.
  rewrite list_lookup_fmap. unfold loop_range.
  rewrite lookup_seqZ_lt by lia. simpl. f_equal. f_equal. lia.
Qed.

Lemma generated_blocks_length (w : Workload.t) :
  length (Workload.thread_blocks_ (Workload.generateThreadBlocks w))
  = Z.to_nat (KernelConfig.getTotalBlocks (Workload.config_ w)).
Proof.
  rewrite generateThreadBlocks_eq. simpl.
  rewrite length_map. unfold loop_range. apply length_seqZ.
Qed.

(** C8.  [getNextBlock] on an empty sequence returns the null pointer and
    changes nothing; otherwise it returns the last block and removes it,
    every other field of the workload staying as it was.  [hasMoreBlocks]
    is true exactly when the sequence is not empty.  After materialisation
    the [k]-th call, counting from 0, returns the block generated at index
    [total - 1 - k]; its id is [total - 1 - k] in 32 bits, hence
    [total - 1 - k] itself for a grid of at most [2^32] blocks; after
    [total] calls the sequence is empty. *)
Theorem getNextBlock_spec :
  (forall w : Workload.t,
      Workload.thread_blocks_ w = [] ->
      Workload.getNextBlock w = (None, w) /\ Workload.hasMoreBlocks w = false) /\
  (forall (w : Workload.t) bs b,
      Workload.thread_blocks_ w = bs ++ [b] ->
      let w' := snd (Workload.getNextBlock w) in
      fst (Workload.getNextBlock w) = Some b /\
      Workload.thread_blocks_ w' = bs /\
      Workload.name_ w' = Workload.name_ w /\
      Workload.type_ w' = Workload.type_ w /\
      Workload.config_ w' = Workload.config_ w /\
      Workload.priority_ w' = Workload.priority_ w /\
      Workload.estimated_instructions_ w' = Workload.estimated_instructions_ w /\
      Workload.estimated_memory_ops_ w' = Workload.estimated_memory_ops_ w /\
      Workload.start_time_ w' = Workload.start_time_ w /\
      Workload.end_time_ w' = Workload.end_time_ w /\
      Workload.completed_ w' = Workload.completed_ w /\
      Workload.hasMoreBlocks w = true) /\
  (forall w : Workload.t,
      Workload.hasMoreBlocks w = true <-> Workload.thread_blocks_ w <> []) /\
  (forall w : Workload.t,
      let total := KernelConfig.getTotalBlocks (Workload.config_ w) in
      let r := Workload.drain (Z.to_nat total) (Workload.generateThreadBlocks w) in
      (forall k, 0 <= k < total ->
                 exists b, fst r !! Z.to_nat k = Some (Some b) /\
                           Workload.thread_blocks_ (Workload.generateThreadBlocks w)
                             !! Z.to_nat (total - 1 - k) = Some b /\
                           ThreadBlock.block_id_ b = wrap32 (total - 1 - k) /\
                           (total <= 2 ^ 32 -> ThreadBlock.block_id_ b = total - 1 - k)) /\
      Workload.hasMoreBlocks (snd r) = false /\
      Workload.getNextBlock (snd r) = (None, snd r)).
Proof.
  split; [|split; [|split]].
  - intros w H. split; [apply getNextBlock_nil, H|].
    unfold Workload.hasMoreBlocks. rewrite H. reflexivity.
  - intros w bs b H w'. subst w'.
    rewrite (getNextBlock_snoc w bs b H). simpl.
    repeat split.
    unfold Workload.hasMoreBlocks. rewrite H. destruct bs; reflexivity.
  - intros w. unfold Workload.hasMoreBlocks.
    destruct (Workload.thread_blocks_ w); simpl; split; congruence.
  - intros w total r.
    pose proof (generated_blocks_length w) as Hlen. fold total in Hlen.
    subst r. rewrite <- Hlen.
    rewrite (drain_all _ _ eq_refl). simpl.
    split; [|split; reflexivity].
    intros k Hk.
    exists (Workload.generate_block (Workload.config_ w) (total - 1 - k)).
    assert (Hlook : Workload.thread_blocks_ (Workload.generateThreadBlocks w)
                      !! Z.to_nat (total - 1 - k)
                    = Some (Workload.generate_block (Workload.config_ w) (total - 1 - k)))
      by (apply generated_block_lookup; fold total; lia).
    split; [|split; [exact Hlook|split]].
    + rewrite list_lookup_fmap.
      rewrite reverse_lookup by lia.
      rewrite Hlen.
      replace (Z.to_nat total - S (Z.to_nat k))%nat with (Z.to_nat (total - 1 - k)) by lia.
      rewrite Hlook. reflexivity.
    + apply generate_block_id.
    + intros Hle. rewrite generate_block_id. apply wrap32_small. lia.
Qed.

Lemma getNextBlock_spec_witness :
  let w := Workload.new "k" CUSTOM (KernelConfig.mk 2 2 1 40 1 1) in
  let r := Workload.drain 4 (Workload.generateThreadBlocks w) in
  exists b, fst r !! 0%nat = Some (Some b) /\ ThreadBlock.block_id_ b = 3.
Proof.
  intros w r.
  destruct (proj1 (proj2 (proj2 (proj2 getNextBlock_spec)) w) 0 ltac:(vm_compute; split; congruence))
    as (b & Hfirst & _ & _ & Hid).
  exists b. split; [exact Hfirst|].
  apply Hid. vm_compute. discriminate.
Defined.

(** ** Thread blocks and warps as constructed *)

Lemma ceil_div_spec (a b : Z) :
  0 < b -> b * (ceil_div a b - 1) < a <= b * ceil_div a b.
Proof.
  intros Hb. unfold ceil_div.
  pose proof (Z.div_mod (- a) b ltac:(lia)) as Hdm.
  pose proof (Z.mod_pos_bound (- a) b Hb) as Hmod.
  nia.
Qed.

(** The idiom [(n + d - 1) / d] of the source is the ceiling of [n / d]
    as long as [n + d] does not wrap. *)
Lemma ceil_idiom (n d : Z) :
  0 < d -> 0 <= n -> n + d <= 2 ^ 64 ->
  wrap64 (wrap64 (n + d) - 1) / d = ceil_div n d.
Proof.
  intros Hd Hn Hfit.
  assert (Hw : wrap64 (wrap64 (n + d) - 1) = n + d - 1).
  { unfold wrap64. rewrite Zminus_mod_idemp_l. apply Z.mod_small. lia. }
  rewrite Hw.
  pose proof (ceil_div_spec n d Hd) as Hc.
  pose proof (Z.div_mod (n + d - 1) d ltac:(lia)) as Hdm.
  pose proof (Z.mod_pos_bound (n + d - 1) d Hd) as Hmod.
  nia.
Qed.

Lemma grid_position (gx gy i : Z) :
  0 < gx -> 0 < gy ->
  (i mod (gx * gy)) mod gx = i mod gx /\
  (i mod (gx * gy)) / gx = (i / gx) mod gy.
Proof.
  intros Hx Hy.
  rewrite Z.rem_mul_r by lia.
  pose proof (Z.mod_pos_bound i gx Hx) as Hb.
  rewrite (Z.mul_comm gx). split.
  - rewrite Z.mod_add by lia. apply Z.mod_small. lia.
  - rewrite Z.div_add by lia. rewrite Z.div_small by lia. lia.
Qed.

Lemma loop_range_length (n : Z) : length (loop_range n) = Z.to_nat n.
Proof. unfold loop_range. apply length_seqZ. Qed.

Lemma loop_range_lookup (n i : Z) :
  0 <= i < n -> loop_range n !! Z.to_nat i = Some i.
Proof.
  intros H. unfold loop_range. rewrite lookup_seqZ_lt by lia. f_equal. lia.
Qed.

(** A warp built for [n <= 32] threads holds [n] threads and its active
    mask is the [n] low bits. *)
Lemma Warp_new_spec (wid bid n : Z) :
  0 <= n <= 32 ->
  Warp.getNumThreads (Warp.new wid bid n) = n /\
  Warp.active_mask_ (Warp.new wid bid n) = Z.ones n /\
  Warp.warp_id_ (Warp.new wid bid n) = wrap32 wid /\
  Warp.block_id_ (Warp.new wid bid n) = wrap32 bid /\
  Warp.state_ (Warp.new wid bid n) = READY /\
  Warp.program_counter_ (Warp.new wid bid n) = 0 /\
  Warp.instructions_executed_ (Warp.new wid bid n) = 0.
Proof.
  intros Hn. repeat split.
  - unfold Warp.getNumThreads. simpl. rewrite length_map, loop_range_length. lia.
  - simpl. rewrite Z.mod_small by lia. rewrite Z.shiftl_1_l, Z.ones_equiv.
    assert (Hpow : 0 < 2 ^ n <= 2 ^ 32).
    { split; [apply Z.pow_pos_nonneg; lia|apply Z.pow_le_mono_r; lia]. }
    rewrite (wrap64_small (2 ^ n)) by lia.
    rewrite wrap64_small by lia. lia.
Qed.

(** The warps of a block built for [n] threads. *)
Lemma ThreadBlock_new_warps (bid n : Z) :
  0 <= n -> n + 32 <= 2 ^ 64 ->
  ThreadBlock.getNumWarps (ThreadBlock.new bid n) = ceil_div n 32 /\
  forall j, 0 <= j < ceil_div n 32 ->
            ThreadBlock.warps_ (ThreadBlock.new bid n) !! Z.to_nat j
            = Some (Warp.new j (wrap32 bid) (Z.min 32 (n - 32 * j))) /\
            1 <= Z.min 32 (n - 32 * j) <= 32.
Proof.
  intros Hn Hfit.
  pose proof (ceil_idiom n 32 ltac:(lia) Hn Hfit) as Hnum.
  pose proof (ceil_div_spec n 32 ltac:(lia)) as Hc.
  unfold ThreadBlock.getNumWarps. simpl. unfold WARP_SIZE in *.
  rewrite length_map, loop_range_length, Hnum.
  split; [lia|].
  intros j Hj.
  rewrite list_lookup_fmap, loop_range_lookup by lia. simpl.
  rewrite (wrap64_small (j * 32)) by lia.
  rewrite (wrap64_small (n - j * 32)) by lia.
  replace (n - j * 32) with (n - 32 * j) by lia.
  split; [reflexivity|lia].
Qed.

Lemma sum_min_seq (t : Z) (k : nat) :
  32 * (Z.of_nat k - 1) < t \/ k = 0%nat ->
  foldr Z.add 0 (map (fun j => Z.min 32 (t - 32 * j)) (seqZ 0 (Z.of_nat k)))
  = Z.min (32 * Z.of_nat k) t \/ k = 0%nat.
Proof.
  induction k as [|k IH]; intros H; [right; reflexivity|left].
  rewrite seqZ_S, map_app, foldr_app. simpl.
  destruct k as [|k'].
  - simpl. lia.
  - destruct IH as [IH|IH]; [left; lia| |discriminate].
    set (f := fun j => Z.min 32 (t - 32 * j)) in *.
    rewrite Z.add_0_r.
    assert (Hshift : forall l (c : Z), foldr Z.add c l = foldr Z.add 0 l + c).
    { induction l as [|x l IHl]; intros c; simpl; [lia|rewrite IHl; lia]. }
    rewrite Hshift, IH. lia.
Qed.

(** A block built for [n] threads carries [n] threads. *)
Lemma ThreadBlock_new_thread_count (bid n : Z) :
  0 <= n -> n + 32 <= 2 ^ 64 ->
  ThreadBlock.thread_count (ThreadBlock.new bid n) = n.
Proof.
  intros Hn Hfit.
  pose proof (ceil_idiom n 32 ltac:(lia) Hn Hfit) as Hnum.
  pose proof (ceil_div_spec n 32 ltac:(lia)) as Hc.
  unfold ThreadBlock.thread_count. simpl. unfold WARP_SIZE in *.
  rewrite Hnum, map_map.
  assert (Hq : 0 <= ceil_div n 32) by lia.
  rewrite (map_ext_in _ (fun j => Z.min 32 (n - 32 * j))).
  - unfold loop_range. rewrite <- (Z2Nat.id (ceil_div n 32)) by lia.
    destruct (sum_min_seq n (Z.to_nat (ceil_div n 32))) as [Hs|Hs].
    + destruct (Z.to_nat (ceil_div n 32)) eqn:E; [right; reflexivity|left; lia].
    + rewrite Hs. lia.
    + rewrite Hs. simpl. lia.
  - intros j Hj. apply list_elem_of_In in Hj. unfold loop_range in Hj.
    apply elem_of_seqZ in Hj.
    rewrite (wrap64_small (j * 32)) by lia.
    rewrite (wrap64_small (n - j * 32)) by lia.
    replace (n - j * 32) with (n - 32 * j) by lia.
    apply Warp_new_spec. lia.
Qed.

Lemma getTotalBlocks_exact (cfg : KernelConfig.t) :
  0 <= KernelConfig.grid_dim_x cfg -> 0 <= KernelConfig.grid_dim_y cfg ->
  0 <= KernelConfig.grid_dim_z cfg ->
  KernelConfig.grid_dim_x cfg * KernelConfig.grid_dim_y cfg * KernelConfig.grid_dim_z cfg
  < 2 ^ 64 ->
  KernelConfig.getTotalBlocks cfg
  = KernelConfig.grid_dim_x cfg * KernelConfig.grid_dim_y cfg * KernelConfig.grid_dim_z cfg.
Proof.
  intros Hx Hy Hz Hfit. unfold KernelConfig.getTotalBlocks.
  rewrite wrap64_mul_l. apply wrap64_small. nia.
Qed.

Lemma getThreadsPerBlock_exact (cfg : KernelConfig.t) :
  0 <= KernelConfig.block_dim_x cfg -> 0 <= KernelConfig.block_dim_y cfg ->
  0 <= KernelConfig.block_dim_z cfg ->
  KernelConfig.block_dim_x cfg * KernelConfig.block_dim_y cfg * KernelConfig.block_dim_z cfg
  < 2 ^ 64 ->
  KernelConfig.getThreadsPerBlock cfg
  = KernelConfig.block_dim_x cfg * KernelConfig.block_dim_y cfg * KernelConfig.block_dim_z cfg.
Proof.
  intros Hx Hy Hz Hfit. unfold KernelConfig.getThreadsPerBlock.
  rewrite wrap64_mul_l. apply wrap64_small. nia.
Qed.

(** C7, on the configurations whose products do not wrap.
    [generateThreadBlocks] is idempotent and discards the blocks the
    workload held.  For a grid of [gx * gy * gz < 2^64] blocks of
    [bx * by * bz <= 2^64 - 32] threads, it produces [gx * gy * gz] blocks;
    the block of index [i] has id [i] (in 32 bits: [i mod 2^32]) and grid
    position [(i mod gx, (i / gx) mod gy, i / (gx * gy))]; it carries
    [bx * by * bz] threads in [ceil (bx * by * bz / 32)] warps, warp [j]
    holding [min 32 (threads - 32 j)] threads, that is 32 for every warp but
    the last and between 1 and 32 for the last; the active mask of a warp is
    all ones over its width. *)
Theorem generateThreadBlocks_spec :
  (forall w : Workload.t,
      Workload.generateThreadBlocks (Workload.generateThreadBlocks w)
      = Workload.generateThreadBlocks w) /\
  (forall (w : Workload.t) bs,
      Workload.generateThreadBlocks (Workload.set_thread_blocks bs w)
      = Workload.generateThreadBlocks w) /\
  (forall w : Workload.t,
      let cfg := Workload.config_ w in
      let gx := KernelConfig.grid_dim_x cfg in
      let gy := KernelConfig.grid_dim_y cfg in
      let gz := KernelConfig.grid_dim_z cfg in
      let threads :=
        KernelConfig.block_dim_x cfg * KernelConfig.block_dim_y cfg
        * KernelConfig.block_dim_z cfg in
      let w' := Workload.generateThreadBlocks w in
      0 <= gx -> 0 <= gy -> 0 <= gz ->
      0 <= KernelConfig.block_dim_x cfg -> 0 <= KernelConfig.block_dim_y cfg ->
      0 <= KernelConfig.block_dim_z cfg ->
      gx * gy * gz < 2 ^ 64 ->
      threads + 32 <= 2 ^ 64 ->
      length (Workload.thread_blocks_ w') = Z.to_nat (gx * gy * gz) /\
      forall i, 0 <= i < gx * gy * gz ->
        exists b,
          Workload.thread_blocks_ w' !! Z.to_nat i = Some b /\
          ThreadBlock.block_id_ b = wrap32 i /\
          (i < 2 ^ 32 -> ThreadBlock.block_id_ b = i) /\
          ThreadBlock.grid_x_ b = i mod gx /\
          ThreadBlock.grid_y_ b = (i / gx) mod gy /\
          ThreadBlock.grid_z_ b = i / (gx * gy) /\
          ThreadBlock.thread_count b = threads /\
          ThreadBlock.getNumWarps b = ceil_div threads 32 /\
          forall j, 0 <= j < ceil_div threads 32 ->
            exists wp,
              ThreadBlock.warps_ b !! Z.to_nat j = Some wp /\
              Warp.getNumThreads wp = Z.min 32 (threads - 32 * j) /\
              1 <= Warp.getNumThreads wp <= 32 /\
              (j < ceil_div threads 32 - 1 -> Warp.getNumThreads wp = 32) /\
              Warp.active_mask_ wp = Z.ones (Warp.getNumThreads wp)).
Proof.
  split; [exact generateThreadBlocks_idempotent|].
  split; [intros w bs; apply generateThreadBlocks_discards|].
  intros w cfg gx gy gz threads w' Hgx Hgy Hgz Hbx Hby Hbz Htotal Hthreads.
  assert (Htb : KernelConfig.getTotalBlocks cfg = gx * gy * gz)
    by (apply getTotalBlocks_exact; auto; lia).
  assert (Htpb : KernelConfig.getThreadsPerBlock cfg = threads)
    by (apply getThreadsPerBlock_exact; auto; lia).
  assert (Hthreads0 : 0 <= threads) by (subst threads; nia).
  split.
  - subst w'. rewrite generated_blocks_length. fold cfg. rewrite Htb. reflexivity.
  - intros i Hi.
    exists (Workload.generate_block cfg i).
    split; [subst w'; apply generated_block_lookup; fold cfg; rewrite Htb; lia|].
    assert (Hgx1 : 0 < gx) by nia.
    assert (Hgy1 : 0 < gy) by nia.
    assert (Hgz1 : 0 < gz) by nia.
    assert (Hxy : wrap64 (gx * gy) = gx * gy) by (apply wrap64_small; nia).
    destruct (grid_position gx gy i Hgx1 Hgy1) as [Hposx Hposy].
    destruct (ThreadBlock_new_warps i threads Hthreads0 Hthreads) as [Hnum Hwarps].
    pose proof (ceil_div_spec threads 32 ltac:(lia)) as Hc.
    split; [apply generate_block_id|].
    split; [intros Hi32; rewrite generate_block_id; apply wrap32_small; lia|].
    unfold Workload.generate_block. fold gx gy. rewrite Htpb, Hxy.
    cbv zeta.
    split; [exact Hposx|]. split; [exact Hposy|]. split; [reflexivity|].
    split; [apply ThreadBlock_new_thread_count; assumption|].
    split; [exact Hnum|].
    intros j Hj.
    destruct (Hwarps j Hj) as [Hlook Hrange].
    exists (Warp.new j (wrap32 i) (Z.min 32 (threads - 32 * j))).
    split; [exact Hlook|].
    destruct (Warp_new_spec j (wrap32 i) (Z.min 32 (threads - 32 * j)) ltac:(lia))
      as (Hn & Hmask & _).
    rewrite Hn. repeat split; try lia.
Qed.

Lemma generateThreadBlocks_spec_witness :
  let w := Workload.new "k" CUSTOM (KernelConfig.mk 2 2 1 40 1 1) in
  let w' := Workload.generateThreadBlocks w in
  length (Workload.thread_blocks_ w') = Z.to_nat (2 * 2 * 1) /\
  forall i, 0 <= i < 2 * 2 * 1 ->
    exists b,
      Workload.thread_blocks_ w' !! Z.to_nat i = Some b /\
      ThreadBlock.block_id_ b = wrap32 i /\
      (i < 2 ^ 32 -> ThreadBlock.block_id_ b = i) /\
      ThreadBlock.grid_x_ b = i mod 2 /\
      ThreadBlock.grid_y_ b = (i / 2) mod 2 /\
      ThreadBlock.grid_z_ b = i / (2 * 2) /\
      ThreadBlock.thread_count b = 40 * 1 * 1 /\
      ThreadBlock.getNumWarps b = ceil_div (40 * 1 * 1) 32 /\
      forall j, 0 <= j < ceil_div (40 * 1 * 1) 32 ->
        exists wp,
          ThreadBlock.warps_ b !! Z.to_nat j = Some wp /\
          Warp.getNumThreads wp = Z.min 32 (40 * 1 * 1 - 32 * j) /\
          1 <= Warp.getNumThreads wp <= 32 /\
          (j < ceil_div (40 * 1 * 1) 32 - 1 -> Warp.getNumThreads wp = 32) /\
          Warp.active_mask_ wp = Z.ones (Warp.getNumThreads wp).
Proof.
  intros w w'.
  apply (proj2 (proj2 generateThreadBlocks_spec) w); simpl; lia.
Defined.

(** The count and the grid position the specification gives fail on a grid
    whose products wrap: for the grid [(3, 6148914691236517206, 2)] the
    product [gx * gy] is [2^64 + 2], the loop sees 2, four blocks are
    produced instead of [2^65 + 4], and the block of index 2 is placed at
    [x = 0] where [i mod gx] is 2. *)
Lemma generateThreadBlocks_position_wraps :
  let cfg := KernelConfig.mk 3 6148914691236517206 2 1 1 1 in
  let w' := Workload.generateThreadBlocks (Workload.new "k" CUSTOM cfg) in
  length (Workload.thread_blocks_ w') = 4%nat /\
  length (Workload.thread_blocks_ w') <> Z.to_nat (3 * 6148914691236517206 * 2) /\
  exists b,
    Workload.thread_blocks_ w' !! 2%nat = Some b /\
    ThreadBlock.grid_x_ b = 0 /\
    ThreadBlock.grid_x_ b <> 2 mod 3.
Proof.
  intros cfg w'.
  assert (Hlen : length (Workload.thread_blocks_ w') = 4%nat).
  { subst w'. rewrite generated_blocks_length. reflexivity. }
  split; [exact Hlen|].
  split; [rewrite Hlen; lia|].
  exists (Workload.generate_block cfg 2). split.
  - subst w'. apply (generated_block_lookup (Workload.new "k" CUSTOM cfg) 2).
    split; [lia|reflexivity].
  - split; [reflexivity|]. vm_compute. discriminate.
Qed.


(** ** Doubles as real numbers, and the logarithm of the reduction *)

Section DoubleReal.

Import Reals Lra.

Lemma Zdiv_to_R (a d : Z) :
  0 < d -> (IZR (a / d) <= IZR a / IZR d < IZR (a / d) + 1)%R.
Proof.
  intros Hd.
  pose proof (Z.div_mod a d ltac:(lia)) as Ha.
  pose proof (Z.mod_pos_bound a d Hd) as Hr.
  assert (HD : (0 < IZR d)%R) by (apply IZR_lt; exact Hd).
  assert (Hq : (IZR a = IZR d * IZR (a / d) + IZR (a mod d))%R).
  { rewrite <- mult_IZR, <- plus_IZR. f_equal. exact Ha. }
  assert (Hr0 : (0 <= IZR (a mod d))%R) by (apply IZR_le; lia).
  assert (Hr1 : (IZR (a mod d) < IZR d)%R) by (apply IZR_lt; lia).
  assert (Heq : (IZR a / IZR d = IZR (a / d) + IZR (a mod d) / IZR d)%R).
  { rewrite Hq. field. lra. }
  rewrite Heq.
  assert (H0 : (0 <= IZR (a mod d) / IZR d)%R).
  { unfold Rdiv. apply Rmult_le_pos; [exact Hr0|].
    left. apply Rinv_0_lt_compat. exact HD. }
  assert (H1 : (IZR (a mod d) / IZR d < 1)%R).
  { apply (Rmult_lt_reg_r (IZR d)); [exact HD|].
    unfold Rdiv. rewrite Rmult_assoc, Rinv_l by lra. lra. }
  lra.
Qed.

Lemma to_R_truncate (x : Double.t) :
  (0 <= Double.to_R x)%R ->
  (IZR (Double.truncate x) <= Double.to_R x < IZR (Double.truncate x) + 1)%R.
Proof.
  destruct x as [s|s| |s m e]; simpl; try lra.
  assert (Hpow : forall k, 0 < 2 ^ k \/ 2 ^ k = 0).
  { intros k. destruct (Z.le_gt_cases 0 k).
    - left. apply Z.pow_pos_nonneg; lia.
    - right. apply Z.pow_neg_r. lia. }
  destruct (0 <=? e) eqn:He.
  - apply Z.leb_le in He.
    assert (Hm : (0 < IZR (Z.pos m * 2 ^ e))%R).
    { apply IZR_lt. pose proof (Z.pow_pos_nonneg 2 e). lia. }
    destruct s; lra.
  - apply Z.leb_gt in He.
    assert (Hd : 0 < 2 ^ (- e)) by (apply Z.pow_pos_nonneg; lia).
    pose proof (Zdiv_to_R (Z.pos m) (2 ^ (- e)) Hd) as Hdiv.
    assert (Hm : (0 < IZR (Z.pos m) / IZR (2 ^ (- e)))%R).
    { unfold Rdiv. apply Rmult_lt_0_compat; [apply IZR_lt; lia|].
      apply Rinv_0_lt_compat, IZR_lt, Hd. }
    destruct s; lra.
Qed.

(** The truncation is the integer part. *)
Lemma truncate_between (x : Double.t) (k : Z) :
  (IZR k <= Double.to_R x < IZR k + 1)%R -> 0 <= k -> Double.truncate x = k.
Proof.
  intros [Hlo Hhi] Hk.
  assert (H0 : (0 <= Double.to_R x)%R).
  { apply Rle_trans with (IZR k); [apply IZR_le; exact Hk|exact Hlo]. }
  destruct (to_R_truncate x H0) as [Ht1 Ht2].
  assert (H1 : (IZR k < IZR (Double.truncate x + 1))%R) by (rewrite plus_IZR; lra).
  assert (H2 : (IZR (Double.truncate x) < IZR (k + 1))%R) by (rewrite plus_IZR; lra).
  apply lt_IZR in H1, H2. lia.
Qed.

Lemma truncate_monotone (x y : Double.t) :
  (0 <= Double.to_R x <= Double.to_R y)%R -> Double.truncate x <= Double.truncate y.
Proof.
  intros [H0 Hxy].
  destruct (to_R_truncate x H0) as [Hx1 Hx2].
  destruct (to_R_truncate y ltac:(lra)) as [Hy1 Hy2].
  assert (H : (IZR (Double.truncate x) < IZR (Double.truncate y + 1))%R)
    by (rewrite plus_IZR; lra).
  apply lt_IZR in H. lia.
Qed.

(** ** Conversion of small integers *)

Lemma digits2_pos_bounds (p : positive) :
  2 ^ (Z.pos (digits2_pos p) - 1) <= Z.pos p < 2 ^ Z.pos (digits2_pos p).
Proof.
  induction p as [p IH|p IH|]; cbn [digits2_pos].
  - rewrite Pos2Z.inj_succ.
    replace (Z.succ (Z.pos (digits2_pos p)) - 1) with (Z.succ (Z.pos (digits2_pos p) - 1))
      by lia.
    rewrite !Z.pow_succ_r by lia. lia.
  - rewrite Pos2Z.inj_succ.
    replace (Z.succ (Z.pos (digits2_pos p)) - 1) with (Z.succ (Z.pos (digits2_pos p) - 1))
      by lia.
    rewrite !Z.pow_succ_r by lia. lia.
  - simpl. lia.
Qed.

Lemma iter_xO_value (d m : positive) :
  Z.pos (Pos.iter xO m d) = Z.pos m * 2 ^ Z.pos d /\
  digits2_pos (Pos.iter xO m d) = (digits2_pos m + d)%positive.
Proof.
  induction d as [|d IH] using Pos.peano_ind.
  - simpl. split; [lia|]. rewrite Pos.add_1_r. reflexivity.
  - rewrite Pos.iter_succ. destruct IH as [IH1 IH2]. split.
    + rewrite Pos2Z.inj_xO, IH1, Pos2Z.inj_succ, Z.pow_succ_r by lia. lia.
    + cbn [digits2_pos]. rewrite IH2. lia.
Qed.

Lemma binary_round_aux_exact (m : positive) (e : Z) :
  Z.pos (digits2_pos m) = 53 -> -1074 <= e <= 971 ->
  binary_round_aux 53 1024 false (Z.pos m) e loc_Exact = S754_finite false m e.
Proof.
  intros Hd He.
  assert (Hshift : fexp 53 1024 (Zdigits2 (Z.pos m) + e) - e = 0).
  { unfold fexp, emin. cbn [Zdigits2]. rewrite Hd. lia. }
  unfold binary_round_aux, shr_fexp.
  rewrite Hshift. cbn [shr shr_record_of_loc shr_m loc_of_shr_record round_nearest_even].
  rewrite Hshift. cbn [shr shr_m].
  replace (e <=? 1024 - 53) with true by (symmetry; apply Z.leb_le; lia).
  reflexivity.
Qed.

Lemma of_integer_small (n : Z) :
  0 < n < 2 ^ 53 ->
  exists (m : positive) (s : Z),
    0 <= s <= 52 /\
    Double.of_integer n = S754_finite false m (- s) /\
    Z.pos m = n * 2 ^ s.
Proof.
  intros Hn. destruct n as [|p|p]; try lia.
  pose proof (digits2_pos_bounds p) as Hb.
  assert (Hd : Z.pos (digits2_pos p) <= 53).
  { destruct (Z.le_gt_cases (Z.pos (digits2_pos p)) 53) as [H|H]; [exact H|].
    assert (2 ^ 53 <= 2 ^ (Z.pos (digits2_pos p) - 1))
      by (apply Z.pow_le_mono_r; lia).
    lia. }
  unfold Double.of_integer, Double.prec, Double.emax, binary_normalize, binary_round.
  assert (Hf : fexp 53 1024 (Z.pos (digits2_pos p) + 0) = Z.pos (digits2_pos p) - 53).
  { unfold fexp, emin. lia. }
  rewrite Hf. unfold shl_align.
  destruct (Z.pos (digits2_pos p) - 53 - 0) as [|k|k] eqn:Hk; try lia.
  - exists p, 0. split; [lia|]. split; [|lia].
    apply binary_round_aux_exact; lia.
  - destruct (iter_xO_value k p) as [Hv Hdig].
    exists (Pos.iter xO p k), (Z.pos k). split; [lia|]. split; [|exact Hv].
    replace (Z.pos (digits2_pos p) - 53) with (- Z.pos k) by lia.
    apply binary_round_aux_exact; [|lia].
    rewrite Hdig, Pos2Z.inj_add. lia.
Qed.

Lemma of_integer_zero : Double.of_integer 0 = S754_zero false.
Proof. reflexivity. Qed.

Lemma to_R_of_integer (n : Z) :
  0 <= n < 2 ^ 53 -> Double.to_R (Double.of_integer n) = IZR n.
Proof.
  intros Hn. destruct (Z.eq_dec n 0) as [->|Hz]; [reflexivity|].
  destruct (of_integer_small n ltac:(lia)) as (m & s & Hs & -> & Hm).
  unfold Double.to_R. destruct (0 <=? - s) eqn:He.
  - apply Z.leb_le in He. assert (s = 0) by lia. subst s.
    rewrite Hm. f_equal. simpl. lia.
  - rewrite Z.opp_involutive, Hm, mult_IZR.
    assert (Hp : (0 < IZR (2 ^ s))%R) by (apply IZR_lt, Z.pow_pos_nonneg; lia).
    field. lra.
Qed.

Lemma truncate_of_integer (n : Z) :
  0 <= n < 2 ^ 53 -> Double.truncate (Double.of_integer n) = n.
Proof.
  intros Hn. apply truncate_between; [|lia].
  rewrite to_R_of_integer by exact Hn. lra.
Qed.

(** ** The logarithm *)

Lemma ln_pow2 (j : Z) : 0 <= j -> ln (IZR (2 ^ j)) = (IZR j * ln 2)%R.
Proof.
  intros Hj. rewrite <- (Z2Nat.id j Hj) at 1. rewrite <- pow_IZR.
  rewrite ln_pow by lra. rewrite INR_IZR_INZ, Z2Nat.id by exact Hj. reflexivity.
Qed.

Lemma ln2_bounds : (/ 2 < ln 2 < 1)%R.
Proof.
  split; [exact ln_lt_2|].
  rewrite <- (ln_exp 1). apply ln_increasing; [lra|].
  pose proof (exp_ineq1 1 ltac:(lra)). lra.
Qed.

(** Below a power of two the logarithm stays away from the exponent. *)
Lemma ln_below_pow2 (S n : Z) :
  1 <= S < 2 ^ n -> 0 <= n ->
  (ln (IZR S) <= IZR n * ln 2 - / IZR (2 ^ n))%R.
Proof.
  intros HS Hn.
  assert (HP : (2 <= IZR (2 ^ n))%R) by (apply IZR_le; lia).
  set (P := IZR (2 ^ n)) in *.
  assert (Hle : (IZR S <= P * (1 - / P))%R).
  { replace (P * (1 - / P))%R with (P - 1)%R by (field; lra).
    unfold P. rewrite <- minus_IZR. apply IZR_le. lia. }
  assert (HS0 : (0 < IZR S)%R) by (apply IZR_lt; lia).
  assert (Hinv : (0 < / P <= / 2)%R).
  { split; [apply Rinv_0_lt_compat; lra|].
    apply Rinv_le_contravar; lra. }
  apply Rle_trans with (ln (P * (1 - / P))).
  - destruct Hle as [Hlt|Heq]; [left; apply ln_increasing; assumption|].
    rewrite Heq. right. reflexivity.
  - rewrite ln_mult by lra. unfold P at 1. rewrite ln_pow2 by exact Hn.
    assert (Hexp : (ln (1 - / P) <= - / P)%R).
    { rewrite <- (ln_exp (- / P)).
      pose proof (exp_ineq1_le (- / P)) as He.
      destruct He as [Hlt|Heq].
      - left. apply ln_increasing; lra.
      - right. f_equal. lra. }
    lra.
Qed.

(** The conversion is exact on the powers of two a [size_t] can hold, and
    on [2^64]. *)
Lemma to_R_of_integer_pow2 (k : Z) :
  0 <= k <= 64 -> Double.to_R (Double.of_integer (2 ^ k)) = IZR (2 ^ k).
Proof.
  intros Hk. destruct (Z.lt_ge_cases k 53) as [Hlt|Hge].
  - apply to_R_of_integer. split; [apply Z.pow_nonneg; lia|].
    apply Z.pow_lt_mono_r; lia.
  - assert (Hall : Forall (fun k => Double.of_integer (2 ^ k)
                                    = S754_finite false (2 ^ 52) (k - 52))
                          (seqZ 53 12)).
    { repeat constructor. }
    rewrite Forall_forall in Hall.
    rewrite (Hall k) by (apply elem_of_seqZ; lia).
    unfold Double.to_R. replace (0 <=? k - 52) with true by (symmetry; apply Z.leb_le; lia).
    f_equal. change (Z.pos (2 ^ 52)) with (2 ^ 52).
    rewrite <- Z.pow_add_r by lia. f_equal. lia.
Qed.

(** The step count of the reduction for a conforming [log2]. *)
Lemma reduction_steps (log2 : Double.t -> Double.t) (S : Z) :
  Double.log2_conforms log2 ->
  1 <= S < 2 ^ 53 ->
  let steps := Double.to_size_t (log2 (Double.of_integer S)) in
  (steps = Z.log2 S \/ steps = Z.log2 S + 1) /\
  (S < 2 ^ 47 -> steps = Z.log2 S).
Proof.
  intros [Hexact Hmono Hacc] HS steps.
  destruct (Z.log2_spec S ltac:(lia)) as [Hlo Hhi].
  pose proof (Z.log2_nonneg S) as Hk0.
  set (k := Z.log2 S) in *.
  assert (Hk : k < 53).
  { destruct (Z.lt_ge_cases k 53) as [H|H]; [exact H|].
    assert (2 ^ 53 <= 2 ^ k) by (apply Z.pow_le_mono_r; lia). lia. }
  replace (Z.succ k) with (k + 1) in Hhi by lia.
  set (y := log2 (Double.of_integer S)) in *.
  assert (Hx : Double.to_R (Double.of_integer S) = IZR S) by (apply to_R_of_integer; lia).
  assert (H264 : (IZR (2 ^ (k + 1)) <= IZR (2 ^ 64))%R).
  { apply IZR_le, Z.pow_le_mono_r; lia. }
  assert (Hbelow : (IZR k <= Double.to_R y)%R).
  { rewrite <- (to_R_of_integer k) by lia. rewrite <- (Hexact k) by lia.
    apply Hmono.
    - rewrite to_R_of_integer_pow2 by lia. apply IZR_le. lia.
    - rewrite to_R_of_integer_pow2, Hx by lia. apply IZR_le. exact Hlo.
    - rewrite Hx. apply Rle_trans with (IZR (2 ^ (k + 1))); [|exact H264].
      apply IZR_le. lia. }
  assert (Habove : (Double.to_R y <= IZR (k + 1))%R).
  { rewrite <- (to_R_of_integer (k + 1)) by lia. rewrite <- (Hexact (k + 1)) by lia.
    apply Hmono.
    - rewrite Hx. apply IZR_le. lia.
    - rewrite to_R_of_integer_pow2, Hx by lia. apply IZR_le. lia.
    - rewrite to_R_of_integer_pow2 by lia. exact H264. }
  assert (H0 : (0 <= Double.to_R y)%R).
  { apply Rle_trans with (IZR k); [apply IZR_le; lia|exact Hbelow]. }
  destruct (to_R_truncate y H0) as [Ht1 Ht2].
  assert (Hrange : k <= Double.truncate y <= k + 1).
  { split.
    - assert (H : (IZR k < IZR (Double.truncate y + 1))%R) by (rewrite plus_IZR; lra).
      apply lt_IZR in H. lia.
    - apply le_IZR. lra. }
  assert (Hsteps : steps = Double.truncate y).
  { unfold steps, Double.to_size_t. apply wrap64_small. lia. }
  rewrite Hsteps. split; [lia|].
  intros Hsmall.
  assert (Hk47 : k + 1 <= 47).
  { destruct (Z.le_gt_cases (k + 1) 47) as [H|H]; [exact H|].
    assert (2 ^ 47 <= 2 ^ k) by (apply Z.pow_le_mono_r; lia). lia. }
  apply truncate_between; [|lia].
  split; [exact Hbelow|].
  pose proof (Hacc (Double.of_integer S)) as Ha. fold y in Ha. rewrite Hx in Ha.
  specialize (Ha ltac:(apply IZR_le; lia)
                 ltac:(apply Rle_trans with (IZR (2 ^ (k + 1)));
                       [apply IZR_le; lia|exact H264])).
  pose proof (ln_below_pow2 S (k + 1) ltac:(lia) ltac:(lia)) as Hln.
  pose proof ln2_bounds as [Hl1 Hl2].
  assert (Hp : (/ IZR (2 ^ 47) <= / IZR (2 ^ (k + 1)))%R).
  { apply Rinv_le_contravar; [apply IZR_lt, Z.pow_pos_nonneg; lia|].
    apply IZR_le, Z.pow_le_mono_r; lia. }
  assert (Hpos : (0 < / IZR (2 ^ (k + 1)))%R).
  { apply Rinv_0_lt_compat, IZR_lt, Z.pow_pos_nonneg; lia. }
  set (q := (/ IZR (2 ^ (k + 1)))%R) in *.
  assert (Hdiv : (ln (IZR S) / ln 2 <= IZR (k + 1) - q / ln 2)%R).
  { apply (Rmult_le_reg_r (ln 2)); [lra|].
    replace (ln (IZR S) / ln 2 * ln 2)%R with (ln (IZR S)) by (field; lra).
    replace ((IZR (k + 1) - q / ln 2) * ln 2)%R
      with (IZR (k + 1) * ln 2 - q)%R by (field; lra).
    exact Hln. }
  assert (Hgain : (q < q / ln 2)%R).
  { apply (Rmult_lt_reg_r (ln 2)); [lra|].
    replace (q / ln 2 * ln 2)%R with q by (field; lra).
    nra. }
  rewrite plus_IZR in *. lra.
Qed.

Lemma reduction_steps_pow2 (log2 : Double.t -> Double.t) (k : Z) :
  Double.log2_conforms log2 ->
  0 <= k <= 64 ->
  Double.to_size_t (log2 (Double.of_integer (2 ^ k))) = k.
Proof.
  intros [Hexact _ _] Hk. rewrite (Hexact k Hk).
  unfold Double.to_size_t. rewrite truncate_of_integer by lia.
  apply wrap64_small. lia.
Qed.

(** ** The integer logarithm conforms *)

Lemma integer_log2_conforms : Double.log2_conforms Double.integer_log2.
Proof.
  split.
  - intros k Hk. unfold Double.integer_log2.
    assert (Hall : Forall (fun k => Z.log2 (Double.truncate (Double.of_integer (2 ^ k)))
                                    = k) (seqZ 0 65)).
    { repeat constructor. }
    rewrite Forall_forall in Hall.
    rewrite (Hall k) by (apply elem_of_seqZ; lia). reflexivity.
  - intros x y Hx Hxy Hy. unfold Double.integer_log2.
    destruct (to_R_truncate x ltac:(lra)) as [Hx1 Hx2].
    destruct (to_R_truncate y ltac:(lra)) as [Hy1 Hy2].
    assert (H1 : 1 <= Double.truncate x).
    { assert (H : (IZR 0 < IZR (Double.truncate x))%R) by lra.
      apply lt_IZR in H. lia. }
    assert (H2 : Double.truncate x <= Double.truncate y)
      by (apply truncate_monotone; lra).
    assert (H3 : Double.truncate y <= 2 ^ 64) by (apply le_IZR; lra).
    pose proof (Z.log2_le_mono _ _ H2) as Hl.
    pose proof (Z.log2_le_mono _ _ H3) as Hl64.
    rewrite Z.log2_pow2 in Hl64 by lia.
    pose proof (Z.log2_nonneg (Double.truncate x)).
    rewrite !to_R_of_integer by lia. apply IZR_le. exact Hl.
  - intros x Hx Hy. unfold Double.integer_log2.
    destruct (to_R_truncate x ltac:(lra)) as [Hx1 Hx2].
    assert (H1 : 1 <= Double.truncate x).
    { assert (H : (IZR 0 < IZR (Double.truncate x))%R) by lra.
      apply lt_IZR in H. lia. }
    assert (H3 : Double.truncate x <= 2 ^ 64) by (apply le_IZR; lra).
    pose proof (Z.log2_le_mono _ _ H3) as Hl64.
    rewrite Z.log2_pow2 in Hl64 by lia.
    pose proof (Z.log2_nonneg (Double.truncate x)) as Hl0.
    destruct (Z.log2_spec (Double.truncate x) ltac:(lia)) as [Hlo _].
    set (j := Z.log2 (Double.truncate x)) in *.
    rewrite to_R_of_integer by lia.
    pose proof ln2_bounds as [Hl1 Hl2].
    assert (Hpow : (IZR (2 ^ j) <= Double.to_R x)%R).
    { apply Rle_trans with (IZR (Double.truncate x)); [apply IZR_le; exact Hlo|lra]. }
    assert (Hpos : (0 < IZR (2 ^ j))%R) by (apply IZR_lt, Z.pow_pos_nonneg; lia).
    assert (Hln : (IZR j * ln 2 <= ln (Double.to_R x))%R).
    { rewrite <- ln_pow2 by lia.
      destruct Hpow as [Hlt|Heq]; [left; apply ln_increasing; assumption|].
      rewrite Heq. right. reflexivity. }
    assert (Hdiv : (IZR j <= ln (Double.to_R x) / ln 2)%R).
    { apply (Rmult_le_reg_r (ln 2)); [lra|].
      replace (ln (Double.to_R x) / ln 2 * ln 2)%R with (ln (Double.to_R x)) by (field; lra).
      exact Hln. }
    assert (Heps : (0 < / IZR (2 ^ 47))%R).
    { apply Rinv_0_lt_compat, IZR_lt. lia. }
    lra.
Qed.

Lemma ln_above_pow2_pred (n : Z) :
  1 <= n ->
  (IZR n * ln 2 - 2 * / IZR (2 ^ n) <= ln (IZR (2 ^ n - 1)))%R.
Proof.
  intros Hn.
  assert (HP : (2 <= IZR (2 ^ n))%R).
  { apply IZR_le. change 2 with (2 ^ 1) at 1. apply Z.pow_le_mono_r; lia. }
  rewrite minus_IZR. set (P := IZR (2 ^ n)) in *.
  assert (Hinv : (0 < / P <= / 2)%R).
  { split; [apply Rinv_0_lt_compat; lra|]. apply Rinv_le_contravar; lra. }
  replace (P - 1)%R with (P * (1 - / P))%R by (field; lra).
  rewrite ln_mult by lra. unfold P at 2. rewrite ln_pow2 by lia.
  set (t := (/ P)%R) in *.
  assert (Hexp : (- (t / (1 - t)) <= ln (1 - t))%R).
  { pose proof (exp_ineq1_le (t / (1 - t))) as He.
    replace (1 + t / (1 - t))%R with (/ (1 - t))%R in He by (field; lra).
    assert (Hpos : (0 < / (1 - t))%R) by (apply Rinv_0_lt_compat; lra).
    assert (Hln : (ln (/ (1 - t)) <= t / (1 - t))%R).
    { rewrite <- (ln_exp (t / (1 - t))).
      destruct He as [Hlt|Heq]; [left; apply ln_increasing; assumption|].
      rewrite Heq. right. reflexivity. }
    rewrite ln_Rinv in Hln by lra. lra. }
  assert (Hfrac : (t / (1 - t) <= 2 * t)%R).
  { apply (Rmult_le_reg_r (1 - t)); [lra|].
    replace (t / (1 - t) * (1 - t))%R with t by (field; lra). nra. }
  lra.
Qed.

Lemma rounded_log2_conforms : Double.log2_conforms Double.rounded_log2.
Proof.
  destruct integer_log2_conforms as [Hexact Hmono Hacc].
  assert (Hint : forall x, (1 <= Double.to_R x)%R ->
                           1 <= Double.truncate x /\
                           (IZR (Double.truncate x) <= Double.to_R x
                            < IZR (Double.truncate x) + 1)%R).
  { intros x Hx. destruct (to_R_truncate x ltac:(lra)) as [Hx1 Hx2].
    split; [|lra].
    assert (H : (IZR 0 < IZR (Double.truncate x))%R) by lra.
    apply lt_IZR in H. lia. }
  assert (Hfloor : forall x, (1 <= Double.to_R x)%R -> (Double.to_R x <= IZR (2 ^ 64))%R ->
                             Double.to_R (Double.integer_log2 x) = IZR (Z.log2 (Double.truncate x))).
  { intros x Hx Hy. destruct (Hint x Hx) as [H1 [Hx1 Hx2]].
    assert (H3 : Double.truncate x <= 2 ^ 64) by (apply le_IZR; lra).
    pose proof (Z.log2_le_mono _ _ H3) as Hl64.
    rewrite Z.log2_pow2 in Hl64 by lia.
    pose proof (Z.log2_nonneg (Double.truncate x)).
    unfold Double.integer_log2. apply to_R_of_integer. lia. }
  assert (H49 : Double.to_R (Double.of_integer 49) = IZR 49) by (apply to_R_of_integer; lia).
  assert (Hlog : Z.log2 (2 ^ 49 - 1) = 48) by reflexivity.
  split.
  - intros k Hk. unfold Double.rounded_log2.
    assert (Hall : Forall (fun k => (Double.truncate (Double.of_integer (2 ^ k))
                                     =? 2 ^ 49 - 1) = false) (seqZ 0 65)).
    { repeat constructor. }
    rewrite Forall_forall in Hall.
    rewrite (Hall k) by (apply elem_of_seqZ; lia). apply Hexact, Hk.
  - intros x y Hx Hxy Hy. unfold Double.rounded_log2.
    destruct (Hint x Hx) as [Hx0 [Hx1 Hx2]].
    destruct (Hint y ltac:(lra)) as [Hy0 [Hy1 Hy2]].
    assert (Hle : Double.truncate x <= Double.truncate y)
      by (apply truncate_monotone; lra).
    destruct (Double.truncate x =? 2 ^ 49 - 1) eqn:Ex;
      destruct (Double.truncate y =? 2 ^ 49 - 1) eqn:Ey.
    + lra.
    + apply Z.eqb_eq in Ex. apply Z.eqb_neq in Ey.
      rewrite H49, Hfloor by lra. apply IZR_le.
      apply Z.log2_le_pow2; [lia|]. lia.
    + apply Z.eqb_neq in Ex. apply Z.eqb_eq in Ey.
      rewrite H49, Hfloor by lra. apply IZR_le.
      pose proof (Z.log2_le_mono _ _ Hle) as Hl. rewrite Ey, Hlog in Hl. lia.
    + apply Hmono; assumption.
  - intros x Hx Hy. unfold Double.rounded_log2.
    destruct (Double.truncate x =? 2 ^ 49 - 1) eqn:Ex; [|apply Hacc; assumption].
    apply Z.eqb_eq in Ex.
    destruct (Hint x Hx) as [Hx0 [Hx1 Hx2]]. rewrite Ex in Hx1.
    rewrite H49.
    pose proof (ln_above_pow2_pred 49 ltac:(lia)) as Hln.
    pose proof ln2_bounds as [Hl1 Hl2].
    assert (Hmon : (ln (IZR (2 ^ 49 - 1)) <= ln (Double.to_R x))%R).
    { destruct Hx1 as [Hlt|Heq]; [left; apply ln_increasing; [|exact Hlt]|].
      - apply IZR_lt. lia.
      - rewrite Heq. right. reflexivity. }
    assert (Heps : (/ IZR (2 ^ 47) = 4 * / IZR (2 ^ 49))%R).
    { change (2 ^ 49) with (4 * 2 ^ 47). rewrite mult_IZR.
      assert (0 < IZR (2 ^ 47))%R by (apply IZR_lt; lia).
      field. lra. }
    assert (Hq : (0 < / IZR (2 ^ 49))%R) by (apply Rinv_0_lt_compat, IZR_lt; lia).
    set (q := (/ IZR (2 ^ 49))%R) in *.
    apply (Rmult_le_reg_r (ln 2)); [lra|].
    replace ((ln (Double.to_R x) / ln 2 + / IZR (2 ^ 47)) * ln 2)%R
      with (ln (Double.to_R x) + / IZR (2 ^ 47) * ln 2)%R by (field; lra).
    rewrite Heps. nra.
Qed.

End DoubleReal.

(** ** Workload factories *)

Lemma wrap64_product3 (a b c : Z) :
  wrap64 (wrap64 (a * b) * c) = wrap64 (a * b * c).
Proof. apply wrap64_mul_l. Qed.

Lemma wrap64_product4 (a b c d : Z) :
  wrap64 (wrap64 (wrap64 (a * b) * c) * d) = wrap64 (a * b * c * d).
Proof.
  rewrite wrap64_mul_l, <- Z.mul_assoc, wrap64_mul_l. f_equal. lia.
Qed.

(** The fields the four factories set, as the source computes them. *)
Lemma createMatrixMultiply_fields (M N K : Z) :
  let w := Workload.createMatrixMultiply M N K in
  Workload.type_ w = MATRIX_MULTIPLY /\
  Workload.config_ w
  = KernelConfig.mk (wrap64 (M + 15) / 16) (wrap64 (N + 15) / 16) 1 16 16 1 /\
  Workload.estimated_instructions_ w = wrap64 (wrap64 (wrap64 (M * N) * K) * 2) /\
  Workload.estimated_memory_ops_ w = wrap64 (wrap64 (M * N) * wrap64 (K + 2)).
Proof. repeat split. Qed.

Lemma createConvolution_fields (batch channels height width : Z) :
  let w := Workload.createConvolution batch channels height width in
  let total_outputs :=
    wrap64 (wrap64 (wrap64 (batch * channels) * height) * width) in
  Workload.type_ w = CONVOLUTION /\
  Workload.config_ w
  = KernelConfig.mk (wrap64 (wrap64 (total_outputs + 256) - 1) / 256) 1 1 256 1 1 /\
  Workload.estimated_instructions_ w = wrap64 (wrap64 (total_outputs * 9) * 2) /\
  Workload.estimated_memory_ops_ w = wrap64 (total_outputs * 10).
Proof. repeat split. Qed.

Lemma createVectorAdd_fields (S : Z) :
  let w := Workload.createVectorAdd S in
  Workload.type_ w = VECTOR_ADD /\
  Workload.config_ w
  = KernelConfig.mk (wrap64 (wrap64 (S + 256) - 1) / 256) 1 1 256 1 1 /\
  Workload.estimated_instructions_ w = wrap64 (S * 2) /\
  Workload.estimated_memory_ops_ w = wrap64 (S * 3).
Proof. repeat split. Qed.

Lemma createReduction_fields (log2 : Double.t -> Double.t) (S : Z) :
  let w := Workload.createReduction log2 S in
  Workload.type_ w = REDUCTION /\
  Workload.config_ w
  = KernelConfig.mk (wrap64 (wrap64 (S + 256) - 1) / 256) 1 1 256 1 1 /\
  Workload.estimated_instructions_ w
  = wrap64 (S * Double.to_size_t (log2 (Double.of_integer S))) /\
  Workload.estimated_memory_ops_ w = wrap64 (S * 2).
Proof. repeat split. Qed.

(** C6, where no intermediate value wraps.  Each factory produces the grid,
    the block shape and the two estimates of the table.  The reduction
    factory multiplies the size by the truncation of what the C library's
    [log2] returns on the size as a [double]; with a [log2] that conforms
    ([Double.log2_conforms]) the product is the tabulated
    [S * floor (log2 S)] for every size below [2^47] and for every power of
    two up to [2^58], and for the other sizes below [2^53] it is that or
    [S * (floor (log2 S) + 1)]. *)
Theorem factories_spec :
  (forall M N K : Z,
      0 <= M -> 0 <= N -> 0 <= K ->
      M + 16 <= 2 ^ 64 -> N + 16 <= 2 ^ 64 ->
      2 * M * N * K < 2 ^ 64 -> M * N * (K + 2) < 2 ^ 64 ->
      let w := Workload.createMatrixMultiply M N K in
      Workload.type_ w = MATRIX_MULTIPLY /\
      Workload.config_ w = KernelConfig.mk (ceil_div M 16) (ceil_div N 16) 1 16 16 1 /\
      Workload.estimated_instructions_ w = 2 * M * N * K /\
      Workload.estimated_memory_ops_ w = M * N * (K + 2)) /\
  (forall batch channels height width : Z,
      0 <= batch -> 0 <= channels -> 0 <= height -> 0 <= width ->
      let T := batch * channels * height * width in
      T + 256 <= 2 ^ 64 -> 18 * T < 2 ^ 64 ->
      let w := Workload.createConvolution batch channels height width in
      Workload.type_ w = CONVOLUTION /\
      Workload.config_ w = KernelConfig.mk (ceil_div T 256) 1 1 256 1 1 /\
      Workload.estimated_instructions_ w = 18 * T /\
      Workload.estimated_memory_ops_ w = 10 * T) /\
  (forall S : Z,
      0 <= S -> S + 256 <= 2 ^ 64 -> 3 * S < 2 ^ 64 ->
      let w := Workload.createVectorAdd S in
      Workload.type_ w = VECTOR_ADD /\
      Workload.config_ w = KernelConfig.mk (ceil_div S 256) 1 1 256 1 1 /\
      Workload.estimated_instructions_ w = 2 * S /\
      Workload.estimated_memory_ops_ w = 3 * S) /\
  (forall (log2 : Double.t -> Double.t) (S : Z),
      1 <= S -> S + 256 <= 2 ^ 64 -> 2 * S < 2 ^ 64 ->
      let w := Workload.createReduction log2 S in
      let steps := Double.to_size_t (log2 (Double.of_integer S)) in
      Workload.type_ w = REDUCTION /\
      Workload.config_ w = KernelConfig.mk (ceil_div S 256) 1 1 256 1 1 /\
      Workload.estimated_instructions_ w = wrap64 (S * steps) /\
      Workload.estimated_memory_ops_ w = 2 * S) /\
  (forall log2 : Double.t -> Double.t,
      Double.log2_conforms log2 ->
      (forall S : Z,
          1 <= S < 2 ^ 47 ->
          Workload.estimated_instructions_ (Workload.createReduction log2 S)
          = S * Z.log2 S) /\
      (forall k : Z,
          0 <= k <= 58 ->
          Z.log2 (2 ^ k) = k /\
          Workload.estimated_instructions_ (Workload.createReduction log2 (2 ^ k))
          = 2 ^ k * k) /\
      (forall S : Z,
          1 <= S < 2 ^ 53 ->
          Workload.estimated_instructions_ (Workload.createReduction log2 S)
          = S * Z.log2 S \/
          Workload.estimated_instructions_ (Workload.createReduction log2 S)
          = S * (Z.log2 S + 1))).
Proof.
  split; [|split; [|split; [|split]]].
  - intros M N K HM HN HK HMfit HNfit Hinstr Hmem w.
    destruct (createMatrixMultiply_fields M N K) as (Ht & Hcfg & Hi & Hm).
    subst w. rewrite Ht, Hcfg, Hi, Hm.
    pose proof (ceil_idiom M 16 ltac:(lia) HM HMfit) as Hgx.
    pose proof (ceil_idiom N 16 ltac:(lia) HN HNfit) as Hgy.
    rewrite <- Hgx, <- Hgy.
    assert (HwM : wrap64 (wrap64 (M + 16) - 1) = wrap64 (M + 15)).
    { unfold wrap64. rewrite Zminus_mod_idemp_l. f_equal. lia. }
    assert (HwN : wrap64 (wrap64 (N + 16) - 1) = wrap64 (N + 15)).
    { unfold wrap64. rewrite Zminus_mod_idemp_l. f_equal. lia. }
    rewrite HwM, HwN.
    split; [reflexivity|]. split; [reflexivity|]. split.
    + rewrite wrap64_product4, wrap64_small by nia. lia.
    + rewrite wrap64_mul_l, wrap64_mul_r, wrap64_small by nia. lia.
  - intros batch channels height width Hb Hc Hh Hw T HTfit Hinstr w.
    destruct (createConvolution_fields batch channels height width)
      as (Ht & Hcfg & Hi & Hm).
    subst w. rewrite Ht, Hcfg, Hi, Hm.
    assert (HT0 : 0 <= T) by (subst T; nia).
    assert (HT : wrap64 (wrap64 (wrap64 (batch * channels) * height) * width) = T).
    { rewrite wrap64_product4. apply wrap64_small. subst T. lia. }
    rewrite HT.
    rewrite (ceil_idiom T 256 ltac:(lia) HT0 HTfit).
    split; [reflexivity|]. split; [reflexivity|]. split.
    + rewrite wrap64_mul_l, wrap64_small by lia. lia.
    + rewrite wrap64_small by lia. lia.
  - intros S HS HSfit Hmem w.
    destruct (createVectorAdd_fields S) as (Ht & Hcfg & Hi & Hm).
    subst w. rewrite Ht, Hcfg, Hi, Hm.
    rewrite (ceil_idiom S 256 ltac:(lia) HS HSfit).
    split; [reflexivity|]. split; [reflexivity|]. split.
    + rewrite wrap64_small by lia. lia.
    + rewrite wrap64_small by lia. lia.
  - intros log2 S HS HSfit Hmem w steps.
    destruct (createReduction_fields log2 S) as (Ht & Hcfg & Hi & Hm).
    subst w. rewrite Ht, Hcfg, Hi, Hm. fold steps.
    rewrite (ceil_idiom S 256 ltac:(lia) ltac:(lia) HSfit).
    split; [reflexivity|]. split; [reflexivity|]. split; [reflexivity|].
    rewrite wrap64_small by lia. lia.
  - intros log2 Hlog.
    assert (Hsteps : forall S k,
               Double.to_size_t (log2 (Double.of_integer S)) = k ->
               0 <= S * k < 2 ^ 64 ->
               Workload.estimated_instructions_ (Workload.createReduction log2 S)
               = S * k).
    { intros S k Hk Hfit.
      destruct (createReduction_fields log2 S) as (_ & _ & Hi & _).
      rewrite Hi, Hk. apply wrap64_small, Hfit. }
    assert (Hlog53 : forall S, 1 <= S < 2 ^ 53 -> 0 <= Z.log2 S < 53).
    { intros S HS. split; [apply Z.log2_nonneg|].
      apply Z.log2_lt_pow2; lia. }
    split; [|split].
    + intros S HS.
      destruct (reduction_steps log2 S Hlog ltac:(lia)) as [_ Hexact].
      pose proof (Hlog53 S ltac:(lia)).
      apply Hsteps; [apply Hexact; lia|]. nia.
    + intros k Hk. split; [apply Z.log2_pow2; lia|].
      apply Hsteps; [apply reduction_steps_pow2; [exact Hlog|lia]|].
      assert (0 < 2 ^ k <= 2 ^ 58)
        by (split; [apply Z.pow_pos_nonneg; lia|apply Z.pow_le_mono_r; lia]).
      nia.
    + intros S HS.
      destruct (reduction_steps log2 S Hlog HS) as [[Hk|Hk] _];
        pose proof (Hlog53 S HS); [left|right]; (apply Hsteps; [exact Hk|nia]).
Qed.

Lemma factories_spec_witness :
  (let w := Workload.createVectorAdd (1024 * 1024) in
   Workload.type_ w = VECTOR_ADD /\
   Workload.config_ w = KernelConfig.mk (ceil_div (1024 * 1024) 256) 1 1 256 1 1 /\
   Workload.estimated_instructions_ w = 2 * (1024 * 1024) /\
   Workload.estimated_memory_ops_ w = 3 * (1024 * 1024)) /\
  (let w := Workload.createReduction Double.integer_log2 (1024 * 1024) in
   Workload.type_ w = REDUCTION /\
   Workload.config_ w = KernelConfig.mk (ceil_div (1024 * 1024) 256) 1 1 256 1 1 /\
   Workload.estimated_memory_ops_ w = 2 * (1024 * 1024) /\
   Workload.estimated_instructions_ w = 1024 * 1024 * Z.log2 (1024 * 1024)) /\
  Workload.estimated_instructions_ (Workload.createReduction Double.rounded_log2 1000000)
  = 1000000 * Z.log2 1000000.
Proof.
  split; [|split].
  - apply (proj1 (proj2 (proj2 factories_spec)) (1024 * 1024)); simpl; lia.
  - destruct (proj1 (proj2 (proj2 (proj2 factories_spec)))
                Double.integer_log2 (1024 * 1024))
      as (Ht & Hcfg & _ & Hm); [lia..|].
    split; [exact Ht|]. split; [exact Hcfg|]. split; [exact Hm|].
    apply (proj2 (proj2 (proj2 (proj2 factories_spec)))
             Double.integer_log2 integer_log2_conforms).
    lia.
  - apply (proj2 (proj2 (proj2 (proj2 factories_spec)))
             Double.rounded_log2 rounded_log2_conforms).
    lia.
Defined.

(** The table of the specification read over the integers fails where the
    [size_t] arithmetic of the factories wraps: for a vector of [2^64 - 1]
    elements the grid has no block although [ceil (S / 256)] is [2^56], and
    the instruction estimate is not [2 * S]. *)
Lemma createVectorAdd_wraps :
  let S := 2 ^ 64 - 1 in
  let w := Workload.createVectorAdd S in
  KernelConfig.grid_dim_x (Workload.config_ w) = 0 /\
  ceil_div S 256 = 2 ^ 56 /\
  KernelConfig.grid_dim_x (Workload.config_ w) <> ceil_div S 256 /\
  Workload.estimated_instructions_ w <> 2 * S.
Proof.
  intros S w.
  destruct (createVectorAdd_fields S) as (_ & Hcfg & Hi & _).
  subst w. rewrite Hcfg, Hi. subst S.
  assert (Hg : wrap64 (wrap64 (2 ^ 64 - 1 + 256) - 1) / 256 = 0) by reflexivity.
  assert (Hc : ceil_div (2 ^ 64 - 1) 256 = 2 ^ 56) by reflexivity.
  assert (He : wrap64 ((2 ^ 64 - 1) * 2) = 2 ^ 64 - 2) by reflexivity.
  cbn [KernelConfig.grid_dim_x].
  rewrite Hg, Hc, He. repeat split; lia.
Qed.

(** The step count of the reduction goes through [double].  [2^49 - 1] is
    within a quarter of an ulp of [2^49] as far as its logarithm goes: a
    [log2] that rounds to nearest returns [49.0] on it, and the estimate is
    then [49 * S] where [floor (log2 S)] is 48. *)
Lemma createReduction_rounded_log2 (log2 : Double.t -> Double.t) :
  let S := 2 ^ 49 - 1 in
  log2 (Double.of_integer S) = Double.of_integer 49 ->
  Workload.estimated_instructions_ (Workload.createReduction log2 S) = S * 49 /\
  Z.log2 S = 48.
Proof.
  intros S Hlog.
  destruct (createReduction_fields log2 S) as (_ & _ & Hi & _).
  rewrite Hi, Hlog. split; reflexivity.
Qed.

(** [Double.rounded_log2] conforms and returns [49.0] on [2^49 - 1]: the
    bound [2^47] on the sizes is not there for the proof alone. *)
Lemma createReduction_rounds_up :
  Double.log2_conforms Double.rounded_log2 /\
  Workload.estimated_instructions_
    (Workload.createReduction Double.rounded_log2 (2 ^ 49 - 1))
  = (2 ^ 49 - 1) * 49 /\
  Z.log2 (2 ^ 49 - 1) = 48.
Proof.
  split; [exact rounded_log2_conforms|].
  apply (createReduction_rounded_log2 Double.rounded_log2). reflexivity.
Qed.

(** ** Compute unit: admission *)

Lemma getActiveWarpCount_loop (blocks : list (ThreadBlock.t WarpPtr)) (count : Z) :
  fold_left (fun count block => wrap64 (count + ThreadBlock.getNumWarps block))
            blocks (wrap64 count)
  = wrap64 (count + ComputeUnit.warp_total blocks).
Proof.
  revert count. induction blocks as [|b blocks IH]; intros count; simpl.
  - f_equal. unfold ComputeUnit.warp_total. simpl. lia.
  - rewrite wrap64_add_l, IH. f_equal.
    unfold ComputeUnit.warp_total. simpl. lia.
Qed.

(** The counting loop returns the sum of the warp counts, modulo [2^64]. *)
Lemma getActiveWarpCount_eq (cu : ComputeUnit.t) :
  ComputeUnit.getActiveWarpCount cu
  = wrap64 (ComputeUnit.warp_total (ComputeUnit.active_blocks_ cu)).
Proof.
  unfold ComputeUnit.getActiveWarpCount.
  change 0 with (wrap64 0) at 1.
  rewrite getActiveWarpCount_loop. reflexivity.
Qed.

Lemma warp_total_nonneg (blocks : list (ThreadBlock.t WarpPtr)) :
  0 <= ComputeUnit.warp_total blocks.
Proof.
  unfold ComputeUnit.warp_total.
  induction blocks as [|b blocks IH]; simpl; [lia|].
  unfold ThreadBlock.getNumWarps at 1. lia.
Qed.

Lemma canAcceptBlock_iff (cu : ComputeUnit.t) (b : ThreadBlock.t WarpPtr) :
  ComputeUnit.warp_total (ComputeUnit.active_blocks_ cu) + ThreadBlock.getNumWarps b
  < 2 ^ 64 ->
  ComputeUnit.canAcceptBlock (Some b) cu = true <->
  Z.of_nat (length (ComputeUnit.active_blocks_ cu)) < ComputeUnit.max_blocks_per_cu_ cu /\
  ComputeUnit.warp_total (ComputeUnit.active_blocks_ cu) + ThreadBlock.getNumWarps b
  <= ComputeUnit.max_warps_per_cu_ cu.
Proof.
  intros Hfit. unfold ComputeUnit.canAcceptBlock.
  rewrite getActiveWarpCount_eq, wrap64_add_l.
  pose proof (warp_total_nonneg (ComputeUnit.active_blocks_ cu)) as Hnn.
  assert (Hb : 0 <= ThreadBlock.getNumWarps b) by (unfold ThreadBlock.getNumWarps; lia).
  rewrite wrap64_small by lia.
  destruct (Z.geb_spec (Z.of_nat (length (ComputeUnit.active_blocks_ cu)))
                       (ComputeUnit.max_blocks_per_cu_ cu)) as [Hge|Hlt].
  - split; [discriminate|lia].
  - destruct (Z.gtb_spec
                (ComputeUnit.warp_total (ComputeUnit.active_blocks_ cu)
                 + ThreadBlock.getNumWarps b)
                (ComputeUnit.max_warps_per_cu_ cu)) as [Hgt|Hle].
    + split; [discriminate|lia].
    + split; [lia|reflexivity].
Qed.

(** What the loop of [assignBlock] does to the ready queue: it appends some
    of the offered warps, in order, each of them [READY]. *)
Lemma offer_warps_spec (heap : gmap WarpPtr Warp.t) (warps : list WarpPtr)
      (ws ws' : WarpScheduler.t) :
  ComputeUnit.offer_warps heap warps ws = Some ws' ->
  WarpScheduler.max_warps_ ws' = WarpScheduler.max_warps_ ws /\
  exists accepted,
    WarpScheduler.ready_queue_ ws' = WarpScheduler.ready_queue_ ws ++ accepted /\
    accepted `sublist_of` warps /\
    forall a, a ∈ accepted ->
              exists w, heap !! a = Some w /\ Warp.getState w = READY.
Proof.
  revert ws. induction warps as [|a warps IH]; intros ws H; simpl in H.
  - injection H as <-. split; [reflexivity|].
    exists []. rewrite app_nil_r. repeat split; [constructor|].
    intros a Ha. inversion Ha.
  - unfold WarpScheduler.addWarp in H.
    destruct (Z.of_nat (length (WarpScheduler.ready_queue_ ws))
              >=? WarpScheduler.max_warps_ ws) eqn:Hfull; simpl in H.
    + destruct (IH ws H) as (Hmax & acc & Hq & Hsub & Hready).
      split; [exact Hmax|]. exists acc. repeat split; auto.
      apply sublist_cons. exact Hsub.
    + destruct (heap !! a) as [w|] eqn:Hw; simpl in H; [|discriminate].
      destruct (ExecutionState_eqb (Warp.getState w) READY) eqn:Hst; simpl in H.
      * destruct (IH _ H) as (Hmax & acc & Hq & Hsub & Hready).
        split; [exact Hmax|]. exists (a :: acc). simpl in Hq.
        rewrite <- app_assoc in Hq. repeat split; auto.
        -- apply sublist_skip. exact Hsub.
        -- intros a' [->|Ha']%elem_of_cons; [|auto].
           exists w. split; [exact Hw|].
           destruct (Warp.getState w); simpl in Hst; congruence.
      * destruct (IH ws H) as (Hmax & acc & Hq & Hsub & Hready).
        split; [exact Hmax|]. exists acc. repeat split; auto.
        apply sublist_cons. exact Hsub.
Qed.

(** With every offered warp in the store the loop completes. *)
Lemma offer_warps_total (heap : gmap WarpPtr Warp.t) (warps : list WarpPtr)
      (ws : WarpScheduler.t) :
  (forall a, a ∈ warps -> is_Some (heap !! a)) ->
  is_Some (ComputeUnit.offer_warps heap warps ws).
Proof.
  revert ws. induction warps as [|a warps IH]; intros ws Hvalid; simpl; [eauto|].
  unfold WarpScheduler.addWarp.
  destruct (_ >=? _); simpl.
  - apply IH. intros a' Ha'. apply Hvalid. right. exact Ha'.
  - destruct (Hvalid a ltac:(left)) as [w Hw]. rewrite Hw. simpl.
    destruct (ExecutionState_eqb _ _); simpl;
      apply IH; intros a' Ha'; apply Hvalid; right; exact Ha'.
Qed.

(** With room for all of them and all of them [READY], every offered warp
    is queued. *)
Lemma offer_warps_all (heap : gmap WarpPtr Warp.t) (warps : list WarpPtr)
      (ws : WarpScheduler.t) :
  (forall a, a ∈ warps -> exists w, heap !! a = Some w /\ Warp.getState w = READY) ->
  Z.of_nat (length (WarpScheduler.ready_queue_ ws)) + Z.of_nat (length warps)
  <= WarpScheduler.max_warps_ ws ->
  ComputeUnit.offer_warps heap warps ws
  = Some {| WarpScheduler.ready_queue_ := WarpScheduler.ready_queue_ ws ++ warps;
            WarpScheduler.max_warps_ := WarpScheduler.max_warps_ ws |}.
Proof.
  revert ws. induction warps as [|a warps IH]; intros ws Hready Hroom; simpl.
  - rewrite app_nil_r. destruct ws; reflexivity.
  - unfold WarpScheduler.addWarp. simpl length in Hroom.
    destruct (Z.geb_spec (Z.of_nat (length (WarpScheduler.ready_queue_ ws)))
                         (WarpScheduler.max_warps_ ws)) as [Hge|Hlt]; [lia|].
    destruct (Hready a ltac:(left)) as (w & Hw & Hst).
    rewrite Hw. simpl. rewrite Hst. simpl.
    rewrite IH.
    + simpl. rewrite <- app_assoc. reflexivity.
    + intros a' Ha'. apply Hready. right. exact Ha'.
    + simpl. rewrite length_app. simpl. lia.
Qed.

(** C3.  [canAcceptBlock] holds of a block exactly when fewer than
    [max_blocks_per_cu] blocks are active and the warps of the active blocks
    and of the block together are at most [max_warps_per_cu] (16 and 64 in
    every compute unit); it is false of the null pointer.  [assignBlock]
    makes the same test: on rejection it returns [false] and the compute
    unit is as it was; on success it offers every warp of the block to the
    warp scheduler in order (those [READY] and finding room are queued, all
    of them when all are [READY] and there is room), appends the block to
    the active blocks, sets the state to [RUNNING] and returns [true]. *)
Theorem block_admission_spec :
  (forall (id stalled : Z),
      ComputeUnit.max_blocks_per_cu_ (ComputeUnit.new id stalled) = 16 /\
      ComputeUnit.max_warps_per_cu_ (ComputeUnit.new id stalled) = 64) /\
  (forall cu : ComputeUnit.t, ComputeUnit.canAcceptBlock None cu = false) /\
  (forall (cu : ComputeUnit.t) (b : ThreadBlock.t WarpPtr),
      ComputeUnit.warp_total (ComputeUnit.active_blocks_ cu) + ThreadBlock.getNumWarps b
      < 2 ^ 64 ->
      ComputeUnit.canAcceptBlock (Some b) cu = true <->
      Z.of_nat (length (ComputeUnit.active_blocks_ cu))
      < ComputeUnit.max_blocks_per_cu_ cu /\
      ComputeUnit.warp_total (ComputeUnit.active_blocks_ cu) + ThreadBlock.getNumWarps b
      <= ComputeUnit.max_warps_per_cu_ cu) /\
  (forall (σ : ComputeUnit.world) (cu : ComputeUnit.t) (block : option (ThreadBlock.t WarpPtr)),
      ComputeUnit.canAcceptBlock block cu = false ->
      ComputeUnit.assignBlock σ block cu = Some (false, cu)) /\
  (forall (σ : ComputeUnit.world) (cu : ComputeUnit.t) (b : ThreadBlock.t WarpPtr),
      ComputeUnit.canAcceptBlock (Some b) cu = true ->
      (forall a, a ∈ ThreadBlock.getWarps b -> is_Some (ComputeUnit.warp_store σ !! a)) ->
      exists cu' accepted,
        ComputeUnit.assignBlock σ (Some b) cu = Some (true, cu') /\
        ComputeUnit.active_blocks_ cu' = ComputeUnit.active_blocks_ cu ++ [b] /\
        ComputeUnit.state_ cu' = RUNNING /\
        ComputeUnit.max_blocks_per_cu_ cu' = ComputeUnit.max_blocks_per_cu_ cu /\
        ComputeUnit.max_warps_per_cu_ cu' = ComputeUnit.max_warps_per_cu_ cu /\
        Some (ComputeUnit.warp_scheduler_ cu')
        = ComputeUnit.offer_warps (ComputeUnit.warp_store σ) (ThreadBlock.getWarps b)
                                  (ComputeUnit.warp_scheduler_ cu) /\
        WarpScheduler.ready_queue_ (ComputeUnit.warp_scheduler_ cu')
        = WarpScheduler.ready_queue_ (ComputeUnit.warp_scheduler_ cu) ++ accepted /\
        accepted `sublist_of` ThreadBlock.getWarps b /\
        (forall a, a ∈ accepted ->
                   exists w, ComputeUnit.warp_store σ !! a = Some w /\
                             Warp.getState w = READY) /\
        ((forall a, a ∈ ThreadBlock.getWarps b ->
                    exists w, ComputeUnit.warp_store σ !! a = Some w /\
                              Warp.getState w = READY) ->
         Z.of_nat (length (WarpScheduler.ready_queue_ (ComputeUnit.warp_scheduler_ cu)))
         + ThreadBlock.getNumWarps b
         <= WarpScheduler.max_warps_ (ComputeUnit.warp_scheduler_ cu) ->
         accepted = ThreadBlock.getWarps b)).
Proof.
  split; [intros; split; reflexivity|].
  split; [reflexivity|].
  split; [exact canAcceptBlock_iff|].
  split.
  - intros σ cu block Hno. unfold ComputeUnit.assignBlock. rewrite Hno. reflexivity.
  - intros σ cu b Hyes Hvalid.
    unfold ComputeUnit.assignBlock. rewrite Hyes. simpl.
    destruct (offer_warps_total (ComputeUnit.warp_store σ) (ThreadBlock.getWarps b)
                (ComputeUnit.warp_scheduler_ cu) Hvalid) as [ws Hws].
    rewrite Hws. simpl.
    destruct (offer_warps_spec _ _ _ _ Hws) as (Hmax & accepted & Hq & Hsub & Hready).
    eexists _, accepted. split; [reflexivity|]. simpl.
    repeat split; auto.
    intros Hall Hroom.
    rewrite offer_warps_all in Hws by (auto; unfold ThreadBlock.getNumWarps in Hroom; lia).
    injection Hws as <-. simpl in Hq.
    apply app_inv_head in Hq. congruence.
Qed.

(** ** Compute unit: one cycle *)

Lemma loop_range_8 : loop_range 8 = [0; 1; 2; 3; 4; 5; 6; 7].
Proof. reflexivity. Qed.

(** The stall loop: [n] increments of [cycles_executed_]. *)
Lemma stall_loop (l : list Z) (cu : ComputeUnit.t) :
  fold_left (fun cu _ => ComputeUnit.incr_cycles_executed cu) l cu
  = Nat.iter (length l) ComputeUnit.incr_cycles_executed cu.
Proof.
  revert cu. induction l as [|x l IH]; intros cu; simpl; [reflexivity|].
  rewrite IH. clear IH. induction (length l) as [|n IHn]; simpl; [reflexivity|].
  rewrite IHn. reflexivity.
Qed.

Lemma iter_incr_cycles_executed (n : nat) (cu : ComputeUnit.t) :
  let cu' := Nat.iter n ComputeUnit.incr_cycles_executed cu in
  ComputeUnit.core_id_ cu' = ComputeUnit.core_id_ cu /\
  ComputeUnit.active_blocks_ cu' = ComputeUnit.active_blocks_ cu /\
  ComputeUnit.warp_scheduler_ cu' = ComputeUnit.warp_scheduler_ cu /\
  ComputeUnit.max_warps_per_cu_ cu' = ComputeUnit.max_warps_per_cu_ cu /\
  ComputeUnit.max_threads_per_cu_ cu' = ComputeUnit.max_threads_per_cu_ cu /\
  ComputeUnit.max_blocks_per_cu_ cu' = ComputeUnit.max_blocks_per_cu_ cu /\
  ComputeUnit.state_ cu' = ComputeUnit.state_ cu /\
  ComputeUnit.running_ cu' = ComputeUnit.running_ cu /\
  ComputeUnit.instructions_executed_ cu' = ComputeUnit.instructions_executed_ cu /\
  ComputeUnit.warps_executed_ cu' = ComputeUnit.warps_executed_ cu /\
  ComputeUnit.idle_cycles_ cu' = ComputeUnit.idle_cycles_ cu /\
  ComputeUnit.cycles_stalled_ cu' = ComputeUnit.cycles_stalled_ cu /\
  (0 <= ComputeUnit.cycles_executed_ cu < 2 ^ 64 ->
   ComputeUnit.cycles_executed_ cu'
   = wrap64 (ComputeUnit.cycles_executed_ cu + Z.of_nat n)).
Proof.
  induction n as [|n IH]; simpl.
  - repeat split. intros Hr. rewrite Z.add_0_r, wrap64_small by lia. reflexivity.
  - destruct IH as (H1 & H2 & H3 & H4 & H5 & H6 & H7 & H8 & H9 & H10 & H11 & H12 & H13).
    repeat split; try assumption.
    intros Hr. rewrite (H13 Hr), wrap64_add_l. f_equal. lia.
Qed.

(** The ten steps of a batch fall in three classes. *)
Lemma executeWarp_body_plain (a : WarpPtr) (σ : ComputeUnit.world)
      (cu : ComputeUnit.t) (i : Z) :
  i mod 5 <> 0 ->
  ComputeUnit.executeWarp_body a (σ, cu) i
  = (ComputeUnit.update_warp Warp.incrementPC a
       (ComputeUnit.update_warp Warp.recordInstruction a σ),
     ComputeUnit.incr_instructions_executed cu).
Proof.
  intros H. unfold ComputeUnit.executeWarp_body.
  destruct (Z.eqb_spec (i mod 5) 0); [contradiction|reflexivity].
Qed.

Lemma executeWarp_body_memory (a : WarpPtr) (σ : ComputeUnit.world)
      (cu : ComputeUnit.t) (i : Z) :
  i mod 5 = 0 -> i mod 10 <> 0 ->
  ComputeUnit.executeWarp_body a (σ, cu) i
  = (ComputeUnit.update_controller Memory.recordMemoryOp
       (ComputeUnit.update_warp Warp.incrementPC a
          (ComputeUnit.update_warp Warp.recordInstruction a σ)),
     ComputeUnit.incr_instructions_executed cu).
Proof.
  intros H5 H10. unfold ComputeUnit.executeWarp_body.
  destruct (Z.eqb_spec (i mod 5) 0); [|contradiction].
  destruct (Z.eqb_spec (i mod 10) 0); [contradiction|reflexivity].
Qed.

Lemma executeWarp_body_stall (a : WarpPtr) (σ : ComputeUnit.world)
      (cu : ComputeUnit.t) (i : Z) :
  i mod 10 = 0 ->
  ComputeUnit.executeWarp_body a (σ, cu) i
  = (ComputeUnit.update_warp (Warp.setState RUNNING) a
       (ComputeUnit.update_warp Warp.recordStall a
          (ComputeUnit.update_warp (Warp.setState MEMORY_STALLED) a
             (ComputeUnit.update_controller Memory.recordMemoryOp
                (ComputeUnit.update_warp Warp.incrementPC a
                   (ComputeUnit.update_warp Warp.recordInstruction a σ))))),
     Nat.iter
       (Z.to_nat
          (Memory.getLatency
             (Memory.getGlobalMemory (ComputeUnit.memory_controller_ σ)) / 10))
       ComputeUnit.incr_cycles_executed
       (ComputeUnit.incr_cycles_stalled (ComputeUnit.incr_instructions_executed cu))).
Proof.
  intros H10. unfold ComputeUnit.executeWarp_body.
  assert (H5 : i mod 5 = 0).
  { pose proof (Z.div_mod i 10 ltac:(lia)) as Hd. rewrite H10 in Hd.
    rewrite Hd. replace (10 * (i / 10) + 0) with (0 + (2 * (i / 10)) * 5) by lia.
    rewrite Z.mod_add by lia. reflexivity. }
  destruct (Z.eqb_spec (i mod 5) 0); [|contradiction].
  destruct (Z.eqb_spec (i mod 10) 0); [|contradiction].
  rewrite stall_loop, loop_range_length. reflexivity.
Qed.

Ltac warp_fields :=
  cbn [Warp.warp_id_ Warp.block_id_ Warp.threads_ Warp.state_
       Warp.program_counter_ Warp.active_mask_ Warp.instructions_executed_
       Warp.cycles_stalled_ Warp.setState Warp.incrementPC
       Warp.recordInstruction Warp.recordStall Warp.getState
       Warp.getInstructionsExecuted].

Ltac cu_fields :=
  cbn [ComputeUnit.core_id_ ComputeUnit.active_blocks_ ComputeUnit.warp_scheduler_
       ComputeUnit.max_warps_per_cu_ ComputeUnit.max_threads_per_cu_
       ComputeUnit.max_blocks_per_cu_ ComputeUnit.state_ ComputeUnit.running_
       ComputeUnit.cycles_executed_ ComputeUnit.instructions_executed_
       ComputeUnit.warps_executed_ ComputeUnit.idle_cycles_
       ComputeUnit.cycles_stalled_ ComputeUnit.incr_cycles_executed
       ComputeUnit.incr_instructions_executed ComputeUnit.incr_warps_executed
       ComputeUnit.incr_idle_cycles ComputeUnit.incr_cycles_stalled
       ComputeUnit.set_warp_scheduler ComputeUnit.set_active_blocks
       ComputeUnit.set_state].

Lemma wrap64_add_add (x n m : Z) :
  wrap64 (wrap64 (x + n) + m) = wrap64 (x + (n + m)).
Proof. rewrite wrap64_add_l. f_equal. lia. Qed.

Ltac wrap_sum := repeat rewrite wrap64_add_add; f_equal; lia.

(** Reading the store and the controller after a write. *)
Lemma warp_store_update_warp (f : Warp.t -> Warp.t) (a : WarpPtr) (σ : ComputeUnit.world) :
  ComputeUnit.warp_store (ComputeUnit.update_warp f a σ)
  = alter f a (ComputeUnit.warp_store σ).
Proof. reflexivity. Qed.

Lemma controller_update_warp (f : Warp.t -> Warp.t) (a : WarpPtr) (σ : ComputeUnit.world) :
  ComputeUnit.memory_controller_ (ComputeUnit.update_warp f a σ)
  = ComputeUnit.memory_controller_ σ.
Proof. reflexivity. Qed.

Lemma warp_store_update_controller f (σ : ComputeUnit.world) :
  ComputeUnit.warp_store (ComputeUnit.update_controller f σ)
  = ComputeUnit.warp_store σ.
Proof. reflexivity. Qed.

Lemma controller_update_controller f (σ : ComputeUnit.world) :
  ComputeUnit.memory_controller_ (ComputeUnit.update_controller f σ)
  = f (ComputeUnit.memory_controller_ σ).
Proof. reflexivity. Qed.

Ltac world_fields :=
  repeat first [ rewrite warp_store_update_warp
               | rewrite controller_update_warp
               | rewrite warp_store_update_controller
               | rewrite controller_update_controller ].

(** The batch of 8 instructions on the warp at address [a]. *)
Lemma executeWarp_batch (σ : ComputeUnit.world) (cu : ComputeUnit.t)
      (a : WarpPtr) (w : Warp.t) :
  ComputeUnit.warp_store σ !! a = Some w ->
  0 <= ComputeUnit.cycles_executed_ cu < 2 ^ 64 ->
  let latency :=
    Memory.getLatency (Memory.getGlobalMemory (ComputeUnit.memory_controller_ σ)) in
  0 <= latency / 10 ->
  exists σ1 cu1 w1,
    ComputeUnit.executeWarp (Some a) 8 σ cu = Some (σ1, cu1) /\
    ComputeUnit.warp_store σ1 !! a = Some w1 /\
    (forall a', a' <> a ->
                ComputeUnit.warp_store σ1 !! a' = ComputeUnit.warp_store σ !! a') /\
    ComputeUnit.memory_controller_ σ1
    = Memory.recordMemoryOp (Memory.recordMemoryOp (ComputeUnit.memory_controller_ σ)) /\
    Warp.state_ w1 = READY /\
    Warp.instructions_executed_ w1 = wrap64 (Warp.instructions_executed_ w + 8) /\
    Warp.program_counter_ w1 = wrap64 (Warp.program_counter_ w + 8) /\
    Warp.cycles_stalled_ w1 = wrap64 (Warp.cycles_stalled_ w + 1) /\
    Warp.warp_id_ w1 = Warp.warp_id_ w /\
    Warp.block_id_ w1 = Warp.block_id_ w /\
    Warp.threads_ w1 = Warp.threads_ w /\
    Warp.active_mask_ w1 = Warp.active_mask_ w /\
    ComputeUnit.cycles_executed_ cu1
    = wrap64 (ComputeUnit.cycles_executed_ cu + latency / 10) /\
    ComputeUnit.instructions_executed_ cu1
    = wrap64 (ComputeUnit.instructions_executed_ cu + 8) /\
    ComputeUnit.cycles_stalled_ cu1 = wrap64 (ComputeUnit.cycles_stalled_ cu + 1) /\
    ComputeUnit.warps_executed_ cu1 = wrap64 (ComputeUnit.warps_executed_ cu + 1) /\
    ComputeUnit.idle_cycles_ cu1 = ComputeUnit.idle_cycles_ cu /\
    ComputeUnit.active_blocks_ cu1 = ComputeUnit.active_blocks_ cu /\
    ComputeUnit.warp_scheduler_ cu1 = ComputeUnit.warp_scheduler_ cu /\
    ComputeUnit.state_ cu1 = ComputeUnit.state_ cu /\
    ComputeUnit.max_warps_per_cu_ cu1 = ComputeUnit.max_warps_per_cu_ cu /\
    ComputeUnit.max_blocks_per_cu_ cu1 = ComputeUnit.max_blocks_per_cu_ cu.
Proof.
  intros Hw Hcycles latency Hlat.
  unfold ComputeUnit.executeWarp. rewrite Hw. cbn [mbind option_bind].
  rewrite loop_range_8. cbn [fold_left].
  rewrite executeWarp_body_stall by reflexivity.
  rewrite 4!executeWarp_body_plain by (vm_compute; congruence).
  rewrite executeWarp_body_memory by (vm_compute; congruence).
  rewrite 2!executeWarp_body_plain by (vm_compute; congruence).
  rewrite controller_update_warp. fold latency.
  destruct (iter_incr_cycles_executed (Z.to_nat (latency / 10))
              (ComputeUnit.incr_cycles_stalled
                 (ComputeUnit.incr_instructions_executed cu)))
    as (I1 & I2 & I3 & I4 & I5 & I6 & I7 & I8 & I9 & I10 & I11 & I12 & I13).
  eexists _, _, _. split; [reflexivity|].
  split.
  { world_fields. rewrite !lookup_alter_eq, Hw. reflexivity. }
  split.
  { intros a' Hne. world_fields. rewrite !lookup_alter_ne by congruence. reflexivity. }
  split; [world_fields; reflexivity|].
  warp_fields. cu_fields.
  rewrite I2, I3, I4, I6, I7, I9, I10, I11, I12, I13 by (cu_fields; exact Hcycles).
  cu_fields. rewrite Z2Nat.id by exact Hlat.
  repeat split; try reflexivity; wrap_sum.
Qed.

Lemma all_warps_done_total (heap : gmap WarpPtr Warp.t) (warps : list WarpPtr) :
  (forall a, a ∈ warps -> is_Some (heap !! a)) ->
  is_Some (ComputeUnit.all_warps_done heap warps).
Proof.
  induction warps as [|a warps IH]; intros Hvalid; simpl; [eauto|].
  destruct (Hvalid a ltac:(left)) as [w Hw]. rewrite Hw. simpl.
  destruct (ExecutionState_eqb _ _); [|eauto].
  apply IH. intros a' Ha'. apply Hvalid. right. exact Ha'.
Qed.

(** The completion sweep goes through when the blocks own their warps: it
    marks the blocks all of whose warps are [COMPLETED] and leaves the
    others. *)
Lemma sweep_total (heap : gmap WarpPtr Warp.t) (blocks : list (ThreadBlock.t WarpPtr)) :
  (forall b a, b ∈ blocks -> a ∈ ThreadBlock.getWarps b -> is_Some (heap !! a)) ->
  exists blocks',
    mapM (ComputeUnit.sweep_block heap) blocks = Some blocks' /\
    Forall2 (fun b b' =>
               exists done : bool,
                 ComputeUnit.all_warps_done heap (ThreadBlock.getWarps b) = Some done /\
                 b' = if done then ThreadBlock.markCompleted b else b)
            blocks blocks'.
Proof.
  intros Hvalid.
  assert (Hsome : is_Some (mapM (ComputeUnit.sweep_block heap) blocks)).
  { apply mapM_is_Some_2, Forall_forall. intros b Hb. simpl.
    unfold ComputeUnit.sweep_block.
    destruct (all_warps_done_total heap (ThreadBlock.getWarps b)) as [d Hd].
    - intros a Ha. eapply Hvalid; eauto.
    - rewrite Hd. simpl. eauto. }
  destruct Hsome as [blocks' Hmap]. exists blocks'. split; [exact Hmap|].
  apply mapM_Some_1 in Hmap.
  eapply Forall2_impl; [exact Hmap|]. simpl.
  intros b b' Hsweep. unfold ComputeUnit.sweep_block in Hsweep.
  destruct (ComputeUnit.all_warps_done heap (ThreadBlock.getWarps b)) as [d|];
    simpl in Hsweep; [|discriminate].
  injection Hsweep as <-. exists d. split; reflexivity.
Qed.

Lemma simulateCycle_fetch (σ : ComputeUnit.world) (cu : ComputeUnit.t)
      (a : WarpPtr) (rest : list WarpPtr) :
  WarpScheduler.ready_queue_ (ComputeUnit.warp_scheduler_ cu) = a :: rest ->
  ComputeUnit.simulateCycle σ cu
  = (st ← ComputeUnit.executeWarp (Some a) 8 σ
            (ComputeUnit.set_warp_scheduler
               {| WarpScheduler.ready_queue_ := rest;
                  WarpScheduler.max_warps_ :=
                    WarpScheduler.max_warps_ (ComputeUnit.warp_scheduler_ cu) |}
               (ComputeUnit.incr_cycles_executed cu));
     let '(σ, cu) := st in
     w ← ComputeUnit.warp_store σ !! a;
     if Warp.getInstructionsExecuted w >=? 1000 then
       let σ := ComputeUnit.update_warp (Warp.setState COMPLETED) a σ in
       blocks ← mapM (ComputeUnit.sweep_block (ComputeUnit.warp_store σ))
                     (ComputeUnit.active_blocks_ cu);
       Some (σ, ComputeUnit.set_active_blocks blocks cu)
     else
       r ← WarpScheduler.addWarp (ComputeUnit.warp_store σ) (Some a)
                                 (ComputeUnit.warp_scheduler_ cu);
       Some (σ, ComputeUnit.set_warp_scheduler (snd r) cu)).
Proof.
  intros Hq. unfold ComputeUnit.simulateCycle, WarpScheduler.getNextWarp.
  cbn [ComputeUnit.warp_scheduler_ ComputeUnit.incr_cycles_executed].
  rewrite Hq. reflexivity.
Qed.


(** The batch does not touch the ready queue. *)
Lemma executeWarp_body_scheduler (a : WarpPtr) (st : ComputeUnit.world * ComputeUnit.t)
      (i : Z) :
  ComputeUnit.warp_scheduler_ (snd (ComputeUnit.executeWarp_body a st i))
  = ComputeUnit.warp_scheduler_ (snd st).
Proof.
  destruct st as [σ cu]. unfold ComputeUnit.executeWarp_body.
  destruct (i mod 5 =? 0); [|reflexivity].
  destruct (i mod 10 =? 0); [|reflexivity].
  rewrite stall_loop. cbn [snd].
  match goal with
  | |- context [Nat.iter ?n _ ?c] =>
      destruct (iter_incr_cycles_executed n c) as (_ & _ & -> & _)
  end.
  reflexivity.
Qed.

Lemma executeWarp_scheduler (warp : option WarpPtr) (n : Z)
      (σ σ' : ComputeUnit.world) (cu cu' : ComputeUnit.t) :
  ComputeUnit.executeWarp warp n σ cu = Some (σ', cu') ->
  ComputeUnit.warp_scheduler_ cu' = ComputeUnit.warp_scheduler_ cu.
Proof.
  unfold ComputeUnit.executeWarp.
  destruct warp as [a|]; [|intros [= <- <-]; reflexivity].
  destruct (ComputeUnit.warp_store σ !! a); cbn [mbind option_bind]; [|discriminate].
  assert (Hloop : forall l st,
             ComputeUnit.warp_scheduler_
               (snd (fold_left (ComputeUnit.executeWarp_body a) l st))
             = ComputeUnit.warp_scheduler_ (snd st)).
  { induction l as [|i l IH]; intros st; simpl; [reflexivity|].
    rewrite IH. apply executeWarp_body_scheduler. }
  specialize (Hloop (loop_range n)
                    (ComputeUnit.update_warp (Warp.setState RUNNING) a σ, cu)).
  destruct (fold_left _ _ _) as [σ1 cu1]. cbn [snd] in Hloop.
  intros [= <- <-]. cu_fields. exact Hloop.
Qed.

(** The bound on the ready queue is an invariant: a new compute unit has
    it, and [addWarp], hence [assignBlock] and [simulateCycle], keep it. *)
Lemma addWarp_bound (heap : gmap WarpPtr Warp.t) (warp : option WarpPtr)
      (s : WarpScheduler.t) (r : bool * WarpScheduler.t) :
  WarpScheduler.addWarp heap warp s = Some r ->
  WarpScheduler.getQueueSize s <= WarpScheduler.max_warps_ s ->
  WarpScheduler.getQueueSize (snd r) <= WarpScheduler.max_warps_ (snd r).
Proof.
  unfold WarpScheduler.addWarp, WarpScheduler.getQueueSize.
  destruct (Z.geb_spec (Z.of_nat (length (WarpScheduler.ready_queue_ s)))
                       (WarpScheduler.max_warps_ s)) as [Hfull|Hroom].
  - intros [= <-]. auto.
  - destruct warp as [a|]; [|intros [= <-]; auto].
    destruct (heap !! a) as [w|]; simpl; [|discriminate].
    destruct (ExecutionState_eqb _ _); intros [= <-] Hb; simpl; [|exact Hb].
    rewrite length_app. simpl. lia.
Qed.

Lemma offer_warps_bound (heap : gmap WarpPtr Warp.t) (warps : list WarpPtr)
      (s s' : WarpScheduler.t) :
  ComputeUnit.offer_warps heap warps s = Some s' ->
  WarpScheduler.getQueueSize s <= WarpScheduler.max_warps_ s ->
  WarpScheduler.getQueueSize s' <= WarpScheduler.max_warps_ s'.
Proof.
  revert s. induction warps as [|a warps IH]; intros s H Hb; simpl in H.
  - injection H as <-. exact Hb.
  - destruct (WarpScheduler.addWarp heap (Some a) s) as [r|] eqn:Hadd;
      simpl in H; [|discriminate].
    apply (IH _ H). eapply addWarp_bound; eauto.
Qed.

Lemma queue_within_bound_invariant :
  (forall id stalled, ComputeUnit.queue_within_bound (ComputeUnit.new id stalled)) /\
  (forall σ block cu r,
      ComputeUnit.assignBlock σ block cu = Some r ->
      ComputeUnit.queue_within_bound cu -> ComputeUnit.queue_within_bound (snd r)) /\
  (forall σ cu σ' cu',
      ComputeUnit.simulateCycle σ cu = Some (σ', cu') ->
      ComputeUnit.queue_within_bound cu -> ComputeUnit.queue_within_bound cu') /\
  (forall σ cu,
      ComputeUnit.queue_within_bound cu ->
      ComputeUnit.queue_within_bound (snd (ComputeUnit.removeCompletedBlocks σ cu))).
Proof.
  unfold ComputeUnit.queue_within_bound.
  split; [|split; [|split]].
  - intros id stalled. unfold WarpScheduler.getQueueSize. simpl. lia.
  - intros σ block cu r H Hb. unfold ComputeUnit.assignBlock in H.
    destruct (negb _); [injection H as <-; exact Hb|].
    destruct block as [b|]; [|injection H as <-; exact Hb].
    destruct (ComputeUnit.offer_warps _ _ _) as [ws|] eqn:Hoffer; simpl in H;
      [|discriminate].
    injection H as <-. cu_fields. simpl. eapply offer_warps_bound; eauto.
  - intros σ cu σ' cu' H Hb.
    destruct (WarpScheduler.ready_queue_ (ComputeUnit.warp_scheduler_ cu))
      as [|a rest] eqn:Hq.
    + unfold ComputeUnit.simulateCycle, WarpScheduler.getNextWarp in H.
      cbn [ComputeUnit.warp_scheduler_ ComputeUnit.incr_cycles_executed] in H.
      rewrite Hq in H. injection H as <- <-. cu_fields. exact Hb.
    + rewrite (simulateCycle_fetch σ cu a rest Hq) in H.
      destruct (ComputeUnit.executeWarp _ _ _ _) as [[σ1 cu1]|] eqn:Hexec;
        simpl in H; [|discriminate].
      assert (Hws : ComputeUnit.warp_scheduler_ cu1
                    = {| WarpScheduler.ready_queue_ := rest;
                         WarpScheduler.max_warps_ :=
                           WarpScheduler.max_warps_ (ComputeUnit.warp_scheduler_ cu) |}).
      { apply executeWarp_scheduler in Hexec. exact Hexec. }
      assert (Hb1 : WarpScheduler.getQueueSize (ComputeUnit.warp_scheduler_ cu1)
                    <= WarpScheduler.max_warps_ (ComputeUnit.warp_scheduler_ cu1)).
      { rewrite Hws. unfold WarpScheduler.getQueueSize in *. rewrite Hq in Hb.
        simpl in *. lia. }
      destruct (ComputeUnit.warp_store σ1 !! a) as [w1|]; simpl in H; [|discriminate].
      destruct (Warp.getInstructionsExecuted w1 >=? 1000).
      * destruct (mapM _ _) as [blocks|]; simpl in H; [|discriminate].
        injection H as <- <-. cu_fields. exact Hb1.
      * destruct (WarpScheduler.addWarp _ _ _) as [r|] eqn:Hadd; simpl in H;
          [|discriminate].
        injection H as <- <-. cu_fields. eapply addWarp_bound; eauto.
  - intros σ cu Hb. unfold ComputeUnit.removeCompletedBlocks. simpl.
    destruct (filter _ _); cu_fields; exact Hb.
Qed.


Lemma Fixture_block_warps : ThreadBlock.getWarps Fixture.block = [0%nat; 1%nat].
Proof. reflexivity. Qed.

Lemma Fixture_world_lookup_0 :
  ComputeUnit.warp_store Fixture.world !! 0%nat = Some (Warp.new 0 0 32).
Proof. vm_compute. reflexivity. Qed.

Lemma Fixture_world_lookup_1 :
  ComputeUnit.warp_store Fixture.world !! 1%nat = Some (Warp.new 1 0 8).
Proof. vm_compute. reflexivity. Qed.

Lemma Fixture_assign :
  ComputeUnit.assignBlock Fixture.world (Some Fixture.block) Fixture.idle_cu
  = Some (true, Fixture.busy_cu).
Proof. reflexivity. Qed.

Lemma Fixture_block_in_store (a : WarpPtr) :
  a ∈ ThreadBlock.getWarps Fixture.block ->
  is_Some (ComputeUnit.warp_store Fixture.world !! a).
Proof.
  rewrite Fixture_block_warps. intros Ha.
  apply elem_of_cons in Ha as [->|Ha].
  - exists (Warp.new 0 0 32). exact Fixture_world_lookup_0.
  - apply list_elem_of_singleton in Ha as ->.
    exists (Warp.new 1 0 8). exact Fixture_world_lookup_1.
Qed.

Lemma block_admission_spec_witness :
  exists cu' accepted,
    ComputeUnit.assignBlock Fixture.world (Some Fixture.block) Fixture.idle_cu
    = Some (true, cu') /\
    ComputeUnit.active_blocks_ cu'
    = ComputeUnit.active_blocks_ Fixture.idle_cu ++ [Fixture.block] /\
    ComputeUnit.state_ cu' = RUNNING /\
    ComputeUnit.max_blocks_per_cu_ cu' = ComputeUnit.max_blocks_per_cu_ Fixture.idle_cu /\
    ComputeUnit.max_warps_per_cu_ cu' = ComputeUnit.max_warps_per_cu_ Fixture.idle_cu /\
    Some (ComputeUnit.warp_scheduler_ cu')
    = ComputeUnit.offer_warps (ComputeUnit.warp_store Fixture.world)
                              (ThreadBlock.getWarps Fixture.block)
                              (ComputeUnit.warp_scheduler_ Fixture.idle_cu) /\
    WarpScheduler.ready_queue_ (ComputeUnit.warp_scheduler_ cu')
    = WarpScheduler.ready_queue_ (ComputeUnit.warp_scheduler_ Fixture.idle_cu) ++ accepted /\
    accepted `sublist_of` ThreadBlock.getWarps Fixture.block /\
    (forall a, a ∈ accepted ->
               exists w, ComputeUnit.warp_store Fixture.world !! a = Some w /\
                         Warp.getState w = READY) /\
    ((forall a, a ∈ ThreadBlock.getWarps Fixture.block ->
                exists w, ComputeUnit.warp_store Fixture.world !! a = Some w /\
                          Warp.getState w = READY) ->
     Z.of_nat (length (WarpScheduler.ready_queue_
                         (ComputeUnit.warp_scheduler_ Fixture.idle_cu)))
     + ThreadBlock.getNumWarps Fixture.block
     <= WarpScheduler.max_warps_ (ComputeUnit.warp_scheduler_ Fixture.idle_cu) ->
     accepted = ThreadBlock.getWarps Fixture.block).
Proof.
  apply (proj2 (proj2 (proj2 (proj2 block_admission_spec)))
           Fixture.world Fixture.idle_cu Fixture.block).
  - reflexivity.
  - exact Fixture_block_in_store.
Defined.


(* ===================================================================== *)
(** * Further properties of the code *)
(* ===================================================================== *)

(** ** Kernel-level scheduler: the four policies *)

Lemma min_element_nonempty {A} (c : A -> A -> bool) (l : list A) :
  l <> [] -> exists i x, Std.min_element c l = Some (i, x).
Proof.
  destruct l as [|a l]; [congruence|]. intros _. simpl.
  destruct (Std.min_element_loop c (0%nat, a) 1 l) as [i x]. eauto.
Qed.

(** On a non-empty pending bucket no policy returns the null pointer. *)
Lemma getNextWorkload_nonempty (heap : Scheduler.Store) (s : Scheduler.t) :
  Scheduler.pending_workloads_ s <> [] ->
  exists (i : nat) (w : Scheduler.WorkloadPtr) (index : Z),
    Scheduler.pending_workloads_ s !! i = Some w /\
    Scheduler.getNextWorkload heap s = (Some w, Scheduler.dispatch i w index s).
Proof.
  intros Hne.
  unfold Scheduler.getNextWorkload, Scheduler.FIFO_getNextWorkload,
    Scheduler.Priority_getNextWorkload, Scheduler.RoundRobin_getNextWorkload,
    Scheduler.ShortestJobFirst_getNextWorkload.
  destruct (Scheduler.algorithm_ s).
  - destruct (Scheduler.pending_workloads_ s) as [|w ws] eqn:Hp; [congruence|].
    exists 0%nat, w, (Scheduler.current_index_ s). split; reflexivity.
  - destruct (max_element_nonempty
                (fun a b => Workload.getPriority (heap a) <? Workload.getPriority (heap b))
                _ Hne) as (i & w & Hm).
    rewrite Hm. exists i, w, (Scheduler.current_index_ s). split; [|reflexivity].
    apply (max_element_by_key (fun p => Workload.getPriority (heap p))) in Hm.
    apply Hm.
  - destruct (Scheduler.pending_workloads_ s) as [|w ws] eqn:Hp; [congruence|].
    set (index := Scheduler.current_index_ s mod Z.of_nat (length (w :: ws))).
    assert (Hlt : (Z.to_nat index < length (w :: ws))%nat).
    { subst index.
      pose proof (Z.mod_pos_bound (Scheduler.current_index_ s)
                    (Z.of_nat (length (w :: ws)))) as Hb.
      simpl length in *. lia. }
    apply lookup_lt_is_Some_2 in Hlt as [w' Hw'].
    rewrite Hw'. eexists _, w', _. split; [exact Hw'|reflexivity].
  - destruct (min_element_nonempty
                (fun a b => Workload.getEstimatedInstructions (heap a)
                            <? Workload.getEstimatedInstructions (heap b))
                _ Hne) as (i & w & Hm).
    rewrite Hm. exists i, w, (Scheduler.current_index_ s). split; [|reflexivity].
    apply (min_element_by_key (fun p => Workload.getEstimatedInstructions (heap p))) in Hm.
    apply Hm.
Qed.

Lemma getNextWorkload_empty (heap : Scheduler.Store) (s : Scheduler.t) :
  Scheduler.pending_workloads_ s = [] ->
  Scheduler.getNextWorkload heap s = (None, s).
Proof.
  intros Hnil.
  unfold Scheduler.getNextWorkload, Scheduler.FIFO_getNextWorkload,
    Scheduler.Priority_getNextWorkload, Scheduler.RoundRobin_getNextWorkload,
    Scheduler.ShortestJobFirst_getNextWorkload.
  rewrite Hnil. destruct (Scheduler.algorithm_ s); reflexivity.
Qed.

(** X1.  Whatever the policy, [getNextWorkload] returns the null pointer
    exactly when the pending bucket is empty, and then changes nothing; on a
    non-empty pending bucket it returns one of the pending workloads, erases
    that entry (and no other) from the pending bucket, pushes the workload
    at the end of the running bucket, and leaves the completed bucket and
    the policy as they were. *)
Theorem getNextWorkload_contract (heap : Scheduler.Store) (s : Scheduler.t) :
  (Scheduler.pending_workloads_ s = [] ->
   Scheduler.getNextWorkload heap s = (None, s)) /\
  (Scheduler.pending_workloads_ s <> [] ->
   exists (i : nat) (w : Scheduler.WorkloadPtr),
     let s' := snd (Scheduler.getNextWorkload heap s) in
     fst (Scheduler.getNextWorkload heap s) = Some w /\
     Scheduler.pending_workloads_ s !! i = Some w /\
     Scheduler.pending_workloads_ s' = delete i (Scheduler.pending_workloads_ s) /\
     Scheduler.running_workloads_ s' = Scheduler.running_workloads_ s ++ [w] /\
     Scheduler.completed_workloads_ s' = Scheduler.completed_workloads_ s /\
     Scheduler.algorithm_ s' = Scheduler.algorithm_ s) /\
  (fst (Scheduler.getNextWorkload heap s) = None <->
   Scheduler.pending_workloads_ s = []).
Proof.
  split; [apply getNextWorkload_empty|]. split.
  - intros Hne.
    destruct (getNextWorkload_nonempty heap s Hne) as (i & w & index & Hi & ->).
    exists i, w. simpl. auto 10.
  - split.
    + intros Hnone.
      destruct (Scheduler.pending_workloads_ s) as [|p ps] eqn:Hp; [reflexivity|].
      destruct (getNextWorkload_nonempty heap s) as (i & w & index & Hi & Hnext).
      { rewrite Hp. discriminate. }
      rewrite Hnext in Hnone. discriminate.
    + intros Hnil. rewrite (getNextWorkload_empty heap s Hnil). reflexivity.
Qed.

Lemma getNextWorkload_contract_witness :
  let s := Seed.submit_all PRIORITY in
  let s' := snd (Scheduler.getNextWorkload Seed.heap s) in
  exists (i : nat) (w : Scheduler.WorkloadPtr),
    Scheduler.pending_workloads_ s = [Seed.A; Seed.B; Seed.C; Seed.D] /\
    w = Seed.B /\
    fst (Scheduler.getNextWorkload Seed.heap s) = Some w /\
    Scheduler.pending_workloads_ s !! i = Some w /\
    Scheduler.pending_workloads_ s' = delete i (Scheduler.pending_workloads_ s) /\
    Scheduler.running_workloads_ s' = Scheduler.running_workloads_ s ++ [w] /\
    Scheduler.completed_workloads_ s' = Scheduler.completed_workloads_ s /\
    Scheduler.algorithm_ s' = Scheduler.algorithm_ s.
Proof.
  intros s s'.
  destruct (proj1 (proj2 (getNextWorkload_contract Seed.heap s)))
    as (i & w & Hw & Hi & Hp & Hr & Hc & Ha).
  { vm_compute. discriminate. }
  exists i, w. split; [reflexivity|].
  split; [|split; [exact Hw|split; [exact Hi|split; [exact Hp|split; [exact Hr|split;
    [exact Hc|exact Ha]]]]]].
  vm_compute in Hw. injection Hw as <-. reflexivity.
Defined.

(** [n] calls of the first-in-first-out [getNextWorkload]. *)
Lemma FIFO_dispatch_order_take (heap : Scheduler.Store) (n : nat) (s : Scheduler.t) :
  Scheduler.algorithm_ s = FIFO ->
  let r := Scheduler.dispatch_order heap n s in
  fst r = (Some <$> take n (Scheduler.pending_workloads_ s))
            ++ replicate (n - length (Scheduler.pending_workloads_ s)) None /\
  Scheduler.pending_workloads_ (snd r) = drop n (Scheduler.pending_workloads_ s) /\
  Scheduler.running_workloads_ (snd r)
  = Scheduler.running_workloads_ s ++ take n (Scheduler.pending_workloads_ s) /\
  Scheduler.completed_workloads_ (snd r) = Scheduler.completed_workloads_ s.
Proof.
  revert s. induction n as [|n IH]; intros s Halg; cbn zeta.
  - simpl. rewrite take_0, drop_0, app_nil_r. auto.
  - cbn [Scheduler.dispatch_order].
    destruct (Scheduler.pending_workloads_ s) as [|w ws] eqn:Hp.
    + rewrite (getNextWorkload_empty heap s Hp).
      specialize (IH s Halg). rewrite Hp in IH. cbn zeta in IH.
      destruct (Scheduler.dispatch_order heap n s) as [rs s''].
      simpl in *. destruct IH as (-> & -> & -> & ->).
      rewrite take_nil, drop_nil, Nat.sub_0_r. auto.
    + assert (Hnext : Scheduler.getNextWorkload heap s
                      = (Some w, Scheduler.dispatch 0 w (Scheduler.current_index_ s) s)).
      { unfold Scheduler.getNextWorkload. rewrite Halg.
        unfold Scheduler.FIFO_getNextWorkload. rewrite Hp. reflexivity. }
      rewrite Hnext.
      specialize (IH (Scheduler.dispatch 0 w (Scheduler.current_index_ s) s) Halg).
      cbn zeta in IH.
      destruct (Scheduler.dispatch_order heap n _) as [rs s''].
      simpl in *. rewrite Hp in IH. simpl in IH.
      destruct IH as (-> & -> & -> & ->).
      rewrite <- app_assoc. auto.
Qed.

Lemma run_submissions (s : Scheduler.t) (ws : list Scheduler.WorkloadPtr) :
  let s' := Scheduler.run s (Scheduler.AddWorkload <$> ws) in
  Scheduler.pending_workloads_ s' = Scheduler.pending_workloads_ s ++ ws /\
  Scheduler.running_workloads_ s' = Scheduler.running_workloads_ s /\
  Scheduler.completed_workloads_ s' = Scheduler.completed_workloads_ s /\
  Scheduler.algorithm_ s' = Scheduler.algorithm_ s /\
  Scheduler.current_index_ s' = Scheduler.current_index_ s.
Proof.
  unfold Scheduler.run. revert s.
  induction ws as [|w ws IH]; intros s; cbn zeta.
  - simpl. rewrite app_nil_r. auto.
  - pose proof (IH (Scheduler.addWorkload w s)) as H. cbn zeta in H.
    rewrite fmap_cons. cbn [fold_left Scheduler.step].
    destruct H as (-> & -> & -> & -> & ->).
    simpl. rewrite <- app_assoc. auto.
Qed.

(** X2.  The first-in-first-out scheduler serves the pending bucket from the
    front: [n] successive calls of [getNextWorkload] return the first [n]
    pending workloads in the order of the bucket, followed by null pointers
    once the bucket is exhausted, and move them in that order to the end of
    the running bucket.  In particular, kernels submitted to a new
    first-in-first-out scheduler are dispatched in the order of their
    submission. *)
Theorem FIFO_dispatch_order :
  (forall (heap : Scheduler.Store) (n : nat) (s : Scheduler.t),
      Scheduler.algorithm_ s = FIFO ->
      let r := Scheduler.dispatch_order heap n s in
      fst r = (Some <$> take n (Scheduler.pending_workloads_ s))
                ++ replicate (n - length (Scheduler.pending_workloads_ s)) None /\
      Scheduler.pending_workloads_ (snd r) = drop n (Scheduler.pending_workloads_ s) /\
      Scheduler.running_workloads_ (snd r)
      = Scheduler.running_workloads_ s ++ take n (Scheduler.pending_workloads_ s) /\
      Scheduler.completed_workloads_ (snd r) = Scheduler.completed_workloads_ s) /\
  (forall (heap : Scheduler.Store) (ws : list Scheduler.WorkloadPtr),
      let s := Scheduler.run (Scheduler.createScheduler FIFO)
                 (Scheduler.AddWorkload <$> ws) in
      fst (Scheduler.dispatch_order heap (length ws) s) = Some <$> ws /\
      Scheduler.hasPendingWorkloads
        (snd (Scheduler.dispatch_order heap (length ws) s)) = false).
Proof.
  split; [apply FIFO_dispatch_order_take|].
  intros heap ws s.
  destruct (run_submissions (Scheduler.createScheduler FIFO) ws)
    as (Hp & _ & _ & Halg & _).
  fold s in Hp, Halg. simpl in Hp, Halg.
  destruct (FIFO_dispatch_order_take heap (length ws) s Halg) as (H1 & H2 & _).
  rewrite Hp in H1, H2.
  rewrite firstn_all, Nat.sub_diag, app_nil_r in H1.
  rewrite drop_all in H2.
  split; [exact H1|].
  unfold Scheduler.hasPendingWorkloads. rewrite H2. reflexivity.
Qed.

Lemma FIFO_dispatch_order_witness :
  fst (Scheduler.dispatch_order Seed.heap 5 (Seed.submit_all FIFO))
  = [Some Seed.A; Some Seed.B; Some Seed.C; Some Seed.D; None].
Proof.
  apply (proj1 (proj1 FIFO_dispatch_order Seed.heap 5%nat (Seed.submit_all FIFO)
                  eq_refl)).
Defined.

(** *** Policies that select by a key *)

Lemma filter_none {A} (P : A -> Prop) `{!forall x, Decision (P x)} (l : list A) :
  (forall x, x ∈ l -> ~ P x) -> filter P l = [].
Proof.
  induction l as [|a l IH]; intros Hl; [reflexivity|].
  rewrite filter_cons. destruct (decide (P a)) as [Ha|Ha].
  - exfalso. apply (Hl a); [left|exact Ha].
  - apply IH. intros x Hx. apply Hl. right. exact Hx.
Qed.

(** A selection policy: on a non-empty pending bucket [getNextWorkload]
    dispatches the first of the pending workloads of least [key]. *)
Section SelectionOrder.
Variable heap : Scheduler.Store.
Variable key : Scheduler.WorkloadPtr -> Z.
Variable algorithm : SchedulingAlgorithm.

Hypothesis select :
forall s : Scheduler.t,
  Scheduler.algorithm_ s = algorithm ->
  Scheduler.pending_workloads_ s <> [] ->
  exists (i : nat) (w : Scheduler.WorkloadPtr),
    Scheduler.getNextWorkload heap s
    = (Some w, Scheduler.dispatch i w (Scheduler.current_index_ s) s) /\
    Scheduler.pending_workloads_ s !! i = Some w /\
    (forall j y, Scheduler.pending_workloads_ s !! j = Some y -> key w <= key y) /\
    (forall j y, (j < i)%nat -> Scheduler.pending_workloads_ s !! j = Some y ->
                 key w < key y).

(** Taking out the first element of least key leaves, for every value of
  the key, the elements of that key in the order they had. *)
Lemma filter_key_delete_first (l : list Scheduler.WorkloadPtr) (i : nat)
    (w : Scheduler.WorkloadPtr) (k : Z) :
l !! i = Some w ->
(forall j y, (j < i)%nat -> l !! j = Some y -> key w < key y) ->
filter (fun x => key x = k) l
= filter (fun x => key x = k) (w :: delete i l).
Proof.
intros Hi Hfirst.
rewrite <- (take_drop_middle l i w Hi) at 1.
rewrite delete_take_drop, filter_cons, !filter_app, filter_cons.
destruct (decide (key w = k)) as [Hk|Hk]; [|reflexivity].
assert (Hnil : filter (fun x => key x = k) (take i l) = []).
{ apply filter_none. intros y Hy.
  apply list_elem_of_lookup in Hy as [j Hj].
  apply lookup_take_Some in Hj as [Hj Hlt].
  specialize (Hfirst j y Hlt Hj). lia. }
rewrite Hnil. reflexivity.
Qed.

Lemma selection_dispatch_order (n : nat) (s : Scheduler.t) :
Scheduler.algorithm_ s = algorithm ->
n = length (Scheduler.pending_workloads_ s) ->
exists l : list Scheduler.WorkloadPtr,
  let r := Scheduler.dispatch_order heap n s in
  fst r = Some <$> l /\
  l ≡ₚ Scheduler.pending_workloads_ s /\
  (forall i j a b, (i <= j)%nat -> l !! i = Some a -> l !! j = Some b ->
                   key a <= key b) /\
  (forall k, filter (fun x => key x = k) l
             = filter (fun x => key x = k) (Scheduler.pending_workloads_ s)) /\
  Scheduler.pending_workloads_ (snd r) = [] /\
  Scheduler.running_workloads_ (snd r) = Scheduler.running_workloads_ s ++ l /\
  Scheduler.completed_workloads_ (snd r) = Scheduler.completed_workloads_ s.
Proof.
revert s. induction n as [|n IH]; intros s Halg Hlen.
- exists []. simpl.
  destruct (Scheduler.pending_workloads_ s); [|discriminate].
  rewrite app_nil_r. repeat split; auto.
  intros i j a b _ Ha. discriminate.
- assert (Hne : Scheduler.pending_workloads_ s <> [])
    by (intros E; rewrite E in Hlen; discriminate).
  destruct (select s Halg Hne) as (i & w & Hnext & Hi & Hmin & Hfirst).
  set (s1 := Scheduler.dispatch i w (Scheduler.current_index_ s) s) in *.
  destruct (IH s1) as (l & IHl).
  { reflexivity || exact Halg. }
  { subst s1. simpl. unfold Std.erase.
    rewrite length_delete by eauto. lia. }
  cbn zeta in IHl. exists (w :: l).
  cbn zeta. cbn [Scheduler.dispatch_order]. rewrite Hnext.
  destruct (Scheduler.dispatch_order heap n s1) as [rs s2].
  simpl in IHl. destruct IHl as (-> & Hperm & Hsorted & Hstable & Hp & Hr & Hc).
  simpl. unfold Std.erase in Hperm, Hstable.
  split; [reflexivity|]. split.
  { rewrite Hperm. symmetry. apply delete_Permutation, Hi. }
  split.
  { intros [|a'] [|b'] a b Hle Ha Hb; simpl in Ha, Hb.
    - injection Ha as <-. injection Hb as <-. lia.
    - injection Ha as <-.
      assert (Hin : b ∈ l) by (eapply list_elem_of_lookup_2; exact Hb).
      rewrite Hperm in Hin.
      apply list_elem_of_lookup in Hin as [j Hj].
      assert (Hsub : delete i (Scheduler.pending_workloads_ s)
                       `sublist_of` Scheduler.pending_workloads_ s)
        by apply sublist_delete.
      assert (Hb' : b ∈ Scheduler.pending_workloads_ s).
      { eapply elem_of_sublist; [|exact Hsub]. eapply list_elem_of_lookup_2, Hj. }
      apply list_elem_of_lookup in Hb' as [j' Hj']. eauto.
    - lia.
    - apply (Hsorted a' b'); [lia|exact Ha|exact Hb]. }
  split.
  { intros k. rewrite (filter_key_delete_first _ i w k Hi Hfirst).
    rewrite !filter_cons. rewrite Hstable. reflexivity. }
  split; [exact Hp|]. split; [|exact Hc].
  rewrite Hr. simpl. rewrite <- app_assoc. reflexivity.
Qed.

End SelectionOrder.

Lemma ShortestJobFirst_select (heap : Scheduler.Store) (s : Scheduler.t) :
  Scheduler.algorithm_ s = SHORTEST_JOB_FIRST ->
  Scheduler.pending_workloads_ s <> [] ->
  exists (i : nat) (w : Scheduler.WorkloadPtr),
    Scheduler.getNextWorkload heap s
    = (Some w, Scheduler.dispatch i w (Scheduler.current_index_ s) s) /\
    Scheduler.pending_workloads_ s !! i = Some w /\
    (forall j y, Scheduler.pending_workloads_ s !! j = Some y ->
                 Workload.getEstimatedInstructions (heap w)
                 <= Workload.getEstimatedInstructions (heap y)) /\
    (forall j y, (j < i)%nat -> Scheduler.pending_workloads_ s !! j = Some y ->
                 Workload.getEstimatedInstructions (heap w)
                 < Workload.getEstimatedInstructions (heap y)).
Proof.
  intros Halg Hne.
  unfold Scheduler.getNextWorkload. rewrite Halg.
  unfold Scheduler.ShortestJobFirst_getNextWorkload.
  destruct (min_element_nonempty
              (fun a b => Workload.getEstimatedInstructions (heap a)
                          <? Workload.getEstimatedInstructions (heap b))
              _ Hne) as (i & w & Hm).
  rewrite Hm. exists i, w. split; [reflexivity|].
  apply (min_element_by_key (fun p => Workload.getEstimatedInstructions (heap p))) in Hm.
  exact Hm.
Qed.

Lemma Priority_select (heap : Scheduler.Store) (s : Scheduler.t) :
  Scheduler.algorithm_ s = PRIORITY ->
  Scheduler.pending_workloads_ s <> [] ->
  exists (i : nat) (w : Scheduler.WorkloadPtr),
    Scheduler.getNextWorkload heap s
    = (Some w, Scheduler.dispatch i w (Scheduler.current_index_ s) s) /\
    Scheduler.pending_workloads_ s !! i = Some w /\
    (forall j y, Scheduler.pending_workloads_ s !! j = Some y ->
                 - Workload.getPriority (heap w) <= - Workload.getPriority (heap y)) /\
    (forall j y, (j < i)%nat -> Scheduler.pending_workloads_ s !! j = Some y ->
                 - Workload.getPriority (heap w) < - Workload.getPriority (heap y)).
Proof.
  intros Halg Hne.
  unfold Scheduler.getNextWorkload. rewrite Halg.
  unfold Scheduler.Priority_getNextWorkload.
  destruct (max_element_nonempty
              (fun a b => Workload.getPriority (heap a) <? Workload.getPriority (heap b))
              _ Hne) as (i & w & Hm).
  rewrite Hm. exists i, w. split; [reflexivity|].
  apply (max_element_by_key (fun p => Workload.getPriority (heap p))) in Hm
    as (Hi & Hall & Hfirst).
  split; [exact Hi|]. split.
  - intros j y Hj. specialize (Hall j y Hj). lia.
  - intros j y Hlt Hj. specialize (Hfirst j y Hlt Hj). lia.
Qed.

(** X3.  The shortest-job-first [getNextWorkload] removes from the pending
    bucket and returns (pushing it on the running bucket) a kernel of least
    estimated instruction count, the one of lowest pending index among those
    of least estimate. *)
Theorem ShortestJobFirst_getNextWorkload_spec
        (heap : Scheduler.Store) (s : Scheduler.t) :
  Scheduler.algorithm_ s = SHORTEST_JOB_FIRST ->
  Scheduler.pending_workloads_ s <> [] ->
  exists (i : nat) (w : Scheduler.WorkloadPtr),
    let s' := snd (Scheduler.getNextWorkload heap s) in
    fst (Scheduler.getNextWorkload heap s) = Some w /\
    Scheduler.pending_workloads_ s !! i = Some w /\
    (forall j w', Scheduler.pending_workloads_ s !! j = Some w' ->
                  Workload.getEstimatedInstructions (heap w)
                  <= Workload.getEstimatedInstructions (heap w')) /\
    (forall j w', (j < i)%nat -> Scheduler.pending_workloads_ s !! j = Some w' ->
                  Workload.getEstimatedInstructions (heap w)
                  < Workload.getEstimatedInstructions (heap w')) /\
    Scheduler.pending_workloads_ s' = delete i (Scheduler.pending_workloads_ s) /\
    Scheduler.running_workloads_ s' = Scheduler.running_workloads_ s ++ [w] /\
    Scheduler.completed_workloads_ s' = Scheduler.completed_workloads_ s.
Proof.
  intros Halg Hne.
  destruct (ShortestJobFirst_select heap s Halg Hne)
    as (i & w & -> & Hi & Hmin & Hfirst).
  exists i, w. simpl. auto 10.
Qed.

Lemma ShortestJobFirst_getNextWorkload_spec_witness :
  exists (i : nat) (w : Scheduler.WorkloadPtr),
    let s := Seed.submit_all SHORTEST_JOB_FIRST in
    let s' := snd (Scheduler.getNextWorkload Seed.heap s) in
    fst (Scheduler.getNextWorkload Seed.heap s) = Some w /\
    Scheduler.pending_workloads_ s !! i = Some w /\
    (forall j w', Scheduler.pending_workloads_ s !! j = Some w' ->
                  Workload.getEstimatedInstructions (Seed.heap w)
                  <= Workload.getEstimatedInstructions (Seed.heap w')) /\
    (forall j w', (j < i)%nat -> Scheduler.pending_workloads_ s !! j = Some w' ->
                  Workload.getEstimatedInstructions (Seed.heap w)
                  < Workload.getEstimatedInstructions (Seed.heap w')) /\
    Scheduler.pending_workloads_ s' = delete i (Scheduler.pending_workloads_ s) /\
    Scheduler.running_workloads_ s' = Scheduler.running_workloads_ s ++ [w] /\
    Scheduler.completed_workloads_ s' = Scheduler.completed_workloads_ s.
Proof.
  apply (ShortestJobFirst_getNextWorkload_spec Seed.heap
           (Seed.submit_all SHORTEST_JOB_FIRST)).
  - reflexivity.
  - discriminate.
Defined.

(** X4.  Draining a shortest-job-first scheduler sorts the pending bucket:
    as many calls of [getNextWorkload] as there are pending kernels return
    all of them, each once, by non-decreasing estimated instruction count,
    kernels of equal estimate in the order they had in the bucket; they
    leave the pending bucket empty and the kernels on the running bucket in
    that order. *)
Theorem ShortestJobFirst_dispatch_order (heap : Scheduler.Store) (s : Scheduler.t) :
  Scheduler.algorithm_ s = SHORTEST_JOB_FIRST ->
  exists l : list Scheduler.WorkloadPtr,
    let r := Scheduler.dispatch_order heap (length (Scheduler.pending_workloads_ s)) s in
    let estimate w := Workload.getEstimatedInstructions (heap w) in
    fst r = Some <$> l /\
    l ≡ₚ Scheduler.pending_workloads_ s /\
    (forall i j a b, (i <= j)%nat -> l !! i = Some a -> l !! j = Some b ->
                     estimate a <= estimate b) /\
    (forall k, filter (fun w => estimate w = k) l
               = filter (fun w => estimate w = k) (Scheduler.pending_workloads_ s)) /\
    Scheduler.pending_workloads_ (snd r) = [] /\
    Scheduler.running_workloads_ (snd r) = Scheduler.running_workloads_ s ++ l /\
    Scheduler.completed_workloads_ (snd r) = Scheduler.completed_workloads_ s.
Proof.
  intros Halg.
  apply (selection_dispatch_order heap
           (fun w => Workload.getEstimatedInstructions (heap w))
           SHORTEST_JOB_FIRST (ShortestJobFirst_select heap) _ s Halg eq_refl).
Qed.

Lemma ShortestJobFirst_dispatch_order_witness :
  exists l : list Scheduler.WorkloadPtr,
    let s := Seed.submit_all SHORTEST_JOB_FIRST in
    let r := Scheduler.dispatch_order Seed.heap
               (length (Scheduler.pending_workloads_ s)) s in
    let estimate w := Workload.getEstimatedInstructions (Seed.heap w) in
    fst r = Some <$> l /\
    l ≡ₚ Scheduler.pending_workloads_ s /\
    (forall i j a b, (i <= j)%nat -> l !! i = Some a -> l !! j = Some b ->
                     estimate a <= estimate b) /\
    (forall k, filter (fun w => estimate w = k) l
               = filter (fun w => estimate w = k) (Scheduler.pending_workloads_ s)) /\
    Scheduler.pending_workloads_ (snd r) = [] /\
    Scheduler.running_workloads_ (snd r) = Scheduler.running_workloads_ s ++ l /\
    Scheduler.completed_workloads_ (snd r) = Scheduler.completed_workloads_ s.
Proof.
  apply (ShortestJobFirst_dispatch_order Seed.heap (Seed.submit_all SHORTEST_JOB_FIRST)).
  reflexivity.
Defined.

(** X5.  Draining a priority scheduler sorts the pending bucket: as many
    calls of [getNextWorkload] as there are pending kernels return all of
    them, each once, by non-increasing priority, kernels of equal priority
    in the order they had in the bucket. *)
Theorem Priority_dispatch_order (heap : Scheduler.Store) (s : Scheduler.t) :
  Scheduler.algorithm_ s = PRIORITY ->
  exists l : list Scheduler.WorkloadPtr,
    let r := Scheduler.dispatch_order heap (length (Scheduler.pending_workloads_ s)) s in
    let priority w := Workload.getPriority (heap w) in
    fst r = Some <$> l /\
    l ≡ₚ Scheduler.pending_workloads_ s /\
    (forall i j a b, (i <= j)%nat -> l !! i = Some a -> l !! j = Some b ->
                     priority b <= priority a) /\
    (forall k, filter (fun w => priority w = k) l
               = filter (fun w => priority w = k) (Scheduler.pending_workloads_ s)) /\
    Scheduler.pending_workloads_ (snd r) = [] /\
    Scheduler.running_workloads_ (snd r) = Scheduler.running_workloads_ s ++ l /\
    Scheduler.completed_workloads_ (snd r) = Scheduler.completed_workloads_ s.
Proof.
  intros Halg.
  destruct (selection_dispatch_order heap
              (fun w => - Workload.getPriority (heap w))
              PRIORITY (Priority_select heap) _ s Halg eq_refl)
    as (l & Hl).
  exists l. cbn zeta in *.
  destruct Hl as (H1 & H2 & H3 & H4 & H5 & H6 & H7).
  repeat split; auto.
  - intros i j a b Hle Ha Hb. specialize (H3 i j a b Hle Ha Hb). lia.
  - intros k.
    rewrite (list_filter_iff (fun w => Workload.getPriority (heap w) = k)
                             (fun w => - Workload.getPriority (heap w) = - k) l)
      by (intros x; lia).
    rewrite (list_filter_iff (fun w => Workload.getPriority (heap w) = k)
                             (fun w => - Workload.getPriority (heap w) = - k)
                             (Scheduler.pending_workloads_ s))
      by (intros x; lia).
    apply H4.
Qed.

Lemma Priority_dispatch_order_witness :
  exists l : list Scheduler.WorkloadPtr,
    let s := Seed.submit_all PRIORITY in
    let r := Scheduler.dispatch_order Seed.heap
               (length (Scheduler.pending_workloads_ s)) s in
    let priority w := Workload.getPriority (Seed.heap w) in
    fst r = Some <$> l /\
    l ≡ₚ Scheduler.pending_workloads_ s /\
    (forall i j a b, (i <= j)%nat -> l !! i = Some a -> l !! j = Some b ->
                     priority b <= priority a) /\
    (forall k, filter (fun w => priority w = k) l
               = filter (fun w => priority w = k) (Scheduler.pending_workloads_ s)) /\
    Scheduler.pending_workloads_ (snd r) = [] /\
    Scheduler.running_workloads_ (snd r) = Scheduler.running_workloads_ s ++ l /\
    Scheduler.completed_workloads_ (snd r) = Scheduler.completed_workloads_ s.
Proof.
  apply (Priority_dispatch_order Seed.heap (Seed.submit_all PRIORITY)).
  reflexivity.
Defined.

(** *** Moving a workload between buckets *)

Lemma find_None {A} `{EqDecision A} (x : A) (l : list A) :
  Std.find x l = None <-> x ∉ l.
Proof.
  unfold Std.find. split.
  - intros H Hin.
    destruct (list_find (fun y => y = x) l) as [[j y]|] eqn:Hf; [discriminate|].
    apply list_find_None in Hf. rewrite Forall_forall in Hf.
    apply (Hf x Hin). reflexivity.
  - intros Hnin.
    destruct (list_find (fun y => y = x) l) as [[j y]|] eqn:Hf; [|reflexivity].
    apply list_find_Some in Hf as (Hl & -> & _).
    exfalso. apply Hnin. eapply list_elem_of_lookup_2, Hl.
Qed.

Lemma find_first {A} `{EqDecision A} (x : A) (l : list A) (i : nat) :
  Std.find x l = Some i ->
  l !! i = Some x /\ forall j, (j < i)%nat -> l !! j <> Some x.
Proof.
  unfold Std.find. intros H.
  destruct (list_find (fun y => y = x) l) as [[j y]|] eqn:Hf; simpl in H; [|discriminate].
  injection H as ->. apply list_find_Some in Hf as (Hl & -> & Hfirst).
  split; [exact Hl|]. intros j Hlt Hj. apply (Hfirst j x Hj Hlt). reflexivity.
Qed.

Lemma find_is_Some {A} `{EqDecision A} (x : A) (l : list A) :
  x ∈ l -> exists i, Std.find x l = Some i.
Proof.
  intros Hin. destruct (Std.find x l) as [i|] eqn:Hf; [eauto|].
  apply find_None in Hf. contradiction.
Qed.

(** X6.  [markWorkloadRunning] and [markWorkloadCompleted] look the
    workload up in the bucket it is to leave: a workload that is not there
    leaves the scheduler unchanged; otherwise the first entry equal to it,
    and only that entry, is erased from the bucket and the workload is
    pushed at the end of the next bucket, the third bucket being left
    alone. *)
Theorem markWorkload_spec (w : Scheduler.WorkloadPtr) (s : Scheduler.t) :
  (w ∉ Scheduler.pending_workloads_ s -> Scheduler.markWorkloadRunning w s = s) /\
  (w ∉ Scheduler.running_workloads_ s -> Scheduler.markWorkloadCompleted w s = s) /\
  (w ∈ Scheduler.pending_workloads_ s ->
   exists i : nat,
     let s' := Scheduler.markWorkloadRunning w s in
     Scheduler.pending_workloads_ s !! i = Some w /\
     (forall j, (j < i)%nat -> Scheduler.pending_workloads_ s !! j <> Some w) /\
     Scheduler.pending_workloads_ s' = delete i (Scheduler.pending_workloads_ s) /\
     Scheduler.running_workloads_ s' = Scheduler.running_workloads_ s ++ [w] /\
     Scheduler.completed_workloads_ s' = Scheduler.completed_workloads_ s) /\
  (w ∈ Scheduler.running_workloads_ s ->
   exists i : nat,
     let s' := Scheduler.markWorkloadCompleted w s in
     Scheduler.running_workloads_ s !! i = Some w /\
     (forall j, (j < i)%nat -> Scheduler.running_workloads_ s !! j <> Some w) /\
     Scheduler.pending_workloads_ s' = Scheduler.pending_workloads_ s /\
     Scheduler.running_workloads_ s' = delete i (Scheduler.running_workloads_ s) /\
     Scheduler.completed_workloads_ s' = Scheduler.completed_workloads_ s ++ [w]).
Proof.
  split; [|split; [|split]].
  - intros Hnin. unfold Scheduler.markWorkloadRunning.
    apply find_None in Hnin. rewrite Hnin. reflexivity.
  - intros Hnin. unfold Scheduler.markWorkloadCompleted.
    apply find_None in Hnin. rewrite Hnin. reflexivity.
  - intros Hin. destruct (find_is_Some w _ Hin) as [i Hf].
    exists i. cbn zeta. unfold Scheduler.markWorkloadRunning. rewrite Hf.
    apply find_first in Hf as [Hi Hfirst]. simpl. auto.
  - intros Hin. destruct (find_is_Some w _ Hin) as [i Hf].
    exists i. cbn zeta. unfold Scheduler.markWorkloadCompleted. rewrite Hf.
    apply find_first in Hf as [Hi Hfirst]. simpl. auto.
Qed.

Lemma markWorkload_spec_witness :
  let s := snd (Scheduler.getNextWorkload Seed.heap
                  (Scheduler.addWorkload Seed.C (Seed.submit_all FIFO))) in
  Scheduler.pending_workloads_ s = [Seed.B; Seed.C; Seed.D; Seed.C] /\
  Scheduler.running_workloads_ s = [Seed.A] /\
  (exists i : nat,
      let s' := Scheduler.markWorkloadRunning Seed.C s in
      Scheduler.pending_workloads_ s !! i = Some Seed.C /\
      (forall j, (j < i)%nat -> Scheduler.pending_workloads_ s !! j <> Some Seed.C) /\
      Scheduler.pending_workloads_ s' = delete i (Scheduler.pending_workloads_ s) /\
      Scheduler.running_workloads_ s' = Scheduler.running_workloads_ s ++ [Seed.C] /\
      Scheduler.completed_workloads_ s' = Scheduler.completed_workloads_ s) /\
  (exists i : nat,
      let s' := Scheduler.markWorkloadCompleted Seed.A s in
      Scheduler.running_workloads_ s !! i = Some Seed.A /\
      (forall j, (j < i)%nat -> Scheduler.running_workloads_ s !! j <> Some Seed.A) /\
      Scheduler.pending_workloads_ s' = Scheduler.pending_workloads_ s /\
      Scheduler.running_workloads_ s' = delete i (Scheduler.running_workloads_ s) /\
      Scheduler.completed_workloads_ s' = Scheduler.completed_workloads_ s ++ [Seed.A]) /\
  Scheduler.markWorkloadRunning Seed.A s = s /\
  Scheduler.markWorkloadCompleted Seed.B s = s.
Proof.
  intros s.
  split; [reflexivity|]. split; [reflexivity|]. split; [|split; [|split]].
  - apply (proj1 (proj2 (proj2 (markWorkload_spec Seed.C s)))).
    vm_compute. apply (bool_decide_unpack (2%nat ∈ [1; 2; 3; 2]%nat)). exact I.
  - apply (proj2 (proj2 (proj2 (markWorkload_spec Seed.A s)))).
    vm_compute. apply (bool_decide_unpack (0%nat ∈ [0]%nat)). exact I.
  - apply (proj1 (markWorkload_spec Seed.A s)).
    vm_compute. apply (bool_decide_unpack (0%nat ∉ [1; 2; 3; 2]%nat)). exact I.
  - apply (proj1 (proj2 (markWorkload_spec Seed.B s))).
    vm_compute. apply (bool_decide_unpack (1%nat ∉ [0]%nat)). exact I.
Defined.

(** *** The distributor's use of the scheduler *)

(** What [getNextWorkload] returns and does to the pending bucket depends
    on the policy, the cursor and the pending bucket only. *)
Lemma getNextWorkload_running (heap : Scheduler.Store) (s : Scheduler.t)
      (running completed : list Scheduler.WorkloadPtr) :
  let s0 := Scheduler.mk (Scheduler.algorithm_ s) (Scheduler.pending_workloads_ s)
              running completed (Scheduler.current_index_ s) in
  let r := Scheduler.getNextWorkload heap s in
  let r0 := Scheduler.getNextWorkload heap s0 in
  fst r0 = fst r /\
  Scheduler.algorithm_ (snd r0) = Scheduler.algorithm_ (snd r) /\
  Scheduler.pending_workloads_ (snd r0) = Scheduler.pending_workloads_ (snd r) /\
  Scheduler.current_index_ (snd r0) = Scheduler.current_index_ (snd r) /\
  Scheduler.running_workloads_ (snd r0)
  = running ++ match fst r with Some w => [w] | None => [] end /\
  Scheduler.completed_workloads_ (snd r0) = completed.
Proof.
  destruct s as [alg pending run0 comp0 idx]. cbn zeta.
  unfold Scheduler.getNextWorkload, Scheduler.FIFO_getNextWorkload,
    Scheduler.Priority_getNextWorkload, Scheduler.RoundRobin_getNextWorkload,
    Scheduler.ShortestJobFirst_getNextWorkload.
  cbn [Scheduler.algorithm_ Scheduler.pending_workloads_ Scheduler.current_index_].
  destruct alg.
  - destruct pending as [|w ws]; simpl; rewrite ?app_nil_r; auto 10.
  - destruct (Std.max_element _ _) as [[i w]|]; simpl; rewrite ?app_nil_r; auto 10.
  - destruct pending as [|w ws]; [simpl; rewrite ?app_nil_r; auto 10|].
    destruct (_ !! _) as [w'|]; simpl; rewrite ?app_nil_r; auto 10.
  - destruct (Std.min_element _ _) as [[i w]|]; simpl; rewrite ?app_nil_r; auto 10.
Qed.

Lemma dispatch_order_running (heap : Scheduler.Store) (n : nat) (s : Scheduler.t) :
  let d := Scheduler.dispatch_order heap n s in
  Scheduler.running_workloads_ (snd d)
  = Scheduler.running_workloads_ s ++ omap id (fst d) /\
  Scheduler.completed_workloads_ (snd d) = Scheduler.completed_workloads_ s.
Proof.
  revert s. induction n as [|n IH]; intros s; cbn zeta.
  - simpl. rewrite app_nil_r. auto.
  - cbn [Scheduler.dispatch_order].
    destruct (getNextWorkload_cases heap s) as [->|(i & w & idx & Hi & ->)].
    + specialize (IH s). cbn zeta in IH.
      destruct (Scheduler.dispatch_order heap n s) as [rs s2]. simpl in *. exact IH.
    + specialize (IH (Scheduler.dispatch i w idx s)). cbn zeta in IH.
      destruct (Scheduler.dispatch_order heap n _) as [rs s2]. simpl in *.
      destruct IH as [-> ->]. rewrite <- app_assoc. auto.
Qed.

(** As many calls as there are pending workloads return all of them. *)
Lemma dispatch_order_all (heap : Scheduler.Store) (n : nat) (s : Scheduler.t) :
  n = length (Scheduler.pending_workloads_ s) ->
  exists l : list Scheduler.WorkloadPtr,
    fst (Scheduler.dispatch_order heap n s) = Some <$> l /\
    l ≡ₚ Scheduler.pending_workloads_ s /\
    Scheduler.pending_workloads_ (snd (Scheduler.dispatch_order heap n s)) = [].
Proof.
  revert s. induction n as [|n IH]; intros s Hlen.
  - exists []. simpl. destruct (Scheduler.pending_workloads_ s); [auto|discriminate].
  - assert (Hne : Scheduler.pending_workloads_ s <> [])
      by (intros E; rewrite E in Hlen; discriminate).
    destruct (getNextWorkload_nonempty heap s Hne) as (i & w & idx & Hi & Hnext).
    destruct (IH (Scheduler.dispatch i w idx s)) as (l & Hl & Hperm & Hnil).
    { simpl. unfold Std.erase. rewrite length_delete by eauto. lia. }
    exists (w :: l). cbn [Scheduler.dispatch_order]. rewrite Hnext.
    destruct (Scheduler.dispatch_order heap n _) as [rs s2]. simpl in *.
    subst rs. split; [reflexivity|]. split; [|exact Hnil].
    rewrite Hperm. symmetry. apply delete_Permutation, Hi.
Qed.

Lemma omap_id_Some {A} (l : list A) : omap id (Some <$> l) = l.
Proof. induction l as [|a l IH]; simpl; [reflexivity|]. f_equal. exact IH. Qed.

(** The scheduler after one iteration of the distributor that found no
    workload running. *)
Lemma serve_step (heap : Scheduler.Store) (s : Scheduler.t) :
  Scheduler.running_workloads_ s = [] ->
  let r := Scheduler.getNextWorkload heap s in
  Distributor.serve heap s
  = (fst r,
     Scheduler.mk (Scheduler.algorithm_ (snd r)) (Scheduler.pending_workloads_ (snd r))
       [] (Scheduler.completed_workloads_ s
             ++ match fst r with Some w => [w] | None => [] end)
       (Scheduler.current_index_ (snd r))).
Proof.
  intros Hrun. cbn zeta. unfold Distributor.serve.
  destruct (getNextWorkload_cases heap s) as [->|(i & w & idx & Hi & ->)].
  - simpl. rewrite app_nil_r. destruct s; simpl in *. subst. reflexivity.
  - simpl. unfold Scheduler.markWorkloadCompleted. simpl. rewrite Hrun. simpl.
    destruct (find_is_Some w [w]) as [j Hj]; [left|].
    rewrite Hj. apply find_first in Hj as [Hj _].
    destruct j as [|j]; [|destruct j; discriminate]. reflexivity.
Qed.

Lemma serve_all_shadow (heap : Scheduler.Store) (n : nat) :
  forall s t : Scheduler.t,
    Scheduler.algorithm_ s = Scheduler.algorithm_ t ->
    Scheduler.pending_workloads_ s = Scheduler.pending_workloads_ t ->
    Scheduler.current_index_ s = Scheduler.current_index_ t ->
    Scheduler.running_workloads_ s = [] ->
    let r := Distributor.serve_all heap n s in
    let d := Scheduler.dispatch_order heap n t in
    fst r = fst d /\
    Scheduler.pending_workloads_ (snd r) = Scheduler.pending_workloads_ (snd d) /\
    Scheduler.running_workloads_ (snd r) = [] /\
    Scheduler.completed_workloads_ (snd r)
    = Scheduler.completed_workloads_ s ++ omap id (fst d).
Proof.
  induction n as [|n IH]; intros s t Halg Hpend Hidx Hrun; cbn zeta.
  - simpl. rewrite app_nil_r. auto.
  - cbn [Distributor.serve_all Scheduler.dispatch_order].
    rewrite (serve_step heap s Hrun). cbn zeta.
    pose proof (getNextWorkload_running heap t (Scheduler.running_workloads_ s)
                  (Scheduler.completed_workloads_ s)) as Hsh.
    cbn zeta in Hsh.
    replace (Scheduler.mk (Scheduler.algorithm_ t) (Scheduler.pending_workloads_ t)
               (Scheduler.running_workloads_ s) (Scheduler.completed_workloads_ s)
               (Scheduler.current_index_ t)) with s in Hsh
      by (destruct s; simpl in *; subst; reflexivity).
    destruct Hsh as (Hfst & Ha & Hp & Hi & _ & _).
    destruct (Scheduler.getNextWorkload heap s) as [rs s1].
    destruct (Scheduler.getNextWorkload heap t) as [rt t1].
    simpl in *. subst rs.
    match goal with
    | |- context [Distributor.serve_all heap n ?s1'] =>
        specialize (IH s1' t1 Ha Hp Hi eq_refl)
    end.
    cbn zeta in IH.
    destruct (Distributor.serve_all heap n _) as [rs s2].
    destruct (Scheduler.dispatch_order heap n t1) as [ds t2].
    simpl in *. destruct IH as (-> & -> & -> & ->).
    repeat split; auto.
    rewrite <- app_assoc. destruct rt; reflexivity.
Qed.

(** X7.  A distributor that finds no workload running serves the pending
    workloads one after the other: [n] iterations fetch the workloads [n]
    calls of [getNextWorkload] alone would return, in the same order; after
    each iteration the running bucket is empty again, and the workloads
    served are at the end of the completed bucket in the order they were
    served.  After as many iterations as there were pending workloads, all
    of them are completed, none is pending and none is running, which is
    the condition [waitForCompletion] waits for. *)
Theorem serve_all_lifecycle (heap : Scheduler.Store) (n : nat) (s : Scheduler.t) :
  Scheduler.running_workloads_ s = [] ->
  let r := Distributor.serve_all heap n s in
  let d := Scheduler.dispatch_order heap n s in
  (fst r = fst d /\
   Scheduler.pending_workloads_ (snd r) = Scheduler.pending_workloads_ (snd d) /\
   Scheduler.running_workloads_ (snd r) = [] /\
   Scheduler.completed_workloads_ (snd r)
   = Scheduler.completed_workloads_ s ++ omap id (fst r)) /\
  (n = length (Scheduler.pending_workloads_ s) ->
   omap id (fst r) ≡ₚ Scheduler.pending_workloads_ s /\
   Scheduler.hasPendingWorkloads (snd r) = false /\
   Scheduler.getRunningCount (snd r) = 0 /\
   Scheduler.getCompletedCount (snd r)
   = Scheduler.getCompletedCount s + Scheduler.getPendingCount s).
Proof.
  intros Hrun r d.
  destruct (serve_all_shadow heap n s s eq_refl eq_refl eq_refl Hrun)
    as (Hfst & Hp & Hr & Hc).
  fold r d in Hfst, Hp, Hr, Hc.
  split.
  - rewrite Hfst. auto.
  - intros Hlen.
    destruct (dispatch_order_all heap n s Hlen) as (l & Hl & Hperm & Hnil).
    fold d in Hl, Hnil.
    rewrite Hfst, Hl, omap_id_Some.
    split; [exact Hperm|].
    unfold Scheduler.hasPendingWorkloads, Scheduler.getRunningCount,
      Scheduler.getCompletedCount, Scheduler.getPendingCount.
    rewrite Hp, Hnil, Hr, Hc, Hl, omap_id_Some, length_app, Hperm.
    repeat split; auto. lia.
Qed.

Lemma serve_all_lifecycle_witness :
  Scheduler.completed_workloads_
    (snd (Distributor.serve_all Seed.heap 4 (Seed.submit_all PRIORITY)))
  = [Seed.B; Seed.D; Seed.C; Seed.A].
Proof.
  rewrite (proj2 (proj2 (proj2 (proj1
             (serve_all_lifecycle Seed.heap 4 (Seed.submit_all PRIORITY) eq_refl))))).
  reflexivity.
Defined.

(** ** Global memory: the counters over a sequence of calls *)

Lemma GlobalMemory_run_snoc (m : Memory.GlobalMemory) (ops : list GlobalMemory.op)
      (o : GlobalMemory.op) :
  GlobalMemory.run m (ops ++ [o]) = GlobalMemory.step (GlobalMemory.run m ops) o.
Proof. unfold GlobalMemory.run. rewrite fold_left_app. reflexivity. Qed.

Lemma since_reset_snoc (ops : list GlobalMemory.op) (o : GlobalMemory.op) :
  GlobalMemory.since_reset (ops ++ [o])
  = match o with
    | GlobalMemory.Reset => []
    | _ => GlobalMemory.since_reset ops ++ [o]
    end.
Proof. unfold GlobalMemory.since_reset. rewrite fold_left_app. reflexivity. Qed.

Lemma total_snoc (l : list Z) (b : Z) :
  GlobalMemory.total (l ++ [b]) = GlobalMemory.total l + b.
Proof.
  unfold GlobalMemory.total. induction l as [|a l IH]; simpl; [lia|].
  rewrite IH. lia.
Qed.

Lemma wrap64_add_r (x y : Z) : wrap64 (x + wrap64 y) = wrap64 (x + y).
Proof. unfold wrap64. apply Zplus_mod_idemp_r. Qed.

(** Equalities between sums reduced modulo 2^64. *)
Ltac wrap_arith :=
  unfold wrap64, wrap32 in *;
  change (2 ^ 64) with 18446744073709551616 in *;
  change (2 ^ 32) with 4294967296 in *;
  Z.to_euclidean_division_equations; lia.

Lemma map_zero_repeat (n : nat) : map (fun _ : Z => 0) (repeat 0 n) = repeat 0 n.
Proof. induction n as [|n IH]; simpl; [reflexivity|]. rewrite IH. reflexivity. Qed.

(** X8.  On a global memory of [size] bytes, after any sequence of [read],
    [write] and [reset]: the size is [size], the latency 400 cycles, and the
    buffer still holds [size] zero bytes (no call stores anything in it); the
    read and write counters are the numbers, modulo 2^64, of reads and of
    writes accepted since the last [reset], the byte counters the sums of
    their byte counts, and the access counter is the sum of the read and
    write counters modulo 2^64. *)
Theorem GlobalMemory_counters (size : Z) (ops : list GlobalMemory.op) :
  let m := GlobalMemory.run (Memory.GlobalMemory_new size) ops in
  let reads := GlobalMemory.accepted_reads size (GlobalMemory.since_reset ops) in
  let writes := GlobalMemory.accepted_writes size (GlobalMemory.since_reset ops) in
  GlobalMemory.getSize m = size /\
  Memory.getLatency m = 400 /\
  Memory.data_ m = repeat 0 (Z.to_nat size) /\
  GlobalMemory.getReadCount m = wrap64 (Z.of_nat (length reads)) /\
  GlobalMemory.getWriteCount m = wrap64 (Z.of_nat (length writes)) /\
  GlobalMemory.getBytesRead m = wrap64 (GlobalMemory.total reads) /\
  GlobalMemory.getBytesWritten m = wrap64 (GlobalMemory.total writes) /\
  GlobalMemory.getAccessCount m
  = wrap64 (GlobalMemory.getReadCount m + GlobalMemory.getWriteCount m).
Proof.
  unfold GlobalMemory.getSize, Memory.getLatency, GlobalMemory.getReadCount,
    GlobalMemory.getWriteCount, GlobalMemory.getBytesRead,
    GlobalMemory.getBytesWritten, GlobalMemory.getAccessCount.
  induction ops as [|o ops IH] using rev_ind; cbn zeta.
  - simpl. repeat split; reflexivity.
  - cbn zeta in IH. rewrite GlobalMemory_run_snoc, since_reset_snoc.
    destruct IH as (Hs & Hl & Hd & Hr & Hw & Hbr & Hbw & Ha).
    set (m := GlobalMemory.run (Memory.GlobalMemory_new size) ops) in *.
    destruct o as [address bytes|address bytes|]; simpl.
    + unfold GlobalMemory.accepted_reads, GlobalMemory.accepted_writes.
      rewrite !omap_app. simpl. unfold Memory.read. rewrite Hs.
      fold (GlobalMemory.accepted_reads size (GlobalMemory.since_reset ops)).
      fold (GlobalMemory.accepted_writes size (GlobalMemory.since_reset ops)).
      destruct (wrap64 (address + bytes) >? size); simpl.
      * rewrite !app_nil_r. auto 10.
      * rewrite app_nil_r, length_app, total_snoc. simpl.
        rewrite Hr, Hw, Hbr, Hbw, Ha.
        repeat split; auto.
        -- rewrite wrap64_add_l. f_equal. lia.
        -- rewrite wrap64_add_l. reflexivity.
        -- wrap_arith.
    + unfold GlobalMemory.accepted_reads, GlobalMemory.accepted_writes.
      rewrite !omap_app. simpl. unfold Memory.write. rewrite Hs.
      fold (GlobalMemory.accepted_reads size (GlobalMemory.since_reset ops)).
      fold (GlobalMemory.accepted_writes size (GlobalMemory.since_reset ops)).
      destruct (wrap64 (address + bytes) >? size); simpl.
      * rewrite !app_nil_r. auto 10.
      * rewrite app_nil_r, length_app, total_snoc. simpl.
        rewrite Hr, Hw, Hbr, Hbw, Ha.
        repeat split; auto.
        -- rewrite wrap64_add_l. f_equal. lia.
        -- rewrite wrap64_add_l. reflexivity.
        -- wrap_arith.
    + rewrite Hd, map_zero_repeat. repeat split; auto.
Qed.

(** ** Shared memory *)

Lemma SharedMemory_run_snoc (m : Memory.SharedMemory) (ops : list SharedMemory.op)
      (o : SharedMemory.op) :
  SharedMemory.run m (ops ++ [o]) = SharedMemory.step (SharedMemory.run m ops) o.
Proof. unfold SharedMemory.run. rewrite fold_left_app. reflexivity. Qed.

Lemma since_clear_snoc (ops : list SharedMemory.op) (o : SharedMemory.op) :
  SharedMemory.since_clear (ops ++ [o])
  = match o with
    | SharedMemory.Clear => []
    | _ => SharedMemory.since_clear ops ++ [o]
    end.
Proof. unfold SharedMemory.since_clear. rewrite fold_left_app. reflexivity. Qed.

(** X9.  A shared memory does not tell reads from writes: both return the
    same flag and leave the same state.  Where [address + bytes] is
    representable in 64 bits an access is accepted exactly when it lies
    inside the memory.  On a shared memory of [size] bytes, after any
    sequence of [read], [write], [clear] and [setOwner]: the size is [size],
    the latency 4 cycles, the buffer holds [size] zero bytes, the access
    counter is the number, modulo 2^64, of accesses accepted since the last
    [clear], and the owner is the last one set (block 0 if none was). *)
Theorem SharedMemory_spec :
  (forall (m : Memory.SharedMemory) (address bytes : Z),
      SharedMemory.read m address bytes = SharedMemory.write m address bytes) /\
  (forall (m : Memory.SharedMemory) (address bytes : Z),
      0 <= address -> 0 <= bytes -> address + bytes < 2 ^ 64 ->
      (fst (SharedMemory.read m address bytes) = true
       <-> address + bytes <= SharedMemory.getSize m)) /\
  (forall (size : Z) (ops : list SharedMemory.op),
      let m := SharedMemory.run (Memory.SharedMemory_new size) ops in
      SharedMemory.getSize m = size /\
      SharedMemory.getLatency m = 4 /\
      Memory.sh_data_ m = repeat 0 (Z.to_nat size) /\
      SharedMemory.getAccessCount m
      = wrap64 (Z.of_nat (length (SharedMemory.accepted size
                                    (SharedMemory.since_clear ops)))) /\
      SharedMemory.getOwner m = default 0 (last (SharedMemory.owners ops))).
Proof.
  split; [|split].
  - intros m address bytes. reflexivity.
  - intros m address bytes Ha Hb Hsum.
    unfold SharedMemory.read, SharedMemory.getSize.
    rewrite (wrap64_small (address + bytes)) by lia.
    destruct (address + bytes >? Memory.sh_size_ m) eqn:Hgt; simpl.
    + apply Z.gtb_lt in Hgt. split; [discriminate|lia].
    + split; [|reflexivity]. intros _.
      destruct (Z.gtb_spec (address + bytes) (Memory.sh_size_ m)); [discriminate|lia].
  - unfold SharedMemory.getSize, SharedMemory.getLatency,
      SharedMemory.getAccessCount, SharedMemory.getOwner.
    intros size ops.
    induction ops as [|o ops IH] using rev_ind; cbn zeta.
    + simpl. repeat split; reflexivity.
    + cbn zeta in IH. rewrite SharedMemory_run_snoc, since_clear_snoc.
      destruct IH as (Hs & Hl & Hd & Ha & Ho).
      set (m := SharedMemory.run (Memory.SharedMemory_new size) ops) in *.
      unfold SharedMemory.owners in *. rewrite omap_app.
      destruct o as [address bytes|address bytes| |block_id]; simpl.
      * rewrite app_nil_r. unfold SharedMemory.accepted.
        rewrite filter_app, filter_cons, filter_nil. simpl.
        unfold SharedMemory.read. rewrite Hs.
        destruct (wrap64 (address + bytes) >? size); simpl.
        -- rewrite app_nil_r. auto 10.
        -- rewrite length_app. simpl. rewrite Ha. unfold SharedMemory.accepted.
           repeat split; auto. wrap_arith.
      * rewrite app_nil_r. unfold SharedMemory.accepted.
        rewrite filter_app, filter_cons, filter_nil. simpl.
        unfold SharedMemory.write. rewrite Hs.
        destruct (wrap64 (address + bytes) >? size); simpl.
        -- rewrite app_nil_r. auto 10.
        -- rewrite length_app. simpl. rewrite Ha. unfold SharedMemory.accepted.
           repeat split; auto. wrap_arith.
      * rewrite app_nil_r, Hd, map_zero_repeat. repeat split; auto.
      * rewrite last_snoc. simpl. unfold SharedMemory.accepted.
        rewrite filter_app, filter_cons, filter_nil. simpl.
        rewrite app_nil_r. repeat split; auto.
Qed.

Lemma SharedMemory_spec_witness :
  fst (SharedMemory.read (Memory.SharedMemory_new 1024) 1000 24) = true
  <-> 1000 + 24 <= SharedMemory.getSize (Memory.SharedMemory_new 1024).
Proof.
  apply (proj1 (proj2 SharedMemory_spec) (Memory.SharedMemory_new 1024) 1000 24);
    lia.
Defined.

(** ** Register file *)

Lemma RegisterFile_new_well_formed (n : Z) :
  0 <= n -> RegisterFile.well_formed (Memory.RegisterFile_new n).
Proof.
  intros Hn. unfold RegisterFile.well_formed. simpl.
  rewrite repeat_length. lia.
Qed.

(** X10.  In a register file that holds as many registers as it says,
    writing a 32-bit value to a register in range succeeds, a read of that
    register then delivers the value written, every other register reads as
    before, and neither the owner nor the number of registers changes.
    With an index out of range both calls return false: the write leaves
    the register file and the read leaves the caller's variable as they
    were. *)
Theorem RegisterFile_write_read (r : Memory.RegisterFile) (reg_index value : Z) :
  RegisterFile.well_formed r ->
  0 <= reg_index ->
  0 <= value < 2 ^ 32 ->
  (reg_index < Memory.num_registers_ r ->
   exists r' : Memory.RegisterFile,
     RegisterFile.writeRegister r reg_index value = Some (true, r') /\
     RegisterFile.well_formed r' /\
     RegisterFile.getOwner r' = RegisterFile.getOwner r /\
     Memory.num_registers_ r' = Memory.num_registers_ r /\
     (forall old : Z, RegisterFile.readRegister r' reg_index old = Some (true, value)) /\
     (forall other old : Z,
         0 <= other -> other <> reg_index ->
         RegisterFile.readRegister r' other old
         = RegisterFile.readRegister r other old)) /\
  (Memory.num_registers_ r <= reg_index ->
   RegisterFile.writeRegister r reg_index value = Some (false, r) /\
   forall old : Z, RegisterFile.readRegister r reg_index old = Some (false, old)).
Proof.
  intros Hwf Hidx Hval. unfold RegisterFile.well_formed in Hwf. split.
  - intros Hlt.
    assert (Hnat : (Z.to_nat reg_index < length (Memory.registers_ r))%nat) by lia.
    destruct (lookup_lt_is_Some_2 _ _ Hnat) as [v0 Hv0].
    unfold RegisterFile.writeRegister.
    destruct (Z.geb_spec reg_index (Memory.num_registers_ r)) as [Hge|_]; [lia|].
    rewrite Hv0. simpl. eexists. split; [reflexivity|].
    unfold RegisterFile.well_formed, RegisterFile.getOwner,
      RegisterFile.readRegister. simpl.
    rewrite length_insert.
    split; [exact Hwf|]. split; [reflexivity|]. split; [reflexivity|]. split.
    + intros old.
      destruct (Z.geb_spec reg_index (Memory.num_registers_ r)) as [Hge|_]; [lia|].
      rewrite list_lookup_insert_eq by exact Hnat. simpl.
      rewrite wrap32_small by exact Hval. reflexivity.
    + intros other old Hother Hne.
      destruct (other >=? Memory.num_registers_ r); [reflexivity|].
      rewrite list_lookup_insert_ne by lia. reflexivity.
  - intros Hge. unfold RegisterFile.writeRegister, RegisterFile.readRegister.
    destruct (Z.geb_spec reg_index (Memory.num_registers_ r)) as [_|Hlt]; [|lia].
    split; [reflexivity|]. intros old. reflexivity.
Qed.

Lemma RegisterFile_write_read_witness :
  exists r' : Memory.RegisterFile,
    let r := Memory.RegisterFile_new REGISTERS_PER_THREAD in
    RegisterFile.writeRegister r 254 4294967295 = Some (true, r') /\
    RegisterFile.well_formed r' /\
    RegisterFile.getOwner r' = RegisterFile.getOwner r /\
    Memory.num_registers_ r' = Memory.num_registers_ r /\
    (forall old : Z, RegisterFile.readRegister r' 254 old = Some (true, 4294967295)) /\
    (forall other old : Z,
        0 <= other -> other <> 254 ->
        RegisterFile.readRegister r' other old
        = RegisterFile.readRegister r other old).
Proof.
  apply (proj1 (RegisterFile_write_read
                  (Memory.RegisterFile_new REGISTERS_PER_THREAD) 254 4294967295
                  (RegisterFile_new_well_formed REGISTERS_PER_THREAD ltac:(vm_compute; discriminate))
                  ltac:(lia) ltac:(lia))).
  vm_compute. reflexivity.
Defined.

Lemma lookup_map_zero (l : list Z) (i : nat) :
  (i < length l)%nat -> map (fun _ : Z => 0) l !! i = Some 0.
Proof.
  intros Hi. apply lookup_lt_is_Some_2 in Hi as [v Hv].
  change (map (fun _ : Z => 0) l) with ((fun _ : Z => 0) <$> l).
  rewrite list_lookup_fmap, Hv. reflexivity.
Qed.

(** X11.  A register file created for [n] registers holds [n] registers,
    all zero: every register in range reads 0 and every index from [n] on
    is refused.  [clear] brings a register file back to this state,
    whatever was written, keeping its owner.  The register file of a new
    thread has the 255 registers of [REGISTERS_PER_THREAD] and is owned by
    the thread. *)
Theorem RegisterFile_new_clear :
  (forall n reg_index old : Z,
      0 <= n -> 0 <= reg_index ->
      RegisterFile.readRegister (Memory.RegisterFile_new n) reg_index old
      = if reg_index <? n then Some (true, 0) else Some (false, old)) /\
  (forall (r : Memory.RegisterFile) (reg_index old : Z),
      RegisterFile.well_formed r -> 0 <= reg_index ->
      RegisterFile.well_formed (RegisterFile.clear r) /\
      RegisterFile.getOwner (RegisterFile.clear r) = RegisterFile.getOwner r /\
      RegisterFile.readRegister (RegisterFile.clear r) reg_index old
      = if reg_index <? Memory.num_registers_ r then Some (true, 0)
        else Some (false, old)) /\
  (forall tid wid bid : Z,
      let registers := Thread.registers_ (Thread.new tid wid bid) in
      RegisterFile.well_formed registers /\
      Memory.num_registers_ registers = 255 /\
      RegisterFile.getOwner registers = Thread.thread_id_ (Thread.new tid wid bid)).
Proof.
  split; [|split].
  - intros n reg_index old Hn Hidx.
    unfold RegisterFile.readRegister. simpl.
    destruct (Z.geb_spec reg_index n) as [Hge|Hlt];
      destruct (Z.ltb_spec reg_index n) as [Hlt'|Hge']; try lia; [reflexivity|].
    assert (Hnat : (Z.to_nat reg_index < length (repeat 0%Z (Z.to_nat n)))%nat)
      by (rewrite repeat_length; lia).
    apply lookup_lt_is_Some_2 in Hnat as [v Hv]. rewrite Hv. simpl.
    apply list_elem_of_lookup_2, list_elem_of_In, repeat_spec in Hv. subst v.
    reflexivity.
  - intros r reg_index old Hwf Hidx. unfold RegisterFile.well_formed in *.
    unfold RegisterFile.clear, RegisterFile.getOwner, RegisterFile.readRegister.
    simpl. rewrite length_map.
    split; [exact Hwf|]. split; [reflexivity|].
    destruct (Z.geb_spec reg_index (Memory.num_registers_ r)) as [Hge|Hlt];
      destruct (Z.ltb_spec reg_index (Memory.num_registers_ r)) as [Hlt'|Hge'];
      try lia; [reflexivity|].
    rewrite lookup_map_zero by lia. reflexivity.
  - intros tid wid bid registers. subst registers.
    split; [|split; reflexivity].
    unfold RegisterFile.well_formed. reflexivity.
Qed.

Lemma RegisterFile_new_clear_witness :
  RegisterFile.readRegister (Memory.RegisterFile_new 255) 255 7 = Some (false, 7).
Proof.
  apply (proj1 RegisterFile_new_clear 255 255 7); lia.
Defined.

(** ** Warps and threads of a block *)

(** X12.  [getWarp] is bounds-checked: it returns the null pointer exactly
    for the indices from the number of warps on.  In a block built for [n]
    threads the warp of index [j], for [j] below the ceiling of [n / 32], is
    the warp number [j] of the block, with 32 threads or, for the last one,
    what remains of [n]. *)
Theorem getWarp_spec :
  (forall (W : Type) (b : ThreadBlock.t W) (index : Z),
      0 <= index ->
      (Blocks.getWarp index b = None <-> ThreadBlock.getNumWarps b <= index) /\
      (index < ThreadBlock.getNumWarps b ->
       Blocks.getWarp index b = ThreadBlock.getWarps b !! Z.to_nat index)) /\
  (forall bid n index : Z,
      0 <= n -> n + 32 <= 2 ^ 64 -> 0 <= index ->
      Blocks.getWarp index (ThreadBlock.new bid n)
      = if index <? ceil_div n 32
        then Some (Warp.new index (wrap32 bid) (Z.min 32 (n - 32 * index)))
        else None).
Proof.
  split.
  - intros W b index Hidx. unfold Blocks.getWarp, ThreadBlock.getNumWarps.
    destruct (Z.geb_spec index (Z.of_nat (length (ThreadBlock.warps_ b)))) as [Hge|Hlt].
    + split; [split; [lia|reflexivity]|lia].
    + split; [|reflexivity]. split; [|lia].
      intros Hnone. apply lookup_ge_None in Hnone. lia.
  - intros bid n index Hn Hfit Hidx.
    destruct (ThreadBlock_new_warps bid n Hn Hfit) as [Hnum Hwarps].
    unfold Blocks.getWarp. unfold ThreadBlock.getNumWarps in Hnum. rewrite Hnum.
    destruct (Z.geb_spec index (ceil_div n 32)) as [Hge|Hlt];
      destruct (Z.ltb_spec index (ceil_div n 32)) as [Hlt'|Hge']; try lia.
    + reflexivity.
    + apply Hwarps. lia.
Qed.

Lemma getWarp_spec_witness :
  Blocks.getWarp 1 (ThreadBlock.new 7 40)
  = if 1 <? ceil_div 40 32
    then Some (Warp.new 1 (wrap32 7) (Z.min 32 (40 - 32 * 1)))
    else None.
Proof.
  apply (proj2 getWarp_spec 7 40 1); lia.
Defined.

(** Consecutive chunks of 32 make up an interval. *)
Lemma concat_chunks (f : Z -> Z) (n : Z) (m : nat) :
  32 * (Z.of_nat m - 1) < n \/ m = 0%nat ->
  concat (map (fun j => map (fun i => f (32 * j + i)) (seqZ 0 (Z.min 32 (n - 32 * j))))
              (seqZ 0 (Z.of_nat m)))
  = map f (seqZ 0 (Z.min (32 * Z.of_nat m) n)).
Proof.
  induction m as [|m IH]; intros H.
  - simpl. rewrite seqZ_nil by lia. reflexivity.
  - destruct H as [H|H]; [|discriminate].
    rewrite seqZ_S, map_app, concat_app, IH by lia. simpl.
    rewrite app_nil_r.
    replace (Z.min (32 * Z.of_nat m) n) with (32 * Z.of_nat m) by lia.
    replace (Z.min (32 * Z.of_nat (S m)) n)
      with (32 * Z.of_nat m + Z.min 32 (n - 32 * Z.of_nat m)) by lia.
    rewrite seqZ_app by lia. rewrite map_app. f_equal.
    replace (0 + 32 * Z.of_nat m) with (32 * Z.of_nat m + 0) by lia.
    rewrite <- (fmap_add_seqZ (32 * Z.of_nat m) 0).
    change (Z.add (32 * Z.of_nat m) <$> seqZ 0 (Z.min 32 (n - 32 * Z.of_nat m)))
      with (map (Z.add (32 * Z.of_nat m)) (seqZ 0 (Z.min 32 (n - 32 * Z.of_nat m)))).
    rewrite map_map. reflexivity.
Qed.

(** The identifiers of the threads of a block, in the order of its warps
    and threads. *)
Lemma block_thread_ids_new (bid n : Z) :
  0 <= bid -> 0 <= n -> bid * 1024 + n <= 2 ^ 32 ->
  Blocks.block_thread_ids (ThreadBlock.new bid n)
  = map (fun k => bid * 1024 + k) (seqZ 0 n).
Proof.
  intros Hbid Hn Hfit.
  pose proof (ceil_idiom n 32 ltac:(lia) Hn ltac:(lia)) as Hnum.
  pose proof (ceil_div_spec n 32 ltac:(lia)) as Hc.
  assert (Hb32 : wrap32 bid = bid) by (apply wrap32_small; lia).
  unfold Blocks.block_thread_ids. simpl. unfold WARP_SIZE in *.
  rewrite Hnum, map_map.
  rewrite (map_ext_in _
             (fun j => map (fun i => bid * 1024 + (32 * j + i))
                           (seqZ 0 (Z.min 32 (n - 32 * j))))).
  - unfold loop_range.
    rewrite <- (Z2Nat.id (ceil_div n 32)) by lia.
    rewrite (concat_chunks (fun k => bid * 1024 + k) n (Z.to_nat (ceil_div n 32))).
    + f_equal. f_equal. lia.
    + destruct (Z.to_nat (ceil_div n 32)) eqn:E; [right; reflexivity|left; lia].
  - intros j Hj. apply list_elem_of_In in Hj. unfold loop_range in Hj.
    apply elem_of_seqZ in Hj.
    unfold Blocks.thread_ids. simpl. rewrite map_map. simpl.
    rewrite (wrap64_small (j * 32)) by lia.
    rewrite (wrap64_small (n - j * 32)) by lia.
    replace (n - j * 32) with (n - 32 * j) by lia.
    unfold loop_range, MAX_THREADS_PER_BLOCK, WARP_SIZE.
    apply map_ext_in. intros i Hi. apply list_elem_of_In, elem_of_seqZ in Hi.
    rewrite Hb32, Hb32.
    rewrite (wrap32_small j) by lia.
    rewrite (wrap64_small (bid * 1024)) by lia.
    rewrite (wrap64_small (j * 32)) by lia.
    rewrite (wrap64_small (bid * 1024 + j * 32)) by lia.
    rewrite (wrap64_small (bid * 1024 + j * 32 + i)) by lia.
    rewrite wrap32_small by lia. lia.
Qed.

(** X13.  The threads of a block built for [n] threads with identifier
    [bid] are numbered consecutively from [bid * 1024], across the warps of
    the block, as long as the numbers fit the 32-bit identifier.  Hence
    with at most 1024 threads per block no two threads of a grid share an
    identifier, while with more than 1024 the thread of index 1024 of a
    block has the identifier of the first thread of the next block. *)
Theorem thread_ids_spec :
  (forall bid n : Z,
      0 <= bid -> 0 <= n -> bid * 1024 + n <= 2 ^ 32 ->
      Blocks.block_thread_ids (ThreadBlock.new bid n)
      = map (fun k => bid * 1024 + k) (seqZ 0 n)) /\
  (forall (bid bid' n : Z) (k k' : nat) (tid : Z),
      0 <= bid -> 0 <= bid' -> 0 <= n <= 1024 ->
      bid * 1024 + n <= 2 ^ 32 -> bid' * 1024 + n <= 2 ^ 32 ->
      Blocks.block_thread_ids (ThreadBlock.new bid n) !! k = Some tid ->
      Blocks.block_thread_ids (ThreadBlock.new bid' n) !! k' = Some tid ->
      bid = bid' /\ k = k') /\
  (forall bid n : Z,
      0 <= bid -> 1024 < n -> (bid + 1) * 1024 + n <= 2 ^ 32 ->
      Blocks.block_thread_ids (ThreadBlock.new bid n) !! 1024%nat
      = Blocks.block_thread_ids (ThreadBlock.new (bid + 1) n) !! 0%nat /\
      Blocks.block_thread_ids (ThreadBlock.new (bid + 1) n) !! 0%nat
      = Some ((bid + 1) * 1024)).
Proof.
  split; [exact block_thread_ids_new|]. split.
  - intros bid bid' n k k' tid Hbid Hbid' Hn Hfit Hfit' Hk Hk'.
    rewrite block_thread_ids_new in Hk, Hk' by lia.
    change (map ?f ?l) with (f <$> l) in Hk, Hk'.
    rewrite list_lookup_fmap in Hk, Hk'.
    destruct (seqZ 0 n !! k) as [x|] eqn:Hx; [|discriminate].
    destruct (seqZ 0 n !! k') as [x'|] eqn:Hx'; [|discriminate].
    apply lookup_seqZ in Hx as [-> Hlt]. apply lookup_seqZ in Hx' as [-> Hlt'].
    simpl in Hk, Hk'. injection Hk as Hk. injection Hk' as Hk'. lia.
  - intros bid n Hbid Hn Hfit.
    rewrite !block_thread_ids_new by lia.
    change (map ?f ?l) with (f <$> l).
    rewrite !list_lookup_fmap.
    rewrite (lookup_seqZ_lt 0 n 1024) by lia.
    rewrite (lookup_seqZ_lt 0 n 0) by lia.
    simpl. split; f_equal; lia.
Qed.

Lemma thread_ids_spec_witness :
  Blocks.block_thread_ids (ThreadBlock.new 3 40)
  = map (fun k => 3 * 1024 + k) (seqZ 0 40).
Proof.
  apply (proj1 thread_ids_spec 3 40); lia.
Defined.

(** ** The threads of a workload *)

Lemma sum_constant {A} (f : A -> Z) (c : Z) (l : list A) :
  (forall x, x ∈ l -> f x = c) ->
  foldr Z.add 0 (map f l) = c * Z.of_nat (length l).
Proof.
  induction l as [|a l IH]; intros H; simpl; [lia|].
  rewrite IH by (intros x Hx; apply H; right; exact Hx).
  rewrite (H a) by left. lia.
Qed.

Lemma drain_blocks (k : nat) (w : Workload.t) :
  Workload.thread_blocks_ (snd (Workload.drain k w))
  = take (length (Workload.thread_blocks_ w) - k) (Workload.thread_blocks_ w).
Proof.
  revert w. induction k as [|k IH]; intros w.
  - simpl. rewrite Nat.sub_0_r, firstn_all. reflexivity.
  - cbn [Workload.drain].
    destruct (Workload.thread_blocks_ w) as [|b0 bs0] eqn:Hbs using rev_ind.
    + rewrite (getNextBlock_nil w Hbs).
      specialize (IH w). destruct (Workload.drain k w) as [blocks w''].
      simpl in *. rewrite IH, Hbs. reflexivity.
    + clear IHbs0.
      rewrite (getNextBlock_snoc w bs0 b0 Hbs).
      specialize (IH (Workload.set_thread_blocks bs0 w)).
      destruct (Workload.drain k _) as [blocks w''].
      simpl in *. rewrite IH. rewrite length_app. simpl.
      rewrite take_app_le by lia. f_equal. lia.
Qed.

(** X14.  Where the products of the launch dimensions do not wrap, the
    blocks [generateThreadBlocks] materialises carry together the
    [getTotalThreads()] threads of the configuration, the product of the six
    dimensions, and every [getNextBlock] takes [getThreadsPerBlock()] of
    them away: after [k] calls the workload holds the threads of the blocks
    that remain. *)
Theorem generated_threads (w : Workload.t) (k : nat) :
  let cfg := Workload.config_ w in
  let blocks := KernelConfig.grid_dim_x cfg * KernelConfig.grid_dim_y cfg
                * KernelConfig.grid_dim_z cfg in
  let threads := KernelConfig.block_dim_x cfg * KernelConfig.block_dim_y cfg
                 * KernelConfig.block_dim_z cfg in
  0 <= KernelConfig.grid_dim_x cfg -> 0 <= KernelConfig.grid_dim_y cfg ->
  0 <= KernelConfig.grid_dim_z cfg ->
  0 <= KernelConfig.block_dim_x cfg -> 0 <= KernelConfig.block_dim_y cfg ->
  0 <= KernelConfig.block_dim_z cfg ->
  blocks < 2 ^ 64 -> threads + 32 <= 2 ^ 64 -> blocks * threads < 2 ^ 64 ->
  Z.of_nat k <= blocks ->
  Blocks.remaining_threads (Workload.generateThreadBlocks w)
  = KernelConfig.getTotalThreads cfg /\
  KernelConfig.getTotalThreads cfg = blocks * threads /\
  Blocks.remaining_threads (snd (Workload.drain k (Workload.generateThreadBlocks w)))
  = (blocks - Z.of_nat k) * threads /\
  Workload.getRemainingBlocks (snd (Workload.drain k (Workload.generateThreadBlocks w)))
  = blocks - Z.of_nat k.
Proof.
  intros cfg blocks threads Hgx Hgy Hgz Hbx Hby Hbz Hblocks Hthreads Htotal Hk.
  pose proof (getTotalBlocks_exact cfg Hgx Hgy Hgz Hblocks) as HB.
  pose proof (getThreadsPerBlock_exact cfg Hbx Hby Hbz ltac:(fold threads; lia)) as HT.
  fold blocks in HB. fold threads in HT.
  assert (Hthreads0 : 0 <= threads) by (subst threads; nia).
  assert (Hblocks0 : 0 <= blocks) by (subst blocks; nia).
  assert (Hcount : forall b, b ∈ Workload.thread_blocks_ (Workload.generateThreadBlocks w) ->
                             ThreadBlock.thread_count b = threads).
  { intros b Hb. rewrite generateThreadBlocks_eq in Hb. simpl in Hb.
    apply list_elem_of_In, in_map_iff in Hb as (i & <- & _).
    unfold Workload.generate_block. fold cfg. rewrite HT.
    change (ThreadBlock.thread_count (ThreadBlock.new i threads) = threads).
    apply ThreadBlock_new_thread_count; lia. }
  assert (Htt : KernelConfig.getTotalThreads cfg = blocks * threads).
  { unfold KernelConfig.getTotalThreads. rewrite HB, HT. apply wrap64_small. nia. }
  assert (Hlen : length (Workload.thread_blocks_ (Workload.generateThreadBlocks w))
                 = Z.to_nat blocks).
  { rewrite generated_blocks_length. fold cfg. rewrite HB. reflexivity. }
  split; [|split; [exact Htt|split]].
  - rewrite Htt. unfold Blocks.remaining_threads.
    rewrite (sum_constant _ threads) by exact Hcount. rewrite Hlen. lia.
  - unfold Blocks.remaining_threads. rewrite drain_blocks.
    rewrite (sum_constant _ threads).
    + assert (Hx : Z.of_nat (length (take (length (Workload.thread_blocks_
                                                    (Workload.generateThreadBlocks w)) - k)
                                         (Workload.thread_blocks_
                                            (Workload.generateThreadBlocks w))))
                   = blocks - Z.of_nat k)
        by (rewrite length_take, Hlen; lia).
      rewrite Hx. lia.
    + intros b Hb. apply Hcount.
      eapply elem_of_sublist; [exact Hb|apply sublist_take].
  - unfold Workload.getRemainingBlocks. rewrite drain_blocks, length_take, Hlen. lia.
Qed.

Lemma generated_threads_witness :
  let w := Workload.createVectorAdd 1024 in
  Blocks.remaining_threads (Workload.generateThreadBlocks w)
  = KernelConfig.getTotalThreads (Workload.config_ w) /\
  KernelConfig.getTotalThreads (Workload.config_ w) = 4 * 1 * 1 * (256 * 1 * 1) /\
  Blocks.remaining_threads (snd (Workload.drain 1 (Workload.generateThreadBlocks w)))
  = (4 * 1 * 1 - 1) * (256 * 1 * 1) /\
  Workload.getRemainingBlocks (snd (Workload.drain 1 (Workload.generateThreadBlocks w)))
  = 4 * 1 * 1 - 1.
Proof.
  apply (generated_threads (Workload.createVectorAdd 1024) 1%nat);
    vm_compute; congruence.
Defined.

(** ** Compute unit: pointers into blocks *)

(** Every address in use is below [fresh_base]. *)
Lemma fresh_base_above (σ : ComputeUnit.world) (a : WarpPtr) :
  is_Some (ComputeUnit.warp_store σ !! a) -> (a < ComputeUnitRun.fresh_base σ)%nat.
Proof.
  intros Ha. unfold ComputeUnitRun.fresh_base.
  apply elem_of_dom, elem_of_elements in Ha.
  apply max_list_elem_of_le in Ha. apply Nat.lt_succ_r. exact Ha.
Qed.

(** The store after the warps [ws] were put at the addresses from [base]
    on. *)
Lemma lookup_placed (store : gmap WarpPtr Warp.t) (ws : list Warp.t)
      (base a : nat) :
  foldr (fun (aw : nat * Warp.t) store => <[aw.1 := aw.2]> store) store
        (zip (seq base (length ws)) ws) !! a
  = if decide (base <= a < base + length ws)%nat
    then ws !! (a - base)%nat else store !! a.
Proof.
  revert base. induction ws as [|w ws IH]; intros base; simpl.
  - destruct (decide _) as [H|H]; [lia|reflexivity].
  - destruct (decide (a = base)) as [->|Hne].
    + rewrite lookup_insert_eq. destruct (decide _) as [H|H]; [|lia].
      rewrite Nat.sub_diag. reflexivity.
    + rewrite lookup_insert_ne by congruence. rewrite IH.
      destruct (decide (S base <= a < S base + length ws)%nat) as [H|H];
        destruct (decide (base <= a < base + S (length ws))%nat) as [H'|H'];
        try lia; [|reflexivity].
      replace (a - base)%nat with (S (a - S base)) by lia. reflexivity.
Qed.

(** A block put in the store from [base] on: the block lists the new
    addresses, each holds the warp of that position, and every other address
    holds what it held. *)
Lemma place_spec (base : nat) (b : ThreadBlock.t Warp.t) (σ : ComputeUnit.world) :
  let r := ComputeUnit.place base b σ in
  ThreadBlock.getWarps (fst r) = seq base (length (ThreadBlock.warps_ b)) /\
  ThreadBlock.completed_ (fst r) = ThreadBlock.completed_ b /\
  ComputeUnit.memory_controller_ (snd r) = ComputeUnit.memory_controller_ σ /\
  (forall a, (a < base)%nat ->
             ComputeUnit.warp_store (snd r) !! a = ComputeUnit.warp_store σ !! a) /\
  (forall a w, ComputeUnit.warp_store (snd r) !! a = Some w ->
               ComputeUnit.warp_store σ !! a = Some w \/
               ((base <= a)%nat /\ w ∈ ThreadBlock.warps_ b)) /\
  (forall a, a ∈ seq base (length (ThreadBlock.warps_ b)) ->
             (base <= a)%nat /\
             exists w, ComputeUnit.warp_store (snd r) !! a = Some w /\
                       w ∈ ThreadBlock.warps_ b).
Proof.
  intros r. subst r. unfold ComputeUnit.place. simpl.
  split; [reflexivity|]. split; [reflexivity|]. split; [reflexivity|].
  split; [|split].
  - intros a Ha. rewrite lookup_placed.
    destruct (decide _) as [H|H]; [lia|reflexivity].
  - intros a w Hw. rewrite lookup_placed in Hw.
    destruct (decide _) as [H|H]; [|left; exact Hw].
    right. split; [lia|]. eapply list_elem_of_lookup_2, Hw.
  - intros a Ha. apply elem_of_seq in Ha.
    split; [lia|]. rewrite lookup_placed.
    destruct (decide _) as [H|H]; [|lia].
    destruct (lookup_lt_is_Some_2 (ThreadBlock.warps_ b) (a - base)%nat) as [w Hw];
      [lia|].
    exists w. split; [exact Hw|]. eapply list_elem_of_lookup_2, Hw.
Qed.

Lemma concat_map_sublist {A B} (f : A -> list B) (l1 l2 : list A) :
  l1 `sublist_of` l2 -> concat (map f l1) `sublist_of` concat (map f l2).
Proof.
  induction 1 as [|x l1 l2 _ IH|x l1 l2 _ IH]; simpl.
  - constructor.
  - apply sublist_app; [reflexivity|exact IH].
  - apply sublist_inserts_l. exact IH.
Qed.

(** Where no element is listed twice, the elements listed by the members
    that satisfy a predicate and by those that do not are apart. *)
Lemma concat_filter_disjoint {A B} (f : A -> list B) (P : A -> Prop)
      `{!forall x, Decision (P x)} (l : list A) (y : B) :
  NoDup (concat (map f l)) ->
  y ∈ concat (map f (filter P l)) ->
  y ∈ concat (map f (filter (fun x => ~ P x) l)) -> False.
Proof.
  induction l as [|x l IH]; simpl; intros Hnd H1 H2.
  - inversion H1.
  - apply NoDup_app in Hnd as (_ & Hdisj & Hnd).
    rewrite !filter_cons in H1, H2.
    destruct (decide (P x)) as [HP|HP];
      destruct (decide (~ P x)) as [HP'|HP']; try tauto.
    + simpl in H1. apply elem_of_app in H1 as [H1|H1].
      * apply (Hdisj y H1).
        eapply elem_of_sublist; [exact H2|].
        apply concat_map_sublist, sublist_filter.
      * apply IH; assumption.
    + simpl in H2. apply elem_of_app in H2 as [H2|H2].
      * apply (Hdisj y H2).
        eapply elem_of_sublist; [exact H1|].
        apply concat_map_sublist, sublist_filter.
      * apply IH; assumption.
Qed.

Lemma elem_of_concat_map {A B} (f : A -> list B) (l : list A) (y : B) :
  y ∈ concat (map f l) <-> exists x, x ∈ l /\ y ∈ f x.
Proof.
  induction l as [|x l IH]; simpl.
  - split; [intros H; inversion H|intros (x & H & _); inversion H].
  - rewrite elem_of_app, IH. split.
    + intros [H|(x' & Hx' & Hy)]; [exists x; split; [left|exact H]|].
      exists x'. split; [right; exact Hx'|exact Hy].
    + intros (x' & Hx' & Hy). apply elem_of_cons in Hx' as [->|Hx'];
        [left; exact Hy|right; eauto].
Qed.

Lemma warp_total_length (blocks : list (ThreadBlock.t WarpPtr)) :
  ComputeUnit.warp_total blocks
  = Z.of_nat (length (concat (map ThreadBlock.getWarps blocks))).
Proof.
  unfold ComputeUnit.warp_total.
  induction blocks as [|b blocks IH]; simpl; [reflexivity|].
  rewrite length_app, IH. unfold ThreadBlock.getNumWarps, ThreadBlock.getWarps. lia.
Qed.

(** The inner loop of the completion sweep answers [true] only if every
    warp of the block is [COMPLETED]. *)
Lemma all_warps_done_true (heap : gmap WarpPtr Warp.t) (warps : list WarpPtr) :
  ComputeUnit.all_warps_done heap warps = Some true ->
  forall a, a ∈ warps -> exists w, heap !! a = Some w /\ Warp.state_ w = COMPLETED.
Proof.
  induction warps as [|x warps IH]; simpl; intros H a Ha; [inversion Ha|].
  destruct (heap !! x) as [w|] eqn:Hw; simpl in H; [|discriminate].
  destruct (ExecutionState_eqb (Warp.getState w) COMPLETED) eqn:Hst; [|discriminate].
  apply elem_of_cons in Ha as [->|Ha]; [|auto].
  exists w. split; [exact Hw|].
  unfold Warp.getState in Hst. destruct (Warp.state_ w); simpl in Hst; congruence.
Qed.

(** *** The consistency of a compute unit *)

(** Consistency reads the store, the latency, the ready queue, the active
    blocks, the limits and the state: it does not depend on the counters. *)
Lemma consistent_ext (σ σ' : ComputeUnit.world) (cu cu' : ComputeUnit.t) :
  ComputeUnit.warp_store σ' = ComputeUnit.warp_store σ ->
  Memory.global_memory_ (ComputeUnit.memory_controller_ σ')
  = Memory.global_memory_ (ComputeUnit.memory_controller_ σ) ->
  ComputeUnit.warp_scheduler_ cu' = ComputeUnit.warp_scheduler_ cu ->
  ComputeUnit.active_blocks_ cu' = ComputeUnit.active_blocks_ cu ->
  ComputeUnit.max_warps_per_cu_ cu' = ComputeUnit.max_warps_per_cu_ cu ->
  ComputeUnit.max_blocks_per_cu_ cu' = ComputeUnit.max_blocks_per_cu_ cu ->
  ComputeUnit.state_ cu' = ComputeUnit.state_ cu ->
  ComputeUnitRun.consistent σ cu -> ComputeUnitRun.consistent σ' cu'.
Proof.
  intros Hs Hm Hq Hb Hw Hbl Hst [H1 H2 H3 H4 H5 H6 H7 H8 H9 H10].
  split; unfold ComputeUnitRun.block_warps, Memory.getLatency, Memory.getGlobalMemory in *;
    rewrite ?Hs, ?Hm, ?Hq, ?Hb, ?Hw, ?Hbl, ?Hst; assumption.
Qed.

Lemma consistent_new (controller : Memory.MemoryController) (id stalled : Z) :
  0 <= Memory.getLatency (Memory.getGlobalMemory controller) / 10 ->
  ComputeUnitRun.consistent (ComputeUnit.mkWorld ∅ controller)
                            (ComputeUnit.new id stalled).
Proof.
  intros Hlat. split; simpl; auto.
  - constructor.
  - intros a Ha. inversion Ha.
  - constructor.
  - intros b a Hb. inversion Hb.
  - intros a w Hw. rewrite lookup_empty in Hw. discriminate.
  - unfold ComputeUnit.warp_total. simpl. lia.
  - intros b a w Hb. inversion Hb.
Qed.

Lemma removeCompletedBlocks_fields (σ : ComputeUnit.world) (cu : ComputeUnit.t) :
  let r := ComputeUnit.removeCompletedBlocks σ cu in
  let removed := filter (fun b => ThreadBlock.isCompleted b = true)
                        (ComputeUnit.active_blocks_ cu) in
  let kept := filter (fun b => ThreadBlock.isCompleted b <> true)
                     (ComputeUnit.active_blocks_ cu) in
  ComputeUnit.warp_store (fst r)
  = foldr delete (ComputeUnit.warp_store σ) (concat (map ThreadBlock.getWarps removed)) /\
  ComputeUnit.memory_controller_ (fst r) = ComputeUnit.memory_controller_ σ /\
  ComputeUnit.active_blocks_ (snd r) = kept /\
  ComputeUnit.state_ (snd r)
  = match kept with [] => IDLE | _ => ComputeUnit.state_ cu end /\
  ComputeUnit.warp_scheduler_ (snd r) = ComputeUnit.warp_scheduler_ cu /\
  ComputeUnit.max_warps_per_cu_ (snd r) = ComputeUnit.max_warps_per_cu_ cu /\
  ComputeUnit.max_blocks_per_cu_ (snd r) = ComputeUnit.max_blocks_per_cu_ cu /\
  ComputeUnit.max_threads_per_cu_ (snd r) = ComputeUnit.max_threads_per_cu_ cu /\
  ComputeUnit.cycles_executed_ (snd r) = ComputeUnit.cycles_executed_ cu /\
  ComputeUnit.instructions_executed_ (snd r) = ComputeUnit.instructions_executed_ cu /\
  ComputeUnit.warps_executed_ (snd r) = ComputeUnit.warps_executed_ cu /\
  ComputeUnit.idle_cycles_ (snd r) = ComputeUnit.idle_cycles_ cu /\
  ComputeUnit.cycles_stalled_ (snd r) = ComputeUnit.cycles_stalled_ cu.
Proof.
  cbn zeta. unfold ComputeUnit.removeCompletedBlocks. cbn zeta.
  destruct (filter (fun b => ThreadBlock.isCompleted b <> true)
                   (ComputeUnit.active_blocks_ cu)); simpl; auto 15.
Qed.

Lemma consistent_removeCompletedBlocks (σ : ComputeUnit.world) (cu : ComputeUnit.t) :
  ComputeUnitRun.consistent σ cu ->
  ComputeUnitRun.consistent (fst (ComputeUnit.removeCompletedBlocks σ cu))
                            (snd (ComputeUnit.removeCompletedBlocks σ cu)).
Proof.
  intros [Hqnd Hq Hbnd Hb Hprog Hlim Hwithin Hstate Hlat Hrq].
  destruct (removeCompletedBlocks_fields σ cu)
    as (Hstore & Hctrl & Hact & Hst & Hws & Hmw & Hmb & Hmt & _).
  set (r := ComputeUnit.removeCompletedBlocks σ cu) in *.
  set (removed := filter (fun b => ThreadBlock.isCompleted b = true)
                         (ComputeUnit.active_blocks_ cu)) in *.
  set (kept := filter (fun b => ThreadBlock.isCompleted b <> true)
                      (ComputeUnit.active_blocks_ cu)) in *.
  assert (Hkept_sub : kept `sublist_of` ComputeUnit.active_blocks_ cu)
    by apply sublist_filter.
  (* a warp of a removed block is COMPLETED *)
  assert (Hremoved : forall a, a ∈ concat (map ThreadBlock.getWarps removed) ->
                               exists w, ComputeUnit.warp_store σ !! a = Some w /\
                                         Warp.state_ w = COMPLETED).
  { intros a Ha. apply elem_of_concat_map in Ha as (b & Hbin & Ha).
    apply list_elem_of_filter in Hbin as [Hc Hbin].
    destruct (Hb b a Hbin Ha) as (w & Hw & Hdone).
    exists w. split; [exact Hw|apply Hdone, Hc]. }
  (* a warp of a kept block stays in the store *)
  assert (Hkept : forall a, a ∈ concat (map ThreadBlock.getWarps kept) ->
                            ComputeUnit.warp_store (fst r) !! a
                            = ComputeUnit.warp_store σ !! a).
  { intros a Ha. rewrite Hstore. apply lookup_foldr_delete_not_elem_of.
    intros Hrem.
    apply (concat_filter_disjoint ThreadBlock.getWarps
             (fun b => ThreadBlock.isCompleted b = true)
             (ComputeUnit.active_blocks_ cu) a Hbnd Hrem).
    exact Ha. }
  split; unfold ComputeUnitRun.block_warps; rewrite ?Hws, ?Hact, ?Hmw, ?Hmb, ?Hmt, ?Hctrl.
  - exact Hqnd.
  - intros a Ha. destruct (Hq a Ha) as (Hin & w & Hw & Hready).
    assert (Hk : a ∈ concat (map ThreadBlock.getWarps kept)).
    { apply elem_of_concat_map in Hin as (b & Hbin & Hab).
      apply elem_of_concat_map. exists b. split; [|exact Hab].
      apply list_elem_of_filter. split; [|exact Hbin].
      intros Hc. destruct (Hb b a Hbin Hab) as (w' & Hw' & Hdone).
      rewrite Hw in Hw'. injection Hw' as <-.
      rewrite (Hdone Hc) in Hready. discriminate. }
    split; [exact Hk|]. exists w. rewrite (Hkept a Hk). auto.
  - eapply sublist_NoDup; [exact Hbnd|]. apply concat_map_sublist, Hkept_sub.
  - intros b a Hbin Hab.
    assert (Hk : a ∈ concat (map ThreadBlock.getWarps kept))
      by (apply elem_of_concat_map; eauto).
    apply list_elem_of_filter in Hbin as [Hnc Hbin].
    destruct (Hb b a Hbin Hab) as (w & Hw & Hdone).
    exists w. rewrite (Hkept a Hk). split; [exact Hw|].
    intros Hc. exfalso. apply Hnc. exact Hc.
  - intros a w Hw. rewrite Hstore in Hw.
    apply lookup_foldr_delete_Some in Hw as [_ Hw]. eauto.
  - exact Hlim.
  - destruct Hwithin as [Hlen Htot]. split.
    + apply sublist_length in Hkept_sub. lia.
    + rewrite warp_total_length in *.
      pose proof (sublist_length _ _
                    (concat_map_sublist ThreadBlock.getWarps _ _ Hkept_sub)). lia.
  - rewrite Hst. destruct kept as [|k0 kept'] eqn:Hk; [reflexivity|].
    rewrite Hstate.
    destruct (ComputeUnit.active_blocks_ cu) as [|b0 bs]; [|reflexivity].
    apply sublist_nil_r in Hkept_sub. discriminate.
  - exact Hlat.
  - intros b a w Hbin Hab Hw Hready.
    apply list_elem_of_filter in Hbin as [_ Hbin].
    rewrite Hstore in Hw. apply lookup_foldr_delete_Some in Hw as [_ Hw].
    exact (Hrq b a w Hbin Hab Hw Hready).
Qed.

(** The ready queue is never longer than the list of the warps of the
    active blocks. *)
Lemma consistent_queue_length (σ : ComputeUnit.world) (cu : ComputeUnit.t) :
  ComputeUnitRun.consistent σ cu ->
  Z.of_nat (length (WarpScheduler.ready_queue_ (ComputeUnit.warp_scheduler_ cu)))
  <= ComputeUnit.warp_total (ComputeUnit.active_blocks_ cu).
Proof.
  intros [Hqnd Hq _ _ _ _ _ _ _ _].
  rewrite warp_total_length.
  assert (Hsub : WarpScheduler.ready_queue_ (ComputeUnit.warp_scheduler_ cu)
                   ⊆+ ComputeUnitRun.block_warps cu).
  { apply NoDup_submseteq; [exact Hqnd|]. intros a Ha. apply (Hq a Ha). }
  apply submseteq_length in Hsub. unfold ComputeUnitRun.block_warps in Hsub. lia.
Qed.

Lemma block_warps_snoc (blocks : list (ThreadBlock.t WarpPtr)) (b : ThreadBlock.t WarpPtr) :
  concat (map ThreadBlock.getWarps (blocks ++ [b]))
  = concat (map ThreadBlock.getWarps blocks) ++ ThreadBlock.getWarps b.
Proof. rewrite map_app, concat_app. simpl. rewrite app_nil_r. reflexivity. Qed.

(** Handing a block over to a consistent compute unit: the call is defined,
    the unit stays consistent, and when the block is accepted all its warps
    are queued, in order. *)
Lemma consistent_assign (σ : ComputeUnit.world) (cu : ComputeUnit.t)
      (block : ThreadBlock.t Warp.t) :
  ComputeUnitRun.consistent σ cu ->
  ComputeUnitRun.as_constructed block ->
  let base := ComputeUnitRun.fresh_base σ in
  let b := fst (ComputeUnit.place base block σ) in
  let σ' := snd (ComputeUnit.place base block σ) in
  (ComputeUnit.canAcceptBlock (Some b) cu = false /\
   ComputeUnitRun.step (σ, cu) (ComputeUnitRun.AssignBlock block) = Some (σ, cu)) \/
  (ComputeUnit.canAcceptBlock (Some b) cu = true /\
   exists cu',
     ComputeUnitRun.step (σ, cu) (ComputeUnitRun.AssignBlock block) = Some (σ', cu') /\
     ComputeUnitRun.consistent σ' cu' /\
     ComputeUnit.active_blocks_ cu' = ComputeUnit.active_blocks_ cu ++ [b] /\
     WarpScheduler.ready_queue_ (ComputeUnit.warp_scheduler_ cu')
     = WarpScheduler.ready_queue_ (ComputeUnit.warp_scheduler_ cu)
         ++ ThreadBlock.getWarps b /\
     ComputeUnit.cycles_executed_ cu' = ComputeUnit.cycles_executed_ cu /\
     ComputeUnit.instructions_executed_ cu' = ComputeUnit.instructions_executed_ cu /\
     ComputeUnit.warps_executed_ cu' = ComputeUnit.warps_executed_ cu /\
     ComputeUnit.idle_cycles_ cu' = ComputeUnit.idle_cycles_ cu /\
     ComputeUnit.cycles_stalled_ cu' = ComputeUnit.cycles_stalled_ cu).
Proof.
  intros Hcons (Hnc & Hsize & Hwarps) base b σ'.
  pose proof (consistent_queue_length σ cu Hcons) as Hqlen.
  destruct Hcons as [Hqnd Hq Hbnd Hb Hprog Hlim Hwithin Hstate Hlat Hrq].
  destruct (place_spec base block σ) as (Hbw & Hbc & Hctrl & Hold & Hinv & Hnew).
  fold b σ' in Hbw, Hbc, Hctrl, Hold, Hinv, Hnew.
  rewrite Forall_forall in Hwarps.
  assert (Hbelow : forall a, is_Some (ComputeUnit.warp_store σ !! a) -> (a < base)%nat)
    by (intros a Ha; apply fresh_base_above, Ha).
  unfold ComputeUnitRun.step.
  replace (ComputeUnit.place (ComputeUnitRun.fresh_base σ) block σ) with (b, σ')
    by (subst b σ' base; destruct (ComputeUnit.place _ _ _); reflexivity).
  clearbody b σ' base.
  unfold ComputeUnit.assignBlock.
  destruct (ComputeUnit.canAcceptBlock (Some b) cu) eqn:Hacc; simpl; [right|left; auto].
  split; [reflexivity|].
  destruct Hlim as (Hl1 & Hl2 & Hl3). destruct Hwithin as [Hw1 Hw2].
  assert (Hnum : ThreadBlock.getNumWarps b = Z.of_nat (length (ThreadBlock.warps_ block))).
  { unfold ThreadBlock.getNumWarps. unfold ThreadBlock.getWarps in Hbw.
    rewrite Hbw, length_seq. reflexivity. }
  apply canAcceptBlock_iff in Hacc as [Hroom_b Hroom_w].
  2:{ rewrite Hnum. pose proof (warp_total_nonneg (ComputeUnit.active_blocks_ cu)). lia. }
  rewrite Hl3 in Hroom_b. rewrite Hl2 in Hroom_w.
  (* every warp of the block is ready in the new store *)
  assert (Hready : forall a, a ∈ ThreadBlock.getWarps b ->
                             exists w, ComputeUnit.warp_store σ' !! a = Some w /\
                                       Warp.getState w = READY).
  { intros a Ha. rewrite Hbw in Ha. destruct (Hnew a Ha) as (_ & w & Hw & Hin).
    exists w. split; [exact Hw|]. apply Hwarps in Hin. apply Hin. }
  rewrite (offer_warps_all _ _ _ Hready).
  2:{ rewrite Hl1. unfold ThreadBlock.getNumWarps in Hnum, Hroom_w.
      unfold ThreadBlock.getWarps. lia. }
  simpl. eexists. split; [reflexivity|]. simpl.
  split; [|auto 10].
  split; unfold ComputeUnitRun.block_warps; simpl; rewrite ?block_warps_snoc.
  - apply NoDup_app. split; [exact Hqnd|]. split.
    + intros a Ha Hin. rewrite Hbw in Hin. apply elem_of_seq in Hin.
      destruct (Hq a Ha) as (_ & w & Hw & _).
      specialize (Hbelow a (ex_intro _ w Hw)). lia.
    + rewrite Hbw. apply NoDup_seq.
  - intros a Ha. apply elem_of_app in Ha as [Ha|Ha].
    + destruct (Hq a Ha) as (Hin & w & Hw & Hst).
      split; [apply elem_of_app; left; exact Hin|].
      exists w. rewrite Hold by (apply Hbelow; eauto). auto.
    + split; [apply elem_of_app; right; exact Ha|].
      destruct (Hready a Ha) as (w & Hw & Hst). eauto.
  - apply NoDup_app. split; [exact Hbnd|]. split.
    + intros a Ha Hin. rewrite Hbw in Hin. apply elem_of_seq in Hin.
      apply elem_of_concat_map in Ha as (b0 & Hb0 & Ha).
      destruct (Hb b0 a Hb0 Ha) as (w & Hw & _).
      specialize (Hbelow a (ex_intro _ w Hw)). lia.
    + rewrite Hbw. apply NoDup_seq.
  - intros b0 a Hb0 Ha. apply elem_of_app in Hb0 as [Hb0|Hb0].
    + destruct (Hb b0 a Hb0 Ha) as (w & Hw & Hdone).
      exists w. rewrite Hold by (apply Hbelow; eauto). auto.
    + apply list_elem_of_singleton in Hb0. subst b0.
      destruct (Hready a Ha) as (w & Hw & _).
      exists w. split; [exact Hw|]. rewrite Hbc, Hnc. discriminate.
  - intros a w Hw. apply Hinv in Hw as [Hw|[_ Hin]]; [eauto|].
    apply Hwarps in Hin. destruct Hin as (Hst & Hinstr & Hthreads).
    exists 0. rewrite Hinstr, Hst. simpl. repeat split; auto; lia.
  - auto.
  - rewrite length_app. simpl. split; [lia|].
    rewrite warp_total_length, block_warps_snoc, length_app.
    rewrite warp_total_length in Hroom_w. unfold ThreadBlock.getNumWarps in Hroom_w.
    unfold ThreadBlock.getWarps at 2. lia.
  - destruct (ComputeUnit.active_blocks_ cu); reflexivity.
  - unfold Memory.getLatency, Memory.getGlobalMemory in *. rewrite Hctrl. exact Hlat.
  - intros b0 a w Hb0 Ha Hw Hst. apply elem_of_app.
    apply elem_of_app in Hb0 as [Hb0|Hb0].
    + left. destruct (Hb b0 a Hb0 Ha) as (w0 & Hw0 & _).
      rewrite Hold in Hw by (apply Hbelow; eauto).
      exact (Hrq b0 a w Hb0 Ha Hw Hst).
    + right. apply list_elem_of_singleton in Hb0. subst b0. exact Ha.
Qed.

Lemma all_warps_done_complete (heap : gmap WarpPtr Warp.t) (warps : list WarpPtr) :
  (forall a, a ∈ warps -> exists w, heap !! a = Some w /\ Warp.state_ w = COMPLETED) ->
  ComputeUnit.all_warps_done heap warps = Some true.
Proof.
  induction warps as [|x warps IH]; simpl; intros H; [reflexivity|].
  destruct (H x ltac:(left)) as (w & Hw & Hst).
  rewrite Hw. simpl. unfold Warp.getState. rewrite Hst. simpl.
  apply IH. intros a Ha. apply H. right. exact Ha.
Qed.

(** The completion sweep changes the completion marks only. *)
Lemma sweep_getWarps (heap : gmap WarpPtr Warp.t)
      (blocks blocks' : list (ThreadBlock.t WarpPtr)) :
  Forall2 (fun b b' => exists done : bool,
               ComputeUnit.all_warps_done heap (ThreadBlock.getWarps b) = Some done /\
               b' = (if done then ThreadBlock.markCompleted b else b))
          blocks blocks' ->
  map ThreadBlock.getWarps blocks' = map ThreadBlock.getWarps blocks.
Proof.
  induction 1 as [|b b' blocks blocks' (done & _ & ->) _ IH]; simpl; [reflexivity|].
  rewrite IH. destruct done; reflexivity.
Qed.

Lemma sweep_member (heap : gmap WarpPtr Warp.t)
      (blocks blocks' : list (ThreadBlock.t WarpPtr)) (b' : ThreadBlock.t WarpPtr) :
  Forall2 (fun b b' => exists done : bool,
               ComputeUnit.all_warps_done heap (ThreadBlock.getWarps b) = Some done /\
               b' = (if done then ThreadBlock.markCompleted b else b))
          blocks blocks' ->
  b' ∈ blocks' ->
  exists b (done : bool),
    b ∈ blocks /\
    ComputeUnit.all_warps_done heap (ThreadBlock.getWarps b) = Some done /\
    b' = (if done then ThreadBlock.markCompleted b else b).
Proof.
  induction 1 as [|b0 b0' blocks blocks' (done & Hd & ->) _ IH]; intros Hin.
  - inversion Hin.
  - apply elem_of_cons in Hin as [->|Hin].
    + exists b0, done. split; [left|auto].
    + destruct (IH Hin) as (b & d & Hb & Hd' & Heq).
      exists b, d. split; [right; exact Hb|auto].
Qed.

(** A cycle of a consistent compute unit that has a ready warp: the cycle
    is defined, the unit stays consistent, the warp at the head of the queue
    executes 8 instructions and is queued again at the back unless these
    were its last, in which case the blocks are swept. *)
Lemma consistent_simulateCycle_fetch (σ : ComputeUnit.world) (cu : ComputeUnit.t)
      (a : WarpPtr) (rest : list WarpPtr) :
  ComputeUnitRun.consistent σ cu ->
  WarpScheduler.ready_queue_ (ComputeUnit.warp_scheduler_ cu) = a :: rest ->
  exists (w : Warp.t) (σ' : ComputeUnit.world) (cu' : ComputeUnit.t) (w' : Warp.t),
    ComputeUnit.warp_store σ !! a = Some w /\
    Warp.state_ w = READY /\
    Warp.instructions_executed_ w + 8 <= 1000 /\
    ComputeUnit.simulateCycle σ cu = Some (σ', cu') /\
    ComputeUnitRun.consistent σ' cu' /\
    ComputeUnit.warp_store σ' !! a = Some w' /\
    (forall a', a' <> a ->
                ComputeUnit.warp_store σ' !! a' = ComputeUnit.warp_store σ !! a') /\
    Warp.instructions_executed_ w' = Warp.instructions_executed_ w + 8 /\
    WarpScheduler.ready_queue_ (ComputeUnit.warp_scheduler_ cu')
    = (if Warp.instructions_executed_ w + 8 =? 1000 then rest else rest ++ [a]) /\
    map ThreadBlock.getWarps (ComputeUnit.active_blocks_ cu')
    = map ThreadBlock.getWarps (ComputeUnit.active_blocks_ cu) /\
    (Warp.instructions_executed_ w + 8 = 1000 ->
     forall b', b' ∈ ComputeUnit.active_blocks_ cu' ->
                (forall a', a' ∈ ThreadBlock.getWarps b' ->
                            exists w0, ComputeUnit.warp_store σ' !! a' = Some w0 /\
                                       Warp.state_ w0 = COMPLETED) ->
                ThreadBlock.completed_ b' = true) /\
    ComputeUnit.cycles_executed_ cu'
    = wrap64 (ComputeUnit.cycles_executed_ cu + 1
              + Memory.getLatency
                  (Memory.getGlobalMemory (ComputeUnit.memory_controller_ σ)) / 10) /\
    ComputeUnit.instructions_executed_ cu'
    = wrap64 (ComputeUnit.instructions_executed_ cu + 8) /\
    ComputeUnit.warps_executed_ cu' = wrap64 (ComputeUnit.warps_executed_ cu + 1) /\
    ComputeUnit.cycles_stalled_ cu' = wrap64 (ComputeUnit.cycles_stalled_ cu + 1) /\
    ComputeUnit.idle_cycles_ cu' = ComputeUnit.idle_cycles_ cu /\
    Memory.global_memory_ (ComputeUnit.memory_controller_ σ')
    = Memory.global_memory_ (ComputeUnit.memory_controller_ σ) /\
    Memory.total_memory_ops_ (ComputeUnit.memory_controller_ σ')
    = wrap64 (Memory.total_memory_ops_ (ComputeUnit.memory_controller_ σ) + 2).
Proof.
  intros Hcons Hqueue.
  pose proof (consistent_queue_length σ cu Hcons) as Hqlen.
  destruct Hcons as [Hqnd Hq Hbnd Hb Hprog Hlim Hwithin Hstate Hlat Hrq].
  rewrite Hqueue in Hqnd, Hq, Hqlen, Hrq.
  destruct (Hq a ltac:(left)) as (Hin & w & Hw & Hready).
  destruct (Hprog a w Hw) as (k & Hk & Hinstr & Hst & Hthreads).
  assert (Hk124 : k <= 124).
  { destruct (Z.eqb_spec k 125) as [->|Hne]; [|lia].
    rewrite Hst in Hready. discriminate. }
  apply NoDup_cons in Hqnd as [Hnotin Hrestnd].
  destruct Hlim as (Hl1 & Hl2 & Hl3). destruct Hwithin as [Hlen16 Htot64].
  rewrite (simulateCycle_fetch σ cu a rest Hqueue).
  destruct (executeWarp_batch σ
              (ComputeUnit.set_warp_scheduler
                 {| WarpScheduler.ready_queue_ := rest;
                    WarpScheduler.max_warps_ :=
                      WarpScheduler.max_warps_ (ComputeUnit.warp_scheduler_ cu) |}
                 (ComputeUnit.incr_cycles_executed cu))
              a w Hw)
    as (σ1 & cu1 & w1 & Hexec & Hw1 & Hother & Hmc & Hst1 & Hi1 & _ & _
        & _ & _ & Hth1 & _ & Hcyc & Hinstr_cu & Hcst & Hwex & Hidle
        & Hblocks & Hws & Hstate1 & Hmw & Hmb).
  { cu_fields. apply wrap64_range. }
  { exact Hlat. }
  revert Hcyc Hinstr_cu Hcst Hwex Hidle Hblocks Hws Hstate1 Hmw Hmb. cu_fields.
  intros Hcyc Hinstr_cu Hcst Hwex Hidle Hblocks Hws Hstate1 Hmw Hmb.
  rewrite Hexec. cbn [mbind option_bind]. rewrite Hw1. cbn [mbind option_bind].
  rewrite (wrap64_small (Warp.instructions_executed_ w + 8)) in Hi1 by lia.
  assert (Hgm : Memory.global_memory_ (ComputeUnit.memory_controller_ σ1)
                = Memory.global_memory_ (ComputeUnit.memory_controller_ σ))
    by (rewrite Hmc; reflexivity).
  assert (Hops : Memory.total_memory_ops_ (ComputeUnit.memory_controller_ σ1)
                 = wrap64 (Memory.total_memory_ops_ (ComputeUnit.memory_controller_ σ) + 2))
    by (rewrite Hmc; simpl; wrap_sum).
  assert (Hcyc' : ComputeUnit.cycles_executed_ cu1
                  = wrap64 (ComputeUnit.cycles_executed_ cu + 1
                            + Memory.getLatency
                                (Memory.getGlobalMemory
                                   (ComputeUnit.memory_controller_ σ)) / 10))
    by (rewrite Hcyc, wrap64_add_l; reflexivity).
  unfold Warp.getInstructionsExecuted. rewrite Hi1.
  exists w.
  destruct (Z.eqb_spec (Warp.instructions_executed_ w + 8) 1000) as [Hdone|Hmore].
  - (* the warp has completed *)
    destruct (Z.geb_spec (Warp.instructions_executed_ w + 8) 1000) as [_|Hlt]; [|lia].
    set (σ2 := ComputeUnit.update_warp (Warp.setState COMPLETED) a σ1).
    assert (Hσ2a : ComputeUnit.warp_store σ2 !! a
                   = Some (Warp.setState COMPLETED w1)).
    { subst σ2. rewrite warp_store_update_warp, lookup_alter_eq, Hw1. reflexivity. }
    assert (Hσ2o : forall a', a' <> a ->
                              ComputeUnit.warp_store σ2 !! a'
                              = ComputeUnit.warp_store σ !! a').
    { intros a' Hne. subst σ2.
      rewrite warp_store_update_warp, lookup_alter_ne by congruence.
      apply Hother, Hne. }
    assert (Hσ2c : ComputeUnit.memory_controller_ σ2 = ComputeUnit.memory_controller_ σ1)
      by reflexivity.
    clearbody σ2.
    destruct (sweep_total (ComputeUnit.warp_store σ2) (ComputeUnit.active_blocks_ cu1))
      as (blocks' & Hsweep & Hrel).
    { intros b a' Hbin Ha'. rewrite Hblocks in Hbin.
      destruct (decide (a' = a)) as [->|Hne]; [rewrite Hσ2a; eauto|].
      rewrite (Hσ2o a' Hne). destruct (Hb b a' Hbin Ha') as (w0 & -> & _). eauto. }
    rewrite Hsweep. cbn [mbind option_bind].
    rewrite Hblocks in Hrel.
    pose proof (sweep_getWarps _ _ _ Hrel) as Hsame.
    exists σ2, (ComputeUnit.set_active_blocks blocks' cu1), (Warp.setState COMPLETED w1).
    cu_fields.
    split; [exact Hw|]. split; [exact Hready|]. split; [lia|].
    split; [reflexivity|]. split.
    { split; unfold ComputeUnitRun.block_warps; cu_fields; rewrite ?Hws; simpl;
        rewrite ?Hsame.
      - exact Hrestnd.
      - intros a' Ha'.
        destruct (Hq a' ltac:(right; exact Ha')) as (Hin' & w0 & Hw0 & Hst0).
        split; [exact Hin'|]. exists w0.
        rewrite Hσ2o by (intros ->; contradiction). auto.
      - exact Hbnd.
      - intros b' a' Hb' Ha'.
        destruct (sweep_member _ _ _ _ Hrel Hb') as (b & done & Hbin & Hd & ->).
        assert (Ha : a' ∈ ThreadBlock.getWarps b) by (destruct done; exact Ha').
        destruct (decide (a' = a)) as [->|Hne].
        + rewrite Hσ2a. eexists. split; [reflexivity|]. intros _. reflexivity.
        + rewrite (Hσ2o a' Hne).
          destruct (Hb b a' Hbin Ha) as (w0 & Hw0 & Hdone0).
          exists w0. split; [exact Hw0|]. intros Hc.
          destruct done.
          * destruct (all_warps_done_true _ _ Hd a' Ha) as (w2 & Hw2 & Hst2).
            rewrite (Hσ2o a' Hne), Hw0 in Hw2. injection Hw2 as <-. exact Hst2.
          * apply Hdone0, Hc.
      - intros a' w0 Hw0.
        destruct (decide (a' = a)) as [->|Hne].
        + rewrite Hσ2a in Hw0. injection Hw0 as <-.
          exists 125. unfold Warp.getNumThreads in *. warp_fields.
          rewrite Hi1, Hth1. simpl. repeat split; auto; lia.
        + rewrite (Hσ2o a' Hne) in Hw0. eauto.
      - rewrite Hmw, Hmb. auto.
      - rewrite (Forall2_length _ _ _ Hrel) in Hlen16.
        split; [exact Hlen16|].
        rewrite warp_total_length, Hsame, <- warp_total_length. exact Htot64.
      - rewrite Hstate1, Hstate.
        apply Forall2_length in Hrel.
        destruct (ComputeUnit.active_blocks_ cu), blocks'; try discriminate; reflexivity.
      - unfold Memory.getLatency, Memory.getGlobalMemory in *.
        rewrite Hσ2c, Hgm. exact Hlat.
      - intros b' a' w0 Hb' Ha' Hw0 Hst0.
        destruct (sweep_member _ _ _ _ Hrel Hb') as (b & done & Hbin & Hd & ->).
        assert (Ha : a' ∈ ThreadBlock.getWarps b) by (destruct done; exact Ha').
        destruct (decide (a' = a)) as [->|Hne].
        + rewrite Hσ2a in Hw0. injection Hw0 as <-. discriminate.
        + rewrite (Hσ2o a' Hne) in Hw0.
          pose proof (Hrq b a' w0 Hbin Ha Hw0 Hst0) as Hin0.
          apply elem_of_cons in Hin0 as [->|Hin0]; [contradiction|exact Hin0]. }
    split; [exact Hσ2a|]. split; [exact Hσ2o|].
    split; [warp_fields; exact Hi1|].
    split; [rewrite Hws; reflexivity|].
    split; [exact Hsame|].
    split.
    { intros _ b' Hb' Hall.
      destruct (sweep_member _ _ _ _ Hrel Hb') as (b & done & Hbin & Hd & ->).
      assert (Hall' : forall a', a' ∈ ThreadBlock.getWarps b ->
                                 exists w0, ComputeUnit.warp_store σ2 !! a' = Some w0 /\
                                            Warp.state_ w0 = COMPLETED)
        by (intros a' Ha'; apply Hall; destruct done; exact Ha').
      rewrite (all_warps_done_complete _ _ Hall') in Hd. injection Hd as <-.
      reflexivity. }
    rewrite Hσ2c. auto 10.
  - (* the warp goes back to the queue *)
    destruct (Z.geb_spec (Warp.instructions_executed_ w + 8) 1000) as [Hge|_]; [lia|].
    unfold WarpScheduler.addWarp. rewrite Hws.
    cbn [WarpScheduler.ready_queue_ WarpScheduler.max_warps_].
    pose proof (warp_total_nonneg (ComputeUnit.active_blocks_ cu)) as Hnn.
    simpl length in Hqlen.
    destruct (Z.geb_spec (Z.of_nat (length rest))
                         (WarpScheduler.max_warps_ (ComputeUnit.warp_scheduler_ cu)))
      as [Hfull|_]; [lia|].
    rewrite Hw1. cbn [mbind option_bind]. unfold Warp.getState. rewrite Hst1.
    cbn [ExecutionState_eqb snd].
    eexists σ1, _, w1. cu_fields.
    split; [exact Hw|]. split; [exact Hready|]. split; [lia|].
    split; [reflexivity|]. split.
    { split; unfold ComputeUnitRun.block_warps; cu_fields; rewrite ?Hblocks; simpl.
      - apply NoDup_app. split; [exact Hrestnd|]. split.
        + intros x Hx Hxa. apply list_elem_of_singleton in Hxa. subst x. contradiction.
        + apply NoDup_singleton.
      - intros a' Ha'. apply elem_of_app in Ha' as [Ha'|Ha'].
        + destruct (Hq a' ltac:(right; exact Ha')) as (Hin' & w0 & Hw0 & Hst0).
          split; [exact Hin'|]. exists w0.
          rewrite Hother by (intros ->; contradiction). auto.
        + apply list_elem_of_singleton in Ha'. subst a'.
          split; [exact Hin|]. eauto.
      - exact Hbnd.
      - intros b a' Hbin Ha'.
        destruct (Hb b a' Hbin Ha') as (w0 & Hw0 & Hdone0).
        destruct (decide (a' = a)) as [->|Hne].
        + exists w1. split; [exact Hw1|]. intros Hc.
          rewrite Hw in Hw0. injection Hw0 as <-.
          rewrite (Hdone0 Hc) in Hready. discriminate.
        + exists w0. rewrite (Hother a' Hne). auto.
      - intros a' w0 Hw0.
        destruct (decide (a' = a)) as [->|Hne].
        + rewrite Hw1 in Hw0. injection Hw0 as <-.
          exists (k + 1). unfold Warp.getNumThreads in *.
          rewrite Hi1, Hth1, Hst1.
          destruct (Z.eqb_spec (k + 1) 125) as [He|_]; [lia|].
          repeat split; auto; lia.
        + rewrite (Hother a' Hne) in Hw0. eauto.
      - rewrite Hmw, Hmb. auto.
      - auto.
      - rewrite Hstate1. exact Hstate.
      - unfold Memory.getLatency, Memory.getGlobalMemory in *. rewrite Hgm. exact Hlat.
      - intros b a' w0 Hbin Ha' Hw0 Hst0. apply elem_of_app.
        destruct (decide (a' = a)) as [->|Hne].
        + right. left.
        + left. rewrite (Hother a' Hne) in Hw0.
          pose proof (Hrq b a' w0 Hbin Ha' Hw0 Hst0) as Hin0.
          apply elem_of_cons in Hin0 as [->|Hin0]; [contradiction|exact Hin0]. }
    cu_fields.
    split; [exact Hw1|]. split; [exact Hother|].
    split; [exact Hi1|].
    split; [reflexivity|].
    split; [rewrite Hblocks; reflexivity|].
    split; [intros Hc; lia|].
    auto 10.
Qed.

Lemma consistent_simulateCycle_idle (σ : ComputeUnit.world) (cu : ComputeUnit.t) :
  ComputeUnitRun.consistent σ cu ->
  WarpScheduler.ready_queue_ (ComputeUnit.warp_scheduler_ cu) = [] ->
  exists cu',
    ComputeUnit.simulateCycle σ cu = Some (σ, cu') /\
    ComputeUnitRun.consistent σ cu' /\
    ComputeUnit.warp_scheduler_ cu' = ComputeUnit.warp_scheduler_ cu /\
    ComputeUnit.active_blocks_ cu' = ComputeUnit.active_blocks_ cu /\
    ComputeUnit.idle_cycles_ cu' = wrap64 (ComputeUnit.idle_cycles_ cu + 1) /\
    ComputeUnit.cycles_executed_ cu' = wrap64 (ComputeUnit.cycles_executed_ cu + 1).
Proof.
  intros Hcons Hqueue.
  unfold ComputeUnit.simulateCycle, WarpScheduler.getNextWarp.
  cbn [ComputeUnit.warp_scheduler_ ComputeUnit.incr_cycles_executed].
  rewrite Hqueue. eexists. split; [reflexivity|]. cu_fields.
  split; [|auto].
  eapply consistent_ext; [..|exact Hcons]; reflexivity.
Qed.

(** Every call the device makes on a consistent compute unit is defined and
    leaves it consistent. *)
Lemma consistent_step (σ : ComputeUnit.world) (cu : ComputeUnit.t)
      (o : ComputeUnitRun.op) :
  ComputeUnitRun.consistent σ cu ->
  ComputeUnitRun.as_device_calls o ->
  exists σ' cu',
    ComputeUnitRun.step (σ, cu) o = Some (σ', cu') /\
    ComputeUnitRun.consistent σ' cu'.
Proof.
  intros Hcons Ho. destruct o as [block| | | |].
  - destruct (consistent_assign σ cu block Hcons Ho)
      as [[_ ->]|(_ & cu' & -> & Hc' & _)]; eauto.
  - simpl. pose proof (consistent_removeCompletedBlocks σ cu Hcons) as Hc'.
    destruct (ComputeUnit.removeCompletedBlocks σ cu) as [σ' cu']. eauto.
  - simpl.
    destruct (WarpScheduler.ready_queue_ (ComputeUnit.warp_scheduler_ cu))
      as [|a rest] eqn:Hqueue.
    + destruct (consistent_simulateCycle_idle σ cu Hcons Hqueue)
        as (cu' & -> & Hc' & _). eauto.
    + destruct (consistent_simulateCycle_fetch σ cu a rest Hcons Hqueue)
        as (w & σ' & cu' & w' & _ & _ & _ & -> & Hc' & _). eauto.
  - simpl. unfold ComputeUnitRun.run_iteration.
    destruct (negb _ && _) eqn:Hcond; [|eauto].
    destruct (WarpScheduler.ready_queue_ (ComputeUnit.warp_scheduler_ cu))
      as [|a rest] eqn:Hqueue.
    + destruct (consistent_simulateCycle_idle σ cu Hcons Hqueue)
        as (cu' & -> & Hc' & _). eauto.
    + destruct (consistent_simulateCycle_fetch σ cu a rest Hcons Hqueue)
        as (w & σ' & cu' & w' & _ & _ & _ & -> & Hc' & _). eauto.
  - simpl. eexists _, _. split; [reflexivity|].
    eapply consistent_ext; [..|exact Hcons]; reflexivity.
Qed.

Lemma consistent_run (ops : list ComputeUnitRun.op) :
  forall (σ : ComputeUnit.world) (cu : ComputeUnit.t),
    ComputeUnitRun.consistent σ cu ->
    Forall ComputeUnitRun.as_device_calls ops ->
    exists σ' cu',
      ComputeUnitRun.run (σ, cu) ops = Some (σ', cu') /\
      ComputeUnitRun.consistent σ' cu'.
Proof.
  induction ops as [|o ops IH]; intros σ cu Hcons Hops.
  - simpl. eauto.
  - apply Forall_cons in Hops as [Ho Hops].
    destruct (consistent_step σ cu o Hcons Ho) as (σ1 & cu1 & Hstep & Hc1).
    cbn [ComputeUnitRun.run]. rewrite Hstep. cbn [mbind option_bind].
    apply IH; assumption.
Qed.

Lemma reachable_consistent (σ : ComputeUnit.world) (cu : ComputeUnit.t) :
  ComputeUnitRun.reachable σ cu -> ComputeUnitRun.consistent σ cu.
Proof.
  intros (controller & id & stalled & ops & Hlat & Hops & Hrun).
  destruct (consistent_run ops _ _ (consistent_new controller id stalled Hlat) Hops)
    as (σ' & cu' & Hrun' & Hc).
  rewrite Hrun in Hrun'. injection Hrun' as <- <-. exact Hc.
Qed.

Lemma run_snoc (st : ComputeUnit.world * ComputeUnit.t) (ops : list ComputeUnitRun.op)
      (o : ComputeUnitRun.op) :
  ComputeUnitRun.run st (ops ++ [o])
  = (st' ← ComputeUnitRun.run st ops; ComputeUnitRun.step st' o).
Proof.
  revert st. induction ops as [|o' ops IH]; intros st; simpl.
  - destruct (ComputeUnitRun.step st o); reflexivity.
  - destruct (ComputeUnitRun.step st o') as [st'|]; simpl; [apply IH|reflexivity].
Qed.

Lemma reachable_step (σ σ' : ComputeUnit.world) (cu cu' : ComputeUnit.t)
      (o : ComputeUnitRun.op) :
  ComputeUnitRun.reachable σ cu ->
  ComputeUnitRun.as_device_calls o ->
  ComputeUnitRun.step (σ, cu) o = Some (σ', cu') ->
  ComputeUnitRun.reachable σ' cu'.
Proof.
  intros (controller & id & stalled & ops & Hlat & Hops & Hrun) Ho Hstep.
  exists controller, id, stalled, (ops ++ [o]).
  split; [exact Hlat|]. split.
  - apply Forall_app. split; [exact Hops|]. apply Forall_singleton, Ho.
  - rewrite run_snoc, Hrun. exact Hstep.
Qed.

Lemma reachable_new (controller : Memory.MemoryController) (id stalled : Z) :
  0 <= Memory.getLatency (Memory.getGlobalMemory controller) / 10 ->
  ComputeUnitRun.reachable (ComputeUnit.mkWorld ∅ controller)
                           (ComputeUnit.new id stalled).
Proof.
  intros Hlat. exists controller, id, stalled, [].
  split; [exact Hlat|]. split; [constructor|reflexivity].
Qed.

(** Every block [ThreadBlock(bid, n)] is as [as_constructed] says, and so
    is every block of [generateThreadBlocks], which only sets the position
    in the grid. *)
Lemma ThreadBlock_new_as_constructed (bid n : Z) :
  0 <= n -> n + 32 <= 2 ^ 64 ->
  ComputeUnitRun.as_constructed (ThreadBlock.new bid n).
Proof.
  intros Hn Hfit.
  destruct (ThreadBlock_new_warps bid n Hn Hfit) as [Hnum Hwarps].
  pose proof (ceil_div_spec n 32 ltac:(lia)) as Hceil.
  unfold ThreadBlock.getNumWarps in Hnum.
  split; [reflexivity|]. split; [rewrite Hnum; lia|].
  apply Forall_forall. intros w Hw.
  apply list_elem_of_lookup in Hw as [i Hi].
  assert (Hlt : (i < length (ThreadBlock.warps_ (ThreadBlock.new bid n)))%nat)
    by (eapply lookup_lt_Some, Hi).
  destruct (Hwarps (Z.of_nat i) ltac:(lia)) as [Hlook Hmin].
  rewrite Nat2Z.id, Hi in Hlook. injection Hlook as ->.
  destruct (Warp_new_spec (Z.of_nat i) (wrap32 bid) (Z.min 32 (n - 32 * Z.of_nat i))
              ltac:(lia)) as (Hth & _ & _ & _ & Hst & _ & Hinstr).
  split; [exact Hst|]. split; [exact Hinstr|]. rewrite Hth. lia.
Qed.

Lemma generate_block_as_constructed (config : KernelConfig.t) (i : Z) :
  0 <= KernelConfig.getThreadsPerBlock config ->
  KernelConfig.getThreadsPerBlock config + 32 <= 2 ^ 64 ->
  ComputeUnitRun.as_constructed (Workload.generate_block config i).
Proof.
  intros Hn Hfit.
  exact (ThreadBlock_new_as_constructed i (KernelConfig.getThreadsPerBlock config)
           Hn Hfit).
Qed.

Lemma Fixture_block_as_constructed :
  ComputeUnitRun.as_constructed (ThreadBlock.new 0 40).
Proof. apply ThreadBlock_new_as_constructed; lia. Qed.

(** X15.  No call the device makes on a compute unit goes through a
    dangling pointer.  In every state a compute unit reaches from its
    construction, each call ([assignBlock] of a block as the constructors
    leave it, [removeCompletedBlocks], [simulateCycle], an iteration of the
    loop of [run], [resetMetrics]) is defined and leads to a reachable
    state; the ready queue holds no warp twice, each of its entries points
    to a live warp of an active block that is [READY], and every warp the
    active blocks list is live, although [removeCompletedBlocks] destroys
    warps and never looks at the queue. *)
Theorem compute_unit_pointers_valid (σ : ComputeUnit.world) (cu : ComputeUnit.t) :
  ComputeUnitRun.reachable σ cu ->
  (forall o : ComputeUnitRun.op,
      ComputeUnitRun.as_device_calls o ->
      exists σ' cu',
        ComputeUnitRun.step (σ, cu) o = Some (σ', cu') /\
        ComputeUnitRun.reachable σ' cu') /\
  NoDup (WarpScheduler.ready_queue_ (ComputeUnit.warp_scheduler_ cu)) /\
  (forall a, a ∈ WarpScheduler.ready_queue_ (ComputeUnit.warp_scheduler_ cu) ->
             (exists b, b ∈ ComputeUnit.active_blocks_ cu /\
                        a ∈ ThreadBlock.getWarps b /\
                        ThreadBlock.isCompleted b = false) /\
             exists w, ComputeUnit.warp_store σ !! a = Some w /\
                       Warp.getState w = READY) /\
  (forall b a, b ∈ ComputeUnit.active_blocks_ cu -> a ∈ ThreadBlock.getWarps b ->
               is_Some (ComputeUnit.warp_store σ !! a)).
Proof.
  intros Hreach. pose proof (reachable_consistent σ cu Hreach) as Hcons.
  split; [|split; [|split]].
  - intros o Ho. destruct (consistent_step σ cu o Hcons Ho) as (σ' & cu' & Hstep & _).
    exists σ', cu'. split; [exact Hstep|].
    eapply reachable_step; eauto.
  - apply Hcons.
  - intros a Ha. destruct (ComputeUnitRun.queue_ready σ cu Hcons a Ha)
      as (Hin & w & Hw & Hst).
    split; [|eauto].
    apply elem_of_concat_map in Hin as (b & Hb & Hab).
    exists b. split; [exact Hb|]. split; [exact Hab|].
    destruct (ComputeUnitRun.blocks_alive σ cu Hcons b a Hb Hab) as (w' & Hw' & Hdone).
    rewrite Hw in Hw'. injection Hw' as <-.
    unfold ThreadBlock.isCompleted.
    destruct (ThreadBlock.completed_ b); [|reflexivity].
    rewrite (Hdone eq_refl) in Hst. discriminate.
  - intros b a Hb Hab.
    destruct (ComputeUnitRun.blocks_alive σ cu Hcons b a Hb Hab) as (w & Hw & _).
    eauto.
Qed.

Lemma compute_unit_pointers_valid_witness :
  exists σ1 cu1 σ2 cu2,
    ComputeUnitRun.step (Fixture.empty_world, Fixture.idle_cu)
      (ComputeUnitRun.AssignBlock (ThreadBlock.new 0 40)) = Some (σ1, cu1) /\
    ComputeUnitRun.step (σ1, cu1) ComputeUnitRun.SimulateCycle = Some (σ2, cu2) /\
    WarpScheduler.ready_queue_ (ComputeUnit.warp_scheduler_ cu1) = [1%nat; 2%nat] /\
    WarpScheduler.ready_queue_ (ComputeUnit.warp_scheduler_ cu2) = [2%nat; 1%nat] /\
    ComputeUnitRun.reachable σ2 cu2 /\
    NoDup (WarpScheduler.ready_queue_ (ComputeUnit.warp_scheduler_ cu2)) /\
    (forall a, a ∈ WarpScheduler.ready_queue_ (ComputeUnit.warp_scheduler_ cu2) ->
               (exists b, b ∈ ComputeUnit.active_blocks_ cu2 /\
                          a ∈ ThreadBlock.getWarps b /\
                          ThreadBlock.isCompleted b = false) /\
               exists w, ComputeUnit.warp_store σ2 !! a = Some w /\
                         Warp.getState w = READY) /\
    (forall b a, b ∈ ComputeUnit.active_blocks_ cu2 -> a ∈ ThreadBlock.getWarps b ->
                 is_Some (ComputeUnit.warp_store σ2 !! a)).
Proof.
  assert (Hreach0 : ComputeUnitRun.reachable Fixture.empty_world Fixture.idle_cu).
  { apply (reachable_new Fixture.controller 0 0). vm_compute. discriminate. }
  destruct (consistent_assign Fixture.empty_world Fixture.idle_cu (ThreadBlock.new 0 40)
              (reachable_consistent _ _ Hreach0) Fixture_block_as_constructed)
    as [[Hacc _]|(_ & cu1 & Hstep & Hcons1 & _ & Hqueue & _)].
  { vm_compute in Hacc. discriminate. }
  pose proof (reachable_step _ _ _ _ (ComputeUnitRun.AssignBlock (ThreadBlock.new 0 40))
                Hreach0 Fixture_block_as_constructed Hstep)
    as Hreach1.
  assert (Hqueue1 : WarpScheduler.ready_queue_ (ComputeUnit.warp_scheduler_ cu1)
                    = [1%nat; 2%nat]).
  { rewrite Hqueue. vm_compute. reflexivity. }
  destruct (proj1 (compute_unit_pointers_valid _ cu1 Hreach1)
              ComputeUnitRun.SimulateCycle I)
    as (σ2 & cu2 & Hstep2 & Hreach2).
  destruct (consistent_simulateCycle_fetch _ cu1 1%nat [2%nat] Hcons1 Hqueue1)
    as (w & σ2' & cu2' & w' & Hw & _ & _ & Hsim & _ & _ & _ & _ & Hqueue2 & _).
  assert (Hsame : (σ2', cu2') = (σ2, cu2)).
  { change (ComputeUnit.simulateCycle
              (ComputeUnit.place (ComputeUnitRun.fresh_base Fixture.empty_world)
                 (ThreadBlock.new 0 40) Fixture.empty_world).2 cu1
            = Some (σ2, cu2)) in Hstep2.
    congruence. }
  injection Hsame as -> ->.
  assert (Hzero : Warp.instructions_executed_ w = 0).
  { vm_compute in Hw. injection Hw as <-. reflexivity. }
  rewrite Hzero in Hqueue2. change (0 + 8 =? 1000) with false in Hqueue2.
  cbn [app] in Hqueue2.
  destruct (compute_unit_pointers_valid σ2 cu2 Hreach2) as (_ & Hnd & Hq & Hb).
  eexists _, cu1, σ2, cu2.
  split; [exact Hstep|]. split; [exact Hstep2|]. split; [exact Hqueue1|].
  split; [exact Hqueue2|]. split; [exact Hreach2|]. split; [exact Hnd|].
  split; [exact Hq|exact Hb].
Defined.

(** The counting loops of [getActiveThreadCount] over live warps of at
    most 32 threads. *)
Lemma count_warp_threads_bound (heap : gmap WarpPtr Warp.t) (warps : list WarpPtr)
      (count : Z) :
  (forall a, a ∈ warps -> exists w, heap !! a = Some w /\ Warp.getNumThreads w <= 32) ->
  0 <= count -> count + 32 * Z.of_nat (length warps) < 2 ^ 64 ->
  exists count',
    ComputeUnitRun.count_warp_threads heap warps count = Some count' /\
    count <= count' <= count + 32 * Z.of_nat (length warps).
Proof.
  revert count. induction warps as [|a warps IH]; intros count Hw Hc Hfit; simpl.
  - exists count. split; [reflexivity|lia].
  - destruct (Hw a ltac:(left)) as (w & Hwa & Hth). rewrite Hwa. simpl.
    assert (H0 : 0 <= Warp.getNumThreads w) by (unfold Warp.getNumThreads; lia).
    simpl length in Hfit.
    rewrite wrap64_small by lia.
    destruct (IH (count + Warp.getNumThreads w)) as (c' & Hc' & Hb).
    + intros a' Ha'. apply Hw. right. exact Ha'.
    + lia.
    + lia.
    + exists c'. split; [exact Hc'|lia].
Qed.

Lemma count_block_threads_bound (heap : gmap WarpPtr Warp.t)
      (blocks : list (ThreadBlock.t WarpPtr)) (count : Z) :
  (forall b a, b ∈ blocks -> a ∈ ThreadBlock.getWarps b ->
               exists w, heap !! a = Some w /\ Warp.getNumThreads w <= 32) ->
  0 <= count -> count + 32 * ComputeUnit.warp_total blocks < 2 ^ 64 ->
  exists count',
    ComputeUnitRun.count_block_threads heap blocks count = Some count' /\
    count <= count' <= count + 32 * ComputeUnit.warp_total blocks.
Proof.
  revert count. induction blocks as [|b blocks IH]; intros count Hw Hc Hfit; simpl.
  - exists count. unfold ComputeUnit.warp_total. simpl. split; [reflexivity|lia].
  - assert (Hsplit : ComputeUnit.warp_total (b :: blocks)
                     = Z.of_nat (length (ThreadBlock.getWarps b))
                       + ComputeUnit.warp_total blocks) by reflexivity.
    pose proof (warp_total_nonneg blocks) as Hnn.
    destruct (count_warp_threads_bound heap (ThreadBlock.getWarps b) count)
      as (c1 & Hc1 & Hb1).
    + intros a Ha. apply (Hw b a); [left|exact Ha].
    + exact Hc.
    + lia.
    + rewrite Hc1. simpl.
      destruct (IH c1) as (c' & Hc' & Hb').
      * intros b' a Hb'' Ha. apply (Hw b' a); [right; exact Hb''|exact Ha].
      * lia.
      * lia.
      * exists c'. split; [exact Hc'|lia].
Qed.

(** X16.  In every state a compute unit reaches from its construction the
    limits of the constructor hold: at most 16 active blocks, at most 64
    warps in them, a ready queue no longer than the number of these warps,
    and at most 2048 threads, the value of [max_threads_per_cu_], although
    no call ever compares anything with it; the counting loop of
    [getActiveThreadCount] reads live warps only.  The state is [IDLE]
    without active block and [RUNNING] with one, so that [isIdle()] is the
    same as having no active block. *)
Theorem compute_unit_limits (σ : ComputeUnit.world) (cu : ComputeUnit.t) :
  ComputeUnitRun.reachable σ cu ->
  ComputeUnit.getActiveBlockCount cu <= 16 /\
  ComputeUnit.getActiveWarpCount cu <= 64 /\
  ComputeUnit.getActiveWarpCount cu
  = ComputeUnit.warp_total (ComputeUnit.active_blocks_ cu) /\
  WarpScheduler.getQueueSize (ComputeUnit.warp_scheduler_ cu)
  <= ComputeUnit.getActiveWarpCount cu /\
  (exists threads,
      ComputeUnitRun.getActiveThreadCount σ cu = Some threads /\
      0 <= threads <= 32 * ComputeUnit.getActiveWarpCount cu /\
      threads <= 2048) /\
  ComputeUnit.getState cu
  = (if ComputeUnit.getActiveBlockCount cu =? 0 then IDLE else RUNNING) /\
  ComputeUnitRun.isIdle cu = (ComputeUnit.getActiveBlockCount cu =? 0).
Proof.
  intros Hreach. pose proof (reachable_consistent σ cu Hreach) as Hcons.
  pose proof (consistent_queue_length σ cu Hcons) as Hqlen.
  destruct Hcons as [Hqnd Hq Hbnd Hb Hprog Hlim Hwithin Hstate Hlat Hrq].
  destruct Hwithin as [Hlen Htot].
  pose proof (warp_total_nonneg (ComputeUnit.active_blocks_ cu)) as Hnn.
  assert (Hcount : ComputeUnit.getActiveWarpCount cu
                   = ComputeUnit.warp_total (ComputeUnit.active_blocks_ cu))
    by (rewrite getActiveWarpCount_eq; apply wrap64_small; lia).
  unfold ComputeUnit.getActiveBlockCount, WarpScheduler.getQueueSize,
    ComputeUnit.getState, ComputeUnitRun.isIdle.
  rewrite Hcount.
  split; [exact Hlen|]. split; [exact Htot|]. split; [reflexivity|].
  split; [exact Hqlen|]. split.
  - destruct (count_block_threads_bound (ComputeUnit.warp_store σ)
                (ComputeUnit.active_blocks_ cu) 0) as (threads & Hth & Hbound).
    + intros b a Hbin Hab. destruct (Hb b a Hbin Hab) as (w & Hw & _).
      destruct (Hprog a w Hw) as (k & _ & _ & _ & Hthreads). eauto.
    + lia.
    + lia.
    + exists threads. split; [exact Hth|]. lia.
  - rewrite Hstate.
    destruct (ComputeUnit.active_blocks_ cu) as [|b bs]; simpl; [auto|].
    split; reflexivity.
Qed.

Lemma compute_unit_limits_witness :
  exists σ1 cu1 threads,
    ComputeUnitRun.step (Fixture.empty_world, Fixture.idle_cu)
      (ComputeUnitRun.AssignBlock (ThreadBlock.new 0 40)) = Some (σ1, cu1) /\
    ComputeUnit.getActiveBlockCount cu1 = 1 /\
    ComputeUnit.getActiveWarpCount cu1 = 2 /\
    WarpScheduler.getQueueSize (ComputeUnit.warp_scheduler_ cu1) <= 2 /\
    ComputeUnitRun.getActiveThreadCount σ1 cu1 = Some threads /\
    0 <= threads <= 64 /\
    ComputeUnit.getState cu1 = RUNNING /\
    ComputeUnitRun.isIdle cu1 = false.
Proof.
  assert (Hreach0 : ComputeUnitRun.reachable Fixture.empty_world Fixture.idle_cu).
  { apply (reachable_new Fixture.controller 0 0). vm_compute. discriminate. }
  destruct (consistent_assign Fixture.empty_world Fixture.idle_cu (ThreadBlock.new 0 40)
              (reachable_consistent _ _ Hreach0) Fixture_block_as_constructed)
    as [[Hacc _]|(_ & cu1 & Hstep & _ & Hact & _)].
  { vm_compute in Hacc. discriminate. }
  pose proof (reachable_step _ _ _ _ (ComputeUnitRun.AssignBlock (ThreadBlock.new 0 40))
                Hreach0 Fixture_block_as_constructed Hstep)
    as Hreach1.
  destruct (compute_unit_limits _ cu1 Hreach1)
    as (_ & _ & Hwarps & Hqsize & (threads & Hth & Hbound & _) & Hstate & Hidle).
  assert (Hblocks : ComputeUnit.getActiveBlockCount cu1 = 1).
  { unfold ComputeUnit.getActiveBlockCount. rewrite Hact. reflexivity. }
  assert (Htwo : ComputeUnit.getActiveWarpCount cu1 = 2).
  { rewrite Hwarps, Hact. vm_compute. reflexivity. }
  rewrite Hblocks in Hstate, Hidle. rewrite Htwo in Hqsize, Hbound.
  eexists _, cu1, threads.
  split; [exact Hstep|]. split; [exact Hblocks|]. split; [exact Htwo|].
  split; [exact Hqsize|]. split; [exact Hth|]. split; [exact Hbound|].
  split; [exact Hstate|exact Hidle].
Defined.

(** X17.  A compute unit that has been reached from its construction
    always has room in its ready queue for the warps of a block it accepts:
    [assignBlock] of a block as the constructors leave it either refuses
    the block, and nothing changes, or appends the block to the active
    blocks and all the warps of the block, in their order, to the ready
    queue, leaving the counters as they were. *)
Theorem assignBlock_queues_every_warp (σ : ComputeUnit.world) (cu : ComputeUnit.t)
        (block : ThreadBlock.t Warp.t) :
  ComputeUnitRun.reachable σ cu ->
  ComputeUnitRun.as_constructed block ->
  let b := fst (ComputeUnit.place (ComputeUnitRun.fresh_base σ) block σ) in
  let σ' := snd (ComputeUnit.place (ComputeUnitRun.fresh_base σ) block σ) in
  if ComputeUnit.canAcceptBlock (Some b) cu
  then
    exists cu',
      ComputeUnit.assignBlock σ' (Some b) cu = Some (true, cu') /\
      ComputeUnit.active_blocks_ cu' = ComputeUnit.active_blocks_ cu ++ [b] /\
      WarpScheduler.ready_queue_ (ComputeUnit.warp_scheduler_ cu')
      = WarpScheduler.ready_queue_ (ComputeUnit.warp_scheduler_ cu)
          ++ ThreadBlock.getWarps b /\
      ThreadBlock.getNumWarps b = Z.of_nat (length (ThreadBlock.warps_ block)) /\
      ComputeUnit.getState cu' = RUNNING /\
      ComputeUnit.cycles_executed_ cu' = ComputeUnit.cycles_executed_ cu /\
      ComputeUnit.instructions_executed_ cu' = ComputeUnit.instructions_executed_ cu /\
      ComputeUnit.idle_cycles_ cu' = ComputeUnit.idle_cycles_ cu
  else ComputeUnit.assignBlock σ' (Some b) cu = Some (false, cu).
Proof.
  intros Hreach Hblock b σ'.
  pose proof (reachable_consistent σ cu Hreach) as Hcons.
  destruct (consistent_assign σ cu block Hcons Hblock)
    as [[Hacc Hstep]|(Hacc & cu' & Hstep & Hc' & Hact & Hqueue & Hcyc & Hins & _ & Hidle & _)];
    fold b σ' in Hacc, Hstep; rewrite Hacc.
  - unfold ComputeUnit.assignBlock. rewrite Hacc. reflexivity.
  - fold b σ' in Hact, Hqueue.
    unfold ComputeUnitRun.step in Hstep.
    replace (ComputeUnit.place (ComputeUnitRun.fresh_base σ) block σ) with (b, σ')
      in Hstep by (subst b σ'; destruct (ComputeUnit.place _ _ _); reflexivity).
    destruct (ComputeUnit.assignBlock σ' (Some b) cu) as [[flag cu'']|] eqn:Hassign;
      simpl in Hstep; [|discriminate].
    assert (Hflag : flag = true).
    { unfold ComputeUnit.assignBlock in Hassign. rewrite Hacc in Hassign.
      simpl in Hassign. destruct (ComputeUnit.offer_warps _ _ _); simpl in Hassign;
        [|discriminate].
      injection Hassign as <- _. reflexivity. }
    subst flag. assert (Hsame : cu'' = cu') by congruence. subst cu''.
    exists cu'. split; [reflexivity|]. split; [exact Hact|]. split; [exact Hqueue|].
    split.
    + destruct (place_spec (ComputeUnitRun.fresh_base σ) block σ) as (Hbw & _).
      fold b in Hbw. unfold ThreadBlock.getNumWarps. unfold ThreadBlock.getWarps in Hbw.
      rewrite Hbw, length_seq. reflexivity.
    + split; [|auto].
      unfold ComputeUnit.getState. rewrite (ComputeUnitRun.state_of_blocks _ _ Hc'), Hact.
      destruct (ComputeUnit.active_blocks_ cu); reflexivity.
Qed.

Lemma assignBlock_queues_every_warp_witness :
  exists cu',
    ComputeUnit.assignBlock
      (snd (ComputeUnit.place 1 (ThreadBlock.new 0 40) Fixture.empty_world))
      (Some (fst (ComputeUnit.place 1 (ThreadBlock.new 0 40) Fixture.empty_world)))
      Fixture.idle_cu
    = Some (true, cu') /\
    ComputeUnit.active_blocks_ cu'
    = [fst (ComputeUnit.place 1 (ThreadBlock.new 0 40) Fixture.empty_world)] /\
    WarpScheduler.ready_queue_ (ComputeUnit.warp_scheduler_ cu') = [1%nat; 2%nat].
Proof.
  pose proof (assignBlock_queues_every_warp Fixture.empty_world Fixture.idle_cu
                (ThreadBlock.new 0 40)
                (reachable_new Fixture.controller 0 0 ltac:(vm_compute; discriminate))
                Fixture_block_as_constructed) as H.
  destruct H as (cu' & H1 & H2 & H3 & _).
  exists cu'. split; [exact H1|]. split; [exact H2|exact H3].
Defined.

(** *** The run loop drains the ready queue *)

Lemma queued_batches_ext (σ σ' : ComputeUnit.world) (queue : list WarpPtr) :
  (forall a, a ∈ queue ->
             ComputeUnit.warp_store σ' !! a = ComputeUnit.warp_store σ !! a) ->
  ComputeUnitRun.queued_batches σ' queue = ComputeUnitRun.queued_batches σ queue.
Proof.
  induction queue as [|a queue IH]; intros Hsame; simpl; [reflexivity|].
  rewrite (Hsame a) by left. rewrite IH; [reflexivity|].
  intros a' Ha'. apply Hsame. right. exact Ha'.
Qed.

Lemma queued_batches_app (σ : ComputeUnit.world) (q1 q2 : list WarpPtr) :
  ComputeUnitRun.queued_batches σ (q1 ++ q2)
  = ComputeUnitRun.queued_batches σ q1 + ComputeUnitRun.queued_batches σ q2.
Proof.
  induction q1 as [|a q1 IH]; simpl; [reflexivity|].
  rewrite IH. destruct (ComputeUnit.warp_store σ !! a); lia.
Qed.

Lemma queued_batches_length (σ : ComputeUnit.world) (queue : list WarpPtr) :
  (forall a, a ∈ queue ->
             exists w, ComputeUnit.warp_store σ !! a = Some w /\
                       1 <= ComputeUnitRun.batches_left w) ->
  Z.of_nat (length queue) <= ComputeUnitRun.queued_batches σ queue.
Proof.
  induction queue as [|a queue IH]; intros Hq; simpl; [lia|].
  destruct (Hq a ltac:(left)) as (w & -> & Hw).
  assert (Z.of_nat (length queue) <= ComputeUnitRun.queued_batches σ queue).
  { apply IH. intros a' Ha'. apply Hq. right. exact Ha'. }
  lia.
Qed.

Lemma consistent_batches_left (σ : ComputeUnit.world) (cu : ComputeUnit.t)
      (a : WarpPtr) (w : Warp.t) :
  ComputeUnitRun.consistent σ cu ->
  ComputeUnit.warp_store σ !! a = Some w ->
  0 <= ComputeUnitRun.batches_left w <= 125 /\
  Warp.instructions_executed_ w = 1000 - 8 * ComputeUnitRun.batches_left w /\
  (Warp.state_ w = READY -> 1 <= ComputeUnitRun.batches_left w) /\
  (Warp.state_ w <> READY ->
   Warp.state_ w = COMPLETED /\ Warp.instructions_executed_ w = 1000).
Proof.
  intros Hcons Hw.
  destruct (ComputeUnitRun.warps_progress _ _ Hcons a w Hw)
    as (k & Hk & Hinstr & Hst & _).
  assert (Hleft : ComputeUnitRun.batches_left w = 125 - k).
  { unfold ComputeUnitRun.batches_left. rewrite Hinstr.
    replace (1000 - 8 * k) with ((125 - k) * 8) by lia.
    apply Z.div_mul. lia. }
  rewrite Hleft. split; [lia|]. split; [lia|].
  destruct (Z.eqb_spec k 125) as [->|Hne].
  - split.
    + intros Hready. rewrite Hst in Hready. discriminate.
    + intros _. split; [exact Hst|lia].
  - split; [lia|]. intros Hnot. contradiction.
Qed.

Lemma remaining_batches_queue (σ : ComputeUnit.world) (cu : ComputeUnit.t) :
  ComputeUnitRun.consistent σ cu ->
  Z.of_nat (length (WarpScheduler.ready_queue_ (ComputeUnit.warp_scheduler_ cu)))
  <= ComputeUnitRun.remaining_batches σ cu.
Proof.
  intros Hcons. apply queued_batches_length.
  intros a Ha.
  destruct (ComputeUnitRun.queue_ready _ _ Hcons a Ha) as (_ & w & Hw & Hready).
  exists w. split; [exact Hw|].
  apply (consistent_batches_left σ cu a w Hcons Hw), Hready.
Qed.

(** With an empty ready queue every warp of the active blocks has
    completed its 1000 instructions. *)
Lemma consistent_drained (σ : ComputeUnit.world) (cu : ComputeUnit.t) :
  ComputeUnitRun.consistent σ cu ->
  WarpScheduler.ready_queue_ (ComputeUnit.warp_scheduler_ cu) = [] ->
  forall b a, b ∈ ComputeUnit.active_blocks_ cu -> a ∈ ThreadBlock.getWarps b ->
              exists w, ComputeUnit.warp_store σ !! a = Some w /\
                        Warp.state_ w = COMPLETED /\
                        Warp.instructions_executed_ w = 1000.
Proof.
  intros Hcons Hqueue b a Hb Ha.
  destruct (ComputeUnitRun.blocks_alive _ _ Hcons b a Hb Ha) as (w & Hw & _).
  exists w. split; [exact Hw|].
  apply (consistent_batches_left σ cu a w Hcons Hw).
  intros Hready.
  pose proof (ComputeUnitRun.ready_queued _ _ Hcons b a w Hb Ha Hw Hready) as Hin.
  rewrite Hqueue in Hin. inversion Hin.
Qed.

(** One pass of the loop with a warp at the head of the ready queue. *)
Lemma run_iteration_fetch (σ : ComputeUnit.world) (cu : ComputeUnit.t) :
  ComputeUnitRun.consistent σ cu ->
  WarpScheduler.ready_queue_ (ComputeUnit.warp_scheduler_ cu) <> [] ->
  exists σ' cu',
    ComputeUnitRun.run_iteration σ cu = Some (σ', cu') /\
    ComputeUnitRun.consistent σ' cu' /\
    ComputeUnitRun.remaining_batches σ' cu' = ComputeUnitRun.remaining_batches σ cu - 1 /\
    map ThreadBlock.getWarps (ComputeUnit.active_blocks_ cu')
    = map ThreadBlock.getWarps (ComputeUnit.active_blocks_ cu) /\
    (WarpScheduler.ready_queue_ (ComputeUnit.warp_scheduler_ cu') = [] ->
     forall b, b ∈ ComputeUnit.active_blocks_ cu' -> ThreadBlock.completed_ b = true) /\
    ComputeUnit.cycles_executed_ cu'
    = wrap64 (ComputeUnit.cycles_executed_ cu + 1
              + Memory.getLatency
                  (Memory.getGlobalMemory (ComputeUnit.memory_controller_ σ)) / 10) /\
    ComputeUnit.instructions_executed_ cu'
    = wrap64 (ComputeUnit.instructions_executed_ cu + 8) /\
    ComputeUnit.warps_executed_ cu' = wrap64 (ComputeUnit.warps_executed_ cu + 1) /\
    ComputeUnit.cycles_stalled_ cu' = wrap64 (ComputeUnit.cycles_stalled_ cu + 1) /\
    ComputeUnit.idle_cycles_ cu' = ComputeUnit.idle_cycles_ cu /\
    Memory.global_memory_ (ComputeUnit.memory_controller_ σ')
    = Memory.global_memory_ (ComputeUnit.memory_controller_ σ) /\
    Memory.total_memory_ops_ (ComputeUnit.memory_controller_ σ')
    = wrap64 (Memory.total_memory_ops_ (ComputeUnit.memory_controller_ σ) + 2).
Proof.
  intros Hcons Hne.
  destruct (WarpScheduler.ready_queue_ (ComputeUnit.warp_scheduler_ cu))
    as [|a rest] eqn:Hqueue; [contradiction|].
  destruct (consistent_simulateCycle_fetch σ cu a rest Hcons Hqueue)
    as (w & σ' & cu' & w' & Hw & Hready & Hroom & Hsim & Hcons' & Hw' & Hother
        & Hinstr & Hqueue' & Hmap & Hsweep & Hcyc & Hins & Hwex & Hcst & Hidle
        & Hgm & Hops).
  exists σ', cu'.
  assert (Hin : a ∈ ComputeUnitRun.block_warps cu).
  { apply (ComputeUnitRun.queue_ready _ _ Hcons a). rewrite Hqueue. left. }
  assert (Hactive : ComputeUnit.active_blocks_ cu <> []).
  { intros Hnil. unfold ComputeUnitRun.block_warps in Hin. rewrite Hnil in Hin.
    inversion Hin. }
  split.
  { unfold ComputeUnitRun.run_iteration, WarpScheduler.hasReadyWarps.
    rewrite Hqueue. destruct (ComputeUnit.active_blocks_ cu); [contradiction|].
    exact Hsim. }
  split; [exact Hcons'|].
  assert (Hnd : NoDup (a :: rest)).
  { rewrite <- Hqueue. apply (ComputeUnitRun.queue_NoDup _ _ Hcons). }
  apply NoDup_cons in Hnd as [Hnotin _].
  assert (Hrest : ComputeUnitRun.queued_batches σ' rest
                  = ComputeUnitRun.queued_batches σ rest).
  { apply queued_batches_ext. intros a' Ha'. apply Hother.
    intros ->. contradiction. }
  destruct (consistent_batches_left σ cu a w Hcons Hw) as (_ & Hiw & _ & _).
  destruct (consistent_batches_left σ' cu' a w' Hcons' Hw') as (_ & Hiw' & _ & _).
  split.
  { unfold ComputeUnitRun.remaining_batches. rewrite Hqueue', Hqueue.
    cbn [ComputeUnitRun.queued_batches foldr]. rewrite Hw.
    fold (ComputeUnitRun.queued_batches σ rest).
    destruct (Z.eqb_spec (Warp.instructions_executed_ w + 8) 1000) as [Hdone|Hmore].
    - rewrite Hrest. lia.
    - rewrite queued_batches_app, Hrest.
      cbn [ComputeUnitRun.queued_batches foldr]. rewrite Hw'. lia. }
  split; [exact Hmap|].
  split.
  { intros Hempty b Hb.
    destruct (Z.eqb_spec (Warp.instructions_executed_ w + 8) 1000) as [Hdone|Hmore].
    - apply (Hsweep Hdone b Hb). intros a' Ha'.
      destruct (consistent_drained σ' cu' Hcons' Hempty b a' Hb Ha')
        as (w0 & Hw0 & Hst0 & _).
      exists w0. split; [exact Hw0|exact Hst0].
    - rewrite Hqueue' in Hempty. destruct rest; discriminate. }
  auto 10.
Qed.

(** Without a warp in the ready queue the loop changes nothing. *)
Lemma run_iterations_drained (n : nat) (σ : ComputeUnit.world) (cu : ComputeUnit.t) :
  WarpScheduler.ready_queue_ (ComputeUnit.warp_scheduler_ cu) = [] ->
  ComputeUnitRun.run_iterations n σ cu = Some (σ, cu).
Proof.
  intros Hqueue. induction n as [|n IH]; simpl; [reflexivity|].
  unfold ComputeUnitRun.run_iteration, WarpScheduler.hasReadyWarps.
  rewrite Hqueue, andb_false_r. simpl. exact IH.
Qed.

Lemma reachable_run_iterations (n : nat) (σ σ' : ComputeUnit.world)
      (cu cu' : ComputeUnit.t) :
  ComputeUnitRun.reachable σ cu ->
  ComputeUnitRun.run_iterations n σ cu = Some (σ', cu') ->
  ComputeUnitRun.reachable σ' cu'.
Proof.
  revert σ cu. induction n as [|n IH]; intros σ cu Hreach Hrun; simpl in Hrun.
  - injection Hrun as <- <-. exact Hreach.
  - destruct (ComputeUnitRun.run_iteration σ cu) as [[σ1 cu1]|] eqn:Hit;
      simpl in Hrun; [|discriminate].
    apply (IH σ1 cu1); [|exact Hrun].
    apply (reachable_step σ σ1 cu cu1 ComputeUnitRun.RunIteration Hreach I Hit).
Qed.

Lemma simulateCycle_idle_counters (σ : ComputeUnit.world) (cu : ComputeUnit.t) :
  WarpScheduler.ready_queue_ (ComputeUnit.warp_scheduler_ cu) = [] ->
  exists cu',
    ComputeUnit.simulateCycle σ cu = Some (σ, cu') /\
    ComputeUnit.cycles_executed_ cu' = wrap64 (ComputeUnit.cycles_executed_ cu + 1) /\
    ComputeUnit.instructions_executed_ cu' = ComputeUnit.instructions_executed_ cu /\
    ComputeUnit.warps_executed_ cu' = ComputeUnit.warps_executed_ cu /\
    ComputeUnit.idle_cycles_ cu' = wrap64 (ComputeUnit.idle_cycles_ cu + 1).
Proof.
  intros Hqueue.
  unfold ComputeUnit.simulateCycle, WarpScheduler.getNextWarp.
  cbn [ComputeUnit.warp_scheduler_ ComputeUnit.incr_cycles_executed].
  rewrite Hqueue. eexists. split; [reflexivity|]. cu_fields. auto.
Qed.

Lemma simulateCycle_counters (σ σ' : ComputeUnit.world) (cu cu' : ComputeUnit.t) :
  ComputeUnitRun.consistent σ cu ->
  ComputeUnitRun.counters_in_range cu ->
  ComputeUnit.simulateCycle σ cu = Some (σ', cu') ->
  ComputeUnitRun.counters_in_range cu'.
Proof.
  intros Hcons (Hc & Hi & Hw & Hidle) Hsim.
  destruct (WarpScheduler.ready_queue_ (ComputeUnit.warp_scheduler_ cu))
    as [|a rest] eqn:Hqueue.
  - destruct (simulateCycle_idle_counters σ cu Hqueue)
      as (cu1 & Hsim1 & Hc1 & Hi1 & Hw1 & Hidle1).
    rewrite Hsim1 in Hsim. injection Hsim as _ <-.
    unfold ComputeUnitRun.counters_in_range.
    rewrite Hc1, Hi1, Hw1, Hidle1.
    pose proof (wrap64_range (ComputeUnit.cycles_executed_ cu + 1)).
    pose proof (wrap64_range (ComputeUnit.idle_cycles_ cu + 1)).
    auto.
  - destruct (consistent_simulateCycle_fetch σ cu a rest Hcons Hqueue)
      as (w & σ1 & cu1 & w' & _ & _ & _ & Hsim1 & _ & _ & _ & _ & _ & _ & _
          & Hc1 & Hi1 & Hw1 & _ & Hidle1 & _).
    rewrite Hsim1 in Hsim. injection Hsim as _ <-.
    unfold ComputeUnitRun.counters_in_range.
    rewrite Hc1, Hi1, Hw1, Hidle1.
    split; [apply wrap64_range|]. split; [apply wrap64_range|].
    split; [apply wrap64_range|exact Hidle].
Qed.

Lemma counters_step (σ σ' : ComputeUnit.world) (cu cu' : ComputeUnit.t)
      (o : ComputeUnitRun.op) :
  ComputeUnitRun.consistent σ cu ->
  ComputeUnitRun.as_device_calls o ->
  ComputeUnitRun.counters_in_range cu ->
  ComputeUnitRun.step (σ, cu) o = Some (σ', cu') ->
  ComputeUnitRun.counters_in_range cu'.
Proof.
  intros Hcons Ho Hrange Hstep. destruct o as [block| | | |].
  - destruct (consistent_assign σ cu block Hcons Ho)
      as [[_ Heq]|(_ & cu1 & Heq & _ & _ & _ & Hc & Hi & Hw & Hidle & _)];
      rewrite Heq in Hstep.
    + injection Hstep as _ <-. exact Hrange.
    + assert (Hsame : cu1 = cu') by congruence. subst cu1.
      unfold ComputeUnitRun.counters_in_range. rewrite Hc, Hi, Hw, Hidle.
      exact Hrange.
  - change (Some (ComputeUnit.removeCompletedBlocks σ cu) = Some (σ', cu')) in Hstep.
    destruct (removeCompletedBlocks_fields σ cu)
      as (_ & _ & _ & _ & _ & _ & _ & _ & Hc & Hi & Hw & Hidle & _).
    cbn zeta in Hc, Hi, Hw, Hidle.
    assert (Hpair : ComputeUnit.removeCompletedBlocks σ cu = (σ', cu')) by congruence.
    rewrite Hpair in Hc, Hi, Hw, Hidle. cbn [snd] in Hc, Hi, Hw, Hidle.
    unfold ComputeUnitRun.counters_in_range. rewrite Hc, Hi, Hw, Hidle.
    exact Hrange.
  - simpl in Hstep. exact (simulateCycle_counters σ σ' cu cu' Hcons Hrange Hstep).
  - simpl in Hstep. unfold ComputeUnitRun.run_iteration in Hstep.
    destruct (negb _ && _).
    + exact (simulateCycle_counters σ σ' cu cu' Hcons Hrange Hstep).
    + injection Hstep as _ <-. exact Hrange.
  - simpl in Hstep. injection Hstep as _ <-.
    unfold ComputeUnitRun.counters_in_range. simpl. lia.
Qed.

Lemma counters_run (ops : list ComputeUnitRun.op) :
  forall (σ σ' : ComputeUnit.world) (cu cu' : ComputeUnit.t),
    ComputeUnitRun.consistent σ cu ->
    Forall ComputeUnitRun.as_device_calls ops ->
    ComputeUnitRun.counters_in_range cu ->
    ComputeUnitRun.run (σ, cu) ops = Some (σ', cu') ->
    ComputeUnitRun.counters_in_range cu'.
Proof.
  induction ops as [|o ops IH]; intros σ σ' cu cu' Hcons Hops Hrange Hrun.
  - simpl in Hrun. injection Hrun as _ <-. exact Hrange.
  - apply Forall_cons in Hops as [Ho Hops].
    destruct (consistent_step σ cu o Hcons Ho) as (σ1 & cu1 & Hstep & Hc1).
    cbn [ComputeUnitRun.run] in Hrun. rewrite Hstep in Hrun.
    cbn [mbind option_bind] in Hrun.
    apply (IH σ1 σ' cu1 cu' Hc1 Hops); [|exact Hrun].
    exact (counters_step σ σ1 cu cu1 o Hcons Ho Hrange Hstep).
Qed.

Lemma reachable_counters (σ : ComputeUnit.world) (cu : ComputeUnit.t) :
  ComputeUnitRun.reachable σ cu -> ComputeUnitRun.counters_in_range cu.
Proof.
  intros (controller & id & stalled & ops & Hlat & Hops & Hrun).
  apply (counters_run ops _ σ _ cu (consistent_new controller id stalled Hlat) Hops);
    [|exact Hrun].
  unfold ComputeUnitRun.counters_in_range. simpl. lia.
Qed.

Lemma run_loop_drains (n : nat) (σ : ComputeUnit.world) (cu : ComputeUnit.t) :
  ComputeUnitRun.consistent σ cu ->
  ComputeUnitRun.counters_in_range cu ->
  ComputeUnitRun.remaining_batches σ cu = Z.of_nat n ->
  let latency :=
    Memory.getLatency (Memory.getGlobalMemory (ComputeUnit.memory_controller_ σ)) in
  exists σ' cu',
    ComputeUnitRun.run_iterations n σ cu = Some (σ', cu') /\
    ComputeUnitRun.consistent σ' cu' /\
    WarpScheduler.ready_queue_ (ComputeUnit.warp_scheduler_ cu') = [] /\
    map ThreadBlock.getWarps (ComputeUnit.active_blocks_ cu')
    = map ThreadBlock.getWarps (ComputeUnit.active_blocks_ cu) /\
    ((0 < n)%nat ->
     forall b, b ∈ ComputeUnit.active_blocks_ cu' -> ThreadBlock.completed_ b = true) /\
    ComputeUnit.cycles_executed_ cu'
    = wrap64 (ComputeUnit.cycles_executed_ cu + Z.of_nat n * (1 + latency / 10)) /\
    ComputeUnit.instructions_executed_ cu'
    = wrap64 (ComputeUnit.instructions_executed_ cu + 8 * Z.of_nat n) /\
    ComputeUnit.warps_executed_ cu'
    = wrap64 (ComputeUnit.warps_executed_ cu + Z.of_nat n) /\
    ComputeUnit.idle_cycles_ cu' = ComputeUnit.idle_cycles_ cu.
Proof.
  revert σ cu. induction n as [|n IH]; intros σ cu Hcons Hrange Hwork latency.
  - pose proof (remaining_batches_queue σ cu Hcons) as Hlen.
    assert (Hqueue : WarpScheduler.ready_queue_ (ComputeUnit.warp_scheduler_ cu) = []).
    { destruct (WarpScheduler.ready_queue_ (ComputeUnit.warp_scheduler_ cu));
        [reflexivity|]. simpl length in Hlen. lia. }
    destruct Hrange as (Hc & Hi & Hw & Hidle).
    exists σ, cu. split; [reflexivity|]. split; [exact Hcons|].
    split; [exact Hqueue|]. split; [reflexivity|]. split; [lia|].
    change (Z.of_nat 0) with 0. rewrite Z.mul_0_l, Z.mul_0_r, !Z.add_0_r.
    rewrite !wrap64_small by assumption. auto.
  - assert (Hne : WarpScheduler.ready_queue_ (ComputeUnit.warp_scheduler_ cu) <> []).
    { intros Hnil. unfold ComputeUnitRun.remaining_batches in Hwork.
      rewrite Hnil in Hwork. simpl in Hwork. lia. }
    destruct (run_iteration_fetch σ cu Hcons Hne)
      as (σ1 & cu1 & Hit & Hcons1 & Hwork1 & Hmap1 & Hdone1 & Hc1 & Hi1 & Hw1
          & _ & Hidle1 & Hgm1 & _).
    assert (Hrange1 : ComputeUnitRun.counters_in_range cu1).
    { destruct Hrange as (_ & _ & _ & Hidle).
      unfold ComputeUnitRun.counters_in_range. rewrite Hc1, Hi1, Hw1, Hidle1.
      split; [apply wrap64_range|]. split; [apply wrap64_range|].
      split; [apply wrap64_range|exact Hidle]. }
    destruct (IH σ1 cu1 Hcons1 Hrange1 ltac:(lia))
      as (σ' & cu' & Hrun & Hcons' & Hqueue' & Hmap' & Hdone' & Hc' & Hi' & Hw'
          & Hidle').
    exists σ', cu'. split.
    { cbn [ComputeUnitRun.run_iterations]. rewrite Hit. exact Hrun. }
    split; [exact Hcons'|]. split; [exact Hqueue'|].
    split; [rewrite Hmap'; exact Hmap1|].
    split.
    { intros _. destruct n as [|n].
      - simpl in Hrun. injection Hrun as <- <-. apply Hdone1. exact Hqueue'.
      - apply Hdone'. lia. }
    subst latency. unfold Memory.getGlobalMemory in *. rewrite Hgm1 in Hc'.
    rewrite Hc', Hi', Hw', Hidle', Hc1, Hi1, Hw1, Hidle1.
    set (l := Memory.getLatency _ / 10).
    replace (Z.of_nat (S n) * (1 + l)) with (1 + l + Z.of_nat n * (1 + l)) by lia.
    generalize (Z.of_nat n * (1 + l)). intros t. clearbody l.
    rewrite Nat2Z.inj_succ. generalize (Z.of_nat n). intros m.
    clear. split; [wrap_arith|]. split; [wrap_arith|]. split; [wrap_arith|reflexivity].
Qed.

Lemma queued_batches_upper (σ : ComputeUnit.world) (queue : list WarpPtr) :
  (forall a w, a ∈ queue -> ComputeUnit.warp_store σ !! a = Some w ->
               0 <= ComputeUnitRun.batches_left w <= 125) ->
  0 <= ComputeUnitRun.queued_batches σ queue <= 125 * Z.of_nat (length queue).
Proof.
  induction queue as [|a queue IH]; intros Hq; simpl; [lia|].
  assert (0 <= ComputeUnitRun.queued_batches σ queue <= 125 * Z.of_nat (length queue)).
  { apply IH. intros a' w Ha'. apply Hq. right. exact Ha'. }
  destruct (ComputeUnit.warp_store σ !! a) as [w|] eqn:Hw.
  - pose proof (Hq a w ltac:(left) Hw). lia.
  - lia.
Qed.

Lemma filter_all_completed {W} (blocks : list (ThreadBlock.t W)) :
  (forall b, b ∈ blocks -> ThreadBlock.completed_ b = true) ->
  filter (fun b => ThreadBlock.isCompleted b <> true) blocks = [].
Proof.
  intros Hall. apply filter_none. intros b Hb Hnot. apply Hnot.
  apply Hall. exact Hb.
Qed.

(** X18.  The loop of [ComputeUnit::run] finishes the work of a compute
    unit: from a state reached from the construction, with [n] the number
    of batches of 8 instructions the warps of the ready queue still have
    to execute (at most 125 for each of at most 64 warps), [n] passes
    through the loop empty the ready queue, later passes change nothing,
    every warp of an active block is then completed with exactly 1000
    instructions, and, if there was a warp to run, every active block is
    marked completed, so that [removeCompletedBlocks] leaves the unit idle
    without a block.  The passes execute [8 * n] instructions in
    [n * (1 + latency / 10)] cycles, none of them idle. *)
Theorem run_loop_completes (σ : ComputeUnit.world) (cu : ComputeUnit.t) :
  ComputeUnitRun.reachable σ cu ->
  let n := Z.to_nat (ComputeUnitRun.remaining_batches σ cu) in
  let latency :=
    Memory.getLatency (Memory.getGlobalMemory (ComputeUnit.memory_controller_ σ)) in
  (n <= 125 * 64)%nat /\
  (n = 0%nat <-> WarpScheduler.ready_queue_ (ComputeUnit.warp_scheduler_ cu) = []) /\
  exists σ' cu',
    ComputeUnitRun.run_iterations n σ cu = Some (σ', cu') /\
    ComputeUnitRun.reachable σ' cu' /\
    WarpScheduler.ready_queue_ (ComputeUnit.warp_scheduler_ cu') = [] /\
    (forall m, ComputeUnitRun.run_iterations m σ' cu' = Some (σ', cu')) /\
    map ThreadBlock.getWarps (ComputeUnit.active_blocks_ cu')
    = map ThreadBlock.getWarps (ComputeUnit.active_blocks_ cu) /\
    (forall b a, b ∈ ComputeUnit.active_blocks_ cu' -> a ∈ ThreadBlock.getWarps b ->
                 exists w, ComputeUnit.warp_store σ' !! a = Some w /\
                           Warp.state_ w = COMPLETED /\
                           Warp.instructions_executed_ w = 1000) /\
    ((0 < n)%nat ->
     (forall b, b ∈ ComputeUnit.active_blocks_ cu' -> ThreadBlock.completed_ b = true) /\
     ComputeUnit.active_blocks_ (snd (ComputeUnit.removeCompletedBlocks σ' cu')) = [] /\
     ComputeUnitRun.isIdle (snd (ComputeUnit.removeCompletedBlocks σ' cu')) = true) /\
    ComputeUnit.cycles_executed_ cu'
    = wrap64 (ComputeUnit.cycles_executed_ cu + Z.of_nat n * (1 + latency / 10)) /\
    ComputeUnit.instructions_executed_ cu'
    = wrap64 (ComputeUnit.instructions_executed_ cu + 8 * Z.of_nat n) /\
    ComputeUnit.warps_executed_ cu'
    = wrap64 (ComputeUnit.warps_executed_ cu + Z.of_nat n) /\
    ComputeUnit.idle_cycles_ cu' = ComputeUnit.idle_cycles_ cu.
Proof.
  intros Hreach n latency.
  pose proof (reachable_consistent σ cu Hreach) as Hcons.
  pose proof (reachable_counters σ cu Hreach) as Hrange.
  pose proof (remaining_batches_queue σ cu Hcons) as Hlower.
  pose proof (consistent_queue_length σ cu Hcons) as Hqlen.
  destruct (ComputeUnitRun.within_limits _ _ Hcons) as [_ Htot].
  assert (Hupper : 0 <= ComputeUnitRun.remaining_batches σ cu
                   <= 125 * Z.of_nat (length (WarpScheduler.ready_queue_
                                                (ComputeUnit.warp_scheduler_ cu)))).
  { apply queued_batches_upper. intros a w _ Hw.
    apply (consistent_batches_left σ cu a w Hcons Hw). }
  assert (Hn : ComputeUnitRun.remaining_batches σ cu = Z.of_nat n) by (subst n; lia).
  split; [lia|]. split.
  { split.
    - intros Hzero.
      destruct (WarpScheduler.ready_queue_ (ComputeUnit.warp_scheduler_ cu));
        [reflexivity|]. simpl length in Hlower. lia.
    - intros Hnil. rewrite Hnil in Hupper. simpl in Hupper. lia. }
  destruct (run_loop_drains n σ cu Hcons Hrange Hn)
    as (σ' & cu' & Hrun & Hcons' & Hqueue' & Hmap & Hdone & Hc & Hi & Hw & Hidle).
  exists σ', cu'. split; [exact Hrun|].
  split; [exact (reachable_run_iterations n σ σ' cu cu' Hreach Hrun)|].
  split; [exact Hqueue'|].
  split; [intros m; apply run_iterations_drained, Hqueue'|].
  split; [exact Hmap|].
  split; [exact (consistent_drained σ' cu' Hcons' Hqueue')|].
  split; [|auto].
  intros Hpos. specialize (Hdone Hpos). split; [exact Hdone|].
  destruct (removeCompletedBlocks_fields σ' cu') as (_ & _ & Hact & Hst & _).
  cbn zeta in Hact, Hst.
  rewrite (filter_all_completed _ Hdone) in Hact, Hst.
  split; [exact Hact|].
  unfold ComputeUnitRun.isIdle. rewrite Hact, Hst. reflexivity.
Qed.

Lemma run_loop_completes_witness :
  exists σ1 cu1 σ' cu',
    ComputeUnitRun.step (Fixture.empty_world, Fixture.idle_cu)
      (ComputeUnitRun.AssignBlock (ThreadBlock.new 0 40)) = Some (σ1, cu1) /\
    ComputeUnitRun.run_iterations 250 σ1 cu1 = Some (σ', cu') /\
    WarpScheduler.ready_queue_ (ComputeUnit.warp_scheduler_ cu') = [] /\
    ComputeUnit.instructions_executed_ cu' = 2000.
Proof.
  assert (Hreach0 : ComputeUnitRun.reachable Fixture.empty_world Fixture.idle_cu).
  { apply (reachable_new Fixture.controller 0 0). vm_compute. discriminate. }
  destruct (consistent_assign Fixture.empty_world Fixture.idle_cu (ThreadBlock.new 0 40)
              (reachable_consistent _ _ Hreach0) Fixture_block_as_constructed)
    as [[Hacc _]|(_ & cu1 & Hstep & _ & _ & Hqueue & _ & Hi & _)].
  { vm_compute in Hacc. discriminate. }
  pose proof (reachable_step _ _ _ _ (ComputeUnitRun.AssignBlock (ThreadBlock.new 0 40))
                Hreach0 Fixture_block_as_constructed Hstep)
    as Hreach1.
  assert (Hwork : ComputeUnitRun.remaining_batches
                    (ComputeUnit.place (ComputeUnitRun.fresh_base Fixture.empty_world)
                       (ThreadBlock.new 0 40) Fixture.empty_world).2 cu1 = 250).
  { unfold ComputeUnitRun.remaining_batches. rewrite Hqueue. vm_compute. reflexivity. }
  destruct (run_loop_completes _ cu1 Hreach1)
    as (_ & _ & σ' & cu' & Hrun & _ & Hqueue' & _ & _ & _ & _ & _ & Hinstr & _).
  rewrite Hwork in Hrun, Hinstr. rewrite Hi in Hinstr.
  eexists _, cu1, σ', cu'. split; [exact Hstep|].
  split; [exact Hrun|]. split; [exact Hqueue'|]. exact Hinstr.
Defined.

(** While the ready queue is empty, the run loop and the sweeps of the
    distributor keep every block that is not marked completed. *)
Lemma waiting_keeps_block (ops : list ComputeUnitRun.op) :
  forall (σ : ComputeUnit.world) (cu : ComputeUnit.t) (b : ThreadBlock.t WarpPtr),
    Forall ComputeUnitRun.while_waiting ops ->
    WarpScheduler.ready_queue_ (ComputeUnit.warp_scheduler_ cu) = [] ->
    b ∈ ComputeUnit.active_blocks_ cu ->
    ThreadBlock.completed_ b = false ->
    exists σ' cu',
      ComputeUnitRun.run (σ, cu) ops = Some (σ', cu') /\
      WarpScheduler.ready_queue_ (ComputeUnit.warp_scheduler_ cu') = [] /\
      b ∈ ComputeUnit.active_blocks_ cu' /\
      ComputeUnitRun.isIdle cu' = false.
Proof.
  induction ops as [|o ops IH]; intros σ cu b Hops Hqueue Hb Hnot.
  - exists σ, cu. split; [reflexivity|]. split; [exact Hqueue|]. split; [exact Hb|].
    unfold ComputeUnitRun.isIdle.
    destruct (ComputeUnit.active_blocks_ cu); [inversion Hb|reflexivity].
  - apply Forall_cons in Hops as [Ho Hops].
    cbn [ComputeUnitRun.run].
    destruct o as [block| | | |]; try contradiction.
    + change (ComputeUnitRun.step (σ, cu) ComputeUnitRun.RemoveCompletedBlocks)
        with (Some (ComputeUnit.removeCompletedBlocks σ cu)).
      cbn [mbind option_bind].
      destruct (removeCompletedBlocks_fields σ cu) as (_ & _ & Hact & _ & Hws & _).
      cbn zeta in Hact, Hws.
      destruct (ComputeUnit.removeCompletedBlocks σ cu) as [σ1 cu1].
      cbn [fst snd] in Hact, Hws |- *.
      apply IH; [exact Hops| |  |exact Hnot].
      * rewrite Hws. exact Hqueue.
      * rewrite Hact. apply list_elem_of_filter. split; [|exact Hb].
        unfold ThreadBlock.isCompleted. rewrite Hnot. discriminate.
    + change (ComputeUnitRun.step (σ, cu) ComputeUnitRun.RunIteration)
        with (ComputeUnitRun.run_iteration σ cu).
      assert (Hit : ComputeUnitRun.run_iteration σ cu = Some (σ, cu)).
      { unfold ComputeUnitRun.run_iteration, WarpScheduler.hasReadyWarps.
        rewrite Hqueue, andb_false_r. reflexivity. }
      rewrite Hit.
      cbn [mbind option_bind].
      apply IH; assumption.
Qed.

(** X19.  A block without a warp, as [ThreadBlock(id, 0)] builds it, is
    never completed by a compute unit whose ready queue is empty: the unit
    accepts it whenever it holds fewer than 16 blocks, nothing enters the
    ready queue, and whatever passes of the run loop and calls of
    [removeCompletedBlocks] follow, the block stays among the active blocks
    and [isIdle()] stays false, which the distributor waits for. *)
Theorem block_without_warps_never_completes (σ : ComputeUnit.world)
        (cu : ComputeUnit.t) (block : ThreadBlock.t Warp.t)
        (ops : list ComputeUnitRun.op) :
  ComputeUnitRun.reachable σ cu ->
  ThreadBlock.completed_ block = false ->
  ThreadBlock.warps_ block = [] ->
  WarpScheduler.ready_queue_ (ComputeUnit.warp_scheduler_ cu) = [] ->
  ComputeUnit.getActiveBlockCount cu < 16 ->
  Forall ComputeUnitRun.while_waiting ops ->
  exists σ1 cu1 b σ2 cu2,
    ComputeUnitRun.step (σ, cu) (ComputeUnitRun.AssignBlock block) = Some (σ1, cu1) /\
    ComputeUnit.active_blocks_ cu1 = ComputeUnit.active_blocks_ cu ++ [b] /\
    ThreadBlock.getWarps b = [] /\
    ComputeUnitRun.run (σ1, cu1) ops = Some (σ2, cu2) /\
    b ∈ ComputeUnit.active_blocks_ cu2 /\
    ThreadBlock.completed_ b = false /\
    ComputeUnitRun.isIdle cu2 = false.
Proof.
  intros Hreach Hnot Hwarps Hqueue Hroom Hops.
  pose proof (reachable_consistent σ cu Hreach) as Hcons.
  assert (Hblock : ComputeUnitRun.as_constructed block).
  { split; [exact Hnot|]. rewrite Hwarps. split; [simpl; lia|constructor]. }
  destruct (place_spec (ComputeUnitRun.fresh_base σ) block σ) as (Hbw & Hbc & _).
  cbn zeta in Hbw, Hbc. rewrite Hwarps in Hbw. cbn [length seq] in Hbw.
  destruct (ComputeUnitRun.limits _ _ Hcons) as (_ & Hmw & Hmb).
  destruct (ComputeUnitRun.within_limits _ _ Hcons) as [_ Htot].
  pose proof (warp_total_nonneg (ComputeUnit.active_blocks_ cu)) as Hnn.
  destruct (consistent_assign σ cu block Hcons Hblock)
    as [[Hacc _]|(_ & cu1 & Hstep & _ & Hact & Hq1 & _)].
  - exfalso.
    assert (Htrue : ComputeUnit.canAcceptBlock
                      (Some (ComputeUnit.place (ComputeUnitRun.fresh_base σ) block σ).1)
                      cu = true).
    { pose proof Hbw as Hbw'. unfold ThreadBlock.getWarps in Hbw'.
      apply canAcceptBlock_iff; unfold ThreadBlock.getNumWarps; rewrite Hbw'; simpl.
      - lia.
      - unfold ComputeUnit.getActiveBlockCount in Hroom. lia. }
    rewrite Htrue in Hacc. discriminate.
  - rewrite Hqueue, Hbw in Hq1. simpl in Hq1.
    destruct (waiting_keeps_block ops
                (ComputeUnit.place (ComputeUnitRun.fresh_base σ) block σ).2 cu1
                (ComputeUnit.place (ComputeUnitRun.fresh_base σ) block σ).1
                Hops Hq1)
      as (σ2 & cu2 & Hrun & _ & Hin & Hidle).
    + rewrite Hact. apply elem_of_app. right. left.
    + rewrite Hbc. exact Hnot.
    + eexists _, cu1, _, σ2, cu2.
      split; [exact Hstep|]. split; [exact Hact|]. split; [exact Hbw|].
      split; [exact Hrun|]. split; [exact Hin|]. split; [|exact Hidle].
      rewrite Hbc. exact Hnot.
Qed.

Lemma block_without_warps_never_completes_witness :
  exists σ1 cu1 b σ2 cu2,
    ComputeUnitRun.step (Fixture.empty_world, Fixture.idle_cu)
      (ComputeUnitRun.AssignBlock (ThreadBlock.new 0 0)) = Some (σ1, cu1) /\
    ComputeUnit.active_blocks_ cu1 = [b] /\
    ComputeUnitRun.run (σ1, cu1)
      [ComputeUnitRun.RunIteration; ComputeUnitRun.RemoveCompletedBlocks]
    = Some (σ2, cu2) /\
    ComputeUnitRun.isIdle cu2 = false.
Proof.
  destruct (block_without_warps_never_completes
              Fixture.empty_world Fixture.idle_cu (ThreadBlock.new 0 0)
              [ComputeUnitRun.RunIteration; ComputeUnitRun.RemoveCompletedBlocks])
    as (σ1 & cu1 & b & σ2 & cu2 & Hstep & Hact & _ & Hrun & _ & _ & Hidle).
  - apply (reachable_new Fixture.controller 0 0). vm_compute. discriminate.
  - reflexivity.
  - reflexivity.
  - reflexivity.
  - vm_compute. reflexivity.
  - repeat constructor.
  - exists σ1, cu1, b, σ2, cu2. split; [exact Hstep|]. split; [exact Hact|].
    split; [exact Hrun|exact Hidle].
Defined.

(** *** The warp scheduler *)

Lemma WarpQueue_step_invariant (max : Z) (st : WarpQueue.state) (o : WarpQueue.op) :
  WarpQueue.live o ->
  st.1.2 = st.2 ++ WarpScheduler.ready_queue_ st.1.1 ->
  Z.of_nat (length (WarpScheduler.ready_queue_ st.1.1)) <= max ->
  WarpScheduler.max_warps_ st.1.1 = max ->
  exists st',
    WarpQueue.step st o = Some st' /\
    st'.1.2 = st'.2 ++ WarpScheduler.ready_queue_ st'.1.1 /\
    Z.of_nat (length (WarpScheduler.ready_queue_ st'.1.1)) <= max /\
    WarpScheduler.max_warps_ st'.1.1 = max.
Proof.
  destruct st as [[s accepted] fetched]. cbn [fst snd].
  intros Hlive Hfifo Hlen Hmax. destruct o as [heap warp|]; cbn [WarpQueue.step].
  - unfold WarpScheduler.addWarp. rewrite Hmax.
    destruct (Z.geb_spec (Z.of_nat (length (WarpScheduler.ready_queue_ s))) max)
      as [Hfull|Hroom].
    + eexists. split; [reflexivity|]. cbn [fst snd]. auto.
    + destruct warp as [a|].
      * destruct Hlive as [w Hw]. rewrite Hw. cbn [mbind option_bind].
        destruct (ExecutionState_eqb (Warp.getState w) READY).
        -- eexists. split; [reflexivity|]. cbn [fst snd WarpScheduler.push
             WarpScheduler.ready_queue_ WarpScheduler.max_warps_ option_list].
           rewrite Hfifo, length_app, <- app_assoc. simpl length.
           split; [reflexivity|]. split; [lia|exact Hmax].
        -- eexists. split; [reflexivity|]. cbn [fst snd]. auto.
      * eexists. split; [reflexivity|]. cbn [fst snd]. auto.
  - unfold WarpScheduler.getNextWarp.
    destruct (WarpScheduler.ready_queue_ s) as [|a rest] eqn:Hqueue.
    + eexists. split; [reflexivity|]. cbn [fst snd].
      rewrite ?Hqueue. simpl. rewrite !app_nil_r. rewrite app_nil_r in Hfifo. auto.
    + eexists. split; [reflexivity|].
      cbn [fst snd option_list WarpScheduler.ready_queue_ WarpScheduler.max_warps_].
      rewrite Hfifo, <- app_assoc. simpl length in Hlen.
      split; [reflexivity|]. split; [lia|exact Hmax].
Qed.

(** X20.  The warp scheduler is a bounded first-in first-out queue.  From
    [WarpScheduler(max_warps)], whatever calls of [addWarp] (with a null or
    a live pointer) and [getNextWarp] are made, the warps [getNextWarp] has
    returned followed by the warps still queued are exactly the warps
    [addWarp] has accepted, in the order it accepted them, and the queue
    never holds more than [max_warps] warps. *)
Theorem WarpScheduler_fifo (max_warps : Z) (ops : list WarpQueue.op) :
  0 <= max_warps ->
  Forall WarpQueue.live ops ->
  exists s accepted fetched,
    WarpQueue.run (WarpScheduler.new max_warps, [], []) ops
    = Some (s, accepted, fetched) /\
    accepted = fetched ++ WarpScheduler.ready_queue_ s /\
    WarpScheduler.getQueueSize s <= max_warps /\
    WarpScheduler.hasReadyWarps s
    = negb (Nat.eqb (length accepted) (length fetched)).
Proof.
  intros Hmax Hops.
  assert (Hgen : forall st,
             st.1.2 = st.2 ++ WarpScheduler.ready_queue_ st.1.1 ->
             Z.of_nat (length (WarpScheduler.ready_queue_ st.1.1)) <= max_warps ->
             WarpScheduler.max_warps_ st.1.1 = max_warps ->
             exists st',
               WarpQueue.run st ops = Some st' /\
               st'.1.2 = st'.2 ++ WarpScheduler.ready_queue_ st'.1.1 /\
               Z.of_nat (length (WarpScheduler.ready_queue_ st'.1.1)) <= max_warps).
  { induction ops as [|o ops IH]; intros st Hfifo Hlen Hm.
    - exists st. split; [reflexivity|]. auto.
    - apply Forall_cons in Hops as [Ho Hops].
      destruct (WarpQueue_step_invariant max_warps st o Ho Hfifo Hlen Hm)
        as (st1 & Hstep & Hfifo1 & Hlen1 & Hm1).
      cbn [WarpQueue.run]. rewrite Hstep. cbn [mbind option_bind].
      apply (IH Hops st1 Hfifo1 Hlen1 Hm1). }
  destruct (Hgen (WarpScheduler.new max_warps, [], [])) as ([[s accepted] fetched]
                                                            & Hrun & Hfifo & Hlen).
  - reflexivity.
  - simpl. exact Hmax.
  - reflexivity.
  - cbn [fst snd] in Hfifo, Hlen. exists s, accepted, fetched.
    split; [exact Hrun|]. split; [exact Hfifo|]. split; [exact Hlen|].
    unfold WarpScheduler.hasReadyWarps. rewrite Hfifo, length_app.
    destruct (WarpScheduler.ready_queue_ s) as [|a rest]; simpl.
    + rewrite Nat.add_0_r, Nat.eqb_refl. reflexivity.
    + symmetry. apply negb_true_iff, Nat.eqb_neq. lia.
Qed.

Lemma WarpScheduler_fifo_witness :
  exists s accepted fetched,
    WarpQueue.run (WarpScheduler.new 1, [], [])
      [WarpQueue.AddWarp (ComputeUnit.warp_store Fixture.world) (Some 0%nat);
       WarpQueue.AddWarp (ComputeUnit.warp_store Fixture.world) (Some 1%nat);
       WarpQueue.GetNextWarp;
       WarpQueue.AddWarp (ComputeUnit.warp_store Fixture.world) None]
    = Some (s, accepted, fetched) /\
    accepted = fetched ++ WarpScheduler.ready_queue_ s.
Proof.
  destruct (WarpScheduler_fifo 1
              [WarpQueue.AddWarp (ComputeUnit.warp_store Fixture.world) (Some 0%nat);
               WarpQueue.AddWarp (ComputeUnit.warp_store Fixture.world) (Some 1%nat);
               WarpQueue.GetNextWarp;
               WarpQueue.AddWarp (ComputeUnit.warp_store Fixture.world) None])
    as (s & accepted & fetched & Hrun & Hfifo & _).
  - lia.
  - repeat constructor; vm_compute; eexists; reflexivity.
  - exists s, accepted, fetched. split; [exact Hrun|exact Hfifo].
Defined.

(** *** The compute units of the device *)

(** Building a block at fresh addresses disturbs no compute unit. *)
Lemma consistent_place (σ : ComputeUnit.world) (cu : ComputeUnit.t)
      (block : ThreadBlock.t Warp.t) :
  ComputeUnitRun.consistent σ cu ->
  ComputeUnitRun.as_constructed block ->
  ComputeUnitRun.consistent
    (ComputeUnit.place (ComputeUnitRun.fresh_base σ) block σ).2 cu.
Proof.
  intros Hcons (Hnc & Hsize & Hwarps).
  destruct Hcons as [Hqnd Hq Hbnd Hb Hprog Hlim Hwithin Hstate Hlat Hrq].
  destruct (place_spec (ComputeUnitRun.fresh_base σ) block σ)
    as (Hbw & Hbc & Hctrl & Hold & Hinv & Hnew).
  cbn zeta in Hbw, Hbc, Hctrl, Hold, Hinv, Hnew.
  rewrite Forall_forall in Hwarps.
  assert (Hbelow : forall a, is_Some (ComputeUnit.warp_store σ !! a) ->
                             (a < ComputeUnitRun.fresh_base σ)%nat)
    by (intros a Ha; apply fresh_base_above, Ha).
  split.
  - exact Hqnd.
  - intros a Ha. destruct (Hq a Ha) as (Hin & w & Hw & Hst).
    split; [exact Hin|]. exists w. rewrite Hold by (apply Hbelow; eauto). auto.
  - exact Hbnd.
  - intros b a Hbin Ha. destruct (Hb b a Hbin Ha) as (w & Hw & Hdone).
    exists w. rewrite Hold by (apply Hbelow; eauto). auto.
  - intros a w Hw. destruct (Hinv a w Hw) as [Hw0|[_ Hin]].
    + exact (Hprog a w Hw0).
    + destruct (Hwarps w Hin) as (Hst & Hinstr & Hth).
      exists 0. split; [lia|]. split; [lia|]. split; [exact Hst|exact Hth].
  - exact Hlim.
  - exact Hwithin.
  - exact Hstate.
  - rewrite Hctrl. exact Hlat.
  - intros b a w Hbin Ha Hw Hready.
    destruct (Hb b a Hbin Ha) as (w0 & Hw0 & _).
    rewrite Hold in Hw by (apply Hbelow; eauto).
    exact (Hrq b a w Hbin Ha Hw Hready).
Qed.

Lemma fold_wrap64_sum {A} (f : A -> Z) (l : list A) (total : Z) :
  fold_left (fun total x => wrap64 (total + f x)) l (wrap64 total)
  = wrap64 (total + foldr Z.add 0 (map f l)).
Proof.
  revert total. induction l as [|x l IH]; intros total; simpl.
  - rewrite Z.add_0_r. reflexivity.
  - rewrite wrap64_add_l, IH. f_equal. lia.
Qed.

Lemma sum_insert {A} (f : A -> Z) (l : list A) (i : nat) (x y : A) :
  l !! i = Some x ->
  foldr Z.add 0 (map f (<[i := y]> l)) = foldr Z.add 0 (map f l) + f y - f x.
Proof.
  revert i. induction l as [|z l IH]; intros i Hi; [discriminate|].
  destruct i as [|i]; simpl in *.
  - injection Hi as ->. lia.
  - rewrite (IH i Hi). lia.
Qed.

Lemma first_accepting_spec (b : ThreadBlock.t WarpPtr) (cus : list ComputeUnit.t) :
  match GPUDevice.first_accepting b cus with
  | None => Forall (fun cu => ComputeUnit.canAcceptBlock (Some b) cu = false) cus
  | Some i =>
      exists cu, cus !! i = Some cu /\
                 ComputeUnit.canAcceptBlock (Some b) cu = true /\
                 forall j cu_j, (j < i)%nat -> cus !! j = Some cu_j ->
                                ComputeUnit.canAcceptBlock (Some b) cu_j = false
  end.
Proof.
  induction cus as [|cu cus IH]; cbn [GPUDevice.first_accepting]; [constructor|].
  destruct (ComputeUnit.canAcceptBlock (Some b) cu) eqn:Hacc.
  - exists cu. split; [reflexivity|]. split; [exact Hacc|]. intros j cu_j Hj. lia.
  - destruct (GPUDevice.first_accepting b cus) as [i|];
      cbn [fmap option_fmap option_map].
    + destruct IH as (cu_i & Hi & Hacc_i & Hbefore).
      exists cu_i. split; [exact Hi|]. split; [exact Hacc_i|].
      intros [|j] cu_j Hj Hlook; cbn [lookup list_lookup] in Hlook.
      * injection Hlook as <-. exact Hacc.
      * apply (Hbefore j cu_j); [lia|exact Hlook].
    + constructor; assumption.
Qed.

Lemma first_fit_eq (σ : ComputeUnit.world) (b : ThreadBlock.t WarpPtr)
      (cus : list ComputeUnit.t) :
  match GPUDevice.first_accepting b cus with
  | None => GPUDevice.first_fit σ b cus = Some (false, cus)
  | Some i =>
      forall cu, cus !! i = Some cu ->
                 GPUDevice.first_fit σ b cus
                 = match ComputeUnit.assignBlock σ (Some b) cu with
                   | None => None
                   | Some (_, cu') => Some (true, <[i := cu']> cus)
                   end
  end.
Proof.
  induction cus as [|cu cus IH];
    cbn [GPUDevice.first_accepting GPUDevice.first_fit]; [reflexivity|].
  destruct (ComputeUnit.canAcceptBlock (Some b) cu) eqn:Hacc.
  - intros cu0 Hcu0. injection Hcu0 as <-.
    destruct (ComputeUnit.assignBlock σ (Some b) cu) as [[flag cu']|]; reflexivity.
  - destruct (GPUDevice.first_accepting b cus) as [i|];
      cbn [fmap option_fmap option_map].
    + intros cu0 Hcu0. cbn [lookup list_lookup] in Hcu0. rewrite (IH cu0 Hcu0).
      destruct (ComputeUnit.assignBlock σ (Some b) cu0) as [[flag cu']|]; reflexivity.
    + rewrite IH. reflexivity.
Qed.

(** X21.  The distributor places a block first fit.  With every compute
    unit of the device in a consistent state, a block as the constructors
    leave it goes to the first unit, in the order of the device, whose
    [canAcceptBlock] holds: that unit appends the block to its active
    blocks and all its warps to its ready queue, the other units are not
    touched, and every unit stays consistent, so that the totals of the
    device grow by one block and by the warps of the block.  When no unit
    can accept the block, no unit changes and [assigned] stays false. *)
Theorem distributor_first_fit (σ : ComputeUnit.world) (cus : list ComputeUnit.t)
        (block : ThreadBlock.t Warp.t) :
  Forall (ComputeUnitRun.consistent σ) cus ->
  ComputeUnitRun.as_constructed block ->
  let b := (ComputeUnit.place (ComputeUnitRun.fresh_base σ) block σ).1 in
  let σ' := (ComputeUnit.place (ComputeUnitRun.fresh_base σ) block σ).2 in
  match GPUDevice.first_accepting b cus with
  | None =>
      Forall (fun cu => ComputeUnit.canAcceptBlock (Some b) cu = false) cus /\
      GPUDevice.first_fit σ' b cus = Some (false, cus) /\
      Forall (ComputeUnitRun.consistent σ') cus
  | Some i =>
      exists cu cu',
        cus !! i = Some cu /\
        ComputeUnit.canAcceptBlock (Some b) cu = true /\
        (forall j cu_j, (j < i)%nat -> cus !! j = Some cu_j ->
                        ComputeUnit.canAcceptBlock (Some b) cu_j = false) /\
        GPUDevice.first_fit σ' b cus = Some (true, <[i := cu']> cus) /\
        ComputeUnit.active_blocks_ cu' = ComputeUnit.active_blocks_ cu ++ [b] /\
        WarpScheduler.ready_queue_ (ComputeUnit.warp_scheduler_ cu')
        = WarpScheduler.ready_queue_ (ComputeUnit.warp_scheduler_ cu)
            ++ ThreadBlock.getWarps b /\
        Forall (ComputeUnitRun.consistent σ') (<[i := cu']> cus) /\
        GPUDevice.getTotalActiveBlocks (<[i := cu']> cus)
        = wrap64 (GPUDevice.getTotalActiveBlocks cus + 1) /\
        GPUDevice.getTotalActiveWarps (<[i := cu']> cus)
        = wrap64 (GPUDevice.getTotalActiveWarps cus + ThreadBlock.getNumWarps b)
  end.
Proof.
  intros Hcons Hblock b σ'.
  assert (Hcons' : Forall (ComputeUnitRun.consistent σ') cus).
  { eapply Forall_impl; [exact Hcons|]. intros cu Hcu.
    exact (consistent_place σ cu block Hcu Hblock). }
  pose proof (first_accepting_spec b cus) as Hspec.
  pose proof (first_fit_eq σ' b cus) as Hfit.
  destruct (GPUDevice.first_accepting b cus) as [i|].
  2:{ split; [exact Hspec|]. split; [exact Hfit|exact Hcons']. }
  destruct Hspec as (cu & Hi & Hacc & Hbefore).
  specialize (Hfit cu Hi).
  assert (Hcu : ComputeUnitRun.consistent σ cu).
  { rewrite Forall_forall in Hcons. apply Hcons.
    eapply list_elem_of_lookup_2, Hi. }
  destruct (consistent_assign σ cu block Hcu Hblock)
    as [[Hrefuse _]|(_ & cu' & Hstep & Hc' & Hact & Hqueue & _)].
  { fold b in Hrefuse. rewrite Hacc in Hrefuse. discriminate. }
  fold b σ' in Hstep, Hc', Hact, Hqueue.
  unfold ComputeUnitRun.step in Hstep.
  replace (ComputeUnit.place (ComputeUnitRun.fresh_base σ) block σ) with (b, σ')
    in Hstep by (subst b σ'; destruct (ComputeUnit.place _ _ _); reflexivity).
  destruct (ComputeUnit.assignBlock σ' (Some b) cu) as [[flag cu'']|] eqn:Hassign;
    simpl in Hstep; [|discriminate].
  assert (Hsame : cu'' = cu') by congruence. subst cu''.
  exists cu, cu'. split; [exact Hi|]. split; [exact Hacc|]. split; [exact Hbefore|].
  split; [exact Hfit|]. split; [exact Hact|]. split; [exact Hqueue|].
  split; [apply Forall_insert; assumption|].
  destruct (ComputeUnitRun.within_limits _ _ Hcu) as [_ Htot].
  destruct (ComputeUnitRun.within_limits _ _ Hc') as [_ Htot'].
  pose proof (warp_total_nonneg (ComputeUnit.active_blocks_ cu)) as Hnn.
  pose proof (warp_total_nonneg (ComputeUnit.active_blocks_ cu')) as Hnn'.
  split.
  - unfold GPUDevice.getTotalActiveBlocks.
    change 0 with (wrap64 0). rewrite !fold_wrap64_sum.
    rewrite (sum_insert _ cus i cu cu' Hi).
    unfold ComputeUnit.getActiveBlockCount. rewrite Hact, length_app. simpl length.
    rewrite wrap64_add_l. f_equal. lia.
  - unfold GPUDevice.getTotalActiveWarps.
    change 0 with (wrap64 0). rewrite !fold_wrap64_sum.
    rewrite (sum_insert _ cus i cu cu' Hi).
    rewrite (getActiveWarpCount_eq cu), (getActiveWarpCount_eq cu').
    rewrite (wrap64_small (ComputeUnit.warp_total (ComputeUnit.active_blocks_ cu)))
      by lia.
    rewrite (wrap64_small (ComputeUnit.warp_total (ComputeUnit.active_blocks_ cu')))
      by lia.
    rewrite wrap64_add_l. f_equal.
    rewrite Hact. unfold ComputeUnit.warp_total.
    rewrite map_app, foldr_app. simpl.
    generalize (ThreadBlock.getNumWarps b). intros n.
    generalize (map ThreadBlock.getNumWarps (ComputeUnit.active_blocks_ cu)).
    intros l. clear.
    assert (Hl : forall acc, foldr Z.add acc l = foldr Z.add 0 l + acc).
    { induction l as [|x l IH]; intros acc; simpl; [lia|]. rewrite IH. lia. }
    rewrite Hl. lia.
Qed.

Lemma distributor_first_fit_witness :
  exists cu',
    GPUDevice.first_fit
      (ComputeUnit.place 1 (ThreadBlock.new 0 40) Fixture.empty_world).2
      (ComputeUnit.place 1 (ThreadBlock.new 0 40) Fixture.empty_world).1
      [Fixture.idle_cu; ComputeUnit.new 1 0]
    = Some (true, [cu'; ComputeUnit.new 1 0]) /\
    ComputeUnit.active_blocks_ cu'
    = [(ComputeUnit.place 1 (ThreadBlock.new 0 40) Fixture.empty_world).1].
Proof.
  assert (Hlat : 0 <= Memory.getLatency (Memory.getGlobalMemory Fixture.controller) / 10)
    by (vm_compute; discriminate).
  pose proof (distributor_first_fit Fixture.empty_world
                [Fixture.idle_cu; ComputeUnit.new 1 0] (ThreadBlock.new 0 40)
                (Forall_cons_2 _ _ _ (consistent_new Fixture.controller 0 0 Hlat)
                   (Forall_cons_2 _ _ _ (consistent_new Fixture.controller 1 0 Hlat)
                      (Forall_nil_2 _)))
                Fixture_block_as_constructed) as H.
  cbn zeta in H.
  assert (Hfirst : GPUDevice.first_accepting
                     (ComputeUnit.place (ComputeUnitRun.fresh_base Fixture.empty_world)
                        (ThreadBlock.new 0 40) Fixture.empty_world).1
                     [Fixture.idle_cu; ComputeUnit.new 1 0] = Some 0%nat)
    by (vm_compute; reflexivity).
  rewrite Hfirst in H.
  destruct H as (cu & cu' & Hcu & _ & _ & Hfit & Hact & _).
  injection Hcu as <-.
  exists cu'. split; [exact Hfit|exact Hact].
Defined.

Lemma removeCompletedBlocks_unit (σ : ComputeUnit.world) (cu : ComputeUnit.t) :
  let kept := filter (fun b => ThreadBlock.isCompleted b <> true)
                     (ComputeUnit.active_blocks_ cu) in
  (ComputeUnit.removeCompletedBlocks σ cu).2
  = match kept with
    | [] => ComputeUnit.set_state IDLE (ComputeUnit.set_active_blocks [] cu)
    | _ => ComputeUnit.set_active_blocks kept cu
    end.
Proof.
  cbn zeta. unfold ComputeUnit.removeCompletedBlocks. cbn zeta. cbn [snd].
  destruct (filter _ _); reflexivity.
Qed.

Lemma filter_not_completed_nil {W} (blocks : list (ThreadBlock.t W)) :
  filter (fun b => ThreadBlock.isCompleted b <> true) blocks = [] <->
  forallb ThreadBlock.isCompleted blocks = true.
Proof.
  induction blocks as [|b blocks IH]; simpl; [tauto|].
  rewrite filter_cons. destruct (decide (ThreadBlock.isCompleted b <> true)) as [Hn|Hc].
  - destruct (ThreadBlock.isCompleted b); [contradiction|]. simpl.
    split; discriminate.
  - destruct (ThreadBlock.isCompleted b); [|exfalso; apply Hc; discriminate].
    simpl. exact IH.
Qed.

Lemma isIdle_removeCompletedBlocks (σ : ComputeUnit.world) (cu : ComputeUnit.t) :
  ComputeUnitRun.isIdle (ComputeUnit.removeCompletedBlocks σ cu).2
  = forallb ThreadBlock.isCompleted (ComputeUnit.active_blocks_ cu).
Proof.
  rewrite removeCompletedBlocks_unit. cbn zeta.
  pose proof (filter_not_completed_nil (ComputeUnit.active_blocks_ cu)) as Hnil.
  destruct (filter _ (ComputeUnit.active_blocks_ cu)) as [|b kept].
  - symmetry. rewrite (proj1 Hnil eq_refl). reflexivity.
  - unfold ComputeUnitRun.isIdle. cu_fields. simpl.
    destruct (forallb _ _); [|reflexivity].
    destruct Hnil as [_ Hnil]. discriminate (Hnil eq_refl).
Qed.

(** X22.  The loop in which the distributor waits for the compute units:
    one pass calls [removeCompletedBlocks] on every unit, which keeps, in
    order, the blocks that are not marked completed and changes nothing
    else of the unit but its state, and [all_idle] comes out true exactly
    when every block of every unit was marked completed.  A second pass
    right after the first changes no unit. *)
Theorem wait_loop_sweep (σ : ComputeUnit.world) (cus : list ComputeUnit.t) :
  let r := GPUDevice.sweep σ cus in
  r.1.2 = map (fun cu => (ComputeUnit.removeCompletedBlocks σ cu).2) cus /\
  Forall2 (fun cu cu' =>
             ComputeUnit.active_blocks_ cu'
             = filter (fun b => ThreadBlock.isCompleted b <> true)
                      (ComputeUnit.active_blocks_ cu) /\
             ComputeUnit.warp_scheduler_ cu' = ComputeUnit.warp_scheduler_ cu /\
             ComputeUnit.cycles_executed_ cu' = ComputeUnit.cycles_executed_ cu /\
             ComputeUnit.instructions_executed_ cu'
             = ComputeUnit.instructions_executed_ cu /\
             ComputeUnit.idle_cycles_ cu' = ComputeUnit.idle_cycles_ cu /\
             ComputeUnitRun.isIdle cu'
             = forallb ThreadBlock.isCompleted (ComputeUnit.active_blocks_ cu))
          cus r.1.2 /\
  r.2 = forallb (fun cu => forallb ThreadBlock.isCompleted (ComputeUnit.active_blocks_ cu))
                cus /\
  (GPUDevice.sweep r.1.1 r.1.2).1.2 = r.1.2 /\
  ComputeUnit.memory_controller_ r.1.1 = ComputeUnit.memory_controller_ σ.
Proof.
  cbn zeta.
  assert (Hunits : forall σ0,
             (GPUDevice.sweep σ0 cus).1.2
             = map (fun cu => (ComputeUnit.removeCompletedBlocks σ cu).2) cus /\
             (GPUDevice.sweep σ0 cus).2
             = forallb (fun cu => forallb ThreadBlock.isCompleted
                                    (ComputeUnit.active_blocks_ cu)) cus /\
             ComputeUnit.memory_controller_ (GPUDevice.sweep σ0 cus).1.1
             = ComputeUnit.memory_controller_ σ0).
  { induction cus as [|cu cus IH]; intros σ0; cbn [GPUDevice.sweep map forallb].
    - auto.
    - pose proof (isIdle_removeCompletedBlocks σ0 cu) as Hidle.
      pose proof (removeCompletedBlocks_unit σ0 cu) as Hu0.
      pose proof (removeCompletedBlocks_unit σ cu) as Hu.
      destruct (removeCompletedBlocks_fields σ0 cu) as (_ & Hctrl & _).
      cbn zeta in Hu0, Hu, Hctrl.
      destruct (ComputeUnit.removeCompletedBlocks σ0 cu) as [σ1 cu'].
      cbn [fst snd] in Hidle, Hu0, Hctrl.
      destruct (IH σ1) as (IH1 & IH2 & IH3).
      destruct (GPUDevice.sweep σ1 cus) as [[σ2 rest'] all_idle].
      cbn [fst snd] in IH1, IH2, IH3 |- *.
      rewrite IH1, IH2, Hidle, Hu, IH3, Hctrl, Hu0. auto. }
  destruct (Hunits σ) as (H1 & H2 & H3).
  split; [exact H1|]. split.
  { rewrite H1. clear. induction cus as [|cu cus IH]; cbn [map]; constructor.
    - destruct (removeCompletedBlocks_fields σ cu)
        as (_ & _ & Hact & _ & Hws & _ & _ & _ & Hc & Hi & _ & Hidle & _).
      cbn zeta in Hact, Hws, Hc, Hi, Hidle.
      pose proof (isIdle_removeCompletedBlocks σ cu). auto 10.
    - exact IH. }
  split; [exact H2|]. split; [|exact H3].
  rewrite H1. generalize (GPUDevice.sweep σ cus).1.1. intros σ0. clear.
  revert σ0. induction cus as [|cu cus IH]; intros σ0; cbn [map GPUDevice.sweep];
    [reflexivity|].
  pose proof (removeCompletedBlocks_unit σ0 (ComputeUnit.removeCompletedBlocks σ cu).2)
    as Hu0.
  pose proof (removeCompletedBlocks_unit σ cu) as Hu.
  cbn zeta in Hu0, Hu.
  destruct (ComputeUnit.removeCompletedBlocks σ0 _) as [σ1 cu''].
  cbn [snd] in Hu0. specialize (IH σ1).
  destruct (GPUDevice.sweep σ1 _) as [[σ2 rest'] all_idle].
  cbn [fst snd] in IH |- *. rewrite IH. f_equal.
  rewrite Hu0, Hu.
  destruct (filter (fun b => ThreadBlock.isCompleted b <> true)
                   (ComputeUnit.active_blocks_ cu)) as [|b kept] eqn:Hkept.
  - destruct cu; reflexivity.
  - assert (Hagain : filter (fun b0 => ThreadBlock.isCompleted b0 <> true) (b :: kept)
                     = b :: kept).
    { rewrite <- Hkept. apply list_filter_filter_l. auto. }
    cu_fields. rewrite Hagain. destruct cu; reflexivity.
Qed.

(** *** The performance analyzer *)

Lemma fold_left_triple {A B C D} (f : A -> D -> A) (g : B -> D -> B) (h : C -> D -> C)
      (l : list D) (a : A) (b : B) (c : C) :
  fold_left (fun acc x => let '(a, b, c) := acc in (f a x, g b x, h c x)) l (a, b, c)
  = (fold_left f l a, fold_left g l b, fold_left h l c).
Proof.
  revert a b c. induction l as [|x l IH]; intros a b c; simpl; [reflexivity|].
  apply IH.
Qed.

Lemma fold_wrap64_sum0 {A} (f : A -> Z) (l : list A) :
  fold_left (fun total x => wrap64 (total + f x)) l 0
  = wrap64 (foldr Z.add 0 (map f l)).
Proof. exact (fold_wrap64_sum f l 0). Qed.

Lemma recorded_names_snoc (ops : list Analyzer.op) (o : Analyzer.op) :
  Analyzer.recorded_names (ops ++ [o])
  = match o with
    | Analyzer.RecordWorkloadMetrics (Some w) (Some _) =>
        Analyzer.recorded_names ops ++ [Workload.name_ w]
    | Analyzer.Reset => []
    | _ => Analyzer.recorded_names ops
    end.
Proof. unfold Analyzer.recorded_names. rewrite fold_left_app. reflexivity. Qed.

Lemma recordWorkloadMetrics_appends (ticks_per_microsecond : Z) (w : Workload.t)
      (d : Metrics.Device) (a : Analyzer.t) :
  exists m,
    Analyzer.recordWorkloadMetrics ticks_per_microsecond (Some w) (Some d) a
    = {| Analyzer.workload_metrics_ := Analyzer.workload_metrics_ a ++ [m];
         Analyzer.gpu_metrics_ := Analyzer.gpu_metrics_ a;
         Analyzer.sim_start_time_ := Analyzer.sim_start_time_ a;
         Analyzer.sim_end_time_ := Analyzer.sim_end_time_ a |} /\
    Metrics.workload_name m = Workload.name_ w /\
    Metrics.type m = Workload.type_ w /\
    Metrics.execution_time_ms m = Workload.getExecutionTime ticks_per_microsecond w /\
    Metrics.total_threads m = KernelConfig.getTotalThreads (Workload.getConfig w) /\
    Metrics.total_blocks m = KernelConfig.getTotalBlocks (Workload.getConfig w) /\
    Metrics.instructions_executed m
    = wrap64 (foldr Z.add 0 (map ComputeUnit.getInstructionsExecuted
                                 (Metrics.compute_units_ d))) /\
    Metrics.cycles_executed m
    = wrap64 (foldr Z.add 0 (map ComputeUnit.getCyclesExecuted
                                 (Metrics.compute_units_ d))) /\
    Metrics.memory_operations m
    = Memory.getTotalMemoryOps (Metrics.memory_controller_ d) /\
    Metrics.average_cu_utilization m
    = Double.div
        (fold_left (fun total cu => Double.add total (ComputeUnit.getUtilization cu))
                   (Metrics.compute_units_ d) Double.zero)
        (Double.of_integer (Metrics.getNumComputeUnits d)).
Proof.
  unfold Analyzer.recordWorkloadMetrics, Metrics.recordWorkloadMetrics.
  rewrite (fold_left_triple
             (fun i cu => wrap64 (i + ComputeUnit.getInstructionsExecuted cu))
             (fun c cu => wrap64 (c + ComputeUnit.getCyclesExecuted cu))
             (fun u cu => Double.add u (ComputeUnit.getUtilization cu))).
  cbn [Metrics.workload_metrics_].
  eexists. split; [reflexivity|].
  cbn [Metrics.workload_name Metrics.type Metrics.execution_time_ms
       Metrics.total_threads Metrics.total_blocks Metrics.instructions_executed
       Metrics.cycles_executed Metrics.memory_operations
       Metrics.average_cu_utilization].
  rewrite !fold_wrap64_sum0. auto 10.
Qed.

Lemma recordGPUMetrics_fields (d : Metrics.Device) (a : Analyzer.t) :
  let a' := Analyzer.recordGPUMetrics (Some d) a in
  Analyzer.workload_metrics_ a' = Analyzer.workload_metrics_ a /\
  Analyzer.sim_start_time_ a' = Analyzer.sim_start_time_ a /\
  Analyzer.total_workloads_executed (Analyzer.gpu_metrics_ a')
  = Z.of_nat (length (Analyzer.workload_metrics_ a)) /\
  Analyzer.total_instructions (Analyzer.gpu_metrics_ a')
  = wrap64 (foldr Z.add 0 (map ComputeUnit.getInstructionsExecuted
                               (Metrics.compute_units_ d))) /\
  Analyzer.total_cycles (Analyzer.gpu_metrics_ a')
  = wrap64 (foldr Z.add 0 (map ComputeUnit.getCyclesExecuted
                               (Metrics.compute_units_ d))) /\
  Analyzer.total_memory_ops (Analyzer.gpu_metrics_ a')
  = Memory.getTotalMemoryOps (Metrics.memory_controller_ d) /\
  Analyzer.average_utilization (Analyzer.gpu_metrics_ a')
  = Double.div
      (fold_left (fun total cu => Double.add total (ComputeUnit.getUtilization cu))
                 (Metrics.compute_units_ d) Double.zero)
      (Double.of_integer (Metrics.getNumComputeUnits d)) /\
  Analyzer.total_execution_time_ms (Analyzer.gpu_metrics_ a')
  = Analyzer.total_execution_time_ms (Analyzer.gpu_metrics_ a).
Proof.
  cbn zeta. unfold Analyzer.recordGPUMetrics.
  rewrite (fold_left_triple
             (fun c cu => wrap64 (c + ComputeUnit.getCyclesExecuted cu))
             (fun i cu => wrap64 (i + ComputeUnit.getInstructionsExecuted cu))
             (fun u cu => Double.add u (ComputeUnit.getUtilization cu))).
  cbn [Analyzer.workload_metrics_ Analyzer.sim_start_time_ Analyzer.gpu_metrics_
       Analyzer.total_workloads_executed Analyzer.total_instructions
       Analyzer.total_cycles Analyzer.total_memory_ops Analyzer.average_utilization
       Analyzer.total_execution_time_ms].
  rewrite !fold_wrap64_sum0. auto 10.
Qed.

Lemma analyzer_run_invariant (ticks_per_microsecond : Z) (ops : list Analyzer.op) :
  let a := Analyzer.run ticks_per_microsecond Analyzer.new ops in
  map Metrics.workload_name (Analyzer.workload_metrics_ a)
  = Analyzer.recorded_names ops /\
  Analyzer.sim_start_time_ a = (Analyzer.simulation_clock ops).1 /\
  Analyzer.total_execution_time_ms (Analyzer.gpu_metrics_ a)
  = match Analyzer.simulated_ticks ops with
    | None => Double.zero
    | Some ticks => Double.of_integer (Z.quot ticks (ticks_per_microsecond * 1000))
    end.
Proof.
  cbn zeta. induction ops as [|o ops IH] using rev_ind.
  - split; [reflexivity|]. split; reflexivity.
  - destruct IH as (Hnames & Hstart & Htime).
    unfold Analyzer.run, Analyzer.simulated_ticks, Analyzer.simulation_clock in *.
    rewrite recorded_names_snoc, !fold_left_app.
    cbn [fold_left].
    set (a := fold_left (Analyzer.step ticks_per_microsecond) ops Analyzer.new) in *.
    set (st := fold_left _ ops (0, None)) in *.
    destruct o as [workload device|device|now|now|]; cbn [Analyzer.step].
    + destruct workload as [w|], device as [d|];
        try (split; [exact Hnames|]; split; [exact Hstart|exact Htime]).
      destruct (recordWorkloadMetrics_appends ticks_per_microsecond w d a)
        as (m & -> & Hname & _).
      cbn [Analyzer.workload_metrics_ Analyzer.sim_start_time_ Analyzer.gpu_metrics_].
      rewrite map_app, Hnames. cbn [map]. rewrite Hname.
      split; [reflexivity|]. split; [exact Hstart|exact Htime].
    + destruct device as [d|]; [|split; [exact Hnames|]; split; [exact Hstart|exact Htime]].
      destruct (recordGPUMetrics_fields d a) as (Hwm & Hs & _ & _ & _ & _ & _ & Ht).
      cbn zeta in Hwm, Hs, Ht. rewrite Hwm, Hs, Ht.
      split; [exact Hnames|]. split; [exact Hstart|exact Htime].
    + cbn [Analyzer.startSimulation Analyzer.workload_metrics_ Analyzer.sim_start_time_
           Analyzer.gpu_metrics_ fst snd].
      split; [exact Hnames|]. split; [reflexivity|exact Htime].
    + cbn [Analyzer.endSimulation Analyzer.workload_metrics_ Analyzer.sim_start_time_
           Analyzer.sim_end_time_ Analyzer.gpu_metrics_ Analyzer.total_execution_time_ms
           Analyzer.getTotalSimulationTime fst snd].
      split; [exact Hnames|]. split; [exact Hstart|]. rewrite Hstart. reflexivity.
    + cbn [Analyzer.reset Analyzer.workload_metrics_ Analyzer.sim_start_time_
           Analyzer.gpu_metrics_ fst snd].
      split; [reflexivity|]. split; [exact Hstart|reflexivity].
Qed.

(** X23.  What the analyzer holds after any sequence of its recording
    calls.  It keeps one record for each call of [recordWorkloadMetrics]
    since the last [reset] in which neither pointer was null, in the order
    of the calls, under the name of the workload; its total execution time
    is zero until [endSimulation], then the whole milliseconds between the
    last [startSimulation] and the last [endSimulation].  A following
    [recordGPUMetrics] counts these records as the workloads executed and
    stores the sums, modulo 2^64, of the cycle and instruction counters of
    the compute units; a following [recordWorkloadMetrics] stores the very
    same sums, memory operations and average utilisation in the record of
    the workload, whatever the workload: a record carries the totals of the
    device, not the share of its workload. *)
Theorem analyzer_records (ticks_per_microsecond : Z) (ops : list Analyzer.op)
        (d : Metrics.Device) (w : Workload.t) :
  let a := Analyzer.run ticks_per_microsecond Analyzer.new ops in
  let g := Analyzer.getGPUMetrics (Analyzer.recordGPUMetrics (Some d) a) in
  let a' := Analyzer.recordWorkloadMetrics ticks_per_microsecond (Some w) (Some d) a in
  map Metrics.workload_name (Analyzer.getWorkloadMetrics a)
  = Analyzer.recorded_names ops /\
  Analyzer.total_execution_time_ms (Analyzer.getGPUMetrics a)
  = match Analyzer.simulated_ticks ops with
    | None => Double.zero
    | Some ticks => Double.of_integer (Z.quot ticks (ticks_per_microsecond * 1000))
    end /\
  Analyzer.total_workloads_executed g
  = Z.of_nat (length (Analyzer.recorded_names ops)) /\
  Analyzer.total_cycles g
  = wrap64 (foldr Z.add 0 (map ComputeUnit.getCyclesExecuted
                               (Metrics.compute_units_ d))) /\
  Analyzer.total_instructions g
  = wrap64 (foldr Z.add 0 (map ComputeUnit.getInstructionsExecuted
                               (Metrics.compute_units_ d))) /\
  Analyzer.total_execution_time_ms g
  = Analyzer.total_execution_time_ms (Analyzer.getGPUMetrics a) /\
  exists m,
    Analyzer.getWorkloadMetrics a' = Analyzer.getWorkloadMetrics a ++ [m] /\
    Analyzer.getGPUMetrics a' = Analyzer.getGPUMetrics a /\
    Metrics.workload_name m = Workload.name_ w /\
    Metrics.instructions_executed m = Analyzer.total_instructions g /\
    Metrics.cycles_executed m = Analyzer.total_cycles g /\
    Metrics.memory_operations m = Analyzer.total_memory_ops g /\
    Metrics.average_cu_utilization m = Analyzer.average_utilization g.
Proof.
  cbn zeta. unfold Analyzer.getWorkloadMetrics, Analyzer.getGPUMetrics.
  destruct (analyzer_run_invariant ticks_per_microsecond ops) as (Hnames & _ & Htime).
  cbn zeta in Hnames, Htime.
  set (a := Analyzer.run ticks_per_microsecond Analyzer.new ops) in *.
  destruct (recordGPUMetrics_fields d a)
    as (_ & _ & Hcount & Hinstr & Hcycles & Hops & Hutil & Ht).
  cbn zeta in Hcount, Hinstr, Hcycles, Hops, Hutil, Ht.
  destruct (recordWorkloadMetrics_appends ticks_per_microsecond w d a)
    as (m & Heq & Hname & _ & _ & _ & _ & Hmi & Hmc & Hmo & Hmu).
  split; [exact Hnames|]. split; [exact Htime|].
  split; [rewrite Hcount, <- Hnames, length_map; reflexivity|].
  split; [exact Hcycles|]. split; [exact Hinstr|]. split; [exact Ht|].
  exists m. rewrite Heq, Hinstr, Hcycles, Hops, Hutil.
  cbn [Analyzer.workload_metrics_ Analyzer.gpu_metrics_]. auto 10.
Qed.

(** X24.  The average utilisation the analyzer stores is the quotient
    [GPUDevice::getAverageUtilization] returns as long as the device has a
    compute unit.  For a device without compute unit the analyzer divides
    zero by zero: [recordGPUMetrics] and [recordWorkloadMetrics] store a
    NaN, where [getAverageUtilization], which tests for the empty list,
    returns zero. *)
Theorem average_utilization_of_device (ticks_per_microsecond : Z)
        (d : Metrics.Device) (w : Workload.t) (a : Analyzer.t) :
  let g := Analyzer.getGPUMetrics (Analyzer.recordGPUMetrics (Some d) a) in
  let a' := Analyzer.recordWorkloadMetrics ticks_per_microsecond (Some w) (Some d) a in
  (Metrics.compute_units_ d <> [] ->
   Analyzer.average_utilization g
   = GPUDevice.getAverageUtilization (Metrics.compute_units_ d) /\
   Metrics.average_cu_utilization <$> last (Analyzer.getWorkloadMetrics a')
   = Some (GPUDevice.getAverageUtilization (Metrics.compute_units_ d))) /\
  (Metrics.compute_units_ d = [] ->
   Analyzer.average_utilization g = S754_nan /\
   Metrics.average_cu_utilization <$> last (Analyzer.getWorkloadMetrics a')
   = Some S754_nan /\
   GPUDevice.getAverageUtilization (Metrics.compute_units_ d) = Double.zero).
Proof.
  cbn zeta. unfold Analyzer.getGPUMetrics, Analyzer.getWorkloadMetrics.
  destruct (recordGPUMetrics_fields d a) as (_ & _ & _ & _ & _ & _ & Hutil & _).
  destruct (recordWorkloadMetrics_appends ticks_per_microsecond w d a)
    as (m & Heq & _ & _ & _ & _ & _ & _ & _ & _ & Hmu).
  cbn zeta in Hutil. rewrite Heq, Hutil.
  cbn [Analyzer.workload_metrics_]. rewrite last_snoc. cbn [fmap option_fmap option_map].
  rewrite Hmu. unfold Metrics.getNumComputeUnits.
  destruct (Metrics.compute_units_ d) as [|cu cus] eqn:Hcus.
  - split; [intros Hne; contradiction|]. intros _.
    split; [reflexivity|]. split; reflexivity.
  - split; [|discriminate]. intros _. split; reflexivity.
Qed.

Lemma average_utilization_of_device_witness :
  Analyzer.average_utilization
    (Analyzer.getGPUMetrics
       (Analyzer.recordGPUMetrics (Some (Metrics.mkDevice [] Fixture.controller))
                                  Analyzer.new))
  = S754_nan.
Proof.
  apply (proj2 (average_utilization_of_device 1000
                  (Metrics.mkDevice [] Fixture.controller)
                  (Workload.createVectorAdd 1024) Analyzer.new)).
  reflexivity.
Defined.

(** *** The comparison of schedulers *)

Lemma string_compare_refl (s : string) : String.compare s s = Eq.
Proof. apply OrderedTypeEx.String_as_OT.cmp_eq. reflexivity. Qed.

Lemma string_compare_trans (a b c : string) :
  String.compare a b = Lt -> String.compare b c = Lt -> String.compare a c = Lt.
Proof.
  intros Hab Hbc.
  apply OrderedTypeEx.String_as_OT.cmp_lt.
  apply OrderedTypeEx.String_as_OT.cmp_lt in Hab, Hbc.
  exact (OrderedTypeEx.String_as_OT.lt_trans a b c Hab Hbc).
Qed.

Lemma string_compare_Gt (a b : string) :
  String.compare a b = Gt -> String.compare b a = Lt.
Proof.
  intros H. rewrite String.compare_antisym, H. reflexivity.
Qed.

Lemma string_compare_Lt_neq (a b : string) : String.compare a b = Lt -> a <> b.
Proof. intros H ->. rewrite string_compare_refl in H. discriminate. Qed.

Lemma addAnalyzer_elem (name : string) (a : option Analyzer.t)
      (m : SchedulerComparison.t) (entry : string * option Analyzer.t) :
  entry ∈ SchedulerComparison.addAnalyzer name a m -> entry = (name, a) \/ entry ∈ m.
Proof.
  induction m as [|[k v] rest IH]; cbn [SchedulerComparison.addAnalyzer].
  - intros H. apply list_elem_of_singleton in H. left. exact H.
  - destruct (String.compare name k).
    + intros H. apply elem_of_cons in H as [H|H]; [left; exact H|].
      right. right. exact H.
    + intros H. apply elem_of_cons in H as [H|H]; [left; exact H|]. right. exact H.
    + intros H. apply elem_of_cons in H as [H|H];
        [right; apply elem_of_cons; left; exact H|].
      destruct (IH H) as [H'|H']; [left; exact H'|right; right; exact H'].
Qed.

Lemma addAnalyzer_ascending (name : string) (a : option Analyzer.t)
      (m : SchedulerComparison.t) :
  SchedulerComparison.ascending m ->
  SchedulerComparison.ascending (SchedulerComparison.addAnalyzer name a m).
Proof.
  induction m as [|[k v] rest IH]; cbn [SchedulerComparison.addAnalyzer].
  - intros _. split; [constructor|exact I].
  - intros [Habove Hrest].
    destruct (String.compare name k) eqn:Hcmp.
    + apply String.compare_eq_iff in Hcmp. subst k. split; assumption.
    + split; [|split; assumption].
      constructor; [exact Hcmp|].
      eapply Forall_impl; [exact Habove|]. intros e He.
      exact (string_compare_trans name k e.1 Hcmp He).
    + split; [|apply IH, Hrest].
      apply Forall_forall. intros e He.
      destruct (addAnalyzer_elem name a rest e He) as [->|He'].
      * apply string_compare_Gt, Hcmp.
      * rewrite Forall_forall in Habove. apply Habove, He'.
Qed.

Lemma addAnalyzer_lookup (name : string) (a : option Analyzer.t)
      (m : SchedulerComparison.t) (name' : string) (a' : option Analyzer.t) :
  SchedulerComparison.ascending m ->
  (name', a') ∈ SchedulerComparison.addAnalyzer name a m <->
  (name' = name /\ a' = a) \/ (name' <> name /\ (name', a') ∈ m).
Proof.
  induction m as [|[k v] rest IH]; cbn [SchedulerComparison.addAnalyzer].
  - intros _. rewrite list_elem_of_singleton. split.
    + intros [= -> ->]. left. auto.
    + intros [[-> ->]|[_ H]]; [reflexivity|inversion H].
  - intros [Habove Hrest]. rewrite Forall_forall in Habove.
    destruct (String.compare name k) eqn:Hcmp.
    + apply String.compare_eq_iff in Hcmp. subst k.
      rewrite !elem_of_cons. split.
      * intros [[= -> ->]|H]; [left; auto|].
        right. split; [|right; exact H].
        intros ->. exact (string_compare_Lt_neq _ _ (Habove _ H) eq_refl).
      * intros [[-> ->]|[Hne [[= Heq _]|H]]]; [left; reflexivity|contradiction|].
        right. exact H.
    + rewrite !elem_of_cons. split.
      * intros [[= -> ->]|[[= -> ->]|H]]; [left; auto| |].
        -- right. split; [|left; reflexivity].
           intros ->. rewrite string_compare_refl in Hcmp. discriminate.
        -- right. split; [|right; exact H].
           intros ->.
           exact (string_compare_Lt_neq _ _
                    (string_compare_trans _ _ _ Hcmp (Habove _ H)) eq_refl).
      * intros [[-> ->]|[Hne H]]; [left; reflexivity|].
        right. exact H.
    + rewrite !elem_of_cons, (IH Hrest). split.
      * intros [[= -> ->]|[[-> ->]|[Hne H]]].
        -- right. split; [|left; reflexivity].
           intros ->. rewrite string_compare_refl in Hcmp. discriminate.
        -- left. auto.
        -- right. split; [exact Hne|right; exact H].
      * intros [[-> ->]|[Hne [[= -> ->]|H]]].
        -- right. left. auto.
        -- left. reflexivity.
        -- right. right. split; [exact Hne|exact H].
Qed.

Lemma ascending_lookup (m : SchedulerComparison.t) :
  SchedulerComparison.ascending m ->
  forall i j ei ej, (i < j)%nat -> m !! i = Some ei -> m !! j = Some ej ->
                    String.compare ei.1 ej.1 = Lt.
Proof.
  induction m as [|[k v] rest IH]; intros Hasc i j ei ej Hij Hi Hj; [discriminate|].
  destruct Hasc as [Habove Hrest]. rewrite Forall_forall in Habove.
  destruct j as [|j]; [lia|]. cbn [lookup list_lookup] in Hj.
  destruct i as [|i]; cbn [lookup list_lookup] in Hi.
  - injection Hi as <-. apply Habove. eapply list_elem_of_lookup_2, Hj.
  - apply (IH Hrest i j); [lia|exact Hi|exact Hj].
Qed.

(** X25.  The map of [SchedulerComparison] after any sequence of
    [addAnalyzer]: it holds one entry for each name that was added, with
    the analyzer of the last call under that name (an earlier analyzer of
    the name is dropped), and iterates over the entries by strictly
    ascending name, in the order of [std::string]. *)
Theorem addAnalyzer_map (calls : list (string * option Analyzer.t)) :
  let m := fold_left (fun m call => SchedulerComparison.addAnalyzer call.1 call.2 m)
                     calls SchedulerComparison.new in
  (forall name a, (name, a) ∈ m <-> SchedulerComparison.last_added name calls = Some a) /\
  (forall i j ei ej, (i < j)%nat -> m !! i = Some ei -> m !! j = Some ej ->
                     String.ltb ei.1 ej.1 = true) /\
  NoDup (map fst m).
Proof.
  cbn zeta.
  assert (Hinv :
            SchedulerComparison.ascending
              (fold_left (fun m call => SchedulerComparison.addAnalyzer call.1 call.2 m)
                         calls SchedulerComparison.new) /\
            forall name a,
              (name, a) ∈ fold_left (fun m call =>
                                       SchedulerComparison.addAnalyzer call.1 call.2 m)
                                    calls SchedulerComparison.new <->
              SchedulerComparison.last_added name calls = Some a).
  { induction calls as [|[n0 a0] calls IH] using rev_ind.
    - split; [exact I|]. intros name a. split; [intros H; inversion H|discriminate].
    - destruct IH as [Hasc Hmem].
      unfold SchedulerComparison.last_added in *.
      split.
      { rewrite fold_left_app. cbn [fold_left fst snd].
        apply addAnalyzer_ascending, Hasc. }
      intros name a. rewrite !fold_left_app. cbn [fold_left fst snd].
      rewrite (addAnalyzer_lookup n0 a0 _ name a Hasc), Hmem.
      destruct (String.eqb_spec n0 name) as [->|Hne].
      + split.
        * intros [[_ ->]|[Hne _]]; [reflexivity|contradiction].
        * intros [= ->]. left. auto.
      + split.
        * intros [[-> _]|[_ H]]; [contradiction|exact H].
        * intros H. right. split; [congruence|exact H]. }
  destruct Hinv as [Hasc Hmem].
  set (m := fold_left _ calls SchedulerComparison.new) in *.
  split; [exact Hmem|]. split.
  - intros i j ei ej Hij Hi Hj. unfold String.ltb.
    rewrite (ascending_lookup m Hasc i j ei ej Hij Hi Hj). reflexivity.
  - apply NoDup_alt. intros i j name Hi Hj.
    rewrite list_lookup_fmap in Hi, Hj.
    apply fmap_Some in Hi as (ei & Hei & Hi).
    apply fmap_Some in Hj as (ej & Hej & Hj).
    destruct (Nat.lt_trichotomy i j) as [Hlt|[Heq|Hgt]]; [|exact Heq|].
    + pose proof (ascending_lookup m Hasc i j ei ej Hlt Hei Hej) as Hcmp.
      rewrite <- Hi, <- Hj, string_compare_refl in Hcmp. discriminate.
    + pose proof (ascending_lookup m Hasc j i ej ei Hgt Hej Hei) as Hcmp.
      rewrite <- Hi, <- Hj, string_compare_refl in Hcmp. discriminate.
Qed.

Lemma SFltb_SFleb_trans (a b c : spec_float) :
  SFltb a b = true -> SFleb b c = true -> SFltb a c = true.
Proof.
  unfold SFltb, SFleb.
  destruct a as [sa|sa| |sa ma ea], b as [sb|sb| |sb mb eb], c as [sc|sc| |sc mc ec];
    simpl; try discriminate;
    try (destruct sa; simpl; try discriminate); try (destruct sb; simpl; try discriminate);
    try (destruct sc; simpl; try discriminate); try reflexivity.
  - destruct (match ea ?= eb with Lt => Gt | Gt => Lt | Eq => _ end) eqn:H1; try discriminate.
    destruct (match eb ?= ec with Lt => Gt | Gt => Lt | Eq => _ end) eqn:H2; try discriminate;
      intros _ _; apply lex_neg_lt in H1, H2; (rewrite lex_neg_Lt; [reflexivity|]); lia.
  - destruct (match ea ?= eb with Lt => Lt | Gt => Gt | Eq => _ end) eqn:H1; try discriminate.
    destruct (match eb ?= ec with Lt => Lt | Gt => Gt | Eq => _ end) eqn:H2; try discriminate;
      intros _ _; apply lex_pos_lt in H1, H2; (rewrite lex_pos_Lt; [reflexivity|]); lia.
Qed.

Lemma SFltb_not_nan (a b : spec_float) :
  SFltb a b = true -> a <> S754_nan /\ b <> S754_nan.
Proof.
  unfold SFltb. destruct a, b; simpl; try discriminate; intros _; split; discriminate.
Qed.

(** Below a second value and not above a third that is not below the
    second. *)
Lemma SFltb_below (a b c : spec_float) :
  SFltb a b = true -> SFltb c b = false -> c <> S754_nan -> SFltb a c = true.
Proof.
  intros Hab Hcb Hc.
  apply (SFltb_SFleb_trans a b c Hab).
  apply SFltb_false_SFleb; [exact Hc|apply (SFltb_not_nan a b Hab)|exact Hcb].
Qed.

Lemma eligible_spec (a : Analyzer.t) :
  SchedulerComparison.eligible a = true <->
  Double.ltb (Analyzer.total_execution_time_ms (Analyzer.getGPUMetrics a))
             SchedulerComparison.DBL_MAX = true /\
  Double.ltb Double.zero
             (Analyzer.total_execution_time_ms (Analyzer.getGPUMetrics a)) = true.
Proof. unfold SchedulerComparison.eligible. apply andb_true_iff. Qed.

Lemma best_so_far_step (pre : list (string * Analyzer.t)) (best : Double.t * string)
      (name : string) (a : Analyzer.t) :
  SchedulerComparison.best_so_far pre best ->
  exists best',
    SchedulerComparison.getBestScheduler_body best (name, Some a) = Some best' /\
    SchedulerComparison.best_so_far (pre ++ [(name, a)]) best'.
Proof.
  unfold SchedulerComparison.getBestScheduler_body. cbn [fst snd mbind option_bind].
  set (time := Analyzer.total_execution_time_ms (Analyzer.getGPUMetrics a)).
  intros [[Hnone ->]|(i & n & b & Hi & -> & Hb & Hbest)]; cbn [fst snd].
  - (* nothing chosen so far *)
    change (Double.ltb time SchedulerComparison.DBL_MAX && Double.ltb Double.zero time)
      with (SchedulerComparison.eligible a).
    destruct (SchedulerComparison.eligible a) eqn:Ha.
    + eexists. split; [reflexivity|]. right.
      exists (length pre), name, a.
      split; [apply list_lookup_middle; reflexivity|]. split; [reflexivity|].
      split; [exact Ha|].
      intros j n' a' Hj Ha'.
      destruct (lookup_app_Some pre [(name, a)] j (n', a')) as [Hcases _].
      destruct (Hcases Hj) as [Hpre|[Hge Hlast]].
      * rewrite Forall_forall in Hnone.
        pose proof (Hnone _ (list_elem_of_lookup_2 _ _ _ Hpre)) as Hno.
        cbn [snd] in Hno. rewrite Hno in Ha'. discriminate.
      * apply list_lookup_singleton_Some in Hlast as [_ [= <- <-]].
        split; [apply SFltb_irrefl|lia].
    + eexists. split; [reflexivity|]. left. split; [|reflexivity].
      apply Forall_app. split; [exact Hnone|]. apply Forall_singleton. exact Ha.
  - (* an entry was chosen *)
    set (best_time := Analyzer.total_execution_time_ms (Analyzer.getGPUMetrics b)) in *.
    apply eligible_spec in Hb as [Hb_max Hb_pos]. fold best_time in Hb_max, Hb_pos.
    assert (Hi_lt : (i < length pre)%nat) by (eapply lookup_lt_Some, Hi).
    destruct (Double.ltb time best_time && Double.ltb Double.zero time) eqn:Htest.
    + apply andb_true_iff in Htest as [Hlt Hpos].
      eexists. split; [reflexivity|]. right.
      exists (length pre), name, a.
      split; [apply list_lookup_middle; reflexivity|]. split; [reflexivity|].
      split.
      { apply eligible_spec. fold time. split; [|exact Hpos].
        exact (SFltb_trans _ _ _ Hlt Hb_max). }
      intros j n' a' Hj Ha'.
      destruct (lookup_app_Some pre [(name, a)] j (n', a')) as [Hcases _].
      destruct (Hcases Hj) as [Hpre|[Hge Hlast]].
      * destruct (Hbest j n' a' Hpre Ha') as [Hnot _].
        set (time' := Analyzer.total_execution_time_ms (Analyzer.getGPUMetrics a')) in *.
        fold time. split.
        -- destruct (Double.ltb time' time) eqn:Hcmp; [|reflexivity].
           unfold Double.ltb in *.
           rewrite (SFltb_trans _ _ _ Hcmp Hlt) in Hnot. discriminate.
        -- intros _. apply eligible_spec in Ha' as [_ Hpos']. fold time' in Hpos'.
           unfold Double.ltb in *.
           apply (SFltb_below time best_time time' Hlt Hnot).
           apply (SFltb_not_nan _ _ Hpos').
      * apply list_lookup_singleton_Some in Hlast as [_ [= <- <-]].
        split; [apply SFltb_irrefl|lia].
    + eexists. split; [reflexivity|]. right.
      exists i, n, b.
      split; [apply lookup_app_l_Some; exact Hi|]. split; [reflexivity|].
      split; [apply eligible_spec; auto|].
      intros j n' a' Hj Ha'.
      destruct (lookup_app_Some pre [(name, a)] j (n', a')) as [Hcases _].
      destruct (Hcases Hj) as [Hpre|[Hge Hlast]].
      * exact (Hbest j n' a' Hpre Ha').
      * apply list_lookup_singleton_Some in Hlast as [_ [= <- <-]].
        apply eligible_spec in Ha' as [_ Hpos']. fold time in Hpos'.
        rewrite Hpos', andb_true_r in Htest. fold best_time.
        split; [exact Htest|lia].
Qed.

Lemma getBestScheduler_loop_spec (post pre : list (string * Analyzer.t))
      (best : Double.t * string) :
  SchedulerComparison.best_so_far pre best ->
  exists best',
    SchedulerComparison.getBestScheduler_loop
      (map (fun entry => (entry.1, Some entry.2)) post) best = Some best' /\
    SchedulerComparison.best_so_far (pre ++ post) best'.
Proof.
  revert pre best. induction post as [|[name a] post IH]; intros pre best Hbest.
  - exists best. rewrite app_nil_r. split; [reflexivity|exact Hbest].
  - destruct (best_so_far_step pre best name a Hbest) as (best1 & Hstep & Hbest1).
    destruct (IH (pre ++ [(name, a)]) best1 Hbest1) as (best' & Hloop & Hbest').
    exists best'. cbn [map SchedulerComparison.getBestScheduler_loop fst snd].
    rewrite Hstep. cbn [mbind option_bind]. rewrite Hloop.
    rewrite <- app_assoc in Hbest'. split; [reflexivity|exact Hbest'].
Qed.

Lemma getBestScheduler_loop_None (m : SchedulerComparison.t) (best : Double.t * string) :
  SchedulerComparison.getBestScheduler_loop m best = None <->
  exists name, (name, None) ∈ m.
Proof.
  revert best. induction m as [|[name a] m IH]; intros best;
    cbn [SchedulerComparison.getBestScheduler_loop].
  - split; [discriminate|]. intros [name H]. inversion H.
  - destruct a as [a|].
    + unfold SchedulerComparison.getBestScheduler_body. cbn [fst snd mbind option_bind].
      destruct (_ && _); cbn [mbind option_bind]; rewrite IH; split.
      * intros [n H]. exists n. right. exact H.
      * intros [n H]. apply elem_of_cons in H as [H|H]; [discriminate|eauto].
      * intros [n H]. exists n. right. exact H.
      * intros [n H]. apply elem_of_cons in H as [H|H]; [discriminate|eauto].
    + split; [|reflexivity]. intros _. exists name. left.
Qed.

(** X26.  [getBestScheduler] returns ["None"] for an empty map and
    dereferences every analyzer of a map that is not empty, so that it is
    defined exactly when none of them is null.  It then returns the empty
    string when no analyzer has a total time that is positive and below
    the largest [double]; otherwise the name of an analyzer of least total
    time among those, the first such in the order of iteration: no
    analyzer that can be chosen is faster, and those before it are
    strictly slower. *)
Theorem getBestScheduler_spec (m : SchedulerComparison.t) :
  (m = [] -> SchedulerComparison.getBestScheduler m = Some "None") /\
  (m <> [] ->
   (SchedulerComparison.getBestScheduler m = None <-> exists name, (name, None) ∈ m)) /\
  forall entries : list (string * Analyzer.t),
    entries <> [] ->
    m = map (fun entry => (entry.1, Some entry.2)) entries ->
    (Forall (fun entry => SchedulerComparison.eligible entry.2 = false) entries /\
     SchedulerComparison.getBestScheduler m = Some "") \/
    (exists i name a,
        entries !! i = Some (name, a) /\
        SchedulerComparison.getBestScheduler m = Some name /\
        SchedulerComparison.eligible a = true /\
        forall j name' a',
          entries !! j = Some (name', a') ->
          SchedulerComparison.eligible a' = true ->
          Double.ltb (Analyzer.total_execution_time_ms (Analyzer.getGPUMetrics a'))
                     (Analyzer.total_execution_time_ms (Analyzer.getGPUMetrics a))
          = false /\
          ((j < i)%nat ->
           Double.ltb (Analyzer.total_execution_time_ms (Analyzer.getGPUMetrics a))
                      (Analyzer.total_execution_time_ms (Analyzer.getGPUMetrics a'))
           = true)).
Proof.
  split; [intros ->; reflexivity|]. split.
  - intros Hne. destruct m as [|e m]; [contradiction|].
    unfold SchedulerComparison.getBestScheduler.
    rewrite <- getBestScheduler_loop_None with (best := (SchedulerComparison.DBL_MAX, "")).
    destruct (SchedulerComparison.getBestScheduler_loop _ _); simpl; split;
      congruence.
  - intros entries Hne ->.
    destruct (getBestScheduler_loop_spec entries [] (SchedulerComparison.DBL_MAX, ""))
      as (best' & Hloop & Hbest).
    { left. split; [constructor|reflexivity]. }
    cbn [app] in Hbest.
    assert (Hresult : SchedulerComparison.getBestScheduler
                        (map (fun entry => (entry.1, Some entry.2)) entries)
                      = Some best'.2).
    { unfold SchedulerComparison.getBestScheduler.
      destruct entries as [|e entries]; [contradiction|].
      cbn [map] in Hloop |- *. rewrite Hloop. reflexivity. }
    destruct Hbest as [[Hnone ->]|(i & name & a & Hi & -> & Ha & Hbest)].
    + left. split; [exact Hnone|exact Hresult].
    + right. exists i, name, a. split; [exact Hi|]. split; [exact Hresult|].
      split; [exact Ha|exact Hbest].
Qed.

Lemma getBestScheduler_spec_witness :
  SchedulerComparison.getBestScheduler
    [("FIFO"%string,
      Some (Analyzer.run 1000 Analyzer.new
              [Analyzer.StartSimulation 0; Analyzer.EndSimulation 5000000]));
     ("Priority"%string,
      Some (Analyzer.run 1000 Analyzer.new
              [Analyzer.StartSimulation 0; Analyzer.EndSimulation 3000000]))]
  = Some "Priority"%string.
Proof.
  destruct (proj2 (proj2 (getBestScheduler_spec _))
              [("FIFO"%string,
                Analyzer.run 1000 Analyzer.new
                  [Analyzer.StartSimulation 0; Analyzer.EndSimulation 5000000]);
               ("Priority"%string,
                Analyzer.run 1000 Analyzer.new
                  [Analyzer.StartSimulation 0; Analyzer.EndSimulation 3000000])]
              ltac:(discriminate) eq_refl)
    as [[Hnone _]|(i & name & a & Hi & Hbest & _ & Hleast)].
  - apply Forall_cons in Hnone as [Hfirst _]. vm_compute in Hfirst. discriminate.
  - destruct i as [|[|i]]; [| |discriminate].
    + injection Hi as <- <-.
      destruct (Hleast 1%nat "Priority"%string
                  (Analyzer.run 1000 Analyzer.new
                     [Analyzer.StartSimulation 0; Analyzer.EndSimulation 3000000])
                  eq_refl ltac:(vm_compute; reflexivity)) as [Hnot _].
      vm_compute in Hnot. discriminate.
    + injection Hi as <- <-. exact Hbest.
Defined.

(** X27.  The total time of an analyzer is counted in whole milliseconds,
    and [getBestScheduler] only chooses among positive times: an analyzer
    whose simulation was never ended since the last [reset], or ended less
    than a millisecond after it was started, has a total time of zero and
    cannot be chosen. *)
Theorem short_simulation_not_eligible (ticks_per_microsecond : Z)
        (ops : list Analyzer.op) :
  0 < ticks_per_microsecond ->
  match Analyzer.simulated_ticks ops with
  | None => True
  | Some ticks => Z.abs ticks < ticks_per_microsecond * 1000
  end ->
  let a := Analyzer.run ticks_per_microsecond Analyzer.new ops in
  Analyzer.total_execution_time_ms (Analyzer.getGPUMetrics a) = Double.zero /\
  SchedulerComparison.eligible a = false.
Proof.
  intros Hpos Hshort a.
  destruct (analyzer_run_invariant ticks_per_microsecond ops) as (_ & _ & Htime).
  cbn zeta in Htime. fold a in Htime.
  assert (Hzero : Analyzer.total_execution_time_ms (Analyzer.getGPUMetrics a)
                  = Double.zero).
  { unfold Analyzer.getGPUMetrics. rewrite Htime.
    destruct (Analyzer.simulated_ticks ops) as [ticks|]; [|reflexivity].
    replace (Z.quot ticks (ticks_per_microsecond * 1000)) with 0; [reflexivity|].
    symmetry. apply Z.quot_small_iff; lia. }
  split; [exact Hzero|].
  unfold SchedulerComparison.eligible. rewrite Hzero. reflexivity.
Qed.

Lemma short_simulation_not_eligible_witness :
  SchedulerComparison.eligible
    (Analyzer.run 1000 Analyzer.new
       [Analyzer.StartSimulation 5000; Analyzer.EndSimulation 904999])
  = false.
Proof.
  apply (proj2 (short_simulation_not_eligible 1000
                  [Analyzer.StartSimulation 5000; Analyzer.EndSimulation 904999]
                  ltac:(lia) ltac:(vm_compute; reflexivity))).
Defined.

(** *** The sign of a rounded quotient *)

Section Sign.
Variables prec emax : Z.

Lemma binary_round_aux_sign (sx : bool) (mx ex : Z) (lx : location) :
0 <= mx ->
match binary_round_aux prec emax sx mx ex lx with
| S754_zero s | S754_infinity s | S754_finite s _ _ => s = sx
| S754_nan => False
end.
Proof.
intros H. unfold binary_round_aux.
pose proof (shr_fexp_nonneg prec emax mx ex lx H) as H1.
destruct (shr_fexp prec emax mx ex lx) as [mrs' e']. simpl in H1.
pose proof (shr_fexp_nonneg prec emax _ e' loc_Exact
              (round_nearest_even_nonneg (shr_m mrs') (loc_of_shr_record mrs') H1)) as H2.
destruct (shr_fexp prec emax _ e' loc_Exact) as [mrs'' e'']. simpl in H2.
destruct (shr_m mrs''); try reflexivity; try lia.
destruct (_ <=? _); reflexivity.
Qed.

Lemma binary_normalize_nonneg (m e : Z) :
0 <= m ->
match binary_normalize prec emax m e false with
| S754_zero s | S754_infinity s | S754_finite s _ _ => s = false
| S754_nan => False
end.
Proof.
intros Hm. unfold binary_normalize, binary_round.
destruct m as [|p|p]; [reflexivity| |lia].
destruct (shl_align p e _) as [mz ez]. apply binary_round_aux_sign. lia.
Qed.

Lemma SFdiv_nonneg (x : spec_float) (my : positive) (ey : Z) :
match x with
| S754_zero s | S754_infinity s | S754_finite s _ _ => s = false
| S754_nan => False
end ->
match SFdiv prec emax x (S754_finite false my ey) with
| S754_zero s | S754_infinity s | S754_finite s _ _ => s = false
| S754_nan => False
end.
Proof.
destruct x as [sx|sx| |sx mx ex]; simpl; try (intros ->; reflexivity); [tauto|].
intros ->. unfold SFdiv_core_binary.
set (m' := match _ - _ with Z0 => _ | Zpos _ => _ | Zneg _ => _ end).
assert (Hm' : 0 <= m').
{ subst m'. destruct (_ - _); try lia. apply Z.shiftl_nonneg. lia. }
pose proof (Z_div_mod m' (Zpos my) ltac:(lia)) as Hdiv.
destruct (Z.div_eucl m' (Z.pos my)) as [q r].
apply (binary_round_aux_sign false). nia.
Qed.

End Sign.

Lemma SFltb_zero_nonneg (x : spec_float) :
  match x with
  | S754_zero s | S754_infinity s | S754_finite s _ _ => s = false
  | S754_nan => False
  end ->
  SFltb x (S754_zero false) = false.
Proof.
  destruct x as [s|s| |s m e]; simpl; try tauto; intros ->; reflexivity.
Qed.

(** X28.  The execution time of a workload is zero until [complete] is
    called, whatever [start] read.  After [start] and [complete] it is the
    number of whole microseconds between the two readings of the clock,
    divided by [1000.0]: never a NaN, and never negative when the clock did
    not go backwards between the two calls.  A [complete] without [start]
    measures from the epoch of the clock. *)
Theorem getExecutionTime_spec (ticks_per_microsecond : Z) (w : Workload.t)
        (started completed : Z) :
  0 < ticks_per_microsecond ->
  Workload.completed_ w = false ->
  let running := Workload.start started w in
  let done := Workload.complete completed running in
  Workload.getExecutionTime ticks_per_microsecond w = Double.zero /\
  Workload.getExecutionTime ticks_per_microsecond running = Double.zero /\
  Workload.getExecutionTime ticks_per_microsecond done
  = Double.div
      (Double.of_integer (Z.quot (completed - started) ticks_per_microsecond))
      (Double.of_integer 1000) /\
  Workload.getExecutionTime ticks_per_microsecond done <> S754_nan /\
  (started <= completed ->
   Double.ltb (Workload.getExecutionTime ticks_per_microsecond done) Double.zero
   = false) /\
  Workload.getExecutionTime ticks_per_microsecond (Workload.complete completed w)
  = Double.div
      (Double.of_integer
         (Z.quot (completed - Workload.start_time_ w) ticks_per_microsecond))
      (Double.of_integer 1000).
Proof.
  intros Hpos Hnot running done.
  split; [unfold Workload.getExecutionTime; rewrite Hnot; reflexivity|].
  split; [unfold Workload.getExecutionTime; simpl; rewrite Hnot; reflexivity|].
  split; [reflexivity|].
  split; [apply getExecutionTime_not_nan|].
  split; [|reflexivity].
  intros Hle.
  change (Workload.getExecutionTime ticks_per_microsecond done)
    with (Double.div
            (Double.of_integer (Z.quot (completed - started) ticks_per_microsecond))
            (Double.of_integer 1000)).
  unfold Double.ltb, Double.zero, Double.div.
  change (Double.of_integer 1000) with (S754_finite false 8796093022208000 (-43)).
  apply SFltb_zero_nonneg, SFdiv_nonneg.
  apply binary_normalize_nonneg.
  apply Z.quot_pos; lia.
Qed.

Lemma getExecutionTime_spec_witness :
  Double.ltb
    (Workload.getExecutionTime 1000
       (Workload.complete 2500000 (Workload.start 1000 (Workload.createVectorAdd 1024))))
    Double.zero
  = false.
Proof.
  apply (proj1 (proj2 (proj2 (proj2 (proj2
           (getExecutionTime_spec 1000 (Workload.createVectorAdd 1024) 1000 2500000
              ltac:(lia) ltac:(reflexivity))))))).
  lia.
Defined.

(** X29.  A block of more than 2048 threads can never run.  Built for [n]
    threads, with [2048 < n] and [n + 32] representable, a block has more
    than 64 warps; such a block is refused by every compute unit in every
    state the unit reaches from its construction, [assignBlock] returns
    false and leaves the unit as it was, and the loop in which the
    distributor looks for a compute unit leaves [assigned] false whatever
    the states of the units. *)
Theorem oversized_block_never_accepted :
  (forall (bid n : Z) (base : nat) (σ : ComputeUnit.world),
      2048 < n -> n + 32 <= 2 ^ 64 ->
      64 < ThreadBlock.getNumWarps (ThreadBlock.new bid n) /\
      ThreadBlock.getNumWarps (ComputeUnit.place base (ThreadBlock.new bid n) σ).1
      = ThreadBlock.getNumWarps (ThreadBlock.new bid n)) /\
  (forall (σ σ' : ComputeUnit.world) (cu : ComputeUnit.t) (b : ThreadBlock.t WarpPtr),
      ComputeUnitRun.reachable σ cu ->
      64 < ThreadBlock.getNumWarps b < 2 ^ 63 ->
      ComputeUnit.canAcceptBlock (Some b) cu = false /\
      ComputeUnit.assignBlock σ' (Some b) cu = Some (false, cu)) /\
  (forall (σ' : ComputeUnit.world) (cus : list ComputeUnit.t) (b : ThreadBlock.t WarpPtr),
      Forall (fun cu => exists σ, ComputeUnitRun.reachable σ cu) cus ->
      64 < ThreadBlock.getNumWarps b < 2 ^ 63 ->
      GPUDevice.first_fit σ' b cus = Some (false, cus)).
Proof.
  assert (Hrefuse : forall (σ : ComputeUnit.world) (cu : ComputeUnit.t)
                           (b : ThreadBlock.t WarpPtr),
             ComputeUnitRun.reachable σ cu ->
             64 < ThreadBlock.getNumWarps b < 2 ^ 63 ->
             ComputeUnit.canAcceptBlock (Some b) cu = false).
  { intros σ cu b Hreach Hb.
    pose proof (reachable_consistent σ cu Hreach) as Hcons.
    destruct (ComputeUnitRun.limits _ _ Hcons) as (_ & Hmw & _).
    destruct (ComputeUnitRun.within_limits _ _ Hcons) as [_ Htot].
    pose proof (warp_total_nonneg (ComputeUnit.active_blocks_ cu)) as Hnn.
    destruct (ComputeUnit.canAcceptBlock (Some b) cu) eqn:Hacc; [|reflexivity].
    apply canAcceptBlock_iff in Hacc; [|lia]. lia. }
  split; [|split].
  - intros bid n base σ Hn Hfit.
    destruct (ThreadBlock_new_warps bid n ltac:(lia) Hfit) as [Hnum _].
    pose proof (ceil_div_spec n 32 ltac:(lia)) as Hceil.
    split; [rewrite Hnum; lia|].
    destruct (place_spec base (ThreadBlock.new bid n) σ) as (Hbw & _).
    cbn zeta in Hbw. unfold ThreadBlock.getNumWarps at 1.
    unfold ThreadBlock.getWarps in Hbw. rewrite Hbw, length_seq. reflexivity.
  - intros σ σ' cu b Hreach Hb.
    pose proof (Hrefuse σ cu b Hreach Hb) as Hacc.
    split; [exact Hacc|]. unfold ComputeUnit.assignBlock. rewrite Hacc. reflexivity.
  - intros σ' cus b Hcus Hb.
    pose proof (first_accepting_spec b cus) as Hspec.
    pose proof (first_fit_eq σ' b cus) as Hfit.
    destruct (GPUDevice.first_accepting b cus) as [i|]; [|exact Hfit].
    destruct Hspec as (cu & Hi & Hacc & _).
    rewrite Forall_forall in Hcus.
    destruct (Hcus cu (list_elem_of_lookup_2 _ _ _ Hi)) as [σ Hreach].
    rewrite (Hrefuse σ cu b Hreach Hb) in Hacc. discriminate.
Qed.

Lemma oversized_block_never_accepted_witness :
  ComputeUnit.canAcceptBlock
    (Some (ComputeUnit.place 1 (ThreadBlock.new 0 2049) Fixture.empty_world).1)
    Fixture.idle_cu
  = false.
Proof.
  destruct (proj1 oversized_block_never_accepted 0 2049 1%nat Fixture.empty_world
              ltac:(lia) ltac:(lia)) as [Hmany Hplaced].
  destruct (ThreadBlock_new_warps 0 2049 ltac:(lia) ltac:(lia)) as [Hnum _].
  apply (proj1 (proj2 oversized_block_never_accepted)
           Fixture.empty_world Fixture.empty_world).
  - apply (reachable_new Fixture.controller 0 0). vm_compute. discriminate.
  - rewrite Hplaced. split; [exact Hmany|]. rewrite Hnum. vm_compute. reflexivity.
Defined.

(** *** A workload submitted twice *)

Lemma set_thread_blocks_same (w : Workload.t) :
  Workload.set_thread_blocks (Workload.thread_blocks_ w) w = w.
Proof. destruct w; reflexivity. Qed.

Lemma hand_out_all (bs : list (ThreadBlock.t Warp.t)) :
  forall (fuel : nat) (w : Workload.t),
    Workload.thread_blocks_ w = bs -> (length bs <= fuel)%nat ->
    Submission.hand_out fuel w = (reverse bs, Workload.set_thread_blocks [] w).
Proof.
  induction bs as [|b bs IH] using rev_ind; intros fuel w Hw Hfuel.
  - assert (Hsame : Workload.set_thread_blocks [] w = w)
      by (rewrite <- Hw; apply set_thread_blocks_same).
    rewrite Hsame.
    destruct fuel as [|fuel]; [reflexivity|].
    cbn [Submission.hand_out]. unfold Workload.hasMoreBlocks. rewrite Hw. reflexivity.
  - rewrite length_app in Hfuel. simpl in Hfuel.
    destruct fuel as [|fuel]; [lia|].
    cbn [Submission.hand_out]. unfold Workload.hasMoreBlocks. rewrite Hw.
    destruct (bs ++ [b]) as [|x l] eqn:Hne; [destruct bs; discriminate|].
    rewrite <- Hne in *. clear Hne x l. cbn [negb].
    rewrite (getNextBlock_snoc w bs b Hw).
    rewrite (IH fuel (Workload.set_thread_blocks bs w)).
    + rewrite reverse_app. destruct w; reflexivity.
    + apply set_thread_blocks_fields.
    + lia.
Qed.

Lemma update_same (p : Scheduler.WorkloadPtr) (w : Workload.t) (heap : Scheduler.Store) :
  Submission.update p w heap p = w.
Proof. unfold Submission.update. rewrite Nat.eqb_refl. reflexivity. Qed.

Lemma delete_replicate {A} (x : A) (n i : nat) :
  (i < S n)%nat -> delete i (replicate (S n) x) = replicate n x.
Proof.
  revert i. induction n as [|n IH]; intros [|i] Hi; try reflexivity; try lia.
  change (x :: delete i (replicate (S n) x) = x :: replicate n x).
  rewrite IH by lia. reflexivity.
Qed.

(** One service of a workload whose address is pending: all its blocks are
    handed out, last generated first, and the workload is left completed,
    without a block, with the two readings of the clock. *)
Lemma iteration_serves (started completed : Z) (heap : Scheduler.Store)
      (s : Scheduler.t) (p : Scheduler.WorkloadPtr) (n : nat) :
  Scheduler.pending_workloads_ s = replicate (S n) p ->
  Scheduler.running_workloads_ s = [] ->
  exists heap' s',
    Submission.iteration started completed (heap, s)
    = (Some p, reverse (Workload.thread_blocks_ (heap p)), (heap', s')) /\
    Scheduler.pending_workloads_ s' = replicate n p /\
    Scheduler.running_workloads_ s' = [] /\
    Scheduler.completed_workloads_ s' = Scheduler.completed_workloads_ s ++ [p] /\
    Scheduler.algorithm_ s' = Scheduler.algorithm_ s /\
    Workload.thread_blocks_ (heap' p) = [] /\
    Workload.completed_ (heap' p) = true /\
    Workload.start_time_ (heap' p) = started /\
    Workload.end_time_ (heap' p) = completed /\
    (forall q, q <> p -> heap' q = heap q).
Proof.
  intros Hpending Hrunning.
  destruct (getNextWorkload_nonempty heap s) as (i & w & index & Hi & Hnext).
  { rewrite Hpending. discriminate. }
  assert (Hw : w = p).
  { rewrite Hpending in Hi. apply list_elem_of_lookup_2 in Hi.
    apply elem_of_replicate in Hi. apply Hi. }
  subst w.
  unfold Submission.iteration. rewrite Hnext.
  rewrite (hand_out_all (Workload.thread_blocks_ (heap p)) _
             (Workload.start started (heap p)) eq_refl)
    by (simpl; lia).
  eexists _, _. split; [reflexivity|].
  assert (Hdel : delete i (replicate (S n) p) = replicate n p).
  { apply delete_replicate.
    apply lookup_lt_Some in Hi. rewrite Hpending, length_replicate in Hi. exact Hi. }
  unfold Scheduler.markWorkloadCompleted, Scheduler.dispatch.
  cbn [Scheduler.running_workloads_ Scheduler.pending_workloads_
       Scheduler.completed_workloads_ Scheduler.algorithm_].
  rewrite Hrunning, Hpending. cbn [app].
  assert (Hfind : Std.find p [p] = Some 0%nat).
  { unfold Std.find. simpl. rewrite decide_True by reflexivity. reflexivity. }
  rewrite Hfind.
  cbn [Scheduler.running_workloads_ Scheduler.pending_workloads_
       Scheduler.completed_workloads_ Scheduler.algorithm_ Std.erase].
  unfold Std.erase. rewrite Hdel.
  split; [reflexivity|]. split; [reflexivity|]. split; [reflexivity|].
  split; [reflexivity|].
  rewrite update_same.
  split; [reflexivity|]. split; [reflexivity|]. split; [reflexivity|].
  split; [reflexivity|].
  intros q Hq. unfold Submission.update.
  destruct (Nat.eqb_spec q p); [contradiction|reflexivity].
Qed.

(** X30.  A workload is one object however often it is submitted.
    Submitting the same pointer twice generates its blocks twice over (the
    second [generateThreadBlocks] replaces the blocks of the first by the
    same blocks) and queues the pointer twice.  Under every policy the
    first service hands out all the blocks, last generated first; the
    second fetches the same workload, finds no block left and hands out
    none, yet counts it as completed a second time, and the execution time
    of the workload is the one of the second, empty, service. *)
Theorem double_submission (algorithm : SchedulingAlgorithm) (heap : Scheduler.Store)
        (p : Scheduler.WorkloadPtr) (t0 t1 t2 t3 ticks_per_microsecond : Z) :
  let st := Submission.submitWorkload (Some p)
              (Submission.submitWorkload (Some p)
                 (heap, Scheduler.createScheduler algorithm)) in
  let generated := Workload.thread_blocks_ (Workload.generateThreadBlocks (heap p)) in
  let first := Submission.iteration t0 t1 st in
  let second := Submission.iteration t2 t3 first.2 in
  Scheduler.pending_workloads_ st.2 = [p; p] /\
  Workload.thread_blocks_ (st.1 p) = generated /\
  first.1 = (Some p, reverse generated) /\
  Workload.hasMoreBlocks (first.2.1 p) = false /\
  Scheduler.pending_workloads_ first.2.2 = [p] /\
  Scheduler.completed_workloads_ first.2.2 = [p] /\
  second.1 = (Some p, []) /\
  Scheduler.hasPendingWorkloads second.2.2 = false /\
  Scheduler.getRunningCount second.2.2 = 0 /\
  Scheduler.completed_workloads_ second.2.2 = [p; p] /\
  Workload.getExecutionTime ticks_per_microsecond (second.2.1 p)
  = Double.div (Double.of_integer (Z.quot (t3 - t2) ticks_per_microsecond))
               (Double.of_integer 1000).
Proof.
  intros st generated first second.
  assert (Hst : st = (st.1, st.2)) by (destruct st; reflexivity).
  assert (Hp1 : Scheduler.pending_workloads_ st.2 = replicate 2 p) by reflexivity.
  assert (Hr1 : Scheduler.running_workloads_ st.2 = []) by reflexivity.
  assert (Hc1 : Scheduler.completed_workloads_ st.2 = []) by reflexivity.
  assert (Hb1 : Workload.thread_blocks_ (st.1 p) = generated).
  { subst st generated. cbn [Submission.submitWorkload fst snd].
    rewrite !update_same, generateThreadBlocks_idempotent. reflexivity. }
  destruct (iteration_serves t0 t1 st.1 st.2 p 1 Hp1 Hr1)
    as (heap2 & s2 & Hfirst & Hp2 & Hr2 & Hc2 & _ & Hb2 & _).
  rewrite <- Hst, Hb1 in Hfirst. rewrite Hc1 in Hc2.
  change (Submission.iteration t0 t1 st) with first in Hfirst.
  destruct (iteration_serves t2 t3 heap2 s2 p 0 Hp2 Hr2)
    as (heap3 & s3 & Hsecond & Hp3 & Hr3 & Hc3 & _ & Hb3 & Hdone3 & Hstart3 & Hend3 & _).
  assert (Hsecond' : second = (Some p, [], (heap3, s3))).
  { subst second. rewrite Hfirst. cbn [snd]. rewrite Hsecond, Hb2. reflexivity. }
  clearbody second first st. subst first second. cbn [fst snd].
  split; [exact Hp1|]. split; [exact Hb1|]. split; [reflexivity|].
  split; [unfold Workload.hasMoreBlocks; rewrite Hb2; reflexivity|].
  split; [exact Hp2|]. split; [exact Hc2|]. split; [reflexivity|].
  split; [unfold Scheduler.hasPendingWorkloads; rewrite Hp3; reflexivity|].
  split; [unfold Scheduler.getRunningCount; rewrite Hr3; reflexivity|].
  split; [rewrite Hc3, Hc2; reflexivity|].
  unfold Workload.getExecutionTime. rewrite Hdone3, Hstart3, Hend3. reflexivity.
Qed.
